(** * AggMetric: the per-series circular chunk buffer of metric_tank

    A shallow embedding of the Go type [AggMetric], of [NewAggMetric] and of
    the methods [GrowNumChunks], [SyncChunkSaveState], [getChunkByT0],
    [getChunk], [GetAggregated], [Get], [addAggregators], [persist], [Add]
    and [GC], followed by the properties of the specification that concern
    them and by further properties of the code.

    Conventions of the embedding.
    - [uint32] values are integers of [Z]; where Go's arithmetic wraps
      around, the wrap is written out ([wrap32]).  Positions in the ring
      are Go [int]s and are integers of [Z] as well.
    - A [*Chunk] held in the ring is identified with its position in
      [Chunks]; the chunks are stored by value.  The store keeps, for each
      request it was handed, the chunk as it was at the time of the call.
    - [clusterStatus.IsPrimary()] is the argument [primary] and
      [time.Now()] the argument [now] of the operations that consult them.
      The clock is read once for a call: the readings the code takes
      within one call (one for each request of [persist]) are all [now],
      and no property is about the [timestamp] of a request.
    - Go panics (explicit ones, indexing out of range, division by zero,
      a method called through a nil chunk) are the result [Panic]; loops
      are run with fuel and [Diverge] is the result of a loop that is
      still running when its fuel is spent. *)

From Stdlib Require Import ZArith Lia PrimFloat.
From stdpp Require Import base list strings sorting relations.

Open Scope Z_scope.

(** ** Machine integers *)

Definition wrap32 (z : Z) : Z := z mod 2 ^ 32.
Definition add32 (x y : Z) : Z := wrap32 (x + y).
Definition sub32 (x y : Z) : Z := wrap32 (x - y).
Definition is_u32 (z : Z) : Prop := 0 <= z < 2 ^ 32.

(** [math.MaxInt32] *)
Definition MaxInt32 : Z := 2147483647.

(** ** Results of operations that may panic or loop *)

Inductive result (A : Type) : Type :=
| Ok (a : A)
| Panic
| Diverge.
Arguments Ok {A} a.
Arguments Panic {A}.
Arguments Diverge {A}.

#[global] Instance result_bind : MBind result := fun A B k r =>
  match r with
  | Ok a => k a
  | Panic => Panic
  | Diverge => Diverge
  end.

(** ** Chunks *)

Definition Point : Type := Z * float.

(** Modelled from the spec: the type [Chunk], its constructor and its
    methods [Push], [Finish] and [Iter] are not part of the sources at hand.
    The fields are those the code reads ([T0], [LastTs], [NumPoints],
    [Saving], [Saved], [LastWrite]); [points] stands for the encoded series
    and [Finished] records that [Finish] was called. *)
Record Chunk : Type := mkChunk {
  T0 : Z;
  LastTs : Z;
  NumPoints : Z;
  Saving : bool;
  Saved : bool;
  LastWrite : Z;
  points : list Point;
  Finished : bool
}.

(** Modelled from the spec: both flags are cleared at construction.  The
    comment on [Add] ("we use 0 to mean not initialized") gives the initial
    [LastTs]. *)
Definition NewChunk (t0 now : Z) : Chunk :=
  {| T0 := t0; LastTs := 0; NumPoints := 0; Saving := false; Saved := false;
     LastWrite := now; points := []; Finished := false |}.

(** Modelled from the spec: [finish()] seals the chunk; [last_write] is the
    wall clock "of most recent accepted push or of finish". *)
Definition Finish (now : Z) (c : Chunk) : Chunk :=
  {| T0 := T0 c; LastTs := LastTs c; NumPoints := NumPoints c;
     Saving := Saving c; Saved := Saved c; LastWrite := now;
     points := points c; Finished := true |}.

Definition setSaving (c : Chunk) : Chunk :=
  {| T0 := T0 c; LastTs := LastTs c; NumPoints := NumPoints c;
     Saving := true; Saved := Saved c; LastWrite := LastWrite c;
     points := points c; Finished := Finished c |}.

Definition setSaved (c : Chunk) : Chunk :=
  {| T0 := T0 c; LastTs := LastTs c; NumPoints := NumPoints c;
     Saving := Saving c; Saved := true; LastWrite := LastWrite c;
     points := points c; Finished := Finished c |}.

(** An accepted push: the point is appended, [LastTs], [NumPoints] and
    [LastWrite] follow. *)
Definition pushed (now : Z) (c : Chunk) (ts : Z) (val : float) : Chunk :=
  {| T0 := T0 c; LastTs := ts; NumPoints := add32 (NumPoints c) 1;
     Saving := Saving c; Saved := Saved c; LastWrite := now;
     points := points c ++ [(ts, val)]; Finished := Finished c |}.

(** The rule of the codec that is used in the scenarios: a point must be
    newer than the points already in the chunk. *)
Definition inOrder (c : Chunk) (ts : Z) (val : float) : bool := LastTs c <? ts.

(** [NewIter(chunk.Iter(), ...)]: an iterator over the points of a chunk. *)
Record Iter : Type := NewIter { iterChunk : Chunk }.

Definition iterPoints (it : Iter) : list Point := points (iterChunk it).

(** ** The store, the aggregators and the counters *)

Record ChunkWriteRequest : Type := mkReq {
  key : string;
  chunk : Chunk;
  ttl : Z;
  timestamp : Z
}.

(** The store is the sequence of the requests passed to [store.Add]. *)
Definition Store : Type := list ChunkWriteRequest.

(** Modelled from the spec: [Aggregator] is not part of the sources at
    hand; an aggregator is its span and the samples it was given. *)
Record Aggregator : Type := mkAggregator {
  span : Z;
  received : list Point
}.

Definition Aggregator_Add (ts : Z) (val : float) (g : Aggregator) : Aggregator :=
  {| span := span g; received := received g ++ [(ts, val)] |}.

Record AggMetric : Type := mkAggMetric {
  store : Store;
  Key : string;
  CurrentChunkPos : Z;
  NumChunks : Z;
  ChunkSpan : Z;
  Chunks : list Chunk;
  aggregators : list Aggregator;
  firstChunkT0 : Z;
  ttl_ : Z
}.

(** The package-level counters [chunkCreate], [chunkClear] and the channel
    [totalPoints], together with the metric they are updated with. *)
Record World : Type := mkWorld {
  metric : AggMetric;
  chunkCreate : Z;
  chunkClear : Z;
  totalPoints : list Z
}.

(** Field updates of [AggMetric]. *)
Definition setChunks (a : AggMetric) (l : list Chunk) : AggMetric :=
  {| store := store a; Key := Key a; CurrentChunkPos := CurrentChunkPos a;
     NumChunks := NumChunks a; ChunkSpan := ChunkSpan a; Chunks := l;
     aggregators := aggregators a; firstChunkT0 := firstChunkT0 a;
     ttl_ := ttl_ a |}.

Definition setCurrentChunkPos (a : AggMetric) (pos : Z) : AggMetric :=
  {| store := store a; Key := Key a; CurrentChunkPos := pos;
     NumChunks := NumChunks a; ChunkSpan := ChunkSpan a; Chunks := Chunks a;
     aggregators := aggregators a; firstChunkT0 := firstChunkT0 a;
     ttl_ := ttl_ a |}.

Definition setNumChunks (a : AggMetric) (n : Z) : AggMetric :=
  {| store := store a; Key := Key a; CurrentChunkPos := CurrentChunkPos a;
     NumChunks := n; ChunkSpan := ChunkSpan a; Chunks := Chunks a;
     aggregators := aggregators a; firstChunkT0 := firstChunkT0 a;
     ttl_ := ttl_ a |}.

Definition setStore (a : AggMetric) (s : Store) : AggMetric :=
  {| store := s; Key := Key a; CurrentChunkPos := CurrentChunkPos a;
     NumChunks := NumChunks a; ChunkSpan := ChunkSpan a; Chunks := Chunks a;
     aggregators := aggregators a; firstChunkT0 := firstChunkT0 a;
     ttl_ := ttl_ a |}.

Definition setFirstChunkT0 (a : AggMetric) (t0 : Z) : AggMetric :=
  {| store := store a; Key := Key a; CurrentChunkPos := CurrentChunkPos a;
     NumChunks := NumChunks a; ChunkSpan := ChunkSpan a; Chunks := Chunks a;
     aggregators := aggregators a; firstChunkT0 := t0; ttl_ := ttl_ a |}.

Definition setAggregators (a : AggMetric) (gs : list Aggregator) : AggMetric :=
  {| store := store a; Key := Key a; CurrentChunkPos := CurrentChunkPos a;
     NumChunks := NumChunks a; ChunkSpan := ChunkSpan a; Chunks := Chunks a;
     aggregators := gs; firstChunkT0 := firstChunkT0 a; ttl_ := ttl_ a |}.

(** ** Slices and positions *)

(** [len(chunks)] *)
Definition lenZ (chunks : list Chunk) : Z := Z.of_nat (length chunks).

(** [chunks[pos]]: [None] stands for the panic of an index out of range. *)
Definition index (chunks : list Chunk) (pos : Z) : option Chunk :=
  if pos <? 0 then None else chunks !! Z.to_nat pos.

(** [pos++; if pos >= n { pos = 0 }] *)
Definition nextPos (n pos : Z) : Z :=
  if pos + 1 >=? n then 0 else pos + 1.

(** [pos--; if pos < 0 { pos += n }] *)
Definition prevPos (n pos : Z) : Z :=
  if pos - 1 <? 0 then pos - 1 + n else pos - 1.

Definition getChunk (a : AggMetric) (pos : Z) : option Chunk :=
  if pos <? 0 then None
  else if pos >=? lenZ (Chunks a) then None
  else Chunks a !! Z.to_nat pos.

(** ** NewAggMetric *)

Record aggSetting : Type := mkAggSetting {
  as_span : Z;
  as_chunkSpan : Z;
  as_numChunks : Z;
  as_ttl : Z
}.

Definition NewAggregator (s : aggSetting) : Aggregator :=
  {| span := as_span s; received := [] |}.

Definition NewAggMetric (st : Store) (k : string) (chunkSpan numChunks ttl0 : Z)
    (aggsetting : list aggSetting) : AggMetric :=
  {| store := st; Key := k; CurrentChunkPos := 0; NumChunks := numChunks;
     ChunkSpan := chunkSpan; Chunks := [];
     aggregators := NewAggregator <$> aggsetting;
     firstChunkT0 := 0; ttl_ := ttl0 |}.

(** ** GrowNumChunks *)

(** The loop [for i := 0; i < len(a.Chunks); i++] that fills
    [orderdChunks]; [n] counts the iterations that remain. *)
Fixpoint reorder (chunks : list Chunk) (n : nat) (pos : Z) : result (list Chunk) :=
  match n with
  | O => Ok []
  | S n' =>
      match index chunks pos with
      | None => Panic
      | Some c =>
          rest ← reorder chunks n' (nextPos (lenZ chunks) pos);
          Ok (c :: rest)
      end
  end.

Definition GrowNumChunks (a : AggMetric) (numChunks : Z) : result AggMetric :=
  let a := setNumChunks a numChunks in
  if wrap32 (lenZ (Chunks a)) <? NumChunks a then Ok a
  else
    orderdChunks ← reorder (Chunks a) (length (Chunks a))
                     (prevPos (lenZ (Chunks a)) (CurrentChunkPos a));
    Ok (setCurrentChunkPos (setChunks a orderdChunks) (lenZ orderdChunks - 1)).

(** ** getChunkByT0 and SyncChunkSaveState *)

(** The loop [for c.T0 < currentT0] of the search towards newer chunks. *)
Fixpoint scanNewer (fuel : nat) (chunks : list Chunk) (currentT0 ts guess : Z)
    (c : Chunk) : result (option Z) :=
  if T0 c <? currentT0 then
    match fuel with
    | O => Diverge
    | S fuel' =>
        let guess := nextPos (lenZ chunks) guess in
        match index chunks guess with
        | None => Panic
        | Some c =>
            if T0 c =? ts then Ok (Some guess)
            else scanNewer fuel' chunks currentT0 ts guess c
        end
    end
  else Ok None.

(** The loop [for c.T0 >= oldestT0 && c.T0 < currentT0] of the search
    towards older chunks. *)
Fixpoint scanOlder (fuel : nat) (chunks : list Chunk) (oldestT0 currentT0 ts guess : Z)
    (c : Chunk) : result (option Z) :=
  if (T0 c >=? oldestT0) && (T0 c <? currentT0) then
    match fuel with
    | O => Diverge
    | S fuel' =>
        let guess := prevPos (lenZ chunks) guess in
        match index chunks guess with
        | None => Panic
        | Some c =>
            if T0 c =? ts then Ok (Some guess)
            else scanOlder fuel' chunks oldestT0 currentT0 ts guess c
        end
    end
  else Ok None.

(** The chunk found is returned as its position in [Chunks]. *)
Definition getChunkByT0 (a : AggMetric) (ts : Z) : result (option Z) :=
  let chunks := Chunks a in
  if lenZ chunks =? 0 then Ok None
  else
    match index chunks (CurrentChunkPos a) with
    | None => Panic
    | Some cur =>
        let currentT0 := T0 cur in
        if ts =? currentT0 then Ok (Some (CurrentChunkPos a))
        else if ts >? currentT0 then Ok None
        else if lenZ chunks =? 1 then Ok None
        else if ChunkSpan a =? 0 then Panic
        else
          let chunksAgo := sub32 currentT0 ts / ChunkSpan a in
          let numChunks := lenZ chunks in
          let oldestPos := nextPos numChunks (CurrentChunkPos a) in
          let guess :=
            if chunksAgo >=? numChunks - 1 then oldestPos
            else
              let g := CurrentChunkPos a - chunksAgo in
              if g <? 0 then g + numChunks else g in
          match index chunks guess with
          | None => Panic
          | Some c =>
              if T0 c =? ts then Ok (Some guess)
              else if ts >? T0 c then
                scanNewer (length chunks) chunks currentT0 ts guess c
              else
                match index chunks oldestPos with
                | None => Panic
                | Some oldest =>
                    scanOlder (length chunks) chunks (T0 oldest) currentT0 ts guess c
                end
          end
    end.

Definition SyncChunkSaveState (a : AggMetric) (ts : Z) : result AggMetric :=
  found ← getChunkByT0 a ts;
  match found with
  | None => Ok a
  | Some pos => Ok (setChunks a (alter setSaved (Z.to_nat pos) (Chunks a)))
  end.

(** ** Get *)

(** What a search loop of [Get] ends with: the position and chunk it
    stopped at, a nil chunk (the function then returns [(to, [])]), or no
    fuel left. *)
Inductive walk : Type :=
| Stopped (pos : Z) (c : Chunk)
| NilChunk
| NoFuel.

(** [for from >= oldestChunk.T0+a.ChunkSpan] *)
Fixpoint advanceOldest (fuel : nat) (a : AggMetric) (from oldestPos : Z)
    (oldestChunk : Chunk) : walk :=
  if from >=? add32 (T0 oldestChunk) (ChunkSpan a) then
    match fuel with
    | O => NoFuel
    | S fuel' =>
        let oldestPos := nextPos (lenZ (Chunks a)) oldestPos in
        match getChunk a oldestPos with
        | None => NilChunk
        | Some oldestChunk => advanceOldest fuel' a from oldestPos oldestChunk
        end
    end
  else Stopped oldestPos oldestChunk.

(** [for to <= newestChunk.T0] *)
Fixpoint retreatNewest (fuel : nat) (a : AggMetric) (to newestPos : Z)
    (newestChunk : Chunk) : walk :=
  if to <=? T0 newestChunk then
    match fuel with
    | O => NoFuel
    | S fuel' =>
        let newestPos := prevPos (lenZ (Chunks a)) newestPos in
        match getChunk a newestPos with
        | None => NilChunk
        | Some newestChunk => retreatNewest fuel' a to newestPos newestChunk
        end
    end
  else Stopped newestPos newestChunk.

(** [for oldestPos != newestPos], followed by "add the last chunk";
    [chunk.Iter()] on a nil chunk panics. *)
Fixpoint emit (fuel : nat) (a : AggMetric) (oldestPos newestPos : Z)
    (iters : list Iter) : result (list Iter) :=
  if oldestPos =? newestPos then
    match getChunk a oldestPos with
    | None => Panic
    | Some c => Ok (iters ++ [NewIter c])
    end
  else
    match fuel with
    | O => Diverge
    | S fuel' =>
        match getChunk a oldestPos with
        | None => Panic
        | Some c =>
            emit fuel' a (nextPos (NumChunks a) oldestPos) newestPos
              (iters ++ [NewIter c])
        end
    end.

(** The oldest chunk [Get] is prepared to serve: the slot after the current
    one and, on a node that is not primary, the slot after that when the
    former holds the first chunk of the series.  [None] is a nil chunk. *)
Definition servedOldest (primary : bool) (a : AggMetric) : option (Z * Chunk) :=
  let oldestPos := nextPos (lenZ (Chunks a)) (CurrentChunkPos a) in
  match getChunk a oldestPos with
  | None => None
  | Some oldestChunk =>
      if negb primary && (T0 oldestChunk =? firstChunkT0 a) then
        let oldestPos := nextPos (lenZ (Chunks a)) oldestPos in
        match getChunk a oldestPos with
        | None => None
        | Some oldestChunk => Some (oldestPos, oldestChunk)
        end
      else Some (oldestPos, oldestChunk)
  end.

Definition Get (primary : bool) (a : AggMetric) (from to : Z) : result (Z * list Iter) :=
  if from >=? to then Panic
  else
    match getChunk a (CurrentChunkPos a) with
    | None => Ok (MaxInt32, [])
    | Some newestChunk =>
        if from >=? add32 (T0 newestChunk) (ChunkSpan a) then Ok (MaxInt32, [])
        else
          match servedOldest primary a with
          | None => Ok (MaxInt32, [])
          | Some (oldestPos, oldestChunk) =>
              if to <=? T0 oldestChunk then Ok (T0 oldestChunk, [])
              else
                match advanceOldest (length (Chunks a)) a from oldestPos oldestChunk with
                | NoFuel => Diverge
                | NilChunk => Ok (to, [])
                | Stopped oldestPos oldestChunk =>
                    match retreatNewest (length (Chunks a)) a to
                            (CurrentChunkPos a) newestChunk with
                    | NoFuel => Diverge
                    | NilChunk => Ok (to, [])
                    | Stopped newestPos _ =>
                        iters ← emit (2 * length (Chunks a) + 2) a oldestPos newestPos [];
                        Ok (T0 oldestChunk, iters)
                    end
                end
          end
    end.

(** ** GetAggregated *)

(** Modelled from the spec: the package [consolidation] is not part of the
    sources at hand.  The constants are those [GetAggregated] names;
    [Unknown] stands for every other value of the type. *)
Module consolidation.
Inductive Consolidator : Type :=
| None
| Avg
| Cnt
| Last
| Min
| Max
| Sum
| Unknown (n : Z).
End consolidation.

(** Modelled from the spec: the archives of an aggregator, the fields of
    [Aggregator] that [GetAggregated] reads; the sources of [Aggregator]
    are not at hand. *)
Record Archives : Type := mkArchives {
  cntMetric : AggMetric;
  lstMetric : AggMetric;
  minMetric : AggMetric;
  maxMetric : AggMetric;
  sumMetric : AggMetric
}.

(** The loop [for _, a := range a.aggregators] with its [switch]; the end
    of the list is the panic on an unknown [aggSpan].  [archives] gives
    the archives an aggregator holds. *)
Fixpoint searchAggregators (archives : Aggregator -> Archives) (primary : bool)
    (aggs : list Aggregator) (consolidator : consolidation.Consolidator)
    (aggSpan from to : Z) : result (Z * list Iter) :=
  match aggs with
  | [] => Panic
  | g :: rest =>
      if span g =? aggSpan then
        match consolidator with
        | consolidation.None => Panic
        | consolidation.Avg => Panic
        | consolidation.Cnt => Get primary (cntMetric (archives g)) from to
        | consolidation.Last => Get primary (lstMetric (archives g)) from to
        | consolidation.Min => Get primary (minMetric (archives g)) from to
        | consolidation.Max => Get primary (maxMetric (archives g)) from to
        | consolidation.Sum => Get primary (sumMetric (archives g)) from to
        | consolidation.Unknown _ => Panic
        end
      else searchAggregators archives primary rest consolidator aggSpan from to
  end.

Definition GetAggregated (archives : Aggregator -> Archives) (primary : bool)
    (a : AggMetric) (consolidator : consolidation.Consolidator) (aggSpan from to : Z)
    : result (Z * list Iter) :=
  searchAggregators archives primary (aggregators a) consolidator aggSpan from to.

(** ** persist *)

(** The loop that collects the older chunks still to be saved; [pending]
    holds the positions of the chunks of the requests, in append order. *)
Fixpoint collectPending (fuel : nat) (chunks : list Chunk) (chunkT0 previousPos : Z)
    (pending : list Z) : result (list Z) :=
  match index chunks previousPos with
  | None => Panic
  | Some previousChunk =>
      if (T0 previousChunk <? chunkT0) && negb (Saved previousChunk)
         && negb (Saving previousChunk) then
        match fuel with
        | O => Diverge
        | S fuel' =>
            collectPending fuel' chunks chunkT0
              (prevPos (lenZ chunks) previousPos) (pending ++ [previousPos])
        end
      else Ok pending
  end.

(** [a.store.Add(req); req.chunk.Saving = true] for the chunk at [pos].
    The request is built here, with the reading [now] of the call as its
    [timestamp]; the code builds it earlier, with a reading of its own. *)
Definition enqueue (now : Z) (a : AggMetric) (pos : Z) : result AggMetric :=
  match index (Chunks a) pos with
  | None => Panic
  | Some c =>
      Ok (setChunks
            (setStore a (store a ++ [mkReq (Key a) c (ttl_ a) now]))
            (alter setSaving (Z.to_nat pos) (Chunks a)))
  end.

Fixpoint enqueueAll (now : Z) (a : AggMetric) (ps : list Z) : result AggMetric :=
  match ps with
  | [] => Ok a
  | pos :: ps' => a' ← enqueue now a pos; enqueueAll now a' ps'
  end.

Definition persist (primary : bool) (now : Z) (a : AggMetric) (pos : Z) : result AggMetric :=
  match index (Chunks a) pos with
  | None => Panic
  | Some c =>
      let a := setChunks a (<[Z.to_nat pos := Finish now c]> (Chunks a)) in
      if negb primary then Ok a
      else
        pending ← collectPending (length (Chunks a)) (Chunks a) (T0 c)
                    (prevPos (lenZ (Chunks a)) pos) [pos];
        enqueueAll now a (reverse pending)
  end.

(** ** GC *)

Definition GC (primary : bool) (now : Z) (a : AggMetric) (chunkMinTs metricMinTs : Z)
    : result (bool * AggMetric) :=
  match getChunk a (CurrentChunkPos a) with
  | None => Ok (false, a)
  | Some currentChunk =>
      if LastWrite currentChunk <? chunkMinTs then
        if Saved currentChunk && (LastWrite currentChunk <? metricMinTs) then Ok (true, a)
        else
          a' ← persist primary now a (CurrentChunkPos a);
          Ok (false, a')
      else Ok (false, a)
  end.

(** ** Add *)

Definition addAggregators (a : AggMetric) (ts : Z) (val : float) : AggMetric :=
  setAggregators a (Aggregator_Add ts val <$> aggregators a).

Definition setMetric (w : World) (a : AggMetric) : World :=
  {| metric := a; chunkCreate := chunkCreate w; chunkClear := chunkClear w;
     totalPoints := totalPoints w |}.

Definition incChunkCreate (w : World) : World :=
  {| metric := metric w; chunkCreate := chunkCreate w + 1;
     chunkClear := chunkClear w; totalPoints := totalPoints w |}.

Definition incChunkClear (w : World) : World :=
  {| metric := metric w; chunkCreate := chunkCreate w;
     chunkClear := chunkClear w + 1; totalPoints := totalPoints w |}.

Definition sendTotalPoints (w : World) (delta : Z) : World :=
  {| metric := metric w; chunkCreate := chunkCreate w;
     chunkClear := chunkClear w; totalPoints := totalPoints w ++ [delta] |}.

(** [ts - (ts % chunkSpan)] on [uint32] *)
Definition quantize (chunkSpan ts : Z) : Z := sub32 ts (ts `mod` chunkSpan).

Section Ingest.

(** Modelled from the spec: when the codec refuses a point is not stated
    (the sources of [Chunk.Push] are not at hand), so the rule is a
    parameter of the development. *)
Variable accepts : Chunk -> Z -> float -> bool.

(** Modelled from the spec: [push(ts, val)] either fails and leaves the
    chunk as it is, or records the point. *)
Definition Push (now : Z) (c : Chunk) (ts : Z) (val : float) : option Chunk :=
  if accepts c ts val then Some (pushed now c ts val) else None.

Definition Add (primary : bool) (now : Z) (w : World) (ts : Z) (val : float) : result World :=
  let a := metric w in
  if ChunkSpan a =? 0 then Panic
  else
    let t0 := quantize (ChunkSpan a) ts in
    match getChunk a (CurrentChunkPos a) with
    | None =>
        let w := incChunkCreate w in
        let chunks := Chunks a ++ [NewChunk t0 now] in
        let a := setFirstChunkT0 (setChunks a chunks) t0 in
        match index chunks 0 with
        | None => Panic
        | Some c0 =>
            match Push now c0 ts val with
            | None => Panic
            | Some c0' =>
                Ok (setMetric w
                      (addAggregators (setChunks a (<[0%nat := c0']> chunks)) ts val))
            end
        end
    | Some currentChunk =>
        if t0 =? T0 currentChunk then
          if Saved currentChunk then Ok w
          else
            match Push now currentChunk ts val with
            | None => Ok w
            | Some c' =>
                Ok (setMetric w
                      (addAggregators
                         (setChunks a (<[Z.to_nat (CurrentChunkPos a) := c']> (Chunks a)))
                         ts val))
            end
        else if t0 <? T0 currentChunk then Ok w
        else
          a ← persist primary now a (CurrentChunkPos a);
          let a := setCurrentChunkPos a (nextPos (NumChunks a) (CurrentChunkPos a)) in
          let w := incChunkCreate w in
          if lenZ (Chunks a) <? NumChunks a then
            let chunks := Chunks a ++ [NewChunk t0 now] in
            match index chunks (CurrentChunkPos a) with
            | None => Panic
            | Some c =>
                match Push now c ts val with
                | None => Panic
                | Some c' =>
                    Ok (setMetric w
                          (addAggregators
                             (setChunks a (<[Z.to_nat (CurrentChunkPos a) := c']> chunks))
                             ts val))
                end
            end
          else
            let w := incChunkClear w in
            match index (Chunks a) (CurrentChunkPos a) with
            | None => Panic
            | Some old =>
                let w := sendTotalPoints w (-1 * NumPoints old) in
                match Push now (NewChunk t0 now) ts val with
                | None => Panic
                | Some c' =>
                    Ok (setMetric w
                          (addAggregators
                             (setChunks a (<[Z.to_nat (CurrentChunkPos a) := c']> (Chunks a)))
                             ts val))
                end
            end
    end.

End Ingest.

(** ** Notions used in the statements *)

(** The age of the slot [p] in a ring of [n] slots whose current slot is
    [cur]: [0] for the slot after the current one, [n - 1] for the current
    slot. *)
Definition rank (n cur p : Z) : Z :=
  if p <=? cur then p + n - 1 - cur else p - cur - 1.

(** The positions met by walking backward from [p], with wrap, [m] times. *)
Fixpoint backFrom (n : Z) (p : Z) (m : nat) : list Z :=
  match m with
  | O => []
  | S m' => p :: backFrom n (prevPos n p) m'
  end.

(** The test of the catch-up loop of [persist]. *)
Definition unsavedBefore (chunkT0 : Z) (c : Chunk) : bool :=
  (T0 c <? chunkT0) && negb (Saved c) && negb (Saving c).

(** [Saving = true] on the chunks at the positions [ps]. *)
Definition markSaving (ps : list Z) (chunks : list Chunk) : list Chunk :=
  foldl (fun l p => alter setSaving (Z.to_nat p) l) chunks ps.

(** The requests made for the chunks at the positions [ps], in order. *)
Fixpoint requestsFor (now : Z) (a : AggMetric) (chunks : list Chunk) (ps : list Z)
    : list ChunkWriteRequest :=
  match ps with
  | [] => []
  | p :: ps' =>
      match index chunks p with
      | Some c => mkReq (Key a) c (ttl_ a) now :: requestsFor now a chunks ps'
      | None => requestsFor now a chunks ps'
      end
  end.

(** The position reached from [p] by [m] steps backward, with wrap. *)
Fixpoint backAt (n : Z) (p : Z) (m : nat) : Z :=
  match m with
  | O => p
  | S m' => backAt n (prevPos n p) m'
  end.

(** The number of steps backward that lead from [p] to [pos]. *)
Definition backDist (n pos p : Z) : Z :=
  if pos <=? p then p - pos else p - pos + n.

(** What [persist] and [SyncChunkSaveState] leave untouched in a chunk:
    they only set [Saving], [Saved], [Finished] and [LastWrite]. *)
Definition keeps (c c' : Chunk) : Prop :=
  T0 c' = T0 c /\ LastTs c' = LastTs c /\ NumPoints c' = NumPoints c /\
  points c' = points c.

(** The fields of the metric other than [Chunks] and [store]. *)
Definition sameSettings (a a' : AggMetric) : Prop :=
  Key a' = Key a /\ CurrentChunkPos a' = CurrentChunkPos a /\
  NumChunks a' = NumChunks a /\ ChunkSpan a' = ChunkSpan a /\
  aggregators a' = aggregators a /\ firstChunkT0 a' = firstChunkT0 a /\
  ttl_ a' = ttl_ a.

(** The ring is ordered in time: an older slot holds an earlier [T0]. *)
Definition sortedRing (a : AggMetric) : Prop :=
  forall p q cp cq,
    index (Chunks a) p = Some cp -> index (Chunks a) q = Some cq ->
    rank (lenZ (Chunks a)) (CurrentChunkPos a) p
      < rank (lenZ (Chunks a)) (CurrentChunkPos a) q ->
    T0 cp < T0 cq.

(** The [T0] of the chunk at [p] ([0] when there is none). *)
Definition t0At (chunks : list Chunk) (p : Z) : Z :=
  from_option T0 0 (index chunks p).

(** The [T0]s of a sequence of requests. *)
Definition requestT0s (reqs : list ChunkWriteRequest) : list Z :=
  (fun r => T0 (chunk r)) <$> reqs.

(** ** The scenarios of the specification *)

(** [NewAggMetric(store, key, 60, 3, 0)] with an empty store, and the
    counters at zero. *)
Definition freshWorld (chunkSpan numChunks : Z) : World :=
  {| metric := NewAggMetric [] "series" chunkSpan numChunks 0 [];
     chunkCreate := 0; chunkClear := 0; totalPoints := [] |}.

(** A run of [Add]s at the times [now], [now + 1], ... *)
Fixpoint addAll (primary : bool) (now : Z) (w : World) (samples : list Point)
    : result World :=
  match samples with
  | [] => Ok w
  | (ts, val) :: rest =>
      w' ← Add inOrder primary now w ts val; addAll primary (now + 1) w' rest
  end.

(** The state after the first sample [(100, 1.0)] of the scenarios. *)
Definition afterFirstSample : World :=
  match Add inOrder true 1000 (freshWorld 60 3) 100 1%float with
  | Ok w => w
  | _ => freshWorld 60 3
  end.

(** The state a run ends in (the new metric when it does not return). *)
Definition finalWorld (r : result World) : World :=
  match r with
  | Ok w => w
  | _ => freshWorld 60 3
  end.

(** The state after the samples [(100, 1.0)] and [(160, 2.0)] on a node
    that is not primary, and its two chunks. *)
Definition afterTwoSamples : World :=
  finalWorld (addAll false 1 (freshWorld 60 3) [(100, 1%float); (160, 2%float)]).

Definition chunk60 : Chunk :=
  Finish 2 (pushed 1 (NewChunk 60 1) 100 1%float).

Definition chunk120 : Chunk := pushed 2 (NewChunk 120 2) 160 2%float.

(** The state after three samples on a primary. *)
Definition afterThreeSamples : World :=
  finalWorld (addAll true 1 (freshWorld 60 3)
                [(100, 1%float); (160, 2%float); (250, 3%float)]).

(** The chunk of the state after the first sample. *)
Definition firstChunk : Chunk := pushed 1000 (NewChunk 60 1000) 100 1%float.


(** The [T0]s of the ring, slot by slot. *)
Definition ringT0s (a : AggMetric) : list Z := T0 <$> Chunks a.

(** ** The outcomes of Add and the public operations *)

Section Outcomes.

Variable accepts : Chunk -> Z -> float -> bool.

(** The branches of [Add] that return, with the state each leaves. *)
Inductive AddCase (primary : bool) (now : Z) (w : World) (ts : Z) (val : float)
    : World -> Prop :=
| AddFirst (c0 : Chunk) :
    let a := metric w in
    let t0 := quantize (ChunkSpan a) ts in
    let chunks := Chunks a ++ [NewChunk t0 now] in
    getChunk a (CurrentChunkPos a) = None ->
    index chunks 0 = Some c0 ->
    accepts c0 ts val = true ->
    AddCase primary now w ts val
      (setMetric (incChunkCreate w)
         (addAggregators
            (setChunks (setFirstChunkT0 a t0)
               (<[0%nat := pushed now c0 ts val]> chunks)) ts val))
| AddSame (c : Chunk) :
    let a := metric w in
    getChunk a (CurrentChunkPos a) = Some c ->
    quantize (ChunkSpan a) ts = T0 c ->
    Saved c = false ->
    accepts c ts val = true ->
    AddCase primary now w ts val
      (setMetric w
         (addAggregators
            (setChunks a
               (<[Z.to_nat (CurrentChunkPos a) := pushed now c ts val]> (Chunks a)))
            ts val))
| AddSaved (c : Chunk) :
    let a := metric w in
    getChunk a (CurrentChunkPos a) = Some c ->
    quantize (ChunkSpan a) ts = T0 c ->
    Saved c = true ->
    AddCase primary now w ts val w
| AddRefused (c : Chunk) :
    let a := metric w in
    getChunk a (CurrentChunkPos a) = Some c ->
    quantize (ChunkSpan a) ts = T0 c ->
    Saved c = false ->
    accepts c ts val = false ->
    AddCase primary now w ts val w
| AddOld (c : Chunk) :
    let a := metric w in
    getChunk a (CurrentChunkPos a) = Some c ->
    quantize (ChunkSpan a) ts < T0 c ->
    AddCase primary now w ts val w
| AddAppend (c : Chunk) (a1 : AggMetric) (cnew : Chunk) :
    let a := metric w in
    let t0 := quantize (ChunkSpan a) ts in
    let pos := nextPos (NumChunks a1) (CurrentChunkPos a1) in
    let chunks := Chunks a1 ++ [NewChunk t0 now] in
    getChunk a (CurrentChunkPos a) = Some c ->
    T0 c < t0 ->
    persist primary now a (CurrentChunkPos a) = Ok a1 ->
    lenZ (Chunks a1) < NumChunks a1 ->
    index chunks pos = Some cnew ->
    accepts cnew ts val = true ->
    AddCase primary now w ts val
      (setMetric (incChunkCreate w)
         (addAggregators
            (setChunks (setCurrentChunkPos a1 pos)
               (<[Z.to_nat pos := pushed now cnew ts val]> chunks)) ts val))
| AddOverwrite (c : Chunk) (a1 : AggMetric) (old : Chunk) :
    let a := metric w in
    let t0 := quantize (ChunkSpan a) ts in
    let pos := nextPos (NumChunks a1) (CurrentChunkPos a1) in
    getChunk a (CurrentChunkPos a) = Some c ->
    T0 c < t0 ->
    persist primary now a (CurrentChunkPos a) = Ok a1 ->
    NumChunks a1 <= lenZ (Chunks a1) ->
    index (Chunks a1) pos = Some old ->
    accepts (NewChunk t0 now) ts val = true ->
    AddCase primary now w ts val
      (setMetric
         (sendTotalPoints (incChunkClear (incChunkCreate w)) (-1 * NumPoints old))
         (addAggregators
            (setChunks (setCurrentChunkPos a1 pos)
               (<[Z.to_nat pos := pushed now (NewChunk t0 now) ts val]> (Chunks a1)))
            ts val)).

(** One public operation that returns, with [NumChunks] left alone:
    [Add] of a [uint32] timestamp, [GC], or [SyncChunkSaveState]. *)
Inductive step : World -> World -> Prop :=
| step_Add (primary : bool) (now : Z) (w : World) (ts : Z) (val : float) (w' : World) :
    is_u32 ts ->
    Add accepts primary now w ts val = Ok w' ->
    step w w'
| step_GC (primary : bool) (now : Z) (w : World) (chunkMinTs metricMinTs : Z)
    (drop : bool) (a' : AggMetric) :
    GC primary now (metric w) chunkMinTs metricMinTs = Ok (drop, a') ->
    step w (setMetric w a')
| step_Sync (w : World) (ts : Z) (a' : AggMetric) :
    SyncChunkSaveState (metric w) ts = Ok a' ->
    step w (setMetric w a').

(** The states reached from a new metric. *)
Definition reachable (chunkSpan numChunks : Z) (w : World) : Prop :=
  exists st k ttl0 aggs w0,
    metric w0 = NewAggMetric st k chunkSpan numChunks ttl0 aggs /\
    rtc step w0 w.

End Outcomes.

(** ** Invariants *)

(** The predicate of the position of the current chunk. *)
Definition posOK (a : AggMetric) : Prop :=
  Chunks a <> [] ->
  0 <= CurrentChunkPos a < lenZ (Chunks a) /\ lenZ (Chunks a) <= NumChunks a.

(** [posOK], together with the position of an empty buffer. *)
Definition PosInv (a : AggMetric) : Prop :=
  posOK a /\ (Chunks a = [] -> CurrentChunkPos a = 0).

(** Walking from an older slot to a newer one, [T0] grows by at least one
    span per slot. *)
Definition spaced (a : AggMetric) : Prop :=
  forall p q cp cq,
    index (Chunks a) p = Some cp -> index (Chunks a) q = Some cq ->
    rank (lenZ (Chunks a)) (CurrentChunkPos a) p
      < rank (lenZ (Chunks a)) (CurrentChunkPos a) q ->
    T0 cp
      + ChunkSpan a * (rank (lenZ (Chunks a)) (CurrentChunkPos a) q
                       - rank (lenZ (Chunks a)) (CurrentChunkPos a) p)
      <= T0 cq.

(** Every [T0] is a [uint32] and a multiple of the span. *)
Definition aligned (a : AggMetric) : Prop :=
  forall c, c ∈ Chunks a -> is_u32 (T0 c) /\ T0 c `mod` ChunkSpan a = 0.

(** Every point lies in the chunk of its quantized timestamp. *)
Definition owned (a : AggMetric) : Prop :=
  forall c ts val,
    c ∈ Chunks a -> (ts, val) ∈ points c ->
    is_u32 ts /\ quantize (ChunkSpan a) ts = T0 c.

(** Until the ring is full the current chunk is the last of the list. *)
Definition warmingUp (a : AggMetric) : Prop :=
  Chunks a <> [] -> lenZ (Chunks a) < NumChunks a ->
  CurrentChunkPos a = lenZ (Chunks a) - 1.

(** The invariant of the ring. *)
Record RingInv (a : AggMetric) : Prop := mkRingInv {
  ri_pos : PosInv a;
  ri_num : 1 <= NumChunks a;
  ri_span : 0 < ChunkSpan a;
  ri_warm : warmingUp a;
  ri_spaced : spaced a;
  ri_aligned : aligned a;
  ri_owned : owned a
}.

(** ** The store along a run *)

(** No request is for a chunk newer than the current one. *)
Definition storeBelowCurrent (a : AggMetric) : Prop :=
  forall r cc,
    r ∈ store a -> index (Chunks a) (CurrentChunkPos a) = Some cc ->
    T0 (chunk r) <= T0 cc.

(** A chunk is flagged when it is saved or being saved. *)
Definition flagged (c : Chunk) : Prop := Saved c = true \/ Saving c = true.

(** An unflagged chunk older than a request is shielded from the catch-up
    walk by a newer chunk that is flagged. *)
Definition shielded (a : AggMetric) : Prop :=
  forall r x,
    r ∈ store a -> x ∈ Chunks a ->
    T0 x < T0 (chunk r) -> Saved x = false -> Saving x = false ->
    exists cz,
      cz ∈ Chunks a /\ T0 x < T0 cz < T0 (chunk r) /\ flagged cz.

(** The invariant of the store of a metric that started with an empty one. *)
Record StoreInv (a : AggMetric) : Prop := mkStoreInv {
  si_ring : RingInv a;
  si_sorted : StronglySorted Z.le (requestT0s (store a));
  si_below : storeBelowCurrent a;
  si_shielded : shielded a;
  si_empty : Chunks a = [] -> store a = [];
  si_keys : Forall (fun r => key r = Key a) (store a)
}.

(** ** Notions used in the further properties *)

(** What no operation changes. *)
Definition sameConfig (a a' : AggMetric) : Prop :=
  Key a' = Key a /\ NumChunks a' = NumChunks a /\ ChunkSpan a' = ChunkSpan a /\
  ttl_ a' = ttl_ a /\ span <$> aggregators a' = span <$> aggregators a.

(** No chunk of the ring is older than [firstChunkT0]. *)
Definition firstBound (a : AggMetric) : Prop :=
  forall c, c ∈ Chunks a -> firstChunkT0 a <= T0 c.

(** The chunk [c] shares a timestamp with the range from [from], included,
    to [to], excluded. *)
Definition overlaps (a : AggMetric) (from to : Z) (c : Chunk) : Prop :=
  T0 c < to /\ from < T0 c + ChunkSpan a.

(** The chunks [Get] is prepared to serve: those from the chunk of
    [servedOldest] to the current one. *)
Definition served (primary : bool) (a : AggMetric) (c : Chunk) : Prop :=
  exists po co q,
    servedOldest primary a = Some (po, co) /\ index (Chunks a) q = Some c /\
    rank (lenZ (Chunks a)) (CurrentChunkPos a) po
      <= rank (lenZ (Chunks a)) (CurrentChunkPos a) q.

(** The iterators are in the order of the [T0]s of their chunks. *)
Definition iterBefore (x y : Iter) : Prop := T0 (iterChunk x) < T0 (iterChunk y).

(** The archive [GetAggregated] reads for a consolidator, when it reads
    one. *)
Definition archiveOf (consolidator : consolidation.Consolidator)
    : option (Archives -> AggMetric) :=
  match consolidator with
  | consolidation.Cnt => Some cntMetric
  | consolidation.Last => Some lstMetric
  | consolidation.Min => Some minMetric
  | consolidation.Max => Some maxMetric
  | consolidation.Sum => Some sumMetric
  | _ => Datatypes.None
  end.

(** The chunk of an interval that has a request in the store is marked as
    being saved. *)
Definition sentMarked (a : AggMetric) : Prop :=
  forall r c, r ∈ store a -> c ∈ Chunks a -> T0 c = T0 (chunk r) -> Saving c = true.

(** Every point of the ring was passed to every aggregator, and the
    aggregators were passed the same samples. *)
Definition fed (a : AggMetric) : Prop :=
  (forall g c pt, g ∈ aggregators a -> c ∈ Chunks a -> pt ∈ points c -> pt ∈ received g) /\
  (forall g g', g ∈ aggregators a -> g' ∈ aggregators a -> received g = received g').

(** ** Further scenarios *)

(** The state after the samples [(100, 1.0)] and [(250, 2.0)] on a
    primary: the ring holds the chunks with [T0 = 60] and [T0 = 240] and
    none for the intervals between them. *)
Definition afterGap : World :=
  finalWorld (addAll true 1 (freshWorld 60 3) [(100, 1%float); (250, 2%float)]).

Definition gapChunk60 : Chunk :=
  setSaving (Finish 2 (pushed 1 (NewChunk 60 1) 100 1%float)).

Definition gapChunk240 : Chunk := pushed 2 (NewChunk 240 2) 250 2%float.

(** The state after samples in four intervals, when the ring of three
    slots has wrapped: the slots hold the [T0]s 180, 60 and 120. *)
Definition afterWrap : World :=
  finalWorld (addAll false 1 (freshWorld 60 3)
                [(30, 1%float); (60, 2%float); (120, 3%float); (180, 4%float)]).

(** A new metric with one aggregation setting, and the state after its
    first sample. *)
Definition freshAggregated : World :=
  {| metric := NewAggMetric [] "series" 60 3 0 [mkAggSetting 600 3600 2 0];
     chunkCreate := 0; chunkClear := 0; totalPoints := [] |}.

Definition aggregatedAfter : World :=
  finalWorld (Add inOrder true 1 freshAggregated 100 1%float).

(** Archives that hold no data. *)
Definition emptyArchives (g : Aggregator) : Archives :=
  let m := NewAggMetric [] "archive" (span g) 1 0 [] in
  mkArchives m m m m m.

(** The state after the third sample [(250, 3.0)], added on a primary to
    the state after two samples. *)
Definition afterCatchUp : World :=
  finalWorld (Add inOrder true 3 afterTwoSamples 250 3%float).

(** The state after [SyncChunkSaveState(60)] on the state after two
    samples. *)
Definition afterAcknowledged : World :=
  setMetric afterTwoSamples
    (setChunks (metric afterTwoSamples)
       (alter setSaved 0%nat (Chunks (metric afterTwoSamples)))).

(** The state after the first sample and a [GC] on a primary that finds
    the chunk idle and hands it to the store; the state after the
    acknowledgement [SyncChunkSaveState(60)] that follows, whose chunk is
    marked as being saved and as saved; and the state after a second such
    [GC]. *)
Definition afterIdle : World :=
  setMetric afterFirstSample
    match GC true 2000 (metric afterFirstSample) 1500 0 with
    | Ok (_, a') => a'
    | _ => metric afterFirstSample
    end.

Definition afterSaved : World :=
  setMetric afterIdle
    match SyncChunkSaveState (metric afterIdle) 60 with
    | Ok a' => a'
    | _ => metric afterIdle
    end.

Definition afterSecondIdle : World :=
  setMetric afterSaved
    match GC true 3000 (metric afterSaved) 2500 0 with
    | Ok (_, a') => a'
    | _ => metric afterSaved
    end.

Definition savedChunk : Chunk := setSaved (setSaving (Finish 2000 firstChunk)).

(** * Properties *)

Ltac zbool :=
  rewrite ?Z.geb_leb, ?Z.gtb_ltb in *;
  repeat match goal with
  | H : (_ <? _) = true |- _ => apply Z.ltb_lt in H
  | H : (_ <? _) = false |- _ => apply Z.ltb_ge in H
  | H : (_ <=? _) = true |- _ => apply Z.leb_le in H
  | H : (_ <=? _) = false |- _ => apply Z.leb_gt in H
  | H : (_ =? _) = true |- _ => apply Z.eqb_eq in H
  | H : (_ =? _) = false |- _ => apply Z.eqb_neq in H
  end.

Ltac zcases :=
  rewrite ?Z.geb_leb, ?Z.gtb_ltb in *;
  repeat match goal with
  | |- context [?x <? ?y] => destruct (Z.ltb_spec x y)
  | |- context [?x <=? ?y] => destruct (Z.leb_spec x y)
  | |- context [?x =? ?y] => destruct (Z.eqb_spec x y)
  | H : context [?x <? ?y] |- _ => destruct (Z.ltb_spec x y)
  | H : context [?x <=? ?y] |- _ => destruct (Z.leb_spec x y)
  | H : context [?x =? ?y] |- _ => destruct (Z.eqb_spec x y)
  end.

Ltac fields :=
  cbn [Chunks CurrentChunkPos NumChunks ChunkSpan store Key aggregators
       firstChunkT0 ttl_ addAggregators setAggregators setChunks
       setCurrentChunkPos setFirstChunkT0 setStore setNumChunks metric setMetric
       incChunkCreate incChunkClear sendTotalPoints chunkCreate chunkClear
       totalPoints] in *.

(** ** Slices *)

Lemma index_Some (chunks : list Chunk) (p : Z) (c : Chunk) :
  index chunks p = Some c <-> 0 <= p /\ chunks !! Z.to_nat p = Some c.
Proof.
  unfold index. destruct (Z.ltb_spec p 0); split.
  - discriminate.
  - lia.
  - tauto.
  - tauto.
Qed.

Lemma index_range (chunks : list Chunk) (p : Z) (c : Chunk) :
  index chunks p = Some c -> 0 <= p < lenZ chunks.
Proof.
  intros [H0 H]%index_Some. apply lookup_lt_Some in H. unfold lenZ. lia.
Qed.

Lemma index_in_range (chunks : list Chunk) (p : Z) :
  0 <= p < lenZ chunks -> exists c, index chunks p = Some c.
Proof.
  unfold lenZ. intros H.
  destruct (lookup_lt_is_Some_2 chunks (Z.to_nat p)) as [c Hc]; [lia|].
  exists c. apply index_Some. split; [lia|done].
Qed.

Lemma index_elem_of (chunks : list Chunk) (p : Z) (c : Chunk) :
  index chunks p = Some c -> c ∈ chunks.
Proof. intros [_ H]%index_Some. by eapply list_elem_of_lookup_2. Qed.

Lemma elem_of_index (chunks : list Chunk) (c : Chunk) :
  c ∈ chunks -> exists p, index chunks p = Some c.
Proof.
  intros [i Hi]%list_elem_of_lookup_1. exists (Z.of_nat i).
  apply index_Some. rewrite Nat2Z.id. split; [lia|done].
Qed.

Lemma getChunk_index (a : AggMetric) (p : Z) :
  getChunk a p = index (Chunks a) p.
Proof.
  unfold getChunk, index, lenZ. destruct (Z.ltb_spec p 0); [done|].
  rewrite Z.geb_leb. destruct (Z.leb_spec (Z.of_nat (length (Chunks a))) p); [|done].
  symmetry. apply lookup_ge_None. lia.
Qed.

Lemma index_insert_eq (chunks : list Chunk) (p : Z) (c : Chunk) :
  0 <= p < lenZ chunks -> index (<[Z.to_nat p := c]> chunks) p = Some c.
Proof.
  unfold lenZ. intros H. apply index_Some.
  split; [lia|]. apply list_lookup_insert_eq. lia.
Qed.

Lemma index_insert_ne (chunks : list Chunk) (p q : Z) (c : Chunk) :
  0 <= p -> p <> q -> index (<[Z.to_nat p := c]> chunks) q = index chunks q.
Proof.
  intros Hp Hne. unfold index. destruct (Z.ltb_spec q 0); [done|].
  apply list_lookup_insert_ne. lia.
Qed.

Lemma index_alter_eq (f : Chunk -> Chunk) (chunks : list Chunk) (p : Z) :
  0 <= p -> index (alter f (Z.to_nat p) chunks) p = f <$> index chunks p.
Proof.
  intros Hp. unfold index. destruct (Z.ltb_spec p 0); [lia|].
  apply list_lookup_alter_eq.
Qed.

Lemma index_alter_ne (f : Chunk -> Chunk) (chunks : list Chunk) (p q : Z) :
  0 <= p -> p <> q -> index (alter f (Z.to_nat p) chunks) q = index chunks q.
Proof.
  intros Hp Hne. unfold index. destruct (Z.ltb_spec q 0); [done|].
  apply list_lookup_alter_ne. lia.
Qed.

Lemma lenZ_insert (chunks : list Chunk) (i : nat) (c : Chunk) :
  lenZ (<[i := c]> chunks) = lenZ chunks.
Proof. unfold lenZ. by rewrite length_insert. Qed.

Lemma lenZ_alter (f : Chunk -> Chunk) (chunks : list Chunk) (i : nat) :
  lenZ (alter f i chunks) = lenZ chunks.
Proof. unfold lenZ. by rewrite length_alter. Qed.

Lemma lenZ_app (l1 l2 : list Chunk) : lenZ (l1 ++ l2) = lenZ l1 + lenZ l2.
Proof. unfold lenZ. rewrite length_app. lia. Qed.

Lemma nextPos_range (n p : Z) : 0 < n -> 0 <= p -> 0 <= nextPos n p < n.
Proof. unfold nextPos. intros. zcases; lia. Qed.

Lemma prevPos_range (n p : Z) : 0 <= p < n -> 0 <= prevPos n p < n.
Proof. unfold prevPos. intros. zcases; lia. Qed.

(** The steps around the ring, as arithmetic modulo its size. *)
Lemma nextPos_mod (n p : Z) : 0 <= p < n -> nextPos n p = (p + 1) `mod` n.
Proof.
  intros Hp. unfold nextPos. rewrite Z.geb_leb.
  destruct (Z.leb_spec n (p + 1)).
  - assert (p + 1 = n) as -> by lia. by rewrite Z.mod_same by lia.
  - by rewrite Z.mod_small by lia.
Qed.


Lemma nextPos_twice_mod (n p : Z) :
  0 <= p < n -> nextPos n (nextPos n p) = (p + 2) `mod` n.
Proof.
  intros Hp. rewrite (nextPos_mod n p) by done.
  rewrite nextPos_mod by (apply Z.mod_pos_bound; lia).
  rewrite Zplus_mod_idemp_l. f_equal. lia.
Qed.

(** ** persist *)

Lemma backDist_prev (n pos p : Z) :
  0 <= pos < n -> 0 <= p < n -> p <> pos ->
  backDist n pos (prevPos n p) = backDist n pos p - 1.
Proof. unfold backDist, prevPos. intros. zcases; lia. Qed.

Lemma backDist_range (n pos p : Z) :
  0 <= pos < n -> 0 <= p < n -> 0 <= backDist n pos p < n.
Proof. unfold backDist. intros. zcases; lia. Qed.

Lemma backDist_zero (n pos p : Z) :
  0 <= pos < n -> 0 <= p < n -> backDist n pos p = 0 -> p = pos.
Proof. unfold backDist. intros ? ?. zcases; lia. Qed.

Lemma backFrom_dist (n pos : Z) (m : nat) :
  0 <= pos < n ->
  forall p q, 0 <= p < n -> Z.of_nat m <= backDist n pos p ->
    q ∈ backFrom n p m ->
    0 <= q < n /\ backDist n pos p - Z.of_nat m < backDist n pos q <= backDist n pos p.
Proof.
  intros Hpos. induction m as [|m IH]; intros p q Hp Hm Hq; simpl in Hq.
  - by apply elem_of_nil in Hq.
  - apply elem_of_cons in Hq as [->|Hq]; [lia|].
    assert (p <> pos).
    { intros ->. unfold backDist in Hm. revert Hm. zcases; lia. }
    apply IH in Hq; [|by apply prevPos_range|rewrite backDist_prev by done; lia].
    rewrite backDist_prev in Hq by done. lia.
Qed.

Lemma backFrom_NoDup (n pos : Z) (m : nat) :
  0 <= pos < n ->
  forall p, 0 <= p < n -> Z.of_nat m <= backDist n pos p -> NoDup (backFrom n p m).
Proof.
  intros Hpos. induction m as [|m IH]; intros p Hp Hm; simpl.
  - constructor.
  - assert (p <> pos).
    { intros ->. unfold backDist in Hm. revert Hm. zcases; lia. }
    constructor.
    + intros Hin. eapply (backFrom_dist n pos m Hpos) in Hin.
      * rewrite backDist_prev in Hin by done. lia.
      * by apply prevPos_range.
      * rewrite backDist_prev by done. lia.
    + apply IH; [by apply prevPos_range|]. rewrite backDist_prev by done. lia.
Qed.

Lemma unsavedBefore_self (c : Chunk) : unsavedBefore (T0 c) c = false.
Proof. unfold unsavedBefore. by rewrite Z.ltb_irrefl. Qed.

Lemma collectPending_spec (chunks : list Chunk) (pos : Z) (c : Chunk) :
  index chunks pos = Some c ->
  forall (fuel : nat) (p : Z) (pend : list Z),
    0 <= p < lenZ chunks ->
    backDist (lenZ chunks) pos p <= Z.of_nat fuel ->
    exists m : nat,
      collectPending fuel chunks (T0 c) p pend
        = Ok (pend ++ backFrom (lenZ chunks) p m) /\
      Z.of_nat m <= backDist (lenZ chunks) pos p /\
      (forall q, q ∈ backFrom (lenZ chunks) p m ->
         exists cq, index chunks q = Some cq /\ unsavedBefore (T0 c) cq = true) /\
      (exists cq, index chunks (backAt (lenZ chunks) p m) = Some cq /\
         unsavedBefore (T0 c) cq = false).
Proof.
  intros Hc. pose proof (index_range _ _ _ Hc) as Hpos.
  induction fuel as [|fuel IH]; intros p pend Hp Hd.
  - destruct (index_in_range chunks p Hp) as [cp Hcp].
    assert (p = pos) as ->.
    { apply (backDist_zero (lenZ chunks)); [done..|].
      pose proof (backDist_range (lenZ chunks) pos p Hpos Hp). lia. }
    exists 0%nat. simpl. rewrite Hc.
    fold (unsavedBefore (T0 c) c). rewrite unsavedBefore_self, app_nil_r.
    split; [done|]. split; [unfold backDist; zcases; lia|].
    split; [intros q Hq; by apply elem_of_nil in Hq|].
    exists c. split; [done|apply unsavedBefore_self].
  - destruct (index_in_range chunks p Hp) as [cp Hcp].
    simpl. rewrite Hcp. fold (unsavedBefore (T0 c) cp).
    destruct (unsavedBefore (T0 c) cp) eqn:Hg.
    + assert (p <> pos) as Hne.
      { intros ->. rewrite Hc in Hcp. injection Hcp as ->.
        by rewrite unsavedBefore_self in Hg. }
      destruct (IH (prevPos (lenZ chunks) p) (pend ++ [p])) as (m & He & Hm & Hall & Hstop).
      { by apply prevPos_range. }
      { rewrite backDist_prev by done. lia. }
      exists (S m). rewrite He. simpl. rewrite <- app_assoc. simpl.
      split; [done|]. rewrite backDist_prev in Hm by done.
      split; [lia|]. split; [|done].
      intros q [->|Hq]%elem_of_cons; [eauto|by apply Hall].
    + exists 0%nat. simpl. rewrite app_nil_r.
      split; [done|]. split; [pose proof (backDist_range (lenZ chunks) pos p Hpos Hp); lia|].
      split; [intros q Hq; by apply elem_of_nil in Hq|eauto].
Qed.

Lemma markSaving_length (ps : list Z) (chunks : list Chunk) :
  lenZ (markSaving ps chunks) = lenZ chunks.
Proof.
  revert chunks. induction ps as [|p ps IH]; intros chunks; simpl; [done|].
  unfold markSaving in *. simpl. by rewrite IH, lenZ_alter.
Qed.

Lemma markSaving_notin (ps : list Z) (chunks : list Chunk) (q : Z) :
  (forall p, p ∈ ps -> 0 <= p) -> q ∉ ps ->
  index (markSaving ps chunks) q = index chunks q.
Proof.
  revert chunks. induction ps as [|p ps IH]; intros chunks Hnn Hq; [done|].
  unfold markSaving in *. simpl. rewrite IH.
  - apply index_alter_ne; [apply Hnn; left|]. intros ->. apply Hq. left.
  - intros p' Hp'. apply Hnn. by right.
  - intros Hin. apply Hq. by right.
Qed.

Lemma markSaving_in (ps : list Z) (chunks : list Chunk) (q : Z) :
  (forall p, p ∈ ps -> 0 <= p) -> NoDup ps -> q ∈ ps ->
  index (markSaving ps chunks) q = setSaving <$> index chunks q.
Proof.
  revert chunks. induction ps as [|p ps IH]; intros chunks Hnn Hnd Hq.
  - by apply elem_of_nil in Hq.
  - apply NoDup_cons in Hnd as [Hp Hnd].
    change (markSaving (p :: ps) chunks)
      with (markSaving ps (alter setSaving (Z.to_nat p) chunks)).
    apply elem_of_cons in Hq as [->|Hq].
    + rewrite markSaving_notin; [|intros; apply Hnn; by right|done].
      apply index_alter_eq. apply Hnn. left.
    + rewrite IH; [|intros; apply Hnn; by right|done..].
      f_equal. apply index_alter_ne; [apply Hnn; left|]. by intros ->.
Qed.

Lemma requestsFor_ext (now : Z) (a a' : AggMetric) (l l' : list Chunk) (ps : list Z) :
  Key a = Key a' -> ttl_ a = ttl_ a' ->
  (forall p, p ∈ ps -> index l p = index l' p) ->
  requestsFor now a l ps = requestsFor now a' l' ps.
Proof.
  intros Hk Ht. induction ps as [|p ps IH]; intros H; simpl; [done|].
  rewrite (H p) by left. rewrite IH, Hk, Ht; [done|].
  intros q Hq. apply H. by right.
Qed.

Lemma enqueueAll_spec (now : Z) (ps : list Z) :
  forall a : AggMetric,
    NoDup ps -> (forall q, q ∈ ps -> 0 <= q < lenZ (Chunks a)) ->
    enqueueAll now a ps
      = Ok (setChunks
              (setStore a (store a ++ requestsFor now a (Chunks a) ps))
              (markSaving ps (Chunks a))).
Proof.
  induction ps as [|p ps IH]; intros a Hnd Hr.
  - simpl. rewrite app_nil_r. by destruct a.
  - apply NoDup_cons in Hnd as [Hp Hnd].
    destruct (index_in_range (Chunks a) p) as [c Hc]; [apply Hr; left|].
    simpl. unfold enqueue. rewrite Hc. simpl.
    rewrite IH; [|done|].
    + unfold setChunks, setStore. simpl. rewrite <- app_assoc. simpl.
      do 3 f_equal. f_equal. apply requestsFor_ext; [done..|]. intros q Hq.
      simpl. rewrite index_alter_ne; [done| |by intros ->].
      apply (Hr p). left.
    + intros q Hq. simpl. rewrite lenZ_alter. apply Hr. by right.
Qed.

Lemma persist_secondary (now : Z) (a : AggMetric) (pos : Z) (c : Chunk) :
  index (Chunks a) pos = Some c ->
  persist false now a pos
    = Ok (setChunks a (<[Z.to_nat pos := Finish now c]> (Chunks a))).
Proof. intros Hc. unfold persist. by rewrite Hc. Qed.

Lemma persist_primary (now : Z) (a : AggMetric) (pos : Z) (c : Chunk) :
  index (Chunks a) pos = Some c ->
  exists m : nat,
    let n := lenZ (Chunks a) in
    let chunks1 := <[Z.to_nat pos := Finish now c]> (Chunks a) in
    let run := backFrom n (prevPos n pos) m in
    persist true now a pos
      = Ok (setChunks
              (setStore a (store a ++ requestsFor now a chunks1 (reverse (pos :: run))))
              (markSaving (reverse (pos :: run)) chunks1)) /\
    Z.of_nat m < n /\
    NoDup (pos :: run) /\
    (forall q, q ∈ pos :: run -> 0 <= q < n) /\
    (forall q, q ∈ run ->
       q <> pos /\
       exists cq, index (Chunks a) q = Some cq /\ unsavedBefore (T0 c) cq = true) /\
    (exists cq, index (Chunks a) (backAt n (prevPos n pos) m) = Some cq /\
       unsavedBefore (T0 c) cq = false).
Proof.
  intros Hc. pose proof (index_range _ _ _ Hc) as Hpos.
  set (n := lenZ (Chunks a)) in *.
  set (chunks1 := <[Z.to_nat pos := Finish now c]> (Chunks a)).
  assert (Hn1 : lenZ chunks1 = n) by apply lenZ_insert.
  assert (Hc1 : index chunks1 pos = Some (Finish now c)) by by apply index_insert_eq.
  assert (Hprev : 0 <= prevPos n pos < n) by by apply prevPos_range.
  destruct (collectPending_spec chunks1 pos (Finish now c) Hc1
              (length chunks1) (prevPos n pos) [pos]) as (m & He & Hm & Hall & Hstop).
  { by rewrite Hn1. }
  { rewrite Hn1. pose proof (backDist_range n pos (prevPos n pos) Hpos Hprev).
    replace (Z.of_nat (length chunks1)) with n by (symmetry; apply Hn1).
    clearbody n. lia. }
  rewrite Hn1 in *. simpl in He.
  pose proof (backDist_range n pos (prevPos n pos) Hpos Hprev) as Hbd.
  assert (Hrun : forall q, q ∈ backFrom n (prevPos n pos) m -> 0 <= q < n /\ q <> pos).
  { intros q Hq.
    destruct (backFrom_dist n pos m Hpos _ q Hprev Hm Hq) as [Hq1 Hq2].
    split; [done|]. intros ->.
    assert (backDist n pos pos = 0) by (unfold backDist; zcases; lia). lia. }
  assert (Hnd : NoDup (pos :: backFrom n (prevPos n pos) m)).
  { constructor.
    - intros Hin. by destruct (Hrun _ Hin).
    - by apply (backFrom_NoDup n pos). }
  exists m. cbv zeta. split; [|split; [lia|split; [done|split; [|split]]]].
  - unfold persist. rewrite Hc. simpl. fold chunks1. fold n.
    rewrite Hn1. rewrite He. simpl.
    rewrite enqueueAll_spec.
    + simpl. rewrite (requestsFor_ext now (setChunks a chunks1) a chunks1 chunks1)
        by done. done.
    + by rewrite reverse_Permutation.
    + intros q Hq. apply (proj1 (elem_of_reverse _ _)) in Hq. simpl. rewrite Hn1.
      apply elem_of_cons in Hq as [->|Hq]; [done|]. by apply Hrun.
  - intros q [->|Hq]%elem_of_cons; [done|]. by apply Hrun.
  - intros q Hq. destruct (Hrun q Hq) as [Hq1 Hq2]. split; [done|].
    destruct (Hall q Hq) as (cq & Hcq & Hg). exists cq. split; [|done].
    unfold chunks1 in Hcq. rewrite index_insert_ne in Hcq; [done|lia|done].
  - destruct Hstop as (cq & Hcq & Hg).
    destruct (Z.eq_dec (backAt n (prevPos n pos) m) pos) as [Heq|Hne].
    + exists c. rewrite Heq. split; [done|apply unsavedBefore_self].
    + exists cq. split; [|done].
      unfold chunks1 in Hcq. rewrite index_insert_ne in Hcq; [done|lia|done].
Qed.

Lemma keeps_refl (c : Chunk) : keeps c c.
Proof. by repeat split. Qed.

Lemma keeps_trans (c1 c2 c3 : Chunk) : keeps c1 c2 -> keeps c2 c3 -> keeps c1 c3.
Proof. unfold keeps. intros (?&?&?&?) (?&?&?&?). repeat split; congruence. Qed.

Lemma sameSettings_refl (a : AggMetric) : sameSettings a a.
Proof. by repeat split. Qed.

Lemma markSaving_keeps (ps : list Z) (chunks : list Chunk) (q : Z) (c : Chunk) :
  index chunks q = Some c ->
  exists c', index (markSaving ps chunks) q = Some c' /\ keeps c c' /\
             Saved c' = Saved c /\ LastWrite c' = LastWrite c /\
             Finished c' = Finished c /\ (Saving c = true -> Saving c' = true).
Proof.
  revert chunks c. induction ps as [|p ps IH]; intros chunks c Hc.
  - exists c. split; [done|]. split; [apply keeps_refl|done].
  - change (markSaving (p :: ps) chunks)
      with (markSaving ps (alter setSaving (Z.to_nat p) chunks)).
    pose proof (index_range _ _ _ Hc) as Hq.
    destruct (Nat.eq_dec (Z.to_nat p) (Z.to_nat q)) as [Heq|Hne].
    + destruct (IH (alter setSaving (Z.to_nat p) chunks) (setSaving c))
        as (c' & Hc' & Hk & Hs & Hl & Hf & Hsv).
      { apply index_Some. split; [lia|]. rewrite Heq, list_lookup_alter_eq.
        apply index_Some in Hc as [_ ->]. done. }
      exists c'. split; [done|]. split.
      { eapply keeps_trans; [|exact Hk]. by repeat split. }
      simpl in *. repeat split; auto.
    + destruct (IH (alter setSaving (Z.to_nat p) chunks) c) as (c' & Hc' & Hk & Hrest).
      { apply index_Some. split; [lia|]. rewrite list_lookup_alter_ne by lia.
        by apply index_Some in Hc as [_ ->]. }
      exists c'. split; [done|]. split; [done|exact Hrest].
Qed.

(** [persist] returns whenever [pos] is the position of a chunk, and all it
    changes are the store, [Finished] and [LastWrite] of the chunk at [pos]
    and [Saving] flags. *)
Lemma persist_frame (primary : bool) (now : Z) (a : AggMetric) (pos : Z) (c : Chunk) :
  index (Chunks a) pos = Some c ->
  exists a',
    persist primary now a pos = Ok a' /\
    sameSettings a a' /\
    length (Chunks a') = length (Chunks a) /\
    (forall q cq, index (Chunks a) q = Some cq ->
       exists cq', index (Chunks a') q = Some cq' /\ keeps cq cq' /\
                   Saved cq' = Saved cq /\
                   (Saving cq = true -> Saving cq' = true) /\
                   LastWrite cq' = (if q =? pos then now else LastWrite cq)).
Proof.
  intros Hc. pose proof (index_range _ _ _ Hc) as Hpos.
  assert (Hfin : forall q cq, index (Chunks a) q = Some cq ->
     exists c1, index (<[Z.to_nat pos := Finish now c]> (Chunks a)) q = Some c1 /\
                keeps cq c1 /\ Saved c1 = Saved cq /\ Saving c1 = Saving cq /\
                LastWrite c1 = (if q =? pos then now else LastWrite cq)).
  { intros q cq Hq. destruct (Z.eqb_spec q pos) as [->|Hne].
    - exists (Finish now c). rewrite index_insert_eq by done.
      rewrite Hc in Hq. injection Hq as <-. by repeat split.
    - exists cq. rewrite index_insert_ne by lia. by repeat split. }
  destruct primary.
  - destruct (persist_primary now a pos c Hc) as (m & He & _).
    cbv zeta in He. eexists. split; [exact He|].
    split; [by repeat split|]. split.
    { simpl. apply Nat2Z.inj. fold (lenZ (Chunks a)).
      etrans; [apply markSaving_length|apply lenZ_insert]. }
    intros q cq Hq. simpl.
    destruct (Hfin q cq Hq) as (c1 & Hc1 & Hk1 & Hs1 & Hsv1 & Hlw1).
    destruct (markSaving_keeps
                (reverse (pos :: backFrom (lenZ (Chunks a)) (prevPos (lenZ (Chunks a)) pos) m))
                _ q c1 Hc1) as (c2 & Hc2 & Hk2 & Hs2 & Hlw2 & _ & Hsv2).
    exists c2. split; [done|]. split; [by eapply keeps_trans|].
    split; [congruence|]. split; [|congruence].
    intros Hsv. apply Hsv2. congruence.
  - rewrite (persist_secondary now a pos c Hc). eexists. split; [done|].
    split; [by repeat split|]. split; [simpl; by rewrite length_insert|].
    intros q cq Hq. simpl.
    destruct (Hfin q cq Hq) as (c1 & Hc1 & Hk1 & Hs1 & Hsv1 & Hlw1).
    exists c1. split; [done|]. split; [done|]. split; [done|]. split; [congruence|done].
Qed.

(** ** GC *)

Lemma getChunk_nil (a : AggMetric) (p : Z) : Chunks a = [] -> getChunk a p = None.
Proof.
  intros H. rewrite getChunk_index, H. unfold index. destruct (p <? 0); [done|].
  apply lookup_nil.
Qed.

(** An idle current chunk that is not to be dropped is persisted. *)
Lemma GC_idle_persists (primary : bool) (now : Z) (a : AggMetric)
    (chunkMinTs metricMinTs : Z) (c : Chunk) :
  getChunk a (CurrentChunkPos a) = Some c ->
  LastWrite c < chunkMinTs ->
  ~ (Saved c = true /\ LastWrite c < metricMinTs) ->
  exists a',
    persist primary now a (CurrentChunkPos a) = Ok a' /\
    GC primary now a chunkMinTs metricMinTs = Ok (false, a') /\
    CurrentChunkPos a' = CurrentChunkPos a /\
    length (Chunks a') = length (Chunks a).
Proof.
  intros Hc Hidle Hkeep.
  assert (Hi : index (Chunks a) (CurrentChunkPos a) = Some c)
    by by rewrite <- getChunk_index.
  destruct (persist_frame primary now a _ c Hi) as (a' & Hp & Hset & Hlen & _).
  exists a'. split; [done|]. split; [|split; [apply Hset|done]].
  unfold GC. rewrite Hc, Hp.
  destruct (Z.ltb_spec (LastWrite c) chunkMinTs); [|lia].
  destruct (Saved c) eqn:Hs; simpl; [|done].
  destruct (Z.ltb_spec (LastWrite c) metricMinTs); [|done].
  exfalso. by apply Hkeep.
Qed.

(** C7. [GC(chunkMinTs, metricMinTs)] returns [true] exactly when there is a
    current chunk, its last write is older than [chunkMinTs], it is saved
    and its last write is older than [metricMinTs] (the metric is then left
    as it is); it returns [false] on an empty buffer; when the current chunk
    is idle and the condition to drop does not hold, it calls [persist] on
    the current position, which returns, and answers [false] with the
    position and the number of chunks as they were; when the current chunk
    is not idle it answers [false] and changes nothing. *)
Theorem GC_decision (primary : bool) (now : Z) (a : AggMetric) (chunkMinTs metricMinTs : Z) :
  (forall a', GC primary now a chunkMinTs metricMinTs = Ok (true, a') <->
     a' = a /\
     exists c, getChunk a (CurrentChunkPos a) = Some c /\
       LastWrite c < chunkMinTs /\ Saved c = true /\ LastWrite c < metricMinTs) /\
  (Chunks a = [] -> GC primary now a chunkMinTs metricMinTs = Ok (false, a)) /\
  (forall c, getChunk a (CurrentChunkPos a) = Some c ->
     LastWrite c < chunkMinTs ->
     ~ (Saved c = true /\ LastWrite c < metricMinTs) ->
     exists a',
       persist primary now a (CurrentChunkPos a) = Ok a' /\
       GC primary now a chunkMinTs metricMinTs = Ok (false, a') /\
       CurrentChunkPos a' = CurrentChunkPos a /\
       length (Chunks a') = length (Chunks a)) /\
  (forall c, getChunk a (CurrentChunkPos a) = Some c ->
     chunkMinTs <= LastWrite c ->
     GC primary now a chunkMinTs metricMinTs = Ok (false, a)).
Proof.
  split; [|split; [|split]].
  - intros a'. unfold GC.
    destruct (getChunk a (CurrentChunkPos a)) as [c|] eqn:Hc.
    + destruct (Z.ltb_spec (LastWrite c) chunkMinTs) as [Hidle|Hbusy].
      * destruct (Saved c) eqn:Hs; simpl.
        -- destruct (Z.ltb_spec (LastWrite c) metricMinTs) as [Hold|Hrecent].
           ++ split.
              ** intros [= <-]. split; [done|]. exists c. done.
              ** intros [-> _]. done.
           ++ split.
              ** destruct (persist primary now a (CurrentChunkPos a)); simpl; discriminate.
              ** intros [_ (c' & [= <-] & _ & _ & Hlt)]. lia.
        -- split.
           ++ destruct (persist primary now a (CurrentChunkPos a)); simpl; discriminate.
           ++ intros [_ (c' & [= <-] & _ & Hs' & _)]. congruence.
      * split; [discriminate|].
        intros [_ (c' & [= <-] & Hlt & _)]. lia.
    + split; [discriminate|]. intros [_ (c' & ? & _)]. discriminate.
  - intros Hnil. unfold GC. by rewrite getChunk_nil.
  - intros c Hc Hidle Hkeep. by apply (GC_idle_persists primary now a _ _ c).
  - intros c Hc Hbusy. unfold GC. rewrite Hc.
    destruct (Z.ltb_spec (LastWrite c) chunkMinTs); [lia|done].
Qed.

(** ** The order of the requests of [persist] *)

Lemma rank_range (n cur p : Z) :
  0 <= cur < n -> 0 <= p < n -> 0 <= rank n cur p < n.
Proof. unfold rank. intros. zcases; lia. Qed.

Lemma rank_cur (n cur : Z) : rank n cur cur = n - 1.
Proof. unfold rank. zcases; lia. Qed.

Lemma rank_prev (n cur p : Z) :
  0 <= cur < n -> 0 <= p < n -> 1 <= rank n cur p ->
  rank n cur (prevPos n p) = rank n cur p - 1.
Proof. unfold rank, prevPos. intros ? ?. zcases; lia. Qed.

Lemma rank_next (n cur p : Z) :
  0 <= cur < n -> 0 <= p < n -> p <> cur ->
  rank n cur (nextPos n p) = rank n cur p + 1.
Proof. unfold rank, nextPos. intros ? ?. zcases; lia. Qed.

Lemma rank_oldest (n cur : Z) :
  0 <= cur < n -> rank n cur (nextPos n cur) = 0.
Proof. unfold rank, nextPos. intros ?. zcases; lia. Qed.

Lemma rank_inj (n cur p q : Z) :
  0 <= cur < n -> 0 <= p < n -> 0 <= q < n ->
  rank n cur p = rank n cur q -> p = q.
Proof. unfold rank. intros ? ? ?. zcases; lia. Qed.

Lemma StronglySorted_lt_snoc (l : list Z) (x : Z) :
  StronglySorted Z.lt l -> (forall y, y ∈ l -> y < x) ->
  StronglySorted Z.lt (l ++ [x]).
Proof.
  intros Hl Hx. apply StronglySorted_app_2; [|done|repeat constructor].
  intros y z Hy ->%list_elem_of_singleton. by apply Hx.
Qed.

Lemma backFrom_range (n : Z) (m : nat) :
  forall p q, 0 <= p < n -> q ∈ backFrom n p m -> 0 <= q < n.
Proof.
  induction m as [|m IH]; intros p q Hp Hq; simpl in Hq.
  - by apply elem_of_nil in Hq.
  - apply elem_of_cons in Hq as [->|Hq]; [done|].
    apply (IH (prevPos n p)); [by apply prevPos_range|done].
Qed.

Lemma backFrom_sorted (a : AggMetric) (m : nat) :
  let n := lenZ (Chunks a) in
  let cur := CurrentChunkPos a in
  sortedRing a -> 0 <= cur < n ->
  forall p, 0 <= p < n -> Z.of_nat m <= rank n cur p + 1 ->
    StronglySorted Z.lt (t0At (Chunks a) <$> reverse (backFrom n p m)) /\
    (forall q, q ∈ backFrom n p m -> rank n cur q <= rank n cur p).
Proof.
  intros n cur Hs Hcur. induction m as [|m IH]; intros p Hp Hm; simpl.
  - split; [constructor|]. intros q Hq. by apply elem_of_nil in Hq.
  - pose proof (prevPos_range n p Hp) as Hpp.
    assert (Hle : forall q, q ∈ backFrom n (prevPos n p) m ->
                    rank n cur q < rank n cur p).
    { destruct m as [|m']; [intros q Hq; by apply elem_of_nil in Hq|].
      intros q Hq. destruct (IH (prevPos n p) Hpp) as [_ Hr].
      - rewrite rank_prev by (done || lia). lia.
      - specialize (Hr q Hq). rewrite rank_prev in Hr by (done || lia). lia. }
    split.
    + rewrite reverse_cons, fmap_app. simpl.
      apply StronglySorted_lt_snoc.
      * destruct m as [|m']; [constructor|].
        apply IH; [done|]. rewrite rank_prev by (done || lia). lia.
      * intros y (q & -> & Hq)%list_elem_of_fmap.
        apply (proj1 (elem_of_reverse _ _)) in Hq.
        pose proof (backFrom_range n m _ q Hpp Hq) as Hqr.
        destruct (index_in_range (Chunks a) q Hqr) as [cq Hcq].
        destruct (index_in_range (Chunks a) p Hp) as [cp Hcp].
        unfold t0At. rewrite Hcq, Hcp. simpl.
        apply (Hs q p cq cp Hcq Hcp). by apply Hle.
    + intros q [->|Hq]%elem_of_cons; [lia|]. specialize (Hle q Hq). lia.
Qed.

Lemma requestsFor_app (now : Z) (a : AggMetric) (chunks : list Chunk) (ps qs : list Z) :
  requestsFor now a chunks (ps ++ qs)
    = requestsFor now a chunks ps ++ requestsFor now a chunks qs.
Proof.
  induction ps as [|p ps IH]; simpl; [done|].
  destruct (index chunks p); simpl; by rewrite IH.
Qed.

Lemma requestsFor_T0s (now : Z) (a : AggMetric) (chunks : list Chunk) (ps : list Z) :
  (forall p, p ∈ ps -> 0 <= p < lenZ chunks) ->
  requestT0s (requestsFor now a chunks ps) = t0At chunks <$> ps.
Proof.
  induction ps as [|p ps IH]; intros H; [done|].
  destruct (index_in_range chunks p) as [c Hc]; [apply H; left|].
  rewrite fmap_cons. cbn [requestsFor]. rewrite Hc.
  unfold requestT0s in *. rewrite fmap_cons. f_equal.
  - unfold t0At. by rewrite Hc.
  - apply IH. intros q Hq. apply H. by right.
Qed.

Lemma requestsFor_keys (now : Z) (a : AggMetric) (chunks : list Chunk) (ps : list Z) :
  Forall (fun r => key r = Key a /\ ttl r = ttl_ a) (requestsFor now a chunks ps).
Proof.
  induction ps as [|p ps IH]; simpl; [constructor|].
  destruct (index chunks p); [constructor|]; done.
Qed.

Lemma t0At_Finish (now : Z) (chunks : list Chunk) (pos : Z) (c : Chunk) (q : Z) :
  index chunks pos = Some c ->
  t0At (<[Z.to_nat pos := Finish now c]> chunks) q = t0At chunks q.
Proof.
  intros Hc. pose proof (index_range _ _ _ Hc). unfold t0At.
  destruct (Z.eq_dec pos q) as [<-|Hne].
  - rewrite index_insert_eq by done. by rewrite Hc.
  - by rewrite index_insert_ne by lia.
Qed.

Lemma unsavedBefore_true (t : Z) (c : Chunk) :
  unsavedBefore t c = true <-> T0 c < t /\ Saved c = false /\ Saving c = false.
Proof.
  unfold unsavedBefore. destruct (Z.ltb_spec (T0 c) t), (Saved c), (Saving c);
    simpl; split; try done; try lia; intros (? & ? & ?); (done || lia).
Qed.

Lemma unsavedBefore_false (t : Z) (c : Chunk) :
  unsavedBefore t c = false <-> t <= T0 c \/ Saved c = true \/ Saving c = true.
Proof.
  unfold unsavedBefore. destruct (Z.ltb_spec (T0 c) t), (Saved c), (Saving c);
    simpl; split; try done; try lia; try tauto; intros [?|[?|?]]; (done || lia).
Qed.

(** What [persist(pos)] does, for [pos] the position of a chunk [c].  On a
    node that is not primary the chunk is finished and nothing else
    happens.  On a primary the chunk is finished and the requests handed to
    the store are those for the chunk at [pos] and for the run of [m]
    chunks met walking backward from [pos] with wrap, each of which is older
    than [c] and neither saved nor being saved; the chunk after the run is
    saved, being saved, or not older than [c].  The requests are made in
    the reverse of that walk, all under the key of the metric, and [Saving]
    is set on exactly the chunks of the requests.  When [pos] is the current
    position of a ring ordered in time, the [T0]s handed to the store
    increase. *)
Lemma persist_requests (now : Z) (a : AggMetric) (pos : Z) (c : Chunk) :
  index (Chunks a) pos = Some c ->
  let n := lenZ (Chunks a) in
  let finished := <[Z.to_nat pos := Finish now c]> (Chunks a) in
  persist false now a pos = Ok (setChunks a finished) /\
  exists m : nat,
    let run := backFrom n (prevPos n pos) m in
    let reqs := requestsFor now a finished (reverse (pos :: run)) in
    Z.of_nat m < n /\
    (forall q, q ∈ run ->
       exists cq, index (Chunks a) q = Some cq /\
         T0 cq < T0 c /\ Saved cq = false /\ Saving cq = false) /\
    (exists cq, index (Chunks a) (backAt n (prevPos n pos) m) = Some cq /\
       (T0 c <= T0 cq \/ Saved cq = true \/ Saving cq = true)) /\
    persist true now a pos
      = Ok (setChunks (setStore a (store a ++ reqs))
              (markSaving (reverse (pos :: run)) finished)) /\
    Forall (fun r => key r = Key a /\ ttl r = ttl_ a) reqs /\
    requestT0s reqs = t0At (Chunks a) <$> reverse (pos :: run) /\
    (forall q, q ∈ pos :: run ->
       index (markSaving (reverse (pos :: run)) finished) q
         = setSaving <$> index finished q) /\
    (forall q, q ∉ pos :: run ->
       index (markSaving (reverse (pos :: run)) finished) q = index finished q) /\
    (pos = CurrentChunkPos a -> sortedRing a ->
       StronglySorted Z.lt (requestT0s reqs)).
Proof.
  intros Hc n finished. pose proof (index_range _ _ _ Hc) as Hpos.
  split; [by apply persist_secondary|].
  destruct (persist_primary now a pos c Hc) as (m & He & Hm & Hnd & Hrange & Hrun & Hstop).
  fold n in He, Hm, Hnd, Hrange, Hrun, Hstop. fold finished in He.
  exists m. cbv zeta.
  assert (Hnn : forall p, p ∈ reverse (pos :: backFrom n (prevPos n pos) m) -> 0 <= p).
  { intros p Hp. apply (proj1 (elem_of_reverse _ _)) in Hp. by apply Hrange. }
  assert (HT0s : requestT0s (requestsFor now a finished
                   (reverse (pos :: backFrom n (prevPos n pos) m)))
                 = t0At (Chunks a) <$> reverse (pos :: backFrom n (prevPos n pos) m)).
  { rewrite requestsFor_T0s.
    - apply list_fmap_ext. intros _ q _. by apply t0At_Finish.
    - intros p Hp. apply (proj1 (elem_of_reverse _ _)) in Hp.
      unfold finished. rewrite lenZ_insert. by apply Hrange. }
  split; [done|]. split; [|split; [|split; [done|split; [|split; [done|split; [|split]]]]]].
  - intros q Hq. destruct (Hrun q Hq) as (_ & cq & Hcq & Hg).
    exists cq. split; [done|]. by apply unsavedBefore_true.
  - destruct Hstop as (cq & Hcq & Hg). exists cq. split; [done|].
    by apply unsavedBefore_false.
  - apply requestsFor_keys.
  - intros q Hq. apply markSaving_in; [done|by rewrite reverse_Permutation|].
    by apply elem_of_reverse_2.
  - intros q Hq. apply markSaving_notin; [done|].
    intros Hin. apply Hq. by apply (proj1 (elem_of_reverse _ _)).
  - intros -> Hs. rewrite HT0s, reverse_cons, fmap_app. simpl.
    destruct (backFrom_sorted a m Hs Hpos (prevPos n (CurrentChunkPos a)))
      as [Hsorted Hranks].
    { by apply prevPos_range. }
    { pose proof (rank_range n (CurrentChunkPos a) (prevPos n (CurrentChunkPos a)) Hpos
                    (prevPos_range _ _ Hpos)) as Hr.
      fold n. destruct (Z.eq_dec n 1) as [Hn|Hn]; [lia|].
      rewrite rank_prev; rewrite ?rank_cur; (done || lia). }
    apply StronglySorted_lt_snoc; [done|].
    intros y (q & -> & Hq)%list_elem_of_fmap.
    apply (proj1 (elem_of_reverse _ _)) in Hq.
    destruct (Hrun q Hq) as (Hne & cq & Hcq & Hg).
    apply unsavedBefore_true in Hg as [Hlt _].
    unfold t0At. rewrite Hcq, Hc. done.
Qed.

(** On a primary the last request of [persist] is for the chunk at [pos]
    itself, whatever its flags. *)
Lemma persist_primary_store (now : Z) (a : AggMetric) (pos : Z) (c : Chunk) :
  index (Chunks a) pos = Some c ->
  exists a' older,
    persist true now a pos = Ok a' /\
    store a' = store a ++ older ++ [mkReq (Key a) (Finish now c) (ttl_ a) now] /\
    index (Chunks a') pos = Some (setSaving (Finish now c)) /\
    sameSettings a a'.
Proof.
  intros Hc. pose proof (index_range _ _ _ Hc) as Hpos.
  destruct (persist_primary now a pos c Hc) as (m & He & Hm & Hnd & Hrange & _).
  cbv zeta in He, Hnd, Hrange.
  set (run := backFrom _ _ m) in *.
  set (finished := <[Z.to_nat pos := Finish now c]> (Chunks a)) in *.
  assert (Hf : index finished pos = Some (Finish now c)) by by apply index_insert_eq.
  eexists. exists (requestsFor now a finished (reverse run)).
  split; [exact He|]. simpl. split; [|split; [|by repeat split]].
  - rewrite reverse_cons, requestsFor_app. simpl. by rewrite Hf.
  - rewrite markSaving_in, Hf; [done| | |].
    + intros p Hp. apply (proj1 (elem_of_reverse _ _)) in Hp. by apply Hrange.
    + by rewrite reverse_Permutation.
    + apply elem_of_reverse_2. left.
Qed.

(** C10. On a primary, [persist] hands the store a request for the chunk at
    [pos] whatever the [Saving] and [Saved] flags of that chunk are.  Hence
    a call of [GC] that finds the current chunk idle and does not drop the
    metric ends with a request for the current chunk, and so does the next
    such call, although the chunk then carries [Saving = true]: the store
    is given the same key and [T0] again. *)
Theorem persist_resends_current (now : Z) (a : AggMetric) (pos : Z) (c : Chunk) :
  index (Chunks a) pos = Some c ->
  (exists a' older,
     persist true now a pos = Ok a' /\
     store a' = store a ++ older ++ [mkReq (Key a) (Finish now c) (ttl_ a) now]) /\
  (pos = CurrentChunkPos a ->
   forall chunkMinTs metricMinTs,
     LastWrite c < chunkMinTs ->
     ~ (Saved c = true /\ LastWrite c < metricMinTs) ->
     exists a1 older1,
       GC true now a chunkMinTs metricMinTs = Ok (false, a1) /\
       store a1 = store a ++ older1 ++ [mkReq (Key a) (Finish now c) (ttl_ a) now] /\
       exists c1,
         getChunk a1 (CurrentChunkPos a1) = Some c1 /\
         T0 c1 = T0 c /\ Saving c1 = true /\
         forall now2 chunkMinTs2 metricMinTs2,
           LastWrite c1 < chunkMinTs2 ->
           ~ (Saved c1 = true /\ LastWrite c1 < metricMinTs2) ->
           exists a2 older2,
             GC true now2 a1 chunkMinTs2 metricMinTs2 = Ok (false, a2) /\
             store a2 = store a1 ++ older2
                          ++ [mkReq (Key a) (Finish now2 c1) (ttl_ a) now2]).
Proof.
  intros Hc. split.
  - destruct (persist_primary_store now a pos c Hc) as (a' & older & ? & ? & _).
    by exists a', older.
  - intros -> cmin mmin Hidle Hkeep.
    destruct (persist_primary_store now a _ c Hc) as (a1 & older1 & Hp1 & Hs1 & Hc1 & Hset1).
    destruct Hset1 as (Hk1 & Hcur1 & _ & _ & _ & _ & Httl1).
    destruct (GC_idle_persists true now a cmin mmin c) as (a1' & Hp1' & Hgc1 & _);
      [by rewrite getChunk_index|done..|].
    assert (a1' = a1) as -> by congruence.
    exists a1, older1. split; [done|]. split; [done|].
    rewrite <- Hcur1 in Hc1.
    exists (setSaving (Finish now c)). split; [by rewrite getChunk_index|].
    split; [done|]. split; [done|].
    intros now2 cmin2 mmin2 Hidle2 Hkeep2.
    destruct (persist_primary_store now2 a1 _ _ Hc1) as (a2 & older2 & Hp2 & Hs2 & _).
    destruct (GC_idle_persists true now2 a1 cmin2 mmin2 (setSaving (Finish now c)))
      as (a2' & Hp2' & Hgc2 & _); [by rewrite getChunk_index|done..|].
    assert (a2' = a2) as -> by congruence.
    exists a2, older2. split; [done|]. by rewrite Hs2, Hk1, Httl1.
Qed.

(** ** The scenarios *)

Ltac evaluate :=
  repeat match goal with
  | |- _ /\ _ => split; [vm_compute; reflexivity|]
  end;
  vm_compute; reflexivity.

(** C1, at the input where the code departs from it.  With spans of 60
    seconds and room for 3 chunks, after the single sample [(100, 1.0)] the
    ring holds one chunk, [T0 = 60 = firstChunkT0]; on a node that is not
    primary [Get(90, 110)] steps from that chunk to the next slot, which
    wraps to the same chunk, and serves it: the answer is [60] with an
    iterator over the first chunk, not [(MaxInt32, [])]. *)
Theorem secondary_serves_single_first_chunk :
  exists w c,
    Add inOrder false 1000 (freshWorld 60 3) 100 1%float = Ok w /\
    Chunks (metric w) = [c] /\
    T0 c = 60 /\ firstChunkT0 (metric w) = 60 /\ points c = [(100, 1%float)] /\
    servedOldest false (metric w) = Some (0, c) /\
    Get false (metric w) 90 110 = Ok (60, [NewIter c]).
Proof. eexists _, _. evaluate. Qed.

Lemma GrowNumChunks_below (a : AggMetric) (numChunks : Z) :
  wrap32 (lenZ (Chunks a)) < numChunks ->
  GrowNumChunks a numChunks = Ok (setNumChunks a numChunks).
Proof.
  intros H. unfold GrowNumChunks. simpl.
  destruct (Z.ltb_spec (wrap32 (lenZ (Chunks a))) numChunks); [done|lia].
Qed.

(** C2, at the input where the code departs from it.  [GrowNumChunks]
    compares the length with the new capacity, so whenever the length is
    below it the call only raises the capacity.  The ring of 3 slots filled
    and wrapped to [[180; 60; 120]] with the current position [0] is thus
    left as it is by [GrowNumChunks(5)]; the next [Add], at 240, appends a
    chunk in slot 3 but moves the current position to slot 1 and pushes the
    point into the chunk with [T0 = 60]. *)
Theorem grow_after_wrap_keeps_layout :
  (forall a numChunks,
     wrap32 (lenZ (Chunks a)) < numChunks ->
     GrowNumChunks a numChunks = Ok (setNumChunks a numChunks)) /\
  exists w a w',
    addAll false 1 (freshWorld 60 3)
      [(30, 1%float); (60, 2%float); (120, 3%float); (180, 4%float)] = Ok w /\
    ringT0s (metric w) = [180; 60; 120] /\ CurrentChunkPos (metric w) = 0 /\
    GrowNumChunks (metric w) 5 = Ok a /\
    ringT0s a = [180; 60; 120] /\ CurrentChunkPos a = 0 /\ NumChunks a = 5 /\
    Add inOrder false 5 (setMetric w a) 240 5%float = Ok w' /\
    ringT0s (metric w') = [180; 60; 120; 240] /\
    CurrentChunkPos (metric w') = 1 /\
    (points <$> Chunks (metric w'))
      = [[(180, 4%float)]; [(60, 2%float); (240, 5%float)]; [(120, 3%float)]; []].
Proof. split; [apply GrowNumChunks_below|]. eexists _, _, _. evaluate. Qed.

(** ** Get: the answers without data *)

Lemma getChunk_in_range (a : AggMetric) (p : Z) :
  0 <= p < lenZ (Chunks a) -> exists c, getChunk a p = Some c.
Proof. rewrite getChunk_index. apply index_in_range. Qed.

Lemma getChunk_range (a : AggMetric) (p : Z) (c : Chunk) :
  getChunk a p = Some c -> 0 <= p < lenZ (Chunks a).
Proof. rewrite getChunk_index. apply index_range. Qed.




Lemma servedOldest_range (primary : bool) (a : AggMetric) (p : Z) (c : Chunk) :
  servedOldest primary a = Some (p, c) -> getChunk a p = Some c.
Proof.
  unfold servedOldest.
  destruct (getChunk a (nextPos _ (CurrentChunkPos a))) as [c1|] eqn:H1; [|done].
  destruct (negb primary && (T0 c1 =? firstChunkT0 a)).
  - destruct (getChunk a (nextPos _ (nextPos _ _))) as [c2|] eqn:H2; [|done].
    by intros [= <- <-].
  - by intros [= <- <-].
Qed.

Lemma servedOldest_is_Some (primary : bool) (a : AggMetric) (newest : Chunk) :
  getChunk a (CurrentChunkPos a) = Some newest ->
  exists p c, servedOldest primary a = Some (p, c).
Proof.
  intros Hn%getChunk_range. unfold servedOldest.
  pose proof (nextPos_range (lenZ (Chunks a)) (CurrentChunkPos a)) as H1.
  destruct (getChunk_in_range a (nextPos (lenZ (Chunks a)) (CurrentChunkPos a)))
    as [c1 ->]; [lia|].
  destruct (negb primary && (T0 c1 =? firstChunkT0 a)); [|by eauto].
  pose proof (nextPos_range (lenZ (Chunks a))
                (nextPos (lenZ (Chunks a)) (CurrentChunkPos a))) as H2.
  destruct (getChunk_in_range a
              (nextPos (lenZ (Chunks a)) (nextPos (lenZ (Chunks a)) (CurrentChunkPos a))))
    as [c2 ->]; [lia|]. by eauto.
Qed.

(** ** Add *)

Section IngestFacts.

Variable accepts : Chunk -> Z -> float -> bool.

Lemma Add_cases (primary : bool) (now : Z) (w : World) (ts : Z) (val : float) (w' : World) :
  Add accepts primary now w ts val = Ok w' <->
  ChunkSpan (metric w) <> 0 /\ AddCase accepts primary now w ts val w'.
Proof.
  unfold Add. split.
  - destruct (Z.eqb_spec (ChunkSpan (metric w)) 0) as [|Hspan]; [done|].
    intros H. split; [done|]. revert H.
    destruct (getChunk (metric w) (CurrentChunkPos (metric w))) as [c|] eqn:Hc.
    + destruct (Z.eqb_spec (quantize (ChunkSpan (metric w)) ts) (T0 c)) as [Ht|Ht].
      * destruct (Saved c) eqn:Hs.
        -- intros [= <-]. by eapply AddSaved.
        -- unfold Push. destruct (accepts c ts val) eqn:Hacc.
           ++ intros [= <-]. by eapply AddSame.
           ++ intros [= <-]. by eapply AddRefused.
      * destruct (Z.ltb_spec (quantize (ChunkSpan (metric w)) ts) (T0 c)) as [Hlt|Hge].
        -- intros [= <-]. by eapply AddOld.
        -- destruct (persist primary now (metric w) (CurrentChunkPos (metric w)))
             as [a1| |] eqn:Hp; simpl; [|done|done].
           destruct (Z.ltb_spec (lenZ (Chunks a1)) (NumChunks a1)) as [Hroom|Hfull].
           ++ destruct (index _ _) as [cnew|] eqn:Hnew; [|done].
              unfold Push. destruct (accepts cnew ts val) eqn:Hacc; [|done].
              intros [= <-]. eapply AddAppend; eauto. lia.
           ++ destruct (index _ _) as [old|] eqn:Hold; [|done].
              unfold Push. destruct (accepts (NewChunk _ _) ts val) eqn:Hacc; [|done].
              intros [= <-]. eapply AddOverwrite; eauto. lia.
    + destruct (index _ 0) as [c0|] eqn:H0; [|done].
      unfold Push. destruct (accepts c0 ts val) eqn:Hacc; [|done].
      intros [= <-]. by eapply AddFirst.
  - intros [Hspan Hcase].
    destruct (Z.eqb_spec (ChunkSpan (metric w)) 0) as [|_]; [done|].
    destruct Hcase as [c0 a t0 chunks Hc H0 Hacc
                      |c a Hc Ht Hs Hacc|c a Hc Ht Hs|c a Hc Ht Hs Hacc|c a Hc Hlt
                      |c a1 cnew a t0 pos chunks Hc Hlt Hp Hroom Hnew Hacc
                      |c a1 old a t0 pos Hc Hlt Hp Hfull Hold Hacc];
      subst a; rewrite Hc.
    + subst chunks t0. rewrite H0. unfold Push. by rewrite Hacc.
    + rewrite Ht, Z.eqb_refl, Hs. unfold Push. by rewrite Hacc.
    + by rewrite Ht, Z.eqb_refl, Hs.
    + rewrite Ht, Z.eqb_refl, Hs. unfold Push. by rewrite Hacc.
    + destruct (Z.eqb_spec (quantize (ChunkSpan (metric w)) ts) (T0 c)); [lia|].
      by destruct (Z.ltb_spec (quantize (ChunkSpan (metric w)) ts) (T0 c)); [|lia].
    + subst t0. destruct (Z.eqb_spec (quantize (ChunkSpan (metric w)) ts) (T0 c)); [lia|].
      destruct (Z.ltb_spec (quantize (ChunkSpan (metric w)) ts) (T0 c)); [lia|].
      rewrite Hp. simpl.
      destruct (Z.ltb_spec (lenZ (Chunks a1)) (NumChunks a1)); [|lia].
      subst chunks pos. rewrite Hnew. unfold Push. by rewrite Hacc.
    + subst t0. destruct (Z.eqb_spec (quantize (ChunkSpan (metric w)) ts) (T0 c)); [lia|].
      destruct (Z.ltb_spec (quantize (ChunkSpan (metric w)) ts) (T0 c)); [lia|].
      rewrite Hp. simpl.
      destruct (Z.ltb_spec (lenZ (Chunks a1)) (NumChunks a1)); [lia|].
      subst pos. rewrite Hold. unfold Push. by rewrite Hacc.
Qed.

Lemma pushed_neq (now : Z) (c : Chunk) (ts : Z) (val : float) :
  pushed now c ts val <> c.
Proof.
  intros H. apply (f_equal (fun x => length (points x))) in H. simpl in H.
  rewrite length_app in H. simpl in H. lia.
Qed.

Lemma SyncChunkSaveState_current (a : AggMetric) (c : Chunk) :
  getChunk a (CurrentChunkPos a) = Some c ->
  SyncChunkSaveState a (T0 c)
    = Ok (setChunks a (alter setSaved (Z.to_nat (CurrentChunkPos a)) (Chunks a))).
Proof.
  intros Hc. pose proof (getChunk_range _ _ _ Hc) as Hr.
  rewrite getChunk_index in Hc.
  unfold SyncChunkSaveState, getChunkByT0.
  destruct (Z.eqb_spec (lenZ (Chunks a)) 0); [lia|].
  rewrite Hc. by rewrite Z.eqb_refl.
Qed.

(** C4, amended.  When there is a current chunk [c] and [t0] is the
    quantized timestamp of the sample, [Add] returns with the whole state
    as it was (chunks, positions, flags, counters, aggregators and store)
    in exactly three cases: [t0 < T0 c]; [t0 = T0 c] with [c] saved; and
    [t0 = T0 c] with [c] not saved and the push refused by the chunk.
    After [SyncChunkSaveState (T0 c)], an [Add] with that [t0] leaves the
    state as it is. *)
Theorem Add_rejects (primary : bool) (now : Z) (w : World) (ts : Z) (val : float)
    (c : Chunk) :
  ChunkSpan (metric w) <> 0 ->
  getChunk (metric w) (CurrentChunkPos (metric w)) = Some c ->
  (Add accepts primary now w ts val = Ok w <->
     quantize (ChunkSpan (metric w)) ts < T0 c \/
     (quantize (ChunkSpan (metric w)) ts = T0 c /\ Saved c = true) \/
     (quantize (ChunkSpan (metric w)) ts = T0 c /\ Saved c = false /\
      accepts c ts val = false)) /\
  (quantize (ChunkSpan (metric w)) ts = T0 c ->
   exists a',
     SyncChunkSaveState (metric w) (T0 c) = Ok a' /\
     Add accepts primary now (setMetric w a') ts val = Ok (setMetric w a')).
Proof.
  intros Hspan Hc. split.
  - rewrite Add_cases. split.
    + intros [_ Hcase]. inversion Hcase as
        [c0 a t0 chunks Hc' H0 Hacc Hw
        |c' a Hc' Ht Hs Hacc Hw|c' a Hc' Ht Hs|c' a Hc' Ht Hs Hacc|c' a Hc' Hlt
        |c' a1 cnew a t0 pos chunks Hc' Hlt Hp Hroom Hnew Hacc Hw
        |c' a1 old a t0 pos Hc' Hlt Hp Hfull Hold Hacc Hw]; subst a;
        rewrite Hc in Hc'; try discriminate; injection Hc' as <-.
      * exfalso. apply (f_equal (fun x => index (Chunks (metric x))
                                   (CurrentChunkPos (metric w)))) in Hw.
        simpl in Hw. rewrite <- getChunk_index, Hc in Hw.
        rewrite index_insert_eq in Hw by (by eapply getChunk_range).
        injection Hw as Hw. by apply pushed_neq in Hw.
      * right. by left.
      * right. by right.
      * by left.
      * exfalso. apply (f_equal chunkCreate) in Hw. simpl in Hw. lia.
      * exfalso. apply (f_equal chunkCreate) in Hw. simpl in Hw. lia.
    + intros H. split; [done|]. destruct H as [Hlt|[[Ht Hs]|(Ht & Hs & Hacc)]].
      * by eapply AddOld.
      * by eapply AddSaved.
      * by eapply AddRefused.
  - intros Ht. eexists. split; [by apply SyncChunkSaveState_current|].
    apply Add_cases. split; [done|].
    eapply (AddSaved _ _ _ _ _ _ (setSaved c)); simpl; [|done|done].
    rewrite getChunk_index in *. simpl.
    rewrite index_alter_eq by (apply index_range in Hc; lia). by rewrite Hc.
Qed.

End IngestFacts.

(** ** getChunkByT0 finds only chunks with the requested T0 *)

Lemma scanNewer_sound (chunks : list Chunk) (currentT0 ts : Z) (fuel : nat) :
  forall guess c p,
    scanNewer fuel chunks currentT0 ts guess c = Ok (Some p) ->
    exists cp, index chunks p = Some cp /\ T0 cp = ts.
Proof.
  induction fuel as [|fuel IH]; intros guess c p; simpl.
  - by destruct (T0 c <? currentT0).
  - destruct (T0 c <? currentT0); [|done].
    destruct (index chunks (nextPos (lenZ chunks) guess)) as [c'|] eqn:Hc'; [|done].
    destruct (Z.eqb_spec (T0 c') ts) as [Ht|Ht].
    + intros [= <-]. eauto.
    + apply IH.
Qed.

Lemma scanOlder_sound (chunks : list Chunk) (oldestT0 currentT0 ts : Z) (fuel : nat) :
  forall guess c p,
    scanOlder fuel chunks oldestT0 currentT0 ts guess c = Ok (Some p) ->
    exists cp, index chunks p = Some cp /\ T0 cp = ts.
Proof.
  induction fuel as [|fuel IH]; intros guess c p; simpl.
  - by destruct ((T0 c >=? oldestT0) && (T0 c <? currentT0)).
  - destruct ((T0 c >=? oldestT0) && (T0 c <? currentT0)); [|done].
    destruct (index chunks (prevPos (lenZ chunks) guess)) as [c'|] eqn:Hc'; [|done].
    destruct (Z.eqb_spec (T0 c') ts) as [Ht|Ht].
    + intros [= <-]. eauto.
    + apply IH.
Qed.

Lemma getChunkByT0_sound (a : AggMetric) (ts p : Z) :
  getChunkByT0 a ts = Ok (Some p) ->
  exists cp, index (Chunks a) p = Some cp /\ T0 cp = ts.
Proof.
  unfold getChunkByT0.
  destruct (lenZ (Chunks a) =? 0); [done|].
  destruct (index (Chunks a) (CurrentChunkPos a)) as [cur|] eqn:Hcur; [|done].
  destruct (Z.eqb_spec ts (T0 cur)) as [Ht|Ht].
  { intros [= <-]. eauto. }
  destruct (ts >? T0 cur); [done|].
  destruct (lenZ (Chunks a) =? 1); [done|].
  destruct (ChunkSpan a =? 0); [done|].
  set (guess := if _ >=? _ then _ else _).
  destruct (index (Chunks a) guess) as [c|] eqn:Hc; [|done].
  destruct (Z.eqb_spec (T0 c) ts) as [Htc|Htc].
  { intros [= <-]. eauto. }
  destruct (ts >? T0 c).
  - apply scanNewer_sound.
  - destruct (index (Chunks a) (nextPos _ _)) as [oldest|]; [|done].
    apply scanOlder_sound.
Qed.

(** [SyncChunkSaveState] either changes nothing or sets [Saved] on one chunk
    whose [T0] is the one asked for. *)
Lemma SyncChunkSaveState_cases (a : AggMetric) (ts : Z) (a' : AggMetric) :
  SyncChunkSaveState a ts = Ok a' ->
  (getChunkByT0 a ts = Ok None /\ a' = a) \/
  (exists p c, getChunkByT0 a ts = Ok (Some p) /\
     index (Chunks a) p = Some c /\ T0 c = ts /\
     a' = setChunks a (alter setSaved (Z.to_nat p) (Chunks a))).
Proof.
  unfold SyncChunkSaveState.
  destruct (getChunkByT0 a ts) as [[p|]| |] eqn:Hg; simpl; [|by left; split; congruence|done..].
  intros [= <-]. right.
  destruct (getChunkByT0_sound a ts p Hg) as (c & Hc & Ht). by exists p, c.
Qed.

(** ** The position of the current chunk *)

Lemma PosInv_getChunk_None (a : AggMetric) :
  PosInv a -> getChunk a (CurrentChunkPos a) = None -> Chunks a = [].
Proof.
  intros [Hok _] Hnone. destruct (Chunks a) as [|c l] eqn:Hl; [done|].
  exfalso. destruct Hok as [Hr _]; [by rewrite Hl|].
  destruct (getChunk_in_range a _ Hr). congruence.
Qed.

Lemma PosInv_same_shape (a a' : AggMetric) :
  CurrentChunkPos a' = CurrentChunkPos a -> NumChunks a' = NumChunks a ->
  length (Chunks a') = length (Chunks a) ->
  PosInv a -> PosInv a'.
Proof.
  intros Hcur Hn Hlen [Hok Hnil]. unfold PosInv, posOK, lenZ in *.
  rewrite Hcur, Hn, Hlen. split.
  - intros Hne. apply Hok. intros H. apply Hne.
    apply length_zero_iff_nil. rewrite Hlen. by rewrite H.
  - intros H. apply Hnil. apply length_zero_iff_nil. rewrite <- Hlen. by rewrite H.
Qed.

Section Bounds.

Variable accepts : Chunk -> Z -> float -> bool.

Lemma Add_PosInv (primary : bool) (now : Z) (w : World) (ts : Z) (val : float) (w' : World) :
  Add accepts primary now w ts val = Ok w' ->
  1 <= NumChunks (metric w) -> PosInv (metric w) ->
  PosInv (metric w') /\ NumChunks (metric w') = NumChunks (metric w).
Proof.
  intros [_ Hcase]%Add_cases HN Hinv.
  destruct Hcase as [c0 a t0 chunks Hc H0 Hacc
                    |c a Hc Ht Hs Hacc|c a Hc Ht Hs|c a Hc Ht Hs Hacc|c a Hc Hlt
                    |c a1 cnew a t0 pos chunks Hc Hlt Hp Hroom Hnew Hacc
                    |c a1 old a t0 pos Hc Hlt Hp Hfull Hold Hacc];
    subst a; try done.
  - pose proof (PosInv_getChunk_None _ Hinv Hc) as Hnil.
    destruct Hinv as [_ Hcur]. specialize (Hcur Hnil).
    split; [|done]. subst chunks. rewrite Hnil. simpl.
    split.
    + intros _. simpl. rewrite Hcur. unfold lenZ. simpl. lia.
    + done.
  - split; [|done]. eapply PosInv_same_shape; [..|exact Hinv]; simpl; try done.
    by rewrite length_insert.
  - rewrite getChunk_index in Hc.
    destruct (persist_frame primary now _ _ c Hc) as (a1' & Hp' & Hset & Hlen & _).
    assert (a1' = a1) as -> by congruence.
    destruct Hset as (_ & Hcur & Hnum & _).
    pose proof (index_range _ _ _ Hc) as Hr.
    assert (Hl1 : lenZ (Chunks a1) = lenZ (Chunks (metric w)))
      by (unfold lenZ; by rewrite Hlen).
    split; [|done]. subst chunks pos. unfold PosInv, posOK, lenZ in *. simpl.
    rewrite length_insert, length_app. simpl. split.
    + intros _. unfold nextPos. zcases; lia.
    + intros Hnil. apply (f_equal length) in Hnil.
      rewrite length_insert, length_app in Hnil. simpl in Hnil. lia.
  - rewrite getChunk_index in Hc.
    destruct (persist_frame primary now _ _ c Hc) as (a1' & Hp' & Hset & Hlen & _).
    assert (a1' = a1) as -> by congruence.
    destruct Hset as (_ & Hcur & Hnum & _).
    pose proof (index_range _ _ _ Hold) as Hr.
    pose proof (index_range _ _ _ Hc) as Hrc.
    destruct Hinv as [Hok _]. destruct Hok as [_ Hcap].
    { intros Hnil. rewrite Hnil in Hrc. unfold lenZ in Hrc. simpl in Hrc. lia. }
    split; [|done]. subst pos. unfold PosInv, posOK, lenZ in *. simpl.
    rewrite length_insert. split.
    + intros _. lia.
    + intros Hnil. apply (f_equal length) in Hnil.
      rewrite length_insert in Hnil. simpl in Hnil. lia.
Qed.

Lemma step_PosInv (w w' : World) :
  step accepts w w' ->
  1 <= NumChunks (metric w) -> PosInv (metric w) ->
  PosInv (metric w') /\ NumChunks (metric w') = NumChunks (metric w).
Proof.
  intros [primary now w1 ts val w2 _ Hadd
         |primary now w1 cmin mmin b a' Hgc
         |w1 ts a' Hsync] HN Hinv.
  - by eapply Add_PosInv.
  - simpl. unfold GC in Hgc.
    destruct (getChunk (metric w1) _) as [c|] eqn:Hc; [|by injection Hgc as _ <-].
    destruct (LastWrite c <? cmin); [|by injection Hgc as _ <-].
    destruct (Saved c && _); [by injection Hgc as _ <-|].
    rewrite getChunk_index in Hc.
    destruct (persist_frame primary now _ _ c Hc) as (a1 & Hp & Hset & Hlen & _).
    rewrite Hp in Hgc. simpl in Hgc. injection Hgc as _ <-.
    destruct Hset as (_ & Hcur & Hnum & _).
    split; [|done]. by eapply PosInv_same_shape.
  - simpl. apply SyncChunkSaveState_cases in Hsync as [[_ ->]|(p & c & _ & _ & _ & ->)];
      [done|].
    split; [|done]. eapply PosInv_same_shape; [..|exact Hinv]; simpl; try done.
    by rewrite length_alter.
Qed.

(** C9. With [NumChunks] at least 1 and left alone, every public operation
    that returns preserves the predicate "when the list of chunks is not
    empty, [0 <= CurrentChunkPos < len(Chunks)] and
    [len(Chunks) <= NumChunks]" (taken with "an empty buffer has its
    position at 0", which holds of a new metric); so the predicate holds in
    every state reached from a new metric, where the current chunk is
    therefore found whenever the buffer is not empty. *)
Theorem position_stays_in_bounds :
  (forall w w',
     step accepts w w' ->
     1 <= NumChunks (metric w) -> PosInv (metric w) ->
     PosInv (metric w') /\ NumChunks (metric w') = NumChunks (metric w)) /\
  (forall chunkSpan numChunks w,
     1 <= numChunks ->
     reachable accepts chunkSpan numChunks w ->
     NumChunks (metric w) = numChunks /\
     posOK (metric w) /\
     (Chunks (metric w) <> [] ->
      exists c, getChunk (metric w) (CurrentChunkPos (metric w)) = Some c)).
Proof.
  split; [apply step_PosInv|].
  intros chunkSpan numChunks w HN (st & k & ttl0 & aggs & w0 & Hw0 & Hsteps).
  assert (H : PosInv (metric w) /\ NumChunks (metric w) = numChunks).
  { revert w Hsteps. apply rtc_ind_r.
    - rewrite Hw0. split; [|done]. split; [intros H; by destruct H|done].
    - intros w1 w2 _ Hstep [Hinv Hnum].
      destruct (step_PosInv _ _ Hstep) as [Hinv' Hnum']; [lia|done|].
      split; [done|congruence]. }
  destruct H as [[Hok _] Hnum]. split; [done|]. split; [done|].
  intros Hne. apply getChunk_in_range. by apply Hok.
Qed.

End Bounds.

(** ** The invariant of the ring *)

Lemma wrap32_small (z : Z) : is_u32 z -> wrap32 z = z.
Proof. unfold wrap32, is_u32. intros. by apply Z.mod_small. Qed.

Lemma quantize_spec (chunkSpan ts : Z) :
  0 < chunkSpan -> is_u32 ts ->
  quantize chunkSpan ts = ts - ts `mod` chunkSpan /\
  is_u32 (quantize chunkSpan ts) /\
  quantize chunkSpan ts `mod` chunkSpan = 0 /\
  quantize chunkSpan ts <= ts < quantize chunkSpan ts + chunkSpan.
Proof.
  intros Hs Hts. unfold quantize, sub32.
  pose proof (Z.mod_pos_bound ts chunkSpan Hs) as Hm.
  assert (ts `mod` chunkSpan <= ts) by (apply Z.mod_le; unfold is_u32 in *; lia).
  rewrite wrap32_small by (unfold is_u32 in *; lia).
  split; [done|]. split; [unfold is_u32 in *; lia|]. split; [|lia].
  rewrite Zminus_mod_idemp_r, Z.sub_diag. apply Z.mod_0_l. lia.
Qed.

Lemma multiples_apart (s x y : Z) :
  0 < s -> x `mod` s = 0 -> y `mod` s = 0 -> x < y -> x + s <= y.
Proof.
  intros Hs Hx Hy Hlt.
  pose proof (Z.div_mod x s ltac:(lia)) as Ex.
  pose proof (Z.div_mod y s ltac:(lia)) as Ey.
  rewrite Hx in Ex. rewrite Hy in Ey.
  assert (x `div` s < y `div` s) by nia. nia.
Qed.

Lemma spaced_sorted (a : AggMetric) : 0 < ChunkSpan a -> spaced a -> sortedRing a.
Proof.
  intros Hs Hsp p q cp cq Hp Hq Hr. specialize (Hsp p q cp cq Hp Hq Hr). nia.
Qed.

Lemma index_snoc (l : list Chunk) (x : Chunk) (q : Z) (c : Chunk) :
  index (l ++ [x]) q = Some c <->
  index l q = Some c \/ (q = lenZ l /\ c = x).
Proof.
  rewrite !index_Some, lookup_snoc_Some. unfold lenZ. split.
  - intros [Hq [[Hlt Hl]|[Heq Hx]]]; [by left|right]. split; [lia|done].
  - intros [[Hq Hl]|[-> ->]].
    + split; [done|]. left. split; [by eapply lookup_lt_Some|done].
    + split; [lia|]. right. split; [lia|done].
Qed.

Lemma insert_snoc (l : list Chunk) (x y : Chunk) :
  <[Z.to_nat (lenZ l) := y]> (l ++ [x]) = l ++ [y].
Proof.
  unfold lenZ. rewrite Nat2Z.id.
  replace (length l) with (length l + 0)%nat at 1 by lia.
  by rewrite insert_app_r.
Qed.

(** A change of the chunks that keeps every [T0] and adds only points that
    belong to their chunk leaves the invariant as it is. *)
Lemma RingInv_same_T0s (a a' : AggMetric) :
  RingInv a ->
  CurrentChunkPos a' = CurrentChunkPos a -> NumChunks a' = NumChunks a ->
  ChunkSpan a' = ChunkSpan a ->
  length (Chunks a') = length (Chunks a) ->
  (forall q cq, index (Chunks a) q = Some cq ->
     exists cq', index (Chunks a') q = Some cq' /\ T0 cq' = T0 cq /\
       forall ts val, (ts, val) ∈ points cq' ->
         (ts, val) ∈ points cq \/
         (is_u32 ts /\ quantize (ChunkSpan a) ts = T0 cq)) ->
  RingInv a'.
Proof.
  intros [Hpos Hnum Hspan Hwarm Hspaced Hal Hown] Hcur HN Hsp Hlen Hfwd.
  assert (HlenZ : lenZ (Chunks a') = lenZ (Chunks a)) by (unfold lenZ; by rewrite Hlen).
  assert (Hbwd : forall q cq', index (Chunks a') q = Some cq' ->
            exists cq, index (Chunks a) q = Some cq /\ T0 cq' = T0 cq /\
              forall ts val, (ts, val) ∈ points cq' ->
                (ts, val) ∈ points cq \/
                (is_u32 ts /\ quantize (ChunkSpan a) ts = T0 cq)).
  { intros q cq' Hq. pose proof (index_range _ _ _ Hq) as Hr. rewrite HlenZ in Hr.
    destruct (index_in_range _ _ Hr) as [cq Hcq]. exists cq. split; [done|].
    destruct (Hfwd q cq Hcq) as (cq'' & Hq'' & Hk).
    rewrite Hq in Hq''. injection Hq'' as <-. exact Hk. }
  assert (Hnil : Chunks a' = [] <-> Chunks a = []).
  { rewrite <- !length_zero_iff_nil. by rewrite Hlen. }
  constructor.
  - by eapply PosInv_same_shape.
  - by rewrite HN.
  - by rewrite Hsp.
  - unfold warmingUp. rewrite Hnil, HlenZ, HN, Hcur. apply Hwarm.
  - intros p q cp' cq' Hp Hq. rewrite HlenZ, Hcur, Hsp.
    destruct (Hbwd p cp' Hp) as (cp & Hcp & Hkp & _).
    destruct (Hbwd q cq' Hq) as (cq & Hcq & Hkq & _).
    rewrite Hkp, Hkq. by apply Hspaced.
  - intros c' [q Hq]%elem_of_index.
    destruct (Hbwd q c' Hq) as (c & Hc & Hk & _). rewrite Hk, Hsp.
    apply Hal. by eapply index_elem_of.
  - intros c' ts val [q Hq]%elem_of_index Hpt.
    destruct (Hbwd q c' Hq) as (c & Hc & Hk0 & Hpts). rewrite Hk0, Hsp.
    destruct (Hpts ts val Hpt) as [Hold|Hnew]; [|done].
    apply (Hown c ts val); [by eapply index_elem_of|done].
Qed.

Lemma RingInv_keeps (a a' : AggMetric) :
  RingInv a -> sameSettings a a' ->
  length (Chunks a') = length (Chunks a) ->
  (forall q cq, index (Chunks a) q = Some cq ->
     exists cq', index (Chunks a') q = Some cq' /\ keeps cq cq') ->
  RingInv a'.
Proof.
  intros Hinv (_ & Hcur & HN & Hsp & _) Hlen Hfwd.
  apply (RingInv_same_T0s a a'); [done..|].
  intros q cq Hq. destruct (Hfwd q cq Hq) as (cq' & Hq' & Hk0 & _ & _ & Hkp).
  exists cq'. split; [done|]. split; [done|]. intros ts val Hpt. left. by rewrite <- Hkp.
Qed.

Lemma RingInv_persist (primary : bool) (now : Z) (a a' : AggMetric) (pos : Z) :
  RingInv a -> persist primary now a pos = Ok a' -> RingInv a'.
Proof.
  intros Hinv Hp.
  destruct (index (Chunks a) pos) as [c|] eqn:Hc.
  - destruct (persist_frame primary now a pos c Hc) as (a1 & Hp1 & Hset & Hlen & Hfr).
    assert (a1 = a') as -> by congruence.
    apply (RingInv_keeps a a'); [done..|].
    intros q cq Hq. destruct (Hfr q cq Hq) as (cq' & Hq' & Hk & _). eauto.
  - unfold persist in Hp. by rewrite Hc in Hp.
Qed.

Lemma keeps_setSaved (c : Chunk) : keeps c (setSaved c).
Proof. by repeat split. Qed.

Lemma RingInv_Sync (a a' : AggMetric) (ts : Z) :
  RingInv a -> SyncChunkSaveState a ts = Ok a' -> RingInv a'.
Proof.
  intros Hinv [[_ ->]|(p & c & _ & Hc & _ & ->)]%SyncChunkSaveState_cases; [done|].
  pose proof (index_range _ _ _ Hc) as Hr.
  apply (RingInv_keeps a); [done|by repeat split|simpl; by rewrite length_alter|].
  intros q cq Hq. simpl. destruct (Z.eq_dec p q) as [<-|Hne].
  - rewrite index_alter_eq, Hq by lia. simpl. eexists. split; [done|].
    apply keeps_setSaved.
  - rewrite index_alter_ne by lia. exists cq. split; [done|apply keeps_refl].
Qed.

Lemma spaced_to_cur (a : AggMetric) (p : Z) (cp cc : Chunk) :
  RingInv a ->
  index (Chunks a) p = Some cp ->
  index (Chunks a) (CurrentChunkPos a) = Some cc ->
  T0 cp + ChunkSpan a
          * (lenZ (Chunks a) - 1 - rank (lenZ (Chunks a)) (CurrentChunkPos a) p)
    <= T0 cc.
Proof.
  intros Hinv Hp Hc.
  pose proof (index_range _ _ _ Hp) as Hrp.
  pose proof (index_range _ _ _ Hc) as Hrc.
  destruct (Z.eq_dec p (CurrentChunkPos a)) as [->|Hne].
  - rewrite Hp in Hc. injection Hc as ->. rewrite rank_cur. lia.
  - pose proof (ri_spaced a Hinv p _ cp cc Hp Hc) as Hs.
    rewrite rank_cur in Hs. apply Hs.
    pose proof (rank_range _ _ p Hrc Hrp).
    assert (rank (lenZ (Chunks a)) (CurrentChunkPos a) p <> lenZ (Chunks a) - 1); [|lia].
    intros Heq. apply Hne. apply (rank_inj (lenZ (Chunks a)) (CurrentChunkPos a)); [done..|].
    by rewrite rank_cur.
Qed.

Lemma rank_shift (n cur p : Z) :
  0 <= cur < n -> 0 <= p < n -> p <> nextPos n cur ->
  rank n (nextPos n cur) p = rank n cur p - 1.
Proof. unfold rank, nextPos. intros ? ?. zcases; lia. Qed.

Lemma rank_newest (n cur : Z) :
  0 <= cur < n -> rank n (nextPos n cur) (nextPos n cur) = n - 1.
Proof. intros. apply rank_cur. Qed.

Section RingSteps.

Variable accepts : Chunk -> Z -> float -> bool.

Lemma RingInv_AddFirst (now ts : Z) (val : float) (a : AggMetric) :
  RingInv a -> is_u32 ts -> Chunks a = [] ->
  RingInv
    (addAggregators
       (setChunks (setFirstChunkT0 a (quantize (ChunkSpan a) ts))
          [pushed now (NewChunk (quantize (ChunkSpan a) ts) now) ts val]) ts val).
Proof.
  intros Hinv Hts Hnil.
  destruct (quantize_spec (ChunkSpan a) ts (ri_span _ Hinv) Hts) as (Hq & Hq0 & Hqm & Hqr).
  destruct (ri_pos _ Hinv) as [_ Hcur]. specialize (Hcur Hnil).
  pose proof (ri_num _ Hinv) as HN.
  constructor; simpl.
  - split; [|done]. intros _. simpl. rewrite Hcur. unfold lenZ. simpl. lia.
  - done.
  - apply (ri_span _ Hinv).
  - intros _ _. simpl. rewrite Hcur. done.
  - intros p q cp cq Hp%index_range Hq'%index_range. simpl.
    unfold lenZ in *. simpl in *. assert (p = 0) as -> by lia.
    assert (q = 0) as -> by lia. lia.
  - intros c ->%list_elem_of_singleton. simpl. done.
  - intros c ts' val' ->%list_elem_of_singleton. simpl.
    intros [= -> ->]%list_elem_of_singleton. done.
Qed.

Lemma RingInv_AddSame (now ts : Z) (val : float) (a : AggMetric) (c : Chunk) :
  RingInv a -> is_u32 ts ->
  index (Chunks a) (CurrentChunkPos a) = Some c ->
  quantize (ChunkSpan a) ts = T0 c ->
  RingInv
    (addAggregators
       (setChunks a (<[Z.to_nat (CurrentChunkPos a) := pushed now c ts val]> (Chunks a)))
       ts val).
Proof.
  intros Hinv Hts Hc Ht. pose proof (index_range _ _ _ Hc) as Hr.
  apply (RingInv_same_T0s a); [done..|simpl; by rewrite length_insert|].
  intros q cq Hq. simpl. destruct (Z.eq_dec (CurrentChunkPos a) q) as [<-|Hne].
  - rewrite index_insert_eq by done. rewrite Hc in Hq. injection Hq as <-.
    eexists. split; [done|]. split; [done|]. simpl.
    intros ts' val' [Hold|[= -> ->]%list_elem_of_singleton]%elem_of_app; [by left|by right].
  - rewrite index_insert_ne by lia. exists cq. split; [done|]. split; [done|]. by left.
Qed.

Lemma RingInv_AddAppend (now ts : Z) (val : float) (a1 : AggMetric) (c : Chunk) :
  RingInv a1 -> is_u32 ts ->
  index (Chunks a1) (CurrentChunkPos a1) = Some c ->
  T0 c < quantize (ChunkSpan a1) ts ->
  lenZ (Chunks a1) < NumChunks a1 ->
  nextPos (NumChunks a1) (CurrentChunkPos a1) = lenZ (Chunks a1) /\
  RingInv
    (addAggregators
       (setChunks (setCurrentChunkPos a1 (lenZ (Chunks a1)))
          (Chunks a1 ++ [pushed now (NewChunk (quantize (ChunkSpan a1) ts) now) ts val]))
       ts val).
Proof.
  intros Hinv Hts Hc Hlt Hroom. pose proof (index_range _ _ _ Hc) as Hr.
  destruct (quantize_spec (ChunkSpan a1) ts (ri_span _ Hinv) Hts) as (Hq & Hq0 & Hqm & Hqr).
  set (t0 := quantize (ChunkSpan a1) ts) in *.
  set (n := lenZ (Chunks a1)) in *.
  assert (Hne : Chunks a1 <> []).
  { intros Hnil. unfold n, lenZ in Hr. rewrite Hnil in Hr. simpl in Hr. lia. }
  pose proof (ri_warm _ Hinv Hne Hroom) as Hcur. fold n in Hcur.
  assert (Hstep : T0 c + ChunkSpan a1 <= t0).
  { apply multiples_apart; [apply (ri_span _ Hinv)| |done..].
    apply (ri_aligned _ Hinv). by eapply index_elem_of. }
  split; [rewrite Hcur; unfold nextPos; zcases; lia|].
  constructor; simpl.
  - split.
    + intros _. simpl. rewrite lenZ_app. fold n. unfold lenZ. simpl. lia.
    + intros Hnil. by destruct (Chunks a1).
  - apply (ri_num _ Hinv).
  - apply (ri_span _ Hinv).
  - intros _ _. simpl. rewrite lenZ_app. fold n. unfold lenZ. simpl. lia.
  - intros p q cp cq Hp Hq'. simpl. rewrite lenZ_app. fold n.
    replace (lenZ [_]) with 1 by done.
    apply index_snoc in Hp, Hq'. fold n in Hp, Hq'.
    assert (Hrank : forall x, 0 <= x <= n -> rank (n + 1) n x = x).
    { intros x Hx. unfold rank. zcases; lia. }
    assert (Hrank1 : forall x, 0 <= x < n -> rank n (CurrentChunkPos a1) x = x).
    { intros x Hx. rewrite Hcur. unfold rank. zcases; lia. }
    destruct Hp as [Hp|[-> ->]], Hq' as [Hq'|[-> ->]].
    + pose proof (index_range _ _ _ Hp) as Hrp.
      pose proof (index_range _ _ _ Hq') as Hrq. fold n in Hrp, Hrq.
      rewrite !Hrank by lia. intros Hpq.
      pose proof (ri_spaced _ Hinv p q cp cq Hp Hq') as Hs. fold n in Hs.
      rewrite !Hrank1 in Hs by lia. by apply Hs.
    + pose proof (index_range _ _ _ Hp) as Hrp. fold n in Hrp.
      rewrite !Hrank by lia. intros _. simpl.
      pose proof (spaced_to_cur a1 p cp c Hinv Hp Hc) as Hs. fold n in Hs.
      rewrite Hrank1 in Hs by lia. nia.
    + pose proof (index_range _ _ _ Hq') as Hrq. fold n in Hrq.
      rewrite !Hrank by lia. lia.
    + lia.
  - intros c' [Hold| ->%list_elem_of_singleton]%elem_of_app.
    + by apply (ri_aligned _ Hinv).
    + done.
  - intros c' ts' val' [Hold| ->%list_elem_of_singleton]%elem_of_app.
    + by apply (ri_owned _ Hinv).
    + simpl. intros [= -> ->]%list_elem_of_singleton. done.
Qed.

End RingSteps.

Lemma RingInv_AddOverwrite (now ts : Z) (val : float) (a1 : AggMetric) (c : Chunk) :
  RingInv a1 -> is_u32 ts ->
  index (Chunks a1) (CurrentChunkPos a1) = Some c ->
  T0 c < quantize (ChunkSpan a1) ts ->
  NumChunks a1 <= lenZ (Chunks a1) ->
  let pos := nextPos (NumChunks a1) (CurrentChunkPos a1) in
  RingInv
    (addAggregators
       (setChunks (setCurrentChunkPos a1 pos)
          (<[Z.to_nat pos := pushed now (NewChunk (quantize (ChunkSpan a1) ts) now) ts val]>
             (Chunks a1)))
       ts val).
Proof.
  intros Hinv Hts Hc Hlt Hfull pos. pose proof (index_range _ _ _ Hc) as Hr.
  destruct (quantize_spec (ChunkSpan a1) ts (ri_span _ Hinv) Hts) as (Hq & Hq0 & Hqm & Hqr).
  set (t0 := quantize (ChunkSpan a1) ts) in *.
  set (n := lenZ (Chunks a1)) in *.
  assert (Hne : Chunks a1 <> []).
  { intros Hnil. unfold n, lenZ in Hr. rewrite Hnil in Hr. simpl in Hr. lia. }
  destruct (ri_pos _ Hinv) as [Hok _]. destruct (Hok Hne) as [_ Hcap]. fold n in Hcap.
  assert (HN : NumChunks a1 = n) by lia.
  assert (Hstep : T0 c + ChunkSpan a1 <= t0).
  { apply multiples_apart; [apply (ri_span _ Hinv)| |done..].
    apply (ri_aligned _ Hinv). by eapply index_elem_of. }
  assert (Hpos : 0 <= pos < n).
  { unfold pos. rewrite HN. apply nextPos_range; lia. }
  set (P := pushed now (NewChunk t0 now) ts val).
  assert (Hidx : forall q cq, index (<[Z.to_nat pos := P]> (Chunks a1)) q = Some cq ->
            (q = pos /\ cq = P) \/ (q <> pos /\ index (Chunks a1) q = Some cq)).
  { intros q cq Hq'. destruct (Z.eq_dec pos q) as [<-|Hneq].
    - rewrite index_insert_eq in Hq' by done. injection Hq' as <-. by left.
    - rewrite index_insert_ne in Hq' by lia. right. split; [lia|done]. }
  constructor; fields.
  - split.
    + intros _. fields. rewrite lenZ_insert. fold n. lia.
    + intros Hnil. fields. exfalso. clear -Hnil Hne.
      destruct (Chunks a1) as [|x l]; [done|]. destruct (Z.to_nat pos); discriminate Hnil.
  - apply (ri_num _ Hinv).
  - apply (ri_span _ Hinv).
  - intros _. fields. rewrite lenZ_insert. fold n. lia.
  - intros p q cp cq Hp Hq'. fields. rewrite lenZ_insert. fold n.
    pose proof (index_range _ _ _ Hp) as Hrp.
    pose proof (index_range _ _ _ Hq') as Hrq.
    rewrite lenZ_insert in Hrp, Hrq. fold n in Hrp, Hrq.
    apply Hidx in Hp, Hq'. unfold pos in *. rewrite HN in *.
    destruct Hp as [[-> ->]|[Hnp Hp]], Hq' as [[-> ->]|[Hnq Hq']].
    + lia.
    + rewrite rank_newest by done.
      pose proof (rank_range n (nextPos n (CurrentChunkPos a1)) q). lia.
    + rewrite rank_newest by done. rewrite rank_shift by done. intros _. simpl.
      pose proof (spaced_to_cur a1 p cp c Hinv Hp Hc) as Hs. fold n in Hs. nia.
    + rewrite !rank_shift by done. intros Hpq.
      pose proof (ri_spaced _ Hinv p q cp cq Hp Hq') as Hs. fold n in Hs.
      replace (rank n (CurrentChunkPos a1) q - 1 - (rank n (CurrentChunkPos a1) p - 1))
        with (rank n (CurrentChunkPos a1) q - rank n (CurrentChunkPos a1) p) by lia.
      apply Hs. lia.
  - intros c' [q Hq']%elem_of_index. apply Hidx in Hq' as [[_ ->]|[_ Hq']].
    + done.
    + apply (ri_aligned _ Hinv). by eapply index_elem_of.
  - intros c' ts' val' [q Hq']%elem_of_index. apply Hidx in Hq' as [[_ ->]|[_ Hq']].
    + simpl. intros [= -> ->]%list_elem_of_singleton. done.
    + apply (ri_owned _ Hinv). by eapply index_elem_of.
Qed.

Section RingReach.

Variable accepts : Chunk -> Z -> float -> bool.

Lemma RingInv_Add (primary : bool) (now : Z) (w : World) (ts : Z) (val : float) (w' : World) :
  RingInv (metric w) -> is_u32 ts ->
  Add accepts primary now w ts val = Ok w' -> RingInv (metric w').
Proof.
  intros Hinv Hts [_ Hcase]%Add_cases.
  destruct Hcase as [c0 a t0 chunks Hc H0 Hacc
                    |c a Hc Ht Hs Hacc|c a Hc Ht Hs|c a Hc Ht Hs Hacc|c a Hc Hlt
                    |c a1 cnew a t0 pos chunks Hc Hlt Hp Hroom Hnew Hacc
                    |c a1 old a t0 pos Hc Hlt Hp Hfull Hold Hacc];
    subst a; try done.
  - pose proof (PosInv_getChunk_None _ (ri_pos _ Hinv) Hc) as Hnil.
    subst chunks t0. rewrite Hnil in H0 |- *. injection H0 as <-.
    exact (RingInv_AddFirst now ts val (metric w) Hinv Hts Hnil).
  - simpl. rewrite getChunk_index in Hc. by apply RingInv_AddSame.
  - simpl. rewrite getChunk_index in Hc.
    pose proof (RingInv_persist _ _ _ _ _ Hinv Hp) as Hinv1.
    destruct (persist_frame primary now _ _ c Hc) as (a1' & Hp' & Hset & Hlen & Hfr).
    assert (a1' = a1) as -> by congruence.
    destruct (Hfr _ c Hc) as (c1 & Hc1 & (Hk & _) & _).
    destruct Hset as (_ & Hcur & HN & Hsp & _).
    rewrite <- Hcur in Hc1.
    destruct (RingInv_AddAppend now ts val a1 c1 Hinv1 Hts Hc1) as [Hpos Hres];
      [rewrite Hk, Hsp; apply Hlt|done|].
    subst pos chunks t0. rewrite Hpos in *.
    apply index_snoc in Hnew as [Hnew%index_range|[_ ->]]; [lia|].
    rewrite insert_snoc. by rewrite <- Hsp.
  - simpl. rewrite getChunk_index in Hc.
    pose proof (RingInv_persist _ _ _ _ _ Hinv Hp) as Hinv1.
    destruct (persist_frame primary now _ _ c Hc) as (a1' & Hp' & Hset & Hlen & Hfr).
    assert (a1' = a1) as -> by congruence.
    destruct (Hfr _ c Hc) as (c1 & Hc1 & (Hk & _) & _).
    destruct Hset as (_ & Hcur & HN & Hsp & _).
    rewrite <- Hcur in Hc1. subst t0 pos. rewrite <- Hsp.
    apply (RingInv_AddOverwrite now ts val a1 c1); [done..|by rewrite Hk, Hsp|done].
Qed.

Lemma RingInv_step (w w' : World) :
  step accepts w w' -> RingInv (metric w) -> RingInv (metric w').
Proof.
  intros [primary now w1 ts val w2 Hts Hadd
         |primary now w1 cmin mmin b a' Hgc
         |w1 ts a' Hsync] Hinv.
  - by eapply RingInv_Add.
  - simpl. unfold GC in Hgc.
    destruct (getChunk (metric w1) _) as [c|] eqn:Hc; [|by injection Hgc as _ <-].
    destruct (LastWrite c <? cmin); [|by injection Hgc as _ <-].
    destruct (Saved c && _); [by injection Hgc as _ <-|].
    destruct (persist primary now (metric w1) _) as [a1| |] eqn:Hp; [|done..].
    simpl in Hgc. injection Hgc as _ <-. by eapply RingInv_persist.
  - simpl. by eapply RingInv_Sync.
Qed.

Lemma RingInv_new (st : Store) (k : string) (chunkSpan numChunks ttl0 : Z)
    (aggs : list aggSetting) :
  0 < chunkSpan -> 1 <= numChunks ->
  RingInv (NewAggMetric st k chunkSpan numChunks ttl0 aggs).
Proof.
  intros Hs HN. constructor.
  - split; [intros H; by destruct H|done].
  - done.
  - done.
  - intros H. by destruct H.
  - intros p q cp cq Hp. apply index_range in Hp. unfold lenZ in Hp. simpl in Hp. lia.
  - intros c Hc. by apply elem_of_nil in Hc.
  - intros c ts val Hc. by apply elem_of_nil in Hc.
Qed.

Lemma RingInv_reachable (chunkSpan numChunks : Z) (w : World) :
  0 < chunkSpan -> 1 <= numChunks ->
  reachable accepts chunkSpan numChunks w -> RingInv (metric w).
Proof.
  intros Hs HN (st & k & ttl0 & aggs & w0 & Hw0 & Hsteps).
  revert w Hsteps. apply rtc_ind_r.
  - rewrite Hw0. by apply RingInv_new.
  - intros w1 w2 _ Hstep Hinv. by eapply RingInv_step.
Qed.

End RingReach.

(** ** Get finds the chunk that holds a point *)

Section GetFinds.

Variable a : AggMetric.
Hypothesis Hinv : RingInv a.
Hypothesis Hfit : forall c, c ∈ Chunks a -> T0 c + ChunkSpan a < 2 ^ 32.

Local Abbreviation n := (lenZ (Chunks a)).
Local Abbreviation cur := (CurrentChunkPos a).
Local Abbreviation rk := (rank (lenZ (Chunks a)) (CurrentChunkPos a)).

Lemma add32_fit (c : Chunk) :
  c ∈ Chunks a -> add32 (T0 c) (ChunkSpan a) = T0 c + ChunkSpan a.
Proof.
  intros Hc. unfold add32. apply wrap32_small.
  pose proof (Hfit c Hc). pose proof (ri_span _ Hinv).
  destruct (ri_aligned _ Hinv c Hc) as [Hu _]. unfold is_u32 in *. lia.
Qed.

Lemma ring_nonempty (p : Z) (cp : Chunk) :
  index (Chunks a) p = Some cp -> 0 <= cur < n /\ n <= NumChunks a.
Proof.
  intros Hp. destruct (ri_pos _ Hinv) as [Hok _]. apply Hok.
  intros Hnil. apply index_range in Hp. rewrite Hnil in Hp.
  unfold lenZ in Hp. simpl in Hp. lia.
Qed.

Lemma T0_mono (p q : Z) (cp cq : Chunk) :
  index (Chunks a) p = Some cp -> index (Chunks a) q = Some cq ->
  rk p <= rk q -> T0 cp <= T0 cq.
Proof.
  intros Hp Hq Hr.
  destruct (ring_nonempty p cp Hp) as [Hcur _].
  pose proof (index_range _ _ _ Hp). pose proof (index_range _ _ _ Hq).
  destruct (Z.eq_dec (rk p) (rk q)) as [Heq|Hne].
  - apply rank_inj in Heq; [|done..]. subst q. rewrite Hp in Hq. by injection Hq as ->.
  - pose proof (ri_spaced _ Hinv p q cp cq Hp Hq ltac:(lia)).
    pose proof (ri_span _ Hinv). nia.
Qed.

Lemma T0_lt_rank (p q : Z) (cp cq : Chunk) :
  index (Chunks a) p = Some cp -> index (Chunks a) q = Some cq ->
  T0 cp < T0 cq -> rk p < rk q.
Proof.
  intros Hp Hq Hlt. destruct (Z.lt_ge_cases (rk p) (rk q)) as [|Hge]; [done|].
  pose proof (T0_mono q p cq cp Hq Hp Hge). lia.
Qed.

Lemma nextPos_capacity (p : Z) :
  0 <= cur < n -> n <= NumChunks a -> 0 <= p < n -> p <> cur ->
  nextPos (NumChunks a) p = nextPos n p.
Proof.
  intros Hcur Hcap Hp Hne.
  destruct (Z.eq_dec n (NumChunks a)) as [<-|Hlt]; [done|].
  assert (Hnenil : Chunks a <> []).
  { intros Hnil. rewrite Hnil in Hp. unfold lenZ in Hp. simpl in Hp. lia. }
  pose proof (ri_warm _ Hinv Hnenil ltac:(lia)) as Hw.
  unfold nextPos. zcases; lia.
Qed.

Variables (pc : Z) (c : Chunk) (ts : Z).
Hypothesis Hpc : index (Chunks a) pc = Some c.
Hypothesis Hts : T0 c <= ts < T0 c + ChunkSpan a.

Lemma advanceOldest_finds (fuel : nat) :
  forall p cp,
    index (Chunks a) p = Some cp -> rk p <= rk pc -> rk pc - rk p <= Z.of_nat fuel ->
    exists p1 c1,
      advanceOldest fuel a ts p cp = Stopped p1 c1 /\
      index (Chunks a) p1 = Some c1 /\ rk p <= rk p1 <= rk pc.
Proof.
  destruct (ring_nonempty pc c Hpc) as [Hcur Hcap].
  pose proof (index_range _ _ _ Hpc) as Hrpc.
  induction fuel as [|fuel IH]; intros p cp Hp Hle Hfuel;
    pose proof (index_range _ _ _ Hp) as Hrp;
    pose proof (rank_range n cur pc Hcur Hrpc) as Hrkpc;
    simpl; rewrite (add32_fit cp) by (by eapply index_elem_of);
    rewrite Z.geb_leb; destruct (Z.leb_spec (T0 cp + ChunkSpan a) ts) as [Hgo|Hstop];
    try (exists p, cp; split; [done|]; split; [done|lia]).
  - exfalso. assert (rk p = rk pc) as Heq by lia.
    apply rank_inj in Heq; [|done..]. subst p. rewrite Hpc in Hp. injection Hp as <-. lia.
  - assert (p <> pc) as Hne.
    { intros ->. rewrite Hpc in Hp. injection Hp as <-. lia. }
    assert (rk p < rk pc) as Hlt.
    { destruct (Z.eq_dec (rk p) (rk pc)) as [Heq|]; [|lia].
      apply rank_inj in Heq; [done|done..]. }
    assert (p <> cur) as Hncur.
    { intros ->. rewrite rank_cur in Hlt. lia. }
    pose proof (nextPos_range n p) as Hnr.
    destruct (index_in_range (Chunks a) (nextPos n p)) as [c' Hc']; [lia|].
    rewrite getChunk_index, Hc'.
    destruct (IH (nextPos n p) c' Hc') as (p1 & c1 & He & Hi & Hr).
    { rewrite rank_next by done. lia. }
    { rewrite rank_next by done. lia. }
    exists p1, c1. split; [done|]. split; [done|].
    rewrite rank_next in Hr by done. lia.
Qed.

Lemma retreatNewest_finds (fuel : nat) :
  forall p cp,
    index (Chunks a) p = Some cp -> rk pc <= rk p -> rk p - rk pc <= Z.of_nat fuel ->
    exists p2 c2,
      retreatNewest fuel a (ts + 1) p cp = Stopped p2 c2 /\
      index (Chunks a) p2 = Some c2 /\ rk pc <= rk p2 <= rk p.
Proof.
  destruct (ring_nonempty pc c Hpc) as [Hcur Hcap].
  pose proof (index_range _ _ _ Hpc) as Hrpc.
  induction fuel as [|fuel IH]; intros p cp Hp Hle Hfuel;
    pose proof (index_range _ _ _ Hp) as Hrp;
    pose proof (rank_range n cur pc Hcur Hrpc) as Hrkpc;
    simpl; destruct (Z.leb_spec (ts + 1) (T0 cp)) as [Hgo|Hstop];
    try (exists p, cp; split; [done|]; split; [done|lia]).
  - exfalso. assert (rk p = rk pc) as Heq by lia.
    apply rank_inj in Heq; [|done..]. subst p. rewrite Hpc in Hp. injection Hp as <-. lia.
  - assert (p <> pc) as Hne.
    { intros ->. rewrite Hpc in Hp. injection Hp as <-. lia. }
    assert (rk pc < rk p) as Hlt.
    { destruct (Z.eq_dec (rk p) (rk pc)) as [Heq|]; [|lia].
      apply rank_inj in Heq; [done|done..]. }
    pose proof (prevPos_range n p Hrp) as Hnr.
    destruct (index_in_range (Chunks a) (prevPos n p)) as [c' Hc']; [lia|].
    rewrite getChunk_index, Hc'.
    destruct (IH (prevPos n p) c' Hc') as (p2 & c2 & He & Hi & Hr).
    { rewrite rank_prev by (done || lia). lia. }
    { rewrite rank_prev by (done || lia). lia. }
    exists p2, c2. split; [done|]. split; [done|].
    rewrite rank_prev in Hr by (done || lia). lia.
Qed.

Lemma emit_finds (p2 : Z) (fuel : nat) :
  0 <= p2 < n -> rk pc <= rk p2 ->
  forall p iters,
    0 <= p < n -> rk p <= rk p2 -> rk p2 - rk p <= Z.of_nat fuel ->
    NewIter c ∈ iters \/ rk p <= rk pc ->
    exists l, emit fuel a p p2 iters = Ok l /\ NewIter c ∈ l.
Proof.
  intros Hp2 Hpc2.
  destruct (ring_nonempty pc c Hpc) as [Hcur Hcap].
  pose proof (index_range _ _ _ Hpc) as Hrpc.
  assert (Hlast : forall p iters, 0 <= p < n -> p = p2 ->
            NewIter c ∈ iters \/ rk p <= rk pc ->
            exists cp, getChunk a p = Some cp /\ NewIter c ∈ iters ++ [NewIter cp]).
  { intros p iters Hp -> Hc.
    destruct (index_in_range (Chunks a) p2 Hp) as [cp Hcp].
    exists cp. rewrite getChunk_index. split; [done|].
    apply elem_of_app. destruct Hc as [Hold|Hr]; [by left|right].
    assert (rk p2 = rk pc) as Heq by lia.
    apply rank_inj in Heq; [|done..]. subst p2. rewrite Hpc in Hcp. injection Hcp as <-.
    by apply list_elem_of_singleton. }
  induction fuel as [|fuel IH]; intros p iters Hp Hle Hfuel Hc; simpl;
    destruct (Z.eqb_spec p p2) as [Heq|Hne].
  - destruct (Hlast p iters Hp Heq Hc) as (cp & -> & Hin). eauto.
  - exfalso. apply Hne. apply (rank_inj n cur); [done..|]. lia.
  - destruct (Hlast p iters Hp Heq Hc) as (cp & -> & Hin). eauto.
  - assert (rk p < rk p2) as Hlt.
    { destruct (Z.eq_dec (rk p) (rk p2)) as [Heq|]; [|lia].
      apply rank_inj in Heq; [done|done..]. }
    pose proof (rank_range n cur p2 Hcur Hp2) as Hrk2.
    assert (p <> cur) as Hncur.
    { intros ->. rewrite rank_cur in Hlt. lia. }
    destruct (index_in_range (Chunks a) p Hp) as [cp Hcp].
    rewrite getChunk_index, Hcp. rewrite nextPos_capacity by done.
    pose proof (nextPos_range n p) as Hnr.
    apply IH.
    + lia.
    + rewrite rank_next by done. lia.
    + rewrite rank_next by done. lia.
    + rewrite rank_next by done.
      destruct Hc as [Hold|Hr]; [left; apply elem_of_app; by left|].
      destruct (Z.eq_dec (rk p) (rk pc)) as [Heq|Hneq]; [|right; lia].
      left. apply rank_inj in Heq; [|done..]. subst p.
      rewrite Hpc in Hcp. injection Hcp as <-.
      apply elem_of_app. right. by apply list_elem_of_singleton.
Qed.

End GetFinds.

Lemma servedOldest_before (primary : bool) (a : AggMetric) (pc : Z) (c : Chunk) :
  RingInv a -> index (Chunks a) pc = Some c ->
  primary = true \/ T0 c <> firstChunkT0 a ->
  exists po co,
    servedOldest primary a = Some (po, co) /\
    index (Chunks a) po = Some co /\
    rank (lenZ (Chunks a)) (CurrentChunkPos a) po
      <= rank (lenZ (Chunks a)) (CurrentChunkPos a) pc.
Proof.
  intros Hinv Hpc Hrole.
  destruct (ring_nonempty a Hinv pc c Hpc) as [Hcur Hcap].
  pose proof (index_range _ _ _ Hpc) as Hrpc.
  pose proof (rank_range _ _ pc Hcur Hrpc) as Hrk.
  unfold servedOldest.
  pose proof (nextPos_range (lenZ (Chunks a)) (CurrentChunkPos a)) as Ho1.
  destruct (index_in_range (Chunks a) (nextPos (lenZ (Chunks a)) (CurrentChunkPos a)))
    as [c1 Hc1]; [lia|].
  rewrite getChunk_index, Hc1.
  pose proof (rank_oldest _ _ Hcur) as Hr1.
  destruct (negb primary && (T0 c1 =? firstChunkT0 a)) eqn:Hmask.
  - apply andb_prop in Hmask as [Hsec Hfirst]. apply Z.eqb_eq in Hfirst.
    destruct Hrole as [->|Hnf]; [done|].
    set (o1 := nextPos (lenZ (Chunks a)) (CurrentChunkPos a)) in *.
    assert (pc <> o1) as Hne.
    { intros ->. rewrite Hpc in Hc1. injection Hc1 as ->. congruence. }
    assert (1 <= rank (lenZ (Chunks a)) (CurrentChunkPos a) pc) as Hge.
    { destruct (Z.eq_dec (rank (lenZ (Chunks a)) (CurrentChunkPos a) pc) 0) as [Heq|]; [|lia].
      exfalso. apply Hne. apply (rank_inj (lenZ (Chunks a)) (CurrentChunkPos a)); [done|done|lia|].
      by rewrite Hr1. }
    assert (o1 <> CurrentChunkPos a) as Hncur.
    { intros Heq. rewrite Heq, rank_cur in Hr1. lia. }
    pose proof (nextPos_range (lenZ (Chunks a)) o1) as Ho2.
    destruct (index_in_range (Chunks a) (nextPos (lenZ (Chunks a)) o1)) as [c2 Hc2]; [lia|].
    rewrite getChunk_index, Hc2. exists (nextPos (lenZ (Chunks a)) o1), c2.
    split; [done|]. split; [done|]. rewrite rank_next by (done || lia). lia.
  - exists (nextPos (lenZ (Chunks a)) (CurrentChunkPos a)), c1.
    split; [done|]. split; [done|]. lia.
Qed.

(** In a ring that satisfies the invariant and whose chunks end before
    [2^32], [Get(ts, ts+1)] serves the chunk that holds a point at [ts],
    unless the node is not primary and the chunk carries [firstChunkT0]. *)
Lemma Get_finds_point (primary : bool) (a : AggMetric) (c : Chunk) (ts : Z) (val : float) :
  RingInv a ->
  (forall c', c' ∈ Chunks a -> T0 c' + ChunkSpan a < 2 ^ 32) ->
  c ∈ Chunks a -> (ts, val) ∈ points c ->
  primary = true \/ T0 c <> firstChunkT0 a ->
  exists m iters,
    Get primary a ts (ts + 1) = Ok (m, iters) /\
    exists it, it ∈ iters /\ (ts, val) ∈ iterPoints it.
Proof.
  intros Hinv Hfit Hc Hpt Hrole.
  destruct (elem_of_index _ _ Hc) as [pc Hpc].
  destruct (ri_owned _ Hinv c ts val Hc Hpt) as [Hu Hq].
  destruct (quantize_spec _ ts (ri_span _ Hinv) Hu) as (_ & _ & _ & Hts). rewrite Hq in Hts.
  destruct (ring_nonempty a Hinv pc c Hpc) as [Hcur Hcap].
  pose proof (index_range _ _ _ Hpc) as Hrpc.
  pose proof (rank_range _ _ pc Hcur Hrpc) as Hrk.
  destruct (index_in_range (Chunks a) (CurrentChunkPos a) Hcur) as [cn Hcn].
  unfold Get. rewrite Z.geb_leb.
  destruct (Z.leb_spec (ts + 1) ts) as [|_]; [lia|].
  rewrite getChunk_index, Hcn.
  rewrite (add32_fit a Hinv Hfit cn) by (by eapply index_elem_of).
  pose proof (T0_mono a Hinv pc _ c cn Hpc Hcn) as Hnew. rewrite rank_cur in Hnew.
  rewrite Z.geb_leb. destruct (Z.leb_spec (T0 cn + ChunkSpan a) ts) as [|_]; [lia|].
  destruct (servedOldest_before primary a pc c Hinv Hpc Hrole) as (po & co & -> & Hco & Hpo).
  pose proof (T0_mono a Hinv po pc co c Hco Hpc Hpo) as Hold.
  destruct (Z.leb_spec (ts + 1) (T0 co)) as [|_]; [lia|].
  pose proof (index_range _ _ _ Hco) as Hrpo.
  pose proof (rank_range _ _ po Hcur Hrpo) as Hrko.
  destruct (advanceOldest_finds a Hinv Hfit pc c ts Hpc Hts (length (Chunks a)) po co Hco Hpo)
    as (p1 & c1 & -> & Hc1 & Hr1).
  { unfold lenZ in *. lia. }
  destruct (retreatNewest_finds a Hinv pc c ts Hpc Hts (length (Chunks a))
              (CurrentChunkPos a) cn Hcn) as (p2 & c2 & -> & Hc2 & Hr2).
  { rewrite rank_cur. lia. }
  { rewrite rank_cur. unfold lenZ in *. lia. }
  pose proof (index_range _ _ _ Hc1) as Hrp1.
  pose proof (index_range _ _ _ Hc2) as Hrp2.
  pose proof (rank_range _ _ p2 Hcur Hrp2) as Hrk2.
  destruct (emit_finds a Hinv pc c Hpc p2 (2 * length (Chunks a) + 2) Hrp2 (proj1 Hr2)
              p1 [] Hrp1) as (l & -> & Hin).
  { lia. }
  { unfold lenZ in *. lia. }
  { right. lia. }
  simpl. exists (T0 c1), l. split; [done|]. exists (NewIter c). split; [done|done].
Qed.

(** ** A stored point stays in its chunk *)

Lemma T0_inj (a : AggMetric) (p q : Z) (cp cq : Chunk) :
  RingInv a ->
  index (Chunks a) p = Some cp -> index (Chunks a) q = Some cq ->
  T0 cp = T0 cq -> p = q.
Proof.
  intros Hinv Hp Hq Heq.
  destruct (ring_nonempty a Hinv p cp Hp) as [Hcur _].
  pose proof (index_range _ _ _ Hp). pose proof (index_range _ _ _ Hq).
  apply (rank_inj (lenZ (Chunks a)) (CurrentChunkPos a)); [done..|].
  pose proof (ri_span _ Hinv) as Hs.
  destruct (Z.lt_trichotomy (rank (lenZ (Chunks a)) (CurrentChunkPos a) p)
              (rank (lenZ (Chunks a)) (CurrentChunkPos a) q)) as [Hlt|[Heqr|Hgt]];
    [|done|].
  - pose proof (ri_spaced _ Hinv p q cp cq Hp Hq Hlt). nia.
  - pose proof (ri_spaced _ Hinv q p cq cp Hq Hp Hgt). nia.
Qed.

Lemma T0_unique (a : AggMetric) (c1 c2 : Chunk) :
  RingInv a -> c1 ∈ Chunks a -> c2 ∈ Chunks a -> T0 c1 = T0 c2 -> c1 = c2.
Proof.
  intros Hinv [p Hp]%elem_of_index [q Hq]%elem_of_index Heq.
  assert (p = q) as -> by by eapply T0_inj. congruence.
Qed.

(** When the chunks change slot by slot, keeping [T0] and the points they
    had, a point is still in the chunk with the [T0] of its chunk. *)
Lemma kept_pointwise (a a' : AggMetric) :
  RingInv a -> length (Chunks a') = length (Chunks a) ->
  (forall q cq, index (Chunks a) q = Some cq ->
     exists cq', index (Chunks a') q = Some cq' /\ T0 cq' = T0 cq /\
                 forall pt, pt ∈ points cq -> pt ∈ points cq') ->
  forall c c' pt,
    c ∈ Chunks a -> pt ∈ points c -> c' ∈ Chunks a' -> T0 c' = T0 c ->
    pt ∈ points c'.
Proof.
  intros Hinv Hlen Hfwd c c' pt [p Hp]%elem_of_index Hpt [q Hq]%elem_of_index Heq.
  pose proof (index_range _ _ _ Hq) as Hr.
  assert (Hr' : 0 <= q < lenZ (Chunks a)) by (unfold lenZ in *; by rewrite <- Hlen).
  destruct (index_in_range _ _ Hr') as [cq Hcq].
  destruct (Hfwd q cq Hcq) as (cq' & Hq' & Ht & Hpts).
  rewrite Hq in Hq'. injection Hq' as <-.
  assert (q = p) as -> by (eapply T0_inj; [done..|congruence]).
  rewrite Hp in Hcq. injection Hcq as <-. by apply Hpts.
Qed.

Lemma persist_kept (primary : bool) (now : Z) (a a' : AggMetric) (pos : Z) :
  RingInv a -> persist primary now a pos = Ok a' ->
  forall c c' pt,
    c ∈ Chunks a -> pt ∈ points c -> c' ∈ Chunks a' -> T0 c' = T0 c ->
    pt ∈ points c'.
Proof.
  intros Hinv Hp.
  destruct (index (Chunks a) pos) as [c0|] eqn:Hc0.
  - destruct (persist_frame primary now a pos c0 Hc0) as (a1 & Hp1 & _ & Hlen & Hfr).
    assert (a1 = a') as -> by congruence.
    apply kept_pointwise; [done..|].
    intros q cq Hq. destruct (Hfr q cq Hq) as (cq' & Hq' & (Hk & _ & _ & Hkp) & _).
    exists cq'. split; [done|]. split; [done|]. intros pt. by rewrite Hkp.
  - unfold persist in Hp. by rewrite Hc0 in Hp.
Qed.

Section Kept.

Variable accepts : Chunk -> Z -> float -> bool.

(** What [Add] does to a ring that satisfies the invariant, when it takes
    the sample: the sample is in the current chunk, whose [T0] is the
    quantized timestamp. *)
Lemma Add_stores (primary : bool) (now : Z) (w : World) (ts : Z) (val : float) (w' : World) :
  RingInv (metric w) -> is_u32 ts ->
  Add accepts primary now w ts val = Ok w' ->
  w' = w \/
  exists c,
    index (Chunks (metric w')) (CurrentChunkPos (metric w')) = Some c /\
    T0 c = quantize (ChunkSpan (metric w)) ts /\
    (ts, val) ∈ points c.
Proof.
  intros Hinv Hts [_ Hcase]%Add_cases.
  destruct Hcase as [c0 a t0 chunks Hc H0 Hacc
                    |c a Hc Ht Hs Hacc|c a Hc Ht Hs|c a Hc Ht Hs Hacc|c a Hc Hlt
                    |c a1 cnew a t0 pos chunks Hc Hlt Hp Hroom Hnew Hacc
                    |c a1 old a t0 pos Hc Hlt Hp Hfull Hold Hacc];
    subst a; try (by left); right; fields.
  - pose proof (PosInv_getChunk_None _ (ri_pos _ Hinv) Hc) as Hnil.
    destruct (ri_pos _ Hinv) as [_ Hcur]. rewrite (Hcur Hnil).
    subst chunks t0. rewrite Hnil in H0 |- *. injection H0 as <-.
    eexists. split; [reflexivity|]. split; [done|]. simpl.
    by apply list_elem_of_singleton.
  - rewrite getChunk_index in Hc. pose proof (index_range _ _ _ Hc).
    rewrite index_insert_eq by done. eexists. split; [done|]. split; [done|].
    simpl. apply elem_of_app. right. by apply list_elem_of_singleton.
  - rewrite getChunk_index in Hc.
    pose proof (RingInv_persist _ _ _ _ _ Hinv Hp) as Hinv1.
    destruct (persist_frame primary now _ _ c Hc) as (a1' & Hp' & Hset & Hlen & Hfr).
    assert (a1' = a1) as -> by congruence.
    destruct (Hfr _ c Hc) as (c1 & Hc1 & (Hk & _) & _).
    destruct Hset as (_ & Hcur & HN & Hsp & _).
    rewrite <- Hcur in Hc1.
    destruct (RingInv_AddAppend now ts val a1 c1 Hinv1 Hts Hc1) as [Hpos _];
      [rewrite Hk, Hsp; apply Hlt|done|].
    subst pos chunks t0. rewrite Hpos in *.
    apply index_snoc in Hnew as [Hnew%index_range|[_ ->]]; [lia|].
    rewrite insert_snoc. eexists. split.
    + apply index_snoc. right. done.
    + split; [done|]. simpl. by apply list_elem_of_singleton.
  - pose proof (index_range _ _ _ Hold).
    rewrite index_insert_eq by done. eexists. split; [done|]. split; [done|].
    simpl. by apply list_elem_of_singleton.
Qed.

Lemma Add_kept (primary : bool) (now : Z) (w : World) (ts : Z) (val : float) (w' : World) :
  RingInv (metric w) -> is_u32 ts ->
  Add accepts primary now w ts val = Ok w' ->
  forall c c' pt,
    c ∈ Chunks (metric w) -> pt ∈ points c ->
    c' ∈ Chunks (metric w') -> T0 c' = T0 c ->
    pt ∈ points c'.
Proof.
  intros Hinv Hts [_ Hcase]%Add_cases.
  destruct Hcase as [c0 a t0 chunks Hc H0 Hacc
                    |c a Hc Ht Hs Hacc|c a Hc Ht Hs|c a Hc Ht Hs Hacc|c a Hc Hlt
                    |c a1 cnew a t0 pos chunks Hc Hlt Hp Hroom Hnew Hacc
                    |c a1 old a t0 pos Hc Hlt Hp Hfull Hold Hacc];
    subst a; try (intros c1 c2 pt H1 Hpt H2 Heq;
                  by rewrite (T0_unique (metric w) c2 c1 Hinv H2 H1 Heq)).
  - intros c1 c2 pt H1. rewrite (PosInv_getChunk_None _ (ri_pos _ Hinv) Hc) in H1.
    by apply elem_of_nil in H1.
  - rewrite getChunk_index in Hc. pose proof (index_range _ _ _ Hc) as Hr.
    apply kept_pointwise; [done|fields; by rewrite length_insert|]. fields.
    intros q cq Hq. destruct (Z.eq_dec (CurrentChunkPos (metric w)) q) as [<-|Hne].
    + rewrite index_insert_eq by done. rewrite Hc in Hq. injection Hq as <-.
      eexists. split; [done|]. split; [done|]. simpl. intros pt Hpt.
      apply elem_of_app. by left.
    + rewrite index_insert_ne by lia. by exists cq.
  - rewrite getChunk_index in Hc.
    pose proof (RingInv_persist _ _ _ _ _ Hinv Hp) as Hinv1.
    destruct (persist_frame primary now _ _ c Hc) as (a1' & Hp' & Hset & Hlen & Hfr).
    assert (a1' = a1) as -> by congruence.
    destruct (Hfr _ c Hc) as (c1 & Hc1 & (Hk & _) & _).
    destruct Hset as (_ & Hcur & HN & Hsp & _).
    rewrite <- Hcur in Hc1.
    destruct (RingInv_AddAppend now ts val a1 c1 Hinv1 Hts Hc1) as [Hpos _];
      [rewrite Hk, Hsp; apply Hlt|done|].
    subst pos chunks t0. rewrite Hpos in *.
    apply index_snoc in Hnew as [Hnew%index_range|[_ ->]]; [lia|].
    fields. rewrite insert_snoc.
    intros c0 c' pt H0 Hpt [Hin| ->%list_elem_of_singleton]%elem_of_app Heq.
    + by apply (persist_kept _ _ _ _ _ Hinv Hp c0 c' pt).
    + exfalso. simpl in Heq.
      destruct (elem_of_index _ _ H0) as [p0 Hp0].
      pose proof (T0_mono (metric w) Hinv p0 _ c0 c Hp0 Hc) as Hm.
      rewrite rank_cur in Hm.
      pose proof (index_range _ _ _ Hp0) as Hr0. pose proof (index_range _ _ _ Hc) as Hrc.
      pose proof (rank_range _ _ p0 Hrc Hr0). lia.
  - rewrite getChunk_index in Hc.
    pose proof (RingInv_persist _ _ _ _ _ Hinv Hp) as Hinv1.
    fields. intros c0 c' pt H0 Hpt [q Hq]%elem_of_index Heq.
    pose proof (index_range _ _ _ Hold) as Hro.
    destruct (Z.eq_dec pos q) as [<-|Hne].
    + exfalso. rewrite index_insert_eq in Hq by done. injection Hq as <-.
      simpl in Heq.
      destruct (elem_of_index _ _ H0) as [p0 Hp0].
      pose proof (T0_mono (metric w) Hinv p0 _ c0 c Hp0 Hc) as Hm.
      rewrite rank_cur in Hm.
      pose proof (index_range _ _ _ Hp0) as Hr0. pose proof (index_range _ _ _ Hc) as Hrc.
      pose proof (rank_range _ _ p0 Hrc Hr0). subst t0. lia.
    + rewrite index_insert_ne in Hq by lia.
      apply (persist_kept _ _ _ _ _ Hinv Hp c0 c' pt); [done..|by eapply index_elem_of|done].
Qed.

Lemma step_kept (w w' : World) :
  RingInv (metric w) -> step accepts w w' ->
  forall c c' pt,
    c ∈ Chunks (metric w) -> pt ∈ points c ->
    c' ∈ Chunks (metric w') -> T0 c' = T0 c ->
    pt ∈ points c'.
Proof.
  intros Hinv Hstep.
  destruct Hstep as [primary now w1 ts val w2 Hts Hadd
                    |primary now w1 cmin mmin b a' Hgc
                    |w1 ts a' Hsync].
  - exact (Add_kept _ _ _ _ _ _ Hinv Hts Hadd).
  - fields. unfold GC in Hgc.
    assert (Hsame : forall c c' pt, c ∈ Chunks (metric w1) -> pt ∈ points c ->
              c' ∈ Chunks (metric w1) -> T0 c' = T0 c -> pt ∈ points c').
    { intros c c' pt H1 Hpt H2 Heq. by rewrite (T0_unique _ c' c Hinv H2 H1 Heq). }
    destruct (getChunk (metric w1) _) as [c|] eqn:Hc; [|by injection Hgc as _ <-].
    destruct (LastWrite c <? cmin); [|by injection Hgc as _ <-].
    destruct (Saved c && _); [by injection Hgc as _ <-|].
    destruct (persist primary now (metric w1) _) as [a1| |] eqn:Hp; [|done..].
    simpl in Hgc. injection Hgc as _ <-. by eapply persist_kept.
  - fields.
    apply SyncChunkSaveState_cases in Hsync as [[_ ->]|(p & c & _ & Hc & _ & ->)].
    + intros c c' pt H1 Hpt H2 Heq. by rewrite (T0_unique _ c' c Hinv H2 H1 Heq).
    + pose proof (index_range _ _ _ Hc) as Hr.
      apply kept_pointwise; [done|fields; by rewrite length_alter|]. fields.
      intros q cq Hq. destruct (Z.eq_dec p q) as [<-|Hne].
      * rewrite index_alter_eq, Hq by lia. simpl. eexists. split; [done|]. done.
      * rewrite index_alter_ne by lia. by exists cq.
Qed.

End Kept.

(** ** Round trip *)

(** C6, as the code has it.  After [Add(100, 1.0)] and [Add(160, 2.0)] the
    ring holds the chunks with [T0 = 60] and [T0 = 120]; the first still
    holds [(100, 1.0)], but on a node that is not primary [Get(100, 101)]
    skips it, being the first chunk of the series, and answers
    [(120, [])]. *)
Lemma secondary_hides_first_chunk :
  exists w c,
    addAll false 1 (freshWorld 60 3) [(100, 1%float); (160, 2%float)] = Ok w /\
    ringT0s (metric w) = [60; 120] /\
    index (Chunks (metric w)) 0 = Some c /\
    points c = [(100, 1%float)] /\
    Get false (metric w) 100 101 = Ok (120, []).
Proof. eexists _, _. evaluate. Qed.

Section RoundTrip.

Variable accepts : Chunk -> Z -> float -> bool.

(** C6, amended.  In every state reached from a new metric (spans positive,
    room for at least one chunk): a sample that [Add] takes is in a chunk
    whose [T0] is its quantized timestamp; a point of a chunk is still in
    the chunk with that [T0] after any operation, as long as there is one;
    and [Get(ts, ts+1)] returns an iterator that contains the point
    [(ts, val)] of a chunk of the ring, provided the chunks end before
    [2^32] and either the node is primary or the [T0] of the chunk is not
    [firstChunkT0]. *)
Theorem round_trip (chunkSpan numChunks : Z) (w : World) :
  0 < chunkSpan -> 1 <= numChunks ->
  reachable accepts chunkSpan numChunks w ->
  (forall primary now ts val w',
     is_u32 ts ->
     Add accepts primary now w ts val = Ok w' -> w' <> w ->
     exists c,
       c ∈ Chunks (metric w') /\
       T0 c = quantize (ChunkSpan (metric w)) ts /\
       (ts, val) ∈ points c) /\
  (forall w' c c' ts val,
     step accepts w w' ->
     c ∈ Chunks (metric w) -> (ts, val) ∈ points c ->
     c' ∈ Chunks (metric w') -> T0 c' = T0 c ->
     (ts, val) ∈ points c') /\
  (forall primary c ts val,
     c ∈ Chunks (metric w) -> (ts, val) ∈ points c ->
     (forall c', c' ∈ Chunks (metric w) -> T0 c' + ChunkSpan (metric w) < 2 ^ 32) ->
     primary = true \/ T0 c <> firstChunkT0 (metric w) ->
     exists m iters,
       Get primary (metric w) ts (ts + 1) = Ok (m, iters) /\
       exists it, it ∈ iters /\ (ts, val) ∈ iterPoints it).
Proof.
  intros Hs HN Hreach.
  pose proof (RingInv_reachable accepts chunkSpan numChunks w Hs HN Hreach) as Hinv.
  split; [|split].
  - intros primary now ts val w' Hts Hadd Hne.
    destruct (Add_stores accepts primary now w ts val w' Hinv Hts Hadd)
      as [->|(c & Hc & Ht & Hpt)]; [done|].
    exists c. split; [by eapply index_elem_of|done].
  - intros w' c c' ts val Hstep Hc Hpt Hc' Heq.
    exact (step_kept accepts w w' Hinv Hstep c c' (ts, val) Hc Hpt Hc' Heq).
  - intros primary c ts val Hc Hpt Hfit Hrole.
    exact (Get_finds_point primary (metric w) c ts val Hinv Hfit Hc Hpt Hrole).
Qed.

End RoundTrip.

(** ** getChunkByT0 finds the chunk with the requested T0 *)

Lemma rank_back (n cur j : Z) :
  0 <= cur < n -> 0 <= j < n ->
  let g := if cur - j <? 0 then cur - j + n else cur - j in
  0 <= g < n /\ rank n cur g = n - 1 - j.
Proof. intros Hcur Hj. cbv zeta. unfold rank. zcases; lia. Qed.

Section Lookup.

Variable a : AggMetric.
Hypothesis Hinv : RingInv a.

Local Abbreviation n := (lenZ (Chunks a)).
Local Abbreviation cur := (CurrentChunkPos a).
Local Abbreviation rk := (rank (lenZ (Chunks a)) (CurrentChunkPos a)).

Lemma scanNewer_total (ccur : Chunk) (ts : Z) (fuel : nat) :
  index (Chunks a) cur = Some ccur ->
  forall g cg,
    index (Chunks a) g = Some cg -> n - 1 - rk g <= Z.of_nat fuel ->
    exists r, scanNewer fuel (Chunks a) (T0 ccur) ts g cg = Ok r.
Proof.
  intros Hcur. pose proof (index_range _ _ _ Hcur) as Hrc.
  induction fuel as [|fuel IH]; intros g cg Hg Hfuel;
    pose proof (index_range _ _ _ Hg) as Hrg;
    pose proof (rank_range n cur g Hrc Hrg) as Hrk;
    simpl; destruct (Z.ltb_spec (T0 cg) (T0 ccur)) as [Hlt|Hge]; eauto.
  - exfalso. assert (rk g = rk cur) as Heq by (rewrite rank_cur; lia).
    apply rank_inj in Heq; [|done..]. subst g. rewrite Hcur in Hg. injection Hg as <-. lia.
  - assert (g <> cur) as Hne.
    { intros ->. rewrite Hcur in Hg. injection Hg as <-. lia. }
    pose proof (nextPos_range n g) as Hnr.
    destruct (index_in_range (Chunks a) (nextPos n g)) as [c' Hc']; [lia|].
    rewrite Hc'. destruct (T0 c' =? ts); [eauto|].
    apply IH; [done|]. rewrite rank_next by done. lia.
Qed.

Lemma scanOlder_total (ccur : Chunk) (oldestT0 ts : Z) (fuel : nat) :
  index (Chunks a) cur = Some ccur ->
  forall g cg,
    index (Chunks a) g = Some cg -> backDist n cur g <= Z.of_nat fuel ->
    exists r, scanOlder fuel (Chunks a) oldestT0 (T0 ccur) ts g cg = Ok r.
Proof.
  intros Hcur. pose proof (index_range _ _ _ Hcur) as Hrc.
  induction fuel as [|fuel IH]; intros g cg Hg Hfuel;
    pose proof (index_range _ _ _ Hg) as Hrg;
    pose proof (backDist_range n cur g Hrc Hrg) as Hbd;
    simpl; destruct ((T0 cg >=? oldestT0) && (T0 cg <? T0 ccur)) eqn:Htest; eauto.
  - exfalso. apply andb_prop in Htest as [_ Hlt]. apply Z.ltb_lt in Hlt.
    assert (g = cur) as -> by (apply (backDist_zero n); [done..|lia]).
    rewrite Hcur in Hg. injection Hg as <-. lia.
  - apply andb_prop in Htest as [_ Hlt]. apply Z.ltb_lt in Hlt.
    assert (g <> cur) as Hne.
    { intros ->. rewrite Hcur in Hg. injection Hg as <-. lia. }
    pose proof (prevPos_range n g Hrg) as Hnr.
    destruct (index_in_range (Chunks a) (prevPos n g)) as [c' Hc']; [lia|].
    rewrite Hc'. destruct (T0 c' =? ts); [eauto|].
    apply IH; [done|]. rewrite backDist_prev by done. lia.
Qed.

Lemma getChunkByT0_total (ts : Z) : exists r, getChunkByT0 a ts = Ok r.
Proof.
  unfold getChunkByT0.
  destruct (Z.eqb_spec n 0) as [|Hn0]; [eauto|].
  assert (Hne : Chunks a <> []).
  { intros Hnil. apply Hn0. by rewrite Hnil. }
  destruct (ri_pos _ Hinv) as [Hok _]. destruct (Hok Hne) as [Hrc _].
  destruct (index_in_range (Chunks a) cur Hrc) as [ccur Hcur]. rewrite Hcur.
  destruct (ts =? T0 ccur); [eauto|].
  destruct (ts >? T0 ccur); [eauto|].
  destruct (n =? 1); [eauto|].
  pose proof (ri_span _ Hinv) as Hs.
  destruct (Z.eqb_spec (ChunkSpan a) 0) as [|_]; [lia|].
  set (chunksAgo := sub32 (T0 ccur) ts `div` ChunkSpan a).
  assert (0 <= chunksAgo) as Hca.
  { apply Z.div_pos; [|done]. unfold sub32, wrap32. apply Z.mod_pos_bound. lia. }
  pose proof (nextPos_range n cur) as Ho.
  set (guess := if chunksAgo >=? n - 1 then _ else _).
  assert (0 <= guess < n) as Hg.
  { unfold guess. rewrite Z.geb_leb.
    destruct (Z.leb_spec (n - 1) chunksAgo) as [|Hfew]; [lia|].
    apply (rank_back n cur chunksAgo); lia. }
  destruct (index_in_range (Chunks a) guess Hg) as [cg Hcg]. rewrite Hcg.
  destruct (T0 cg =? ts); [eauto|].
  destruct (ts >? T0 cg).
  - apply scanNewer_total; [done..|].
    pose proof (rank_range n cur guess Hrc Hg). unfold lenZ in *. lia.
  - destruct (index_in_range (Chunks a) (nextPos n cur)) as [co Hco]; [lia|].
    rewrite Hco. apply scanOlder_total; [done..|].
    pose proof (backDist_range n cur guess Hrc Hg). unfold lenZ in *. lia.
Qed.

Variables (p : Z) (c : Chunk).
Hypothesis Hp : index (Chunks a) p = Some c.

Lemma scanNewer_finds (ccur : Chunk) (fuel : nat) :
  index (Chunks a) cur = Some ccur -> T0 c < T0 ccur ->
  forall g cg,
    index (Chunks a) g = Some cg -> rk g < rk p -> rk p - rk g <= Z.of_nat fuel ->
    scanNewer fuel (Chunks a) (T0 ccur) (T0 c) g cg = Ok (Some p).
Proof.
  intros Hcur Hlt. pose proof (index_range _ _ _ Hcur) as Hrc.
  pose proof (index_range _ _ _ Hp) as Hrp.
  pose proof (rank_range n cur p Hrc Hrp) as Hrkp.
  induction fuel as [|fuel IH]; intros g cg Hg Hr Hfuel; [lia|].
  pose proof (index_range _ _ _ Hg) as Hrg.
  pose proof (rank_range n cur g Hrc Hrg) as Hrkg.
  pose proof (T0_mono a Hinv g p cg c Hg Hp ltac:(lia)) as Hm.
  simpl. destruct (Z.ltb_spec (T0 cg) (T0 ccur)) as [_|Hge]; [|lia].
  assert (g <> cur) as Hne.
  { intros ->. rewrite rank_cur in Hr. lia. }
  pose proof (nextPos_range n g) as Hnr.
  destruct (index_in_range (Chunks a) (nextPos n g)) as [c' Hc']; [lia|].
  rewrite Hc'. destruct (Z.eqb_spec (T0 c') (T0 c)) as [Heq|Hneq].
  - f_equal. f_equal. by eapply T0_inj.
  - apply IH; [done| |rewrite rank_next by done; lia].
    rewrite rank_next by done.
    destruct (Z.eq_dec (rk g + 1) (rk p)) as [Heq|]; [|lia].
    exfalso. apply Hneq. rewrite <- (rank_next n cur g) in Heq by done.
    apply rank_inj in Heq; [|done|lia|done]. subst p. congruence.
Qed.

Lemma getChunkByT0_complete : getChunkByT0 a (T0 c) = Ok (Some p).
Proof.
  pose proof (index_range _ _ _ Hp) as Hrp.
  destruct (ring_nonempty a Hinv p c Hp) as [Hrc _].
  destruct (index_in_range (Chunks a) cur Hrc) as [ccur Hcur].
  pose proof (rank_range n cur p Hrc Hrp) as Hrkp.
  unfold getChunkByT0.
  destruct (Z.eqb_spec n 0) as [|_]; [lia|]. rewrite Hcur.
  destruct (Z.eqb_spec (T0 c) (T0 ccur)) as [Heq|Hneq].
  { f_equal. f_equal. symmetry. by eapply T0_inj. }
  pose proof (T0_mono a Hinv p cur c ccur Hp Hcur) as Hm. rewrite rank_cur in Hm.
  rewrite Z.gtb_ltb. destruct (Z.ltb_spec (T0 ccur) (T0 c)) as [|_]; [lia|].
  assert (p <> cur) as Hpc.
  { intros ->. rewrite Hcur in Hp. injection Hp as ->. done. }
  destruct (Z.eqb_spec n 1) as [|_]; [lia|].
  pose proof (ri_span _ Hinv) as Hs.
  destruct (Z.eqb_spec (ChunkSpan a) 0) as [|_]; [lia|].
  assert (rk p < n - 1) as Hrlt.
  { destruct (Z.eq_dec (rk p) (n - 1)) as [Heq|]; [|lia].
    exfalso. apply Hpc. apply (rank_inj n cur); [done..|]. by rewrite rank_cur. }
  pose proof (ri_spaced _ Hinv p cur c ccur Hp Hcur) as Hsp. rewrite rank_cur in Hsp.
  specialize (Hsp Hrlt).
  destruct (ri_aligned _ Hinv c (index_elem_of _ _ _ Hp)) as [Huc _].
  destruct (ri_aligned _ Hinv ccur (index_elem_of _ _ _ Hcur)) as [Hucc _].
  assert (Hsub : sub32 (T0 ccur) (T0 c) = T0 ccur - T0 c).
  { apply wrap32_small. unfold is_u32 in *. lia. }
  rewrite Hsub.
  set (chunksAgo := (T0 ccur - T0 c) `div` ChunkSpan a).
  assert (n - 1 - rk p <= chunksAgo) as Hca.
  { apply Z.div_le_lower_bound; [done|]. lia. }
  pose proof (nextPos_range n cur) as Ho.
  set (guess := if chunksAgo >=? n - 1 then _ else _).
  assert (0 <= guess < n /\ rk guess <= rk p) as [Hg Hrg].
  { unfold guess. rewrite Z.geb_leb.
    destruct (Z.leb_spec (n - 1) chunksAgo) as [Hmany|Hfew].
    - split; [lia|]. rewrite rank_oldest by done. lia.
    - destruct (rank_back n cur chunksAgo) as [Hr1 Hr2]; [done|lia|].
      split; [done|]. rewrite Hr2. lia. }
  destruct (index_in_range (Chunks a) guess Hg) as [cg Hcg]. rewrite Hcg.
  destruct (Z.eqb_spec (T0 cg) (T0 c)) as [Heq|Hneq'].
  { f_equal. f_equal. by eapply T0_inj. }
  assert (rk guess < rk p) as Hrlt'.
  { destruct (Z.eq_dec (rk guess) (rk p)) as [Heq|]; [|lia].
    apply rank_inj in Heq; [|done..]. subst p. congruence. }
  pose proof (T0_mono a Hinv guess p cg c Hcg Hp ltac:(lia)) as Hm'.
  rewrite Z.gtb_ltb. destruct (Z.ltb_spec (T0 cg) (T0 c)) as [_|]; [|lia].
  apply scanNewer_finds; [done|lia|done..|].
  pose proof (rank_range n cur guess Hrc Hg). unfold lenZ in *. lia.
Qed.

End Lookup.

(** ** Get: the oldest chunk served *)

(** The chunk [servedOldest] returns, by the slots of the ring. *)
Lemma servedOldest_slots (primary : bool) (a : AggMetric) :
  let n := lenZ (Chunks a) in
  let cur := CurrentChunkPos a in
  0 <= cur < n ->
  exists first oldest po,
    index (Chunks a) ((cur + 1) `mod` n) = Some first /\
    (((primary = true \/ T0 first <> firstChunkT0 a) /\ oldest = first) \/
     (primary = false /\ T0 first = firstChunkT0 a /\
      index (Chunks a) ((cur + 2) `mod` n) = Some oldest)) /\
    servedOldest primary a = Some (po, oldest).
Proof.
  intros n cur Hcur.
  destruct (index_in_range (Chunks a) ((cur + 1) `mod` n)) as [first Hfirst];
    [apply Z.mod_pos_bound; lia|].
  destruct (index_in_range (Chunks a) ((cur + 2) `mod` n)) as [second Hsecond];
    [apply Z.mod_pos_bound; lia|].
  unfold servedOldest. fold n cur.
  rewrite nextPos_twice_mod, nextPos_mod by done.
  rewrite !getChunk_index, Hfirst, Hsecond.
  destruct primary; simpl.
  - exists first, first, ((cur + 1) `mod` n). split; [done|]. split; [|done].
    left. split; [by left|done].
  - destruct (Z.eqb_spec (T0 first) (firstChunkT0 a)) as [Heq|Hne].
    + exists first, second, ((cur + 2) `mod` n). split; [done|]. split; [|done].
      by right.
    + exists first, first, ((cur + 1) `mod` n). split; [done|]. split; [|done].
      left. split; [by right|done].
Qed.

(** In a ring that keeps its invariant, the chunk [Get] starts from is the
    oldest of those it serves. *)
Lemma oldest_is_least (primary : bool) (a : AggMetric) (first oldest : Chunk) :
  let n := lenZ (Chunks a) in
  let cur := CurrentChunkPos a in
  RingInv a ->
  index (Chunks a) ((cur + 1) `mod` n) = Some first ->
  (((primary = true \/ T0 first <> firstChunkT0 a) /\ oldest = first) \/
   (primary = false /\ T0 first = firstChunkT0 a /\
    index (Chunks a) ((cur + 2) `mod` n) = Some oldest)) ->
  oldest ∈ Chunks a /\
  (primary = true \/ T0 oldest <> firstChunkT0 a \/ n = 1) /\
  (forall c, c ∈ Chunks a -> primary = true \/ T0 c <> firstChunkT0 a ->
     T0 oldest <= T0 c).
Proof.
  intros n cur Hinv Hfirst Hwhich.
  destruct (ring_nonempty a Hinv _ first Hfirst) as [Hcur _]. fold n cur in Hcur.
  pose proof (rank_oldest n cur Hcur) as Hr1.
  rewrite nextPos_mod in Hr1 by done.
  assert (Hleast : forall c, c ∈ Chunks a -> T0 first <= T0 c).
  { intros c [q Hq]%elem_of_index. apply (T0_mono a Hinv _ q first c Hfirst Hq).
    fold n cur. rewrite Hr1. pose proof (index_range _ _ _ Hq).
    pose proof (rank_range n cur q Hcur ltac:(done)). lia. }
  destruct Hwhich as [[Hserved ->]|(Hsec & Heq & Hsecond)].
  - split; [by eapply index_elem_of|]. split; [|by intros c Hc _; apply Hleast].
    destruct Hserved as [?|?]; [by left|right; by left].
  - split; [by eapply index_elem_of|].
    destruct (Z.eq_dec n 1) as [H1|Hmany].
    + split; [right; by right|]. intros c [q Hq]%elem_of_index _.
      pose proof (index_range _ _ _ Hq) as Hrq. fold n in Hrq.
      pose proof (index_range _ _ _ Hsecond) as Hr2. fold n in Hr2.
      assert (q = (cur + 2) `mod` n) as -> by lia.
      rewrite Hsecond in Hq. by injection Hq as <-.
    + assert (Hne : (cur + 1) `mod` n <> cur).
      { intros Habs. rewrite Habs, rank_cur in Hr1. lia. }
      pose proof (rank_next n cur ((cur + 1) `mod` n) Hcur
                    ltac:(apply Z.mod_pos_bound; lia) Hne) as Hr2.
      rewrite <- (nextPos_mod n cur) in Hr2 at 1 by done.
      rewrite nextPos_twice_mod in Hr2 by done. rewrite Hr1 in Hr2.
      split.
      * right; left. intros Habs.
        assert ((cur + 2) `mod` n = (cur + 1) `mod` n) as Hsame
          by (eapply (T0_inj a); [done..|congruence]).
        rewrite Hsame, Hr1 in Hr2. lia.
      * intros c [q Hq]%elem_of_index [?|Hnot]; [congruence|].
        apply (T0_mono a Hinv _ q oldest c Hsecond Hq). fold n cur. rewrite Hr2.
        pose proof (index_range _ _ _ Hq) as Hrq. fold n in Hrq.
        pose proof (rank_range n cur q Hcur Hrq).
        destruct (Z.eq_dec (rank n cur q) 0) as [H0|]; [|lia].
        exfalso. apply Hnot. rewrite <- Hr1 in H0.
        apply rank_inj in H0; [|done|done|apply Z.mod_pos_bound; lia].
        subst q. rewrite Hfirst in Hq. by injection Hq as <-.
Qed.



(** ** SyncChunkSaveState *)

Lemma alter_setSaved_twice (i : nat) (l : list Chunk) :
  alter setSaved i (alter setSaved i l) = alter setSaved i l.
Proof.
  revert i. induction l as [|x l IH]; intros [|i]; simpl; [done..|].
  f_equal. apply IH.
Qed.

Section Acknowledge.

Variable accepts : Chunk -> Z -> float -> bool.

(** C8.  In every state reached from a new metric,
    [SyncChunkSaveState(ts)] returns; the settings, the position, the store
    and the number of chunks are as before; the chunk whose [T0] is [ts]
    has [Saved = true] afterwards and all its other fields ([T0], [LastTs],
    [NumPoints], [Saving], [LastWrite], the points, [Finished]) as they
    were, and every other chunk is as it was; the state is the same when no
    chunk has that [T0]; and a second call with the same [ts] changes
    nothing. *)
Theorem SyncChunkSaveState_marks_saved (chunkSpan numChunks : Z) (w : World) (ts : Z) :
  0 < chunkSpan -> 1 <= numChunks ->
  reachable accepts chunkSpan numChunks w ->
  exists a',
    SyncChunkSaveState (metric w) ts = Ok a' /\
    sameSettings (metric w) a' /\
    store a' = store (metric w) /\
    length (Chunks a') = length (Chunks (metric w)) /\
    (forall q cq,
       index (Chunks (metric w)) q = Some cq ->
       index (Chunks a') q = Some (if T0 cq =? ts then setSaved cq else cq)) /\
    (forall q cq,
       index (Chunks (metric w)) q = Some cq -> T0 cq = ts ->
       exists cq',
         index (Chunks a') q = Some cq' /\ Saved cq' = true /\
         T0 cq' = T0 cq /\ LastTs cq' = LastTs cq /\ NumPoints cq' = NumPoints cq /\
         Saving cq' = Saving cq /\ LastWrite cq' = LastWrite cq /\
         points cq' = points cq /\ Finished cq' = Finished cq) /\
    (forall q cq,
       index (Chunks (metric w)) q = Some cq -> T0 cq <> ts ->
       index (Chunks a') q = Some cq) /\
    ((forall c, c ∈ Chunks (metric w) -> T0 c <> ts) -> a' = metric w) /\
    SyncChunkSaveState a' ts = Ok a'.
Proof.
  intros Hs HN Hreach.
  pose proof (RingInv_reachable accepts chunkSpan numChunks w Hs HN Hreach) as Hinv.
  set (a := metric w) in *.
  assert (Hsplit : forall a' : AggMetric,
            (forall q cq, index (Chunks a) q = Some cq ->
               index (Chunks a') q = Some (if T0 cq =? ts then setSaved cq else cq)) ->
            (forall q cq, index (Chunks a) q = Some cq -> T0 cq = ts ->
               exists cq',
                 index (Chunks a') q = Some cq' /\ Saved cq' = true /\
                 T0 cq' = T0 cq /\ LastTs cq' = LastTs cq /\
                 NumPoints cq' = NumPoints cq /\ Saving cq' = Saving cq /\
                 LastWrite cq' = LastWrite cq /\ points cq' = points cq /\
                 Finished cq' = Finished cq) /\
            (forall q cq, index (Chunks a) q = Some cq -> T0 cq <> ts ->
               index (Chunks a') q = Some cq)).
  { intros a' Hall. split.
    - intros q cq Hq Ht. exists (setSaved cq). split; [|done].
      rewrite (Hall q cq Hq). by rewrite (proj2 (Z.eqb_eq _ _) Ht).
    - intros q cq Hq Ht. rewrite (Hall q cq Hq).
      by rewrite (proj2 (Z.eqb_neq _ _) Ht). }
  destruct (getChunkByT0_total a Hinv ts) as [[p|] Hr].
  - destruct (getChunkByT0_sound a ts p Hr) as (c & Hc & Ht).
    pose proof (index_range _ _ _ Hc) as Hrp.
    set (a' := setChunks a (alter setSaved (Z.to_nat p) (Chunks a))).
    assert (Hsync : SyncChunkSaveState a ts = Ok a').
    { unfold SyncChunkSaveState. by rewrite Hr. }
    assert (Hall : forall q cq, index (Chunks a) q = Some cq ->
              index (Chunks a') q = Some (if T0 cq =? ts then setSaved cq else cq)).
    { intros q cq Hq. unfold a'. simpl. destruct (Z.eq_dec p q) as [<-|Hne].
      * rewrite index_alter_eq, Hq by lia. rewrite Hc in Hq. injection Hq as <-.
        by rewrite Ht, Z.eqb_refl.
      * rewrite index_alter_ne by lia. rewrite Hq.
        destruct (Z.eqb_spec (T0 cq) ts) as [Heq|]; [|done].
        exfalso. apply Hne. eapply (T0_inj a); [done..|congruence]. }
    destruct (Hsplit a' Hall) as [Hmarked Hothers].
    exists a'. split; [done|]. split; [by repeat split|]. split; [done|].
    split; [unfold a'; simpl; by rewrite length_alter|].
    split; [done|]. split; [done|]. split; [done|]. split.
    + intros Habs. exfalso. apply (Habs c); [by eapply index_elem_of|done].
    + pose proof (RingInv_Sync a a' ts Hinv Hsync) as Hinv'.
      assert (Hc' : index (Chunks a') p = Some (setSaved c)).
      { unfold a'. simpl. by rewrite index_alter_eq, Hc by lia. }
      pose proof (getChunkByT0_complete a' Hinv' p (setSaved c) Hc') as Hfind.
      simpl in Hfind. rewrite Ht in Hfind.
      unfold SyncChunkSaveState. rewrite Hfind. simpl.
      unfold a'. simpl. by rewrite alter_setSaved_twice.
  - assert (Hsync : SyncChunkSaveState a ts = Ok a).
    { unfold SyncChunkSaveState. by rewrite Hr. }
    assert (Hall : forall q cq, index (Chunks a) q = Some cq ->
              index (Chunks a) q = Some (if T0 cq =? ts then setSaved cq else cq)).
    { intros q cq Hq. rewrite Hq.
      destruct (Z.eqb_spec (T0 cq) ts) as [Heq|]; [|done].
      exfalso. pose proof (getChunkByT0_complete a Hinv q cq Hq) as Hfind.
      rewrite Heq in Hfind. congruence. }
    destruct (Hsplit a Hall) as [Hmarked Hothers].
    exists a. split; [done|]. split; [apply sameSettings_refl|].
    split; [done|]. split; [done|]. split; [done|]. split; [done|]. by split.
Qed.

End Acknowledge.

(** ** The order of the requests along a run *)

Lemma backFrom_rank_iff (n cur : Z) (m : nat) :
  0 <= cur < n ->
  forall p, 0 <= p < n -> Z.of_nat m <= rank n cur p + 1 ->
    forall q, 0 <= q < n ->
      q ∈ backFrom n p m <->
      rank n cur p - Z.of_nat m < rank n cur q <= rank n cur p.
Proof.
  intros Hcur. induction m as [|m IH]; intros p Hp Hm q Hq; simpl.
  - split; [intros H; by apply elem_of_nil in H|lia].
  - rewrite elem_of_cons. pose proof (prevPos_range n p Hp) as Hpp.
    destruct m as [|m'].
    + simpl. split.
      * intros [->|H]; [lia|by apply elem_of_nil in H].
      * intros H. left. apply (rank_inj n cur); [done..|lia].
    + rewrite (IH (prevPos n p) Hpp) by (rewrite ?rank_prev by (done || lia); (done || lia)).
      rewrite rank_prev by (done || lia). split.
      * intros [->|H]; lia.
      * intros H. destruct (Z.eq_dec (rank n cur q) (rank n cur p)) as [Heq|Hne].
        -- left. by apply (rank_inj n cur).
        -- right. lia.
Qed.

Lemma backAt_rank (n cur : Z) (m : nat) :
  0 <= cur < n ->
  forall p, 0 <= p < n -> Z.of_nat m <= rank n cur p ->
    0 <= backAt n p m < n /\
    rank n cur (backAt n p m) = rank n cur p - Z.of_nat m.
Proof.
  intros Hcur. induction m as [|m IH]; intros p Hp Hm; simpl.
  - split; [done|lia].
  - pose proof (prevPos_range n p Hp) as Hpp.
    destruct (IH (prevPos n p) Hpp) as [Hr Hk].
    + rewrite rank_prev by (done || lia). lia.
    + split; [done|]. rewrite Hk, rank_prev by (done || lia). lia.
Qed.

(** [persist] at the current position of a ring that satisfies the
    invariant, on a primary, in terms of the ages of the slots: the
    requests are for the [m + 1] newest slots. *)
Lemma persist_primary_cur (now : Z) (a : AggMetric) (c : Chunk) :
  RingInv a -> index (Chunks a) (CurrentChunkPos a) = Some c ->
  exists (m : nat) (a' : AggMetric) (reqs : list ChunkWriteRequest),
    persist true now a (CurrentChunkPos a) = Ok a' /\
    Z.of_nat m <= lenZ (Chunks a) - 1 /\
    store a' = store a ++ reqs /\
    sameSettings a a' /\
    length (Chunks a') = length (Chunks a) /\
    StronglySorted Z.lt (requestT0s reqs) /\
    Forall (fun r => key r = Key a) reqs /\
    (forall t, t ∈ requestT0s reqs ->
       exists q cq, index (Chunks a) q = Some cq /\
         lenZ (Chunks a) - 1 - Z.of_nat m
           <= rank (lenZ (Chunks a)) (CurrentChunkPos a) q /\
         T0 cq = t) /\
    (forall q cq, index (Chunks a) q = Some cq ->
       lenZ (Chunks a) - 1 - Z.of_nat m
         <= rank (lenZ (Chunks a)) (CurrentChunkPos a) q < lenZ (Chunks a) - 1 ->
       Saved cq = false /\ Saving cq = false) /\
    (Z.of_nat m < lenZ (Chunks a) - 1 ->
       exists z cz, index (Chunks a) z = Some cz /\
         rank (lenZ (Chunks a)) (CurrentChunkPos a) z
           = lenZ (Chunks a) - 2 - Z.of_nat m /\
         (Saved cz = true \/ Saving cz = true)) /\
    (forall q cq, index (Chunks a) q = Some cq ->
       exists cq', index (Chunks a') q = Some cq' /\ T0 cq' = T0 cq /\
         Saved cq' = Saved cq /\
         (Saving cq' = true <->
          Saving cq = true \/
          lenZ (Chunks a) - 1 - Z.of_nat m
            <= rank (lenZ (Chunks a)) (CurrentChunkPos a) q)).
Proof.
  intros Hinv Hc. pose proof (index_range _ _ _ Hc) as Hcur.
  destruct (persist_requests now a _ c Hc)
    as (_ & m & Hm & Hrun & Hstop & Hp & Hkeys & HT0s & Hin & Hnotin & Hsorted).
  cbv zeta in *.
  set (n := lenZ (Chunks a)) in *. set (cur := CurrentChunkPos a) in *.
  set (run := backFrom n (prevPos n cur) m) in *.
  set (finished := <[Z.to_nat cur := Finish now c]> (Chunks a)) in *.
  set (reqs := requestsFor now a finished (reverse (cur :: run))) in *.
  pose proof (prevPos_range n cur Hcur) as Hprev.
  assert (Hrkprev : n <> 1 -> rank n cur (prevPos n cur) = n - 2).
  { intros Hn. rewrite rank_prev; rewrite ?rank_cur; (done || lia). }
  assert (HinRun : forall q, 0 <= q < n ->
            (q ∈ cur :: run <-> n - 1 - Z.of_nat m <= rank n cur q)).
  { intros q Hq. pose proof (rank_range n cur q Hcur Hq) as Hrq.
    rewrite elem_of_cons. destruct (Z.eq_dec n 1) as [Hn|Hn].
    - assert (m = 0%nat) as -> by lia. unfold run. simpl. split; [lia|].
      intros _. left. lia.
    - unfold run. rewrite (backFrom_rank_iff n cur m Hcur _ Hprev) by (rewrite ?Hrkprev; (done || lia)).
      rewrite Hrkprev by done. split.
      + intros [->|H]; [rewrite rank_cur; lia|lia].
      + intros H. destruct (Z.eq_dec (rank n cur q) (n - 1)) as [Heq|Hne].
        * left. apply (rank_inj n cur); [done..|]. by rewrite rank_cur.
        * right. lia. }
  exists m, (setChunks (setStore a (store a ++ reqs))
               (markSaving (reverse (cur :: run)) finished)), reqs.
  split; [exact Hp|]. split; [lia|]. split; [done|].
  split; [by repeat split|]. split.
  { simpl. apply Nat2Z.inj. fold (lenZ (Chunks a)).
    etrans; [apply markSaving_length|apply lenZ_insert]. }
  split; [apply Hsorted; [done|apply spaced_sorted; [apply (ri_span _ Hinv)|apply (ri_spaced _ Hinv)]]|].
  split; [eapply Forall_impl; [exact Hkeys|]; by intros r [? _]|].
  split; [|split; [|split]].
  - intros t Ht. rewrite HT0s in Ht. apply list_elem_of_fmap in Ht as (q & -> & Hq).
    apply (proj1 (elem_of_reverse _ _)) in Hq.
    assert (0 <= q < n) as Hrq.
    { apply elem_of_cons in Hq as [->|Hq]; [done|].
      by apply (backFrom_range n m (prevPos n cur)). }
    destruct (index_in_range (Chunks a) q Hrq) as [cq Hcq].
    exists q, cq. split; [done|]. split; [by apply HinRun|].
    unfold t0At. by rewrite Hcq.
  - intros q cq Hq Hr. pose proof (index_range _ _ _ Hq) as Hrq.
    assert (q ∈ run) as Hqrun.
    { pose proof (proj2 (HinRun q Hrq) ltac:(lia)) as Hin'.
      apply elem_of_cons in Hin' as [Heq|Hin']; [|done].
      subst q. rewrite rank_cur in Hr. lia. }
    destruct (Hrun q Hqrun) as (cq' & Hcq' & _ & Hs & Hsv).
    rewrite Hq in Hcq'. injection Hcq' as <-. done.
  - intros Hmlt. assert (n <> 1) as Hn by lia.
    destruct (backAt_rank n cur m Hcur (prevPos n cur) Hprev) as [Hzr Hzk];
      [rewrite Hrkprev by done; lia|].
    rewrite Hrkprev in Hzk by done.
    destruct Hstop as (cz & Hcz & Hflags).
    exists (backAt n (prevPos n cur) m), cz. split; [done|]. split; [lia|].
    destruct Hflags as [Hge|Hflags]; [|done]. exfalso.
    pose proof (ri_spaced _ Hinv _ cur cz c Hcz Hc) as Hsp. fold n cur in Hsp.
    rewrite Hzk, rank_cur in Hsp. pose proof (ri_span _ Hinv). nia.
  - intros q cq Hq. pose proof (index_range _ _ _ Hq) as Hrq. simpl.
    assert (Hfin : exists c1, index finished q = Some c1 /\ T0 c1 = T0 cq /\
                     Saved c1 = Saved cq /\ Saving c1 = Saving cq).
    { unfold finished. destruct (Z.eq_dec cur q) as [<-|Hne].
      - rewrite index_insert_eq by done. rewrite Hc in Hq. injection Hq as <-.
        by eexists.
      - rewrite index_insert_ne by lia. by exists cq. }
    destruct Hfin as (c1 & Hc1 & Ht1 & Hs1 & Hsv1).
    destruct (decide (q ∈ cur :: run)) as [Hyes|Hno].
    + rewrite (Hin q Hyes), Hc1. simpl. eexists. split; [done|].
      split; [done|]. split; [done|]. simpl. split; [|done].
      intros _. right. by apply HinRun.
    + rewrite (Hnotin q Hno), Hc1. eexists. split; [done|].
      split; [done|]. split; [done|]. rewrite Hsv1. split; [by left|].
      intros [?|Hr]; [done|]. exfalso. apply Hno. by apply HinRun.
Qed.

Lemma StronglySorted_lt_le (l : list Z) :
  StronglySorted Z.lt l -> StronglySorted Z.le l.
Proof.
  induction 1 as [|x l Hl IH Hx]; constructor; [done|].
  eapply Forall_impl; [exact Hx|]. intros y Hy. simpl in Hy. lia.
Qed.

Lemma T0_strict (a : AggMetric) (p q : Z) (cp cq : Chunk) :
  RingInv a ->
  index (Chunks a) p = Some cp -> index (Chunks a) q = Some cq ->
  rank (lenZ (Chunks a)) (CurrentChunkPos a) p
    < rank (lenZ (Chunks a)) (CurrentChunkPos a) q ->
  T0 cp < T0 cq.
Proof.
  intros Hinv. apply spaced_sorted; [apply (ri_span _ Hinv)|apply (ri_spaced _ Hinv)].
Qed.

Lemma current_chunk (a : AggMetric) :
  RingInv a -> Chunks a <> [] ->
  exists cc, index (Chunks a) (CurrentChunkPos a) = Some cc.
Proof.
  intros Hinv Hne. destruct (ri_pos _ Hinv) as [Hok _].
  destruct (Hok Hne) as [Hr _]. by apply index_in_range.
Qed.

Lemma store_nonempty_ring (a : AggMetric) (r : ChunkWriteRequest) :
  StoreInv a -> r ∈ store a -> Chunks a <> [].
Proof.
  intros Hinv Hr Hnil. rewrite (si_empty _ Hinv Hnil) in Hr. by apply elem_of_nil in Hr.
Qed.

(** The store invariant survives a change of the ring that leaves the store
    alone, does not lower the [T0] of the current chunk, brings in no
    unflagged chunk that is not newer than the old current chunk, and keeps
    the flagged chunks that are not the oldest. *)
Lemma StoreInv_transfer (a a' : AggMetric) :
  StoreInv a -> RingInv a' ->
  store a' = store a -> Key a' = Key a ->
  (Chunks a' = [] -> Chunks a = []) ->
  (forall cc cc',
     index (Chunks a) (CurrentChunkPos a) = Some cc ->
     index (Chunks a') (CurrentChunkPos a') = Some cc' -> T0 cc <= T0 cc') ->
  (forall x',
     x' ∈ Chunks a' -> Saved x' = false -> Saving x' = false ->
     (exists x, x ∈ Chunks a /\ T0 x = T0 x' /\ Saved x = false /\ Saving x = false) \/
     (forall cc, index (Chunks a) (CurrentChunkPos a) = Some cc -> T0 cc < T0 x')) ->
  (forall x cz,
     x ∈ Chunks a -> cz ∈ Chunks a -> T0 x < T0 cz -> flagged cz ->
     exists cz', cz' ∈ Chunks a' /\ T0 cz' = T0 cz /\ flagged cz') ->
  StoreInv a'.
Proof.
  intros Hinv Hring Hstore Hkey Hnil Hcur Hnew Hkept.
  constructor; rewrite ?Hstore, ?Hkey.
  - done.
  - apply (si_sorted _ Hinv).
  - intros r cc' Hr Hcc'. rewrite Hstore in Hr.
    destruct (current_chunk a (si_ring _ Hinv) (store_nonempty_ring a r Hinv Hr)) as [cc Hcc].
    pose proof (si_below _ Hinv r cc Hr Hcc). pose proof (Hcur cc cc' Hcc Hcc'). lia.
  - intros r x' Hr Hx' Hlt Hs Hsv. rewrite Hstore in Hr.
    destruct (current_chunk a (si_ring _ Hinv) (store_nonempty_ring a r Hinv Hr)) as [cc Hcc].
    pose proof (si_below _ Hinv r cc Hr Hcc) as Hb.
    destruct (Hnew x' Hx' Hs Hsv) as [(x & Hx & Ht & Hxs & Hxsv)|Hnewer].
    + destruct (si_shielded _ Hinv r x Hr Hx ltac:(lia) Hxs Hxsv) as (cz & Hcz & Hbetween & Hf).
      destruct (Hkept x cz Hx Hcz ltac:(lia) Hf) as (cz' & Hcz' & Htz & Hf').
      exists cz'. split; [done|]. split; [lia|done].
    + specialize (Hnewer cc Hcc). lia.
  - intros H. apply (si_empty _ Hinv). by apply Hnil.
  - apply (si_keys _ Hinv).
Qed.

(** The same chunks slot by slot, with flags that were only raised. *)
Lemma StoreInv_flags (a a' : AggMetric) :
  StoreInv a -> RingInv a' ->
  store a' = store a -> Key a' = Key a ->
  CurrentChunkPos a' = CurrentChunkPos a ->
  length (Chunks a') = length (Chunks a) ->
  (forall q cq, index (Chunks a) q = Some cq ->
     exists cq', index (Chunks a') q = Some cq' /\ T0 cq' = T0 cq /\
       (Saved cq = true -> Saved cq' = true) /\
       (Saving cq = true -> Saving cq' = true)) ->
  StoreInv a'.
Proof.
  intros Hinv Hring Hstore Hkey Hcurpos Hlen Hfwd.
  assert (HlenZ : lenZ (Chunks a') = lenZ (Chunks a)) by (unfold lenZ; by rewrite Hlen).
  apply (StoreInv_transfer a a'); try done.
  - intros H. apply length_zero_iff_nil. rewrite <- Hlen. by rewrite H.
  - intros cc cc' Hcc Hcc'. rewrite Hcurpos in Hcc'.
    destruct (Hfwd _ cc Hcc) as (cq' & Hq' & Ht & _). rewrite Hcc' in Hq'.
    injection Hq' as <-. lia.
  - intros x' [q Hq]%elem_of_index Hs Hsv. left.
    pose proof (index_range _ _ _ Hq) as Hr. rewrite HlenZ in Hr.
    destruct (index_in_range _ _ Hr) as [x Hx].
    destruct (Hfwd q x Hx) as (x'' & Hq'' & Ht & Hfs & Hfsv).
    rewrite Hq in Hq''. injection Hq'' as <-.
    exists x. split; [by eapply index_elem_of|]. split; [done|].
    split; [destruct (Saved x); [by rewrite Hfs in Hs|done]
           |destruct (Saving x); [by rewrite Hfsv in Hsv|done]].
  - intros x cz _ [z Hz]%elem_of_index _ Hf.
    destruct (Hfwd z cz Hz) as (cz' & Hz' & Ht & Hfs & Hfsv).
    exists cz'. split; [by eapply index_elem_of|]. split; [done|].
    destruct Hf as [Hf|Hf]; [left; by apply Hfs|right; by apply Hfsv].
Qed.

Lemma StoreInv_persist_secondary (now : Z) (a a' : AggMetric) (pos : Z) :
  StoreInv a -> persist false now a pos = Ok a' -> StoreInv a'.
Proof.
  intros Hinv Hp. pose proof (RingInv_persist _ _ _ _ _ (si_ring _ Hinv) Hp) as Hring.
  destruct (index (Chunks a) pos) as [c|] eqn:Hc.
  - rewrite (persist_secondary now a pos c Hc) in Hp. injection Hp as <-.
    pose proof (index_range _ _ _ Hc) as Hr.
    apply (StoreInv_flags a); [done..|simpl; by rewrite length_insert|].
    intros q cq Hq. simpl. destruct (Z.eq_dec pos q) as [<-|Hne].
    + rewrite index_insert_eq by done. rewrite Hc in Hq. injection Hq as <-.
      by eexists.
    + rewrite index_insert_ne by lia. by exists cq.
  - unfold persist in Hp. by rewrite Hc in Hp.
Qed.

Lemma StoreInv_persist_primary (now : Z) (a a' : AggMetric) :
  StoreInv a -> persist true now a (CurrentChunkPos a) = Ok a' -> StoreInv a'.
Proof.
  intros Hinv Hp. pose proof (si_ring _ Hinv) as Hring.
  pose proof (RingInv_persist _ _ _ _ _ Hring Hp) as Hring'.
  destruct (index (Chunks a) (CurrentChunkPos a)) as [c|] eqn:Hc;
    [|unfold persist in Hp; by rewrite Hc in Hp].
  destruct (persist_primary_cur now a c Hring Hc)
    as (m & a1 & reqs & Hp1 & Hm & Hstore & Hset & Hlen & Hsorted & Hkeys
        & Hsent & Hrun & Hstop & Hchunks).
  assert (a1 = a') as -> by congruence. clear Hp1.
  destruct Hset as (Hkey & Hcurpos & _).
  pose proof (index_range _ _ _ Hc) as Hcur.
  set (n := lenZ (Chunks a)) in *. set (cur := CurrentChunkPos a) in *.
  assert (Hrk : forall q cq, index (Chunks a) q = Some cq -> 0 <= rank n cur q <= n - 1).
  { intros q cq Hq%index_range. pose proof (rank_range n cur q Hcur Hq). lia. }
  assert (Hnew_le : forall t, t ∈ requestT0s reqs -> t <= T0 c).
  { intros t (q & cq & Hq & _ & <-)%Hsent.
    apply (T0_mono a Hring q cur cq c Hq Hc). fold n cur. rewrite rank_cur.
    specialize (Hrk q cq Hq). lia. }
  assert (Hcross : forall r t, r ∈ store a -> t ∈ requestT0s reqs -> T0 (chunk r) <= t).
  { intros r t Hr (q & cq & Hq & Hrq & <-)%Hsent.
    pose proof (si_below _ Hinv r c Hr Hc) as Hb.
    destruct (Z.le_gt_cases (T0 (chunk r)) (T0 cq)) as [|Hgt]; [done|]. exfalso.
    specialize (Hrk q cq Hq) as Hrkq.
    destruct (Z.eq_dec (rank n cur q) (n - 1)) as [Heq|Hneq].
    { rewrite <- (rank_cur n cur) in Heq. apply rank_inj in Heq; [|done|by eapply index_range|done].
      subst q. rewrite Hc in Hq. injection Hq as <-. lia. }
    destruct (Hrun q cq Hq ltac:(lia)) as [Hs Hsv].
    destruct (si_shielded _ Hinv r cq Hr (index_elem_of _ _ _ Hq) Hgt Hs Hsv)
      as (cz & [z Hz]%elem_of_index & Hbetween & Hf).
    pose proof (T0_lt_rank a Hring q z cq cz Hq Hz ltac:(lia)) as Hqz.
    pose proof (T0_lt_rank a Hring z cur cz c Hz Hc ltac:(lia)) as Hzc.
    fold n cur in Hqz, Hzc. rewrite rank_cur in Hzc.
    destruct (Hrun z cz Hz ltac:(lia)) as [Hzs Hzsv].
    destruct Hf as [Hf|Hf]; congruence. }
  constructor.
  - done.
  - rewrite Hstore. unfold requestT0s. rewrite fmap_app.
    apply StronglySorted_app_2.
    + intros t t' (r & -> & Hr)%list_elem_of_fmap Ht'. by apply Hcross.
    + apply (si_sorted _ Hinv).
    + by apply StronglySorted_lt_le.
  - intros r cc' Hr Hcc'. rewrite Hcurpos in Hcc'.
    destruct (Hchunks _ c Hc) as (c' & Hc' & Ht & _). fold cur in Hcc'.
    rewrite Hcc' in Hc'. injection Hc' as <-. rewrite Ht.
    rewrite Hstore in Hr. apply elem_of_app in Hr as [Hr|Hr].
    + by apply (si_below _ Hinv r c).
    + apply Hnew_le. apply list_elem_of_fmap. by exists r.
  - intros r x' Hr [q Hq']%elem_of_index Hlt Hs Hsv.
    assert (HlenZ : lenZ (Chunks a') = n) by (unfold n, lenZ; by rewrite Hlen).
    pose proof (index_range _ _ _ Hq') as Hrq. rewrite HlenZ in Hrq.
    destruct (index_in_range (Chunks a) q Hrq) as [x Hx].
    destruct (Hchunks q x Hx) as (x'' & Hx'' & Ht & Hxs & Hxsv).
    rewrite Hq' in Hx''. injection Hx'' as <-.
    assert (Saving x = false /\ rank n cur q < n - 1 - Z.of_nat m) as [Hxsv' Hrkq].
    { split.
      - destruct (Saving x); [|done]. rewrite (proj2 Hxsv) in Hsv by (by left). done.
      - destruct (Z.lt_ge_cases (rank n cur q) (n - 1 - Z.of_nat m)) as [|Hge]; [done|].
        rewrite (proj2 Hxsv) in Hsv by (right; lia). done. }
    assert (Himage : forall z cz, index (Chunks a) z = Some cz -> flagged cz ->
              exists cz', cz' ∈ Chunks a' /\ T0 cz' = T0 cz /\ flagged cz').
    { intros z cz Hz Hf. destruct (Hchunks z cz Hz) as (cz' & Hz' & Htz & Hzs & Hzsv).
      exists cz'. split; [by eapply index_elem_of|]. split; [done|].
      destruct Hf as [Hf|Hf]; [left; congruence|right; apply Hzsv; by left]. }
    rewrite Hstore in Hr. apply elem_of_app in Hr as [Hr|Hr].
    + destruct (si_shielded _ Hinv r x Hr (index_elem_of _ _ _ Hx) ltac:(lia)
                  ltac:(congruence) Hxsv')
        as (cz & [z Hz]%elem_of_index & Hbetween & Hf).
      destruct (Himage z cz Hz Hf) as (cz' & Hcz' & Htz & Hf').
      exists cz'. split; [done|]. split; [lia|done].
    + assert (T0 (chunk r) ∈ requestT0s reqs) as Hin
        by (apply list_elem_of_fmap; by exists r).
      apply Hsent in Hin as (s0 & cs & Hs0 & Hrs & Hts).
      specialize (Hrk q x Hx) as Hrkq'.
      destruct (Hstop ltac:(lia)) as (z & cz & Hz & Hrz & Hf).
      assert (rank n cur q < rank n cur z) as Hqz.
      { destruct (Z.eq_dec (rank n cur q) (rank n cur z)) as [Heq|]; [|lia].
        apply rank_inj in Heq; [|done|done|by eapply index_range].
        subst z. rewrite Hx in Hz. injection Hz as <-.
        destruct Hf as [Hf|Hf]; congruence. }
      pose proof (T0_strict a q z x cz Hring Hx Hz Hqz) as Hlt1.
      pose proof (T0_strict a z s0 cz cs Hring Hz Hs0 ltac:(fold n cur; lia)) as Hlt2.
      destruct (Himage z cz Hz Hf) as (cz' & Hcz' & Htz & Hf').
      exists cz'. split; [done|]. split; [lia|done].
  - intros Hnil. exfalso. apply (f_equal length) in Hnil. rewrite Hlen in Hnil.
    unfold n, lenZ in Hcur. simpl in Hnil. lia.
  - rewrite Hstore, Hkey. apply Forall_app. split; [apply (si_keys _ Hinv)|done].
Qed.

Lemma StoreInv_persist (primary : bool) (now : Z) (a a' : AggMetric) :
  StoreInv a -> persist primary now a (CurrentChunkPos a) = Ok a' -> StoreInv a'.
Proof.
  destruct primary; [apply StoreInv_persist_primary|apply StoreInv_persist_secondary].
Qed.

Lemma StoreInv_Sync (a a' : AggMetric) (ts : Z) :
  StoreInv a -> SyncChunkSaveState a ts = Ok a' -> StoreInv a'.
Proof.
  intros Hinv Hsync. pose proof (RingInv_Sync _ _ _ (si_ring _ Hinv) Hsync) as Hring.
  apply SyncChunkSaveState_cases in Hsync as [[_ ->]|(p & c & _ & Hc & _ & ->)]; [done|].
  pose proof (index_range _ _ _ Hc) as Hr.
  apply (StoreInv_flags a); [done..|simpl; by rewrite length_alter|].
  intros q cq Hq. simpl. destruct (Z.eq_dec p q) as [<-|Hne].
  - rewrite index_alter_eq, Hq by lia. simpl. by eexists.
  - rewrite index_alter_ne by lia. by exists cq.
Qed.

Section StoreReach.

Variable accepts : Chunk -> Z -> float -> bool.

Lemma StoreInv_Add (primary : bool) (now : Z) (w : World) (ts : Z) (val : float) (w' : World) :
  StoreInv (metric w) -> is_u32 ts ->
  Add accepts primary now w ts val = Ok w' -> StoreInv (metric w').
Proof.
  intros Hinv Hts Hadd. pose proof (si_ring _ Hinv) as Hring.
  pose proof (RingInv_Add accepts _ _ _ _ _ _ Hring Hts Hadd) as Hring'.
  apply Add_cases in Hadd as [_ Hcase].
  destruct Hcase as [c0 a t0 chunks Hc H0 Hacc
                    |c a Hc Ht Hs Hacc|c a Hc Ht Hs|c a Hc Ht Hs Hacc|c a Hc Hlt
                    |c a1 cnew a t0 pos chunks Hc Hlt Hp Hroom Hnew Hacc
                    |c a1 old a t0 pos Hc Hlt Hp Hfull Hold Hacc];
    subst a; try done.
  - pose proof (PosInv_getChunk_None _ (ri_pos _ Hring) Hc) as Hnil.
    pose proof (si_empty _ Hinv Hnil) as Hstore.
    constructor.
    + done.
    + fields. rewrite Hstore. constructor.
    + intros r cc Hr. fields. rewrite Hstore in Hr. by apply elem_of_nil in Hr.
    + intros r x Hr. fields. rewrite Hstore in Hr. by apply elem_of_nil in Hr.
    + intros _. fields. done.
    + fields. rewrite Hstore. constructor.
  - rewrite getChunk_index in Hc. pose proof (index_range _ _ _ Hc) as Hr.
    apply (StoreInv_flags (metric w)); [done..|fields; by rewrite length_insert|].
    fields. intros q cq Hq.
    destruct (Z.eq_dec (CurrentChunkPos (metric w)) q) as [<-|Hne].
    + rewrite index_insert_eq by done. rewrite Hc in Hq. injection Hq as <-. by eexists.
    + rewrite index_insert_ne by lia. by exists cq.
  - rewrite getChunk_index in Hc.
    pose proof (StoreInv_persist _ _ _ _ Hinv Hp) as Hinv1.
    pose proof (si_ring _ Hinv1) as Hring1.
    destruct (persist_frame primary now _ _ c Hc) as (a1' & Hp' & Hset & Hlen & Hfr).
    assert (a1' = a1) as -> by congruence.
    destruct (Hfr _ c Hc) as (c1 & Hc1 & (Hk & _) & _).
    destruct Hset as (_ & Hcur & HN & Hsp & _).
    rewrite <- Hcur in Hc1.
    destruct (RingInv_AddAppend now ts val a1 c1 Hring1 Hts Hc1) as [Hpos _];
      [rewrite Hk, Hsp; apply Hlt|done|].
    subst pos chunks t0. rewrite Hpos in *.
    apply index_snoc in Hnew as [Hnew%index_range|[_ ->]]; [lia|].
    fields. rewrite insert_snoc in Hring' |- *.
    apply (StoreInv_transfer a1); fields; try done.
    + intros Hnil. by destruct (Chunks a1).
    + intros cc cc' Hcc Hcc'. rewrite Hc1 in Hcc. injection Hcc as <-.
      apply index_snoc in Hcc' as [Hcc'%index_range|[_ ->]]; [lia|]. simpl. lia.
    + intros x' [Hx'| ->%list_elem_of_singleton]%elem_of_app Hxs Hxsv.
      * left. by exists x'.
      * right. intros cc Hcc. rewrite Hc1 in Hcc. injection Hcc as <-. simpl. lia.
    + intros x cz _ Hcz _ Hf. exists cz. split; [|done]. apply elem_of_app. by left.
  - rewrite getChunk_index in Hc.
    pose proof (StoreInv_persist _ _ _ _ Hinv Hp) as Hinv1.
    pose proof (si_ring _ Hinv1) as Hring1.
    destruct (persist_frame primary now _ _ c Hc) as (a1' & Hp' & Hset & Hlen & Hfr).
    assert (a1' = a1) as -> by congruence.
    destruct (Hfr _ c Hc) as (c1 & Hc1 & (Hk & _) & _).
    destruct Hset as (_ & Hcur & HN & Hsp & _).
    rewrite <- Hcur in Hc1.
    pose proof (index_range _ _ _ Hold) as Hro.
    pose proof (index_range _ _ _ Hc1) as Hrc.
    destruct (ri_pos _ Hring1) as [Hok _]. destruct Hok as [_ Hcap].
    { intros Hnil. rewrite Hnil in Hro. unfold lenZ in Hro. simpl in Hro. lia. }
    assert (HNn : NumChunks a1 = lenZ (Chunks a1)) by lia.
    subst t0. fields.
    assert (Hidx : forall q cq, index (<[Z.to_nat pos :=
                pushed now (NewChunk (quantize (ChunkSpan (metric w)) ts) now) ts val]>
                (Chunks a1)) q = Some cq ->
              (q = pos /\ T0 cq = quantize (ChunkSpan (metric w)) ts) \/
              (q <> pos /\ index (Chunks a1) q = Some cq)).
    { intros q cq Hq'. destruct (Z.eq_dec pos q) as [<-|Hneq].
      - rewrite index_insert_eq in Hq' by done. injection Hq' as <-. by left.
      - rewrite index_insert_ne in Hq' by lia. right. split; [lia|done]. }
    apply (StoreInv_transfer a1); fields; try done.
    + intros Hnil. exfalso. apply (f_equal length) in Hnil.
      rewrite length_insert in Hnil. unfold lenZ in Hro. simpl in Hnil. lia.
    + intros cc cc' Hcc Hcc'. rewrite Hc1 in Hcc. injection Hcc as <-.
      apply Hidx in Hcc' as [[_ Ht]|[Hne _]]; [lia|done].
    + intros x' [q Hq']%elem_of_index Hxs Hxsv.
      apply Hidx in Hq' as [[_ Ht]|[_ Hq']].
      * right. intros cc Hcc. rewrite Hc1 in Hcc. injection Hcc as <-. lia.
      * left. exists x'. split; [by eapply index_elem_of|done].
    + intros x cz [q Hq']%elem_of_index [z Hz]%elem_of_index Hxz Hf.
      exists cz. split; [|done].
      pose proof (T0_lt_rank a1 Hring1 q z x cz Hq' Hz Hxz) as Hrank.
      pose proof (index_range _ _ _ Hq') as Hrq.
      pose proof (rank_range _ _ q Hrc Hrq) as Hrkq.
      assert (z <> pos) as Hzp.
      { intros ->. unfold pos in Hrank. rewrite HNn, rank_oldest in Hrank by done. lia. }
      apply (index_elem_of _ z). rewrite index_insert_ne by lia. done.
Qed.

Lemma StoreInv_step (w w' : World) :
  step accepts w w' -> StoreInv (metric w) -> StoreInv (metric w').
Proof.
  intros [primary now w1 ts val w2 Hts Hadd
         |primary now w1 cmin mmin b a' Hgc
         |w1 ts a' Hsync] Hinv.
  - by eapply StoreInv_Add.
  - fields. unfold GC in Hgc.
    destruct (getChunk (metric w1) _) as [c|] eqn:Hc; [|by injection Hgc as _ <-].
    destruct (LastWrite c <? cmin); [|by injection Hgc as _ <-].
    destruct (Saved c && _); [by injection Hgc as _ <-|].
    destruct (persist primary now (metric w1) _) as [a1| |] eqn:Hp; [|done..].
    simpl in Hgc. injection Hgc as _ <-. by eapply StoreInv_persist.
  - fields. by eapply StoreInv_Sync.
Qed.



End StoreReach.






(** * Further properties *)

(** ** The configuration along a run *)

Section Settings.

Variable accepts : Chunk -> Z -> float -> bool.

Lemma spans_Aggregator_Add (ts : Z) (val : float) (gs : list Aggregator) :
  span <$> (Aggregator_Add ts val <$> gs) = span <$> gs.
Proof. induction gs as [|g gs IH]; [done|]. rewrite !fmap_cons. by rewrite IH. Qed.

Lemma sameSettings_sameConfig (a a' : AggMetric) : sameSettings a a' -> sameConfig a a'.
Proof. intros (? & ? & ? & ? & Hg & ? & ?). unfold sameConfig. by rewrite Hg. Qed.

Lemma GC_cases (primary : bool) (now : Z) (a : AggMetric) (cmin mmin : Z)
    (b : bool) (a' : AggMetric) :
  GC primary now a cmin mmin = Ok (b, a') ->
  a' = a \/
  (b = false /\
   exists c, index (Chunks a) (CurrentChunkPos a) = Some c /\
     persist primary now a (CurrentChunkPos a) = Ok a').
Proof.
  unfold GC. intros Hgc.
  destruct (getChunk a _) as [c|] eqn:Hc; [|left; congruence].
  destruct (LastWrite c <? cmin); [|left; congruence].
  destruct (Saved c && _); [left; congruence|].
  destruct (persist primary now a _) as [a1| |] eqn:Hp; [|done..].
  simpl in Hgc. injection Hgc as <- <-. right. split; [done|].
  exists c. by rewrite <- getChunk_index.
Qed.

Lemma step_sameConfig (w w' : World) :
  step accepts w w' -> sameConfig (metric w) (metric w').
Proof.
  intros [primary now w1 ts val w2 Hts Hadd
         |primary now w1 cmin mmin b a' Hgc
         |w1 ts a' Hsync].
  - apply Add_cases in Hadd as [_ Hcase].
    destruct Hcase as [c0 a t0 chunks Hc H0 Hacc
                      |c a Hc Ht Hs Hacc|c a Hc Ht Hs|c a Hc Ht Hs Hacc|c a Hc Hlt
                      |c a1 cnew a t0 pos chunks Hc Hlt Hp Hroom Hnew Hacc
                      |c a1 old a t0 pos Hc Hlt Hp Hfull Hold Hacc];
      subst a; unfold sameConfig; fields; rewrite ?spans_Aggregator_Add; try done;
      rewrite getChunk_index in Hc;
      destruct (persist_frame primary now _ _ c Hc) as (a1' & Hp' & Hset & _);
      assert (a1' = a1) as -> by congruence;
      destruct Hset as (? & ? & ? & ? & Hg & ? & ?); by rewrite Hg.
  - fields. apply GC_cases in Hgc as [->|(_ & c & Hc & Hp)]; [done|].
    destruct (persist_frame primary now _ _ c Hc) as (a1 & Hp' & Hset & _).
    assert (a1 = a') as -> by congruence. by apply sameSettings_sameConfig.
  - fields. by apply SyncChunkSaveState_cases in Hsync as [[_ ->]|(p & c & _ & _ & _ & ->)].
Qed.

Lemma run_sameConfig (w0 w : World) :
  rtc (step accepts) w0 w -> sameConfig (metric w0) (metric w).
Proof.
  intros Hsteps. revert w Hsteps. apply rtc_ind_r; [done|].
  intros w1 w2 _ Hstep (H1 & H2 & H3 & H4 & H5).
  destruct (step_sameConfig _ _ Hstep) as (G1 & G2 & G3 & G4 & G5).
  unfold sameConfig. by rewrite G1, G2, G3, G4, G5.
Qed.

Lemma run_config (st : Store) (k : string) (chunkSpan numChunks ttl0 : Z)
    (aggs : list aggSetting) (w0 w : World) :
  metric w0 = NewAggMetric st k chunkSpan numChunks ttl0 aggs ->
  rtc (step accepts) w0 w ->
  Key (metric w) = k /\ ChunkSpan (metric w) = chunkSpan /\
  NumChunks (metric w) = numChunks /\ ttl_ (metric w) = ttl0 /\
  span <$> aggregators (metric w) = as_span <$> aggs.
Proof.
  intros Hw0 Hsteps.
  destruct (run_sameConfig _ _ Hsteps) as (H1 & H2 & H3 & H4 & H5).
  rewrite H1, H2, H3, H4, H5, Hw0. cbn [NewAggMetric Key ChunkSpan NumChunks ttl_ aggregators].
  repeat (split; [reflexivity|]).
  clear. induction aggs as [|s aggs IH]; [done|]. rewrite !fmap_cons. f_equal. exact IH.
Qed.

(** X1.  The configuration is fixed at construction.  Along any run of [Add],
    [GC] and [SyncChunkSaveState] from [NewAggMetric], the key, the span
    of the chunks, the capacity of the ring, the ttl and the spans of the
    aggregators (one per setting, in the order of the settings) are those
    given to [NewAggMetric]. *)
Theorem configuration_is_fixed (st : Store) (k : string) (chunkSpan numChunks ttl0 : Z)
    (aggs : list aggSetting) (w0 w : World) :
  metric w0 = NewAggMetric st k chunkSpan numChunks ttl0 aggs ->
  rtc (step accepts) w0 w ->
  Key (metric w) = k /\ ChunkSpan (metric w) = chunkSpan /\
  NumChunks (metric w) = numChunks /\ ttl_ (metric w) = ttl0 /\
  span <$> aggregators (metric w) = as_span <$> aggs.
Proof. apply run_config. Qed.

End Settings.

(** ** The layout of the ring *)

Lemma StronglySorted_by_index {A : Type} (R : relation A) (l : list A) :
  (forall (i j : nat) x y, l !! i = Some x -> l !! j = Some y -> (i < j)%nat -> R x y) ->
  StronglySorted R l.
Proof.
  induction l as [|a l IH]; intros H; constructor.
  - apply IH. intros i j x y Hi Hj Hlt. apply (H (S i) (S j)); [done..|lia].
  - apply Forall_lookup. intros j y Hj. apply (H 0%nat (S j)); [done..|lia].
Qed.

Lemma reachable_config (accepts : Chunk -> Z -> float -> bool) (chunkSpan numChunks : Z)
    (w : World) :
  reachable accepts chunkSpan numChunks w ->
  ChunkSpan (metric w) = chunkSpan /\ NumChunks (metric w) = numChunks.
Proof.
  intros (st & k & ttl0 & aggs & w0 & Hw0 & Hsteps).
  destruct (run_sameConfig accepts _ _ Hsteps) as (_ & H2 & H3 & _).
  rewrite H2, H3, Hw0. done.
Qed.

Section Layout.

Variable accepts : Chunk -> Z -> float -> bool.

(** X2.  The layout of the ring.  In every state reached from a new metric:
    every [T0] is a [uint32] multiple of the span; a point lies in the
    interval of its chunk; there is one chunk per interval and the
    intervals do not overlap; the chunk at [CurrentChunkPos] is the newest
    and the slot after it, with wrap, holds the oldest; and as long as the
    ring is not full the chunks are in the order of their [T0]s from index
    0 on, the current one last. *)
Theorem ring_layout (chunkSpan numChunks : Z) (w : World) :
  0 < chunkSpan -> 1 <= numChunks ->
  reachable accepts chunkSpan numChunks w ->
  (forall c, c ∈ Chunks (metric w) -> is_u32 (T0 c) /\ T0 c `mod` chunkSpan = 0) /\
  (forall c ts val,
     c ∈ Chunks (metric w) -> (ts, val) ∈ points c -> T0 c <= ts < T0 c + chunkSpan) /\
  (forall c1 c2,
     c1 ∈ Chunks (metric w) -> c2 ∈ Chunks (metric w) ->
     (T0 c1 = T0 c2 -> c1 = c2) /\ (T0 c1 < T0 c2 -> T0 c1 + chunkSpan <= T0 c2)) /\
  (forall cc c,
     getChunk (metric w) (CurrentChunkPos (metric w)) = Some cc ->
     c ∈ Chunks (metric w) -> T0 c <= T0 cc) /\
  (forall co c,
     getChunk (metric w)
       (nextPos (lenZ (Chunks (metric w))) (CurrentChunkPos (metric w))) = Some co ->
     c ∈ Chunks (metric w) -> T0 co <= T0 c) /\
  (Chunks (metric w) <> [] -> lenZ (Chunks (metric w)) < numChunks ->
   CurrentChunkPos (metric w) = lenZ (Chunks (metric w)) - 1 /\
   StronglySorted Z.lt (T0 <$> Chunks (metric w))).
Proof.
  intros Hs HN Hreach.
  pose proof (RingInv_reachable accepts chunkSpan numChunks w Hs HN Hreach) as Hinv.
  destruct (reachable_config accepts _ _ _ Hreach) as [Hspan Hnum].
  set (a := metric w) in *.
  split; [|split; [|split; [|split; [|split]]]].
  - intros c Hc. rewrite <- Hspan. by apply (ri_aligned _ Hinv).
  - intros c ts val Hc Hpt.
    destruct (ri_owned _ Hinv c ts val Hc Hpt) as [Hu Hq].
    destruct (quantize_spec _ ts (ri_span _ Hinv) Hu) as (_ & _ & _ & Hts).
    rewrite Hq, Hspan in Hts. done.
  - intros c1 c2 H1 H2. split.
    + by apply (T0_unique a).
    + intros Hlt. rewrite <- Hspan. apply multiples_apart; [by apply ri_span| | |done].
      * by apply (ri_aligned _ Hinv).
      * by apply (ri_aligned _ Hinv).
  - intros cc c Hcc [p Hp]%elem_of_index. rewrite getChunk_index in Hcc.
    apply (T0_mono a Hinv p (CurrentChunkPos a) c cc Hp Hcc).
    rewrite rank_cur. pose proof (index_range _ _ _ Hp) as Hr.
    pose proof (index_range _ _ _ Hcc) as Hrc.
    pose proof (rank_range _ _ p Hrc Hr). lia.
  - intros co c Hco [p Hp]%elem_of_index. rewrite getChunk_index in Hco.
    destruct (ring_nonempty a Hinv p c Hp) as [Hrc _].
    apply (T0_mono a Hinv _ p co c Hco Hp).
    rewrite rank_oldest by done. pose proof (index_range _ _ _ Hp) as Hr.
    pose proof (rank_range _ _ p Hrc Hr). lia.
  - intros Hne Hroom. rewrite <- Hnum in Hroom.
    pose proof (ri_warm _ Hinv Hne Hroom) as Hw. split; [done|].
    apply StronglySorted_by_index. intros i j x y Hi Hj Hlt.
    apply list_lookup_fmap_Some in Hi as (ci & -> & Hi).
    apply list_lookup_fmap_Some in Hj as (cj & -> & Hj).
    assert (Hpi : index (Chunks a) (Z.of_nat i) = Some ci).
    { apply index_Some. split; [lia|]. by rewrite Nat2Z.id. }
    assert (Hpj : index (Chunks a) (Z.of_nat j) = Some cj).
    { apply index_Some. split; [lia|]. by rewrite Nat2Z.id. }
    pose proof (index_range _ _ _ Hpi). pose proof (index_range _ _ _ Hpj).
    apply (T0_strict a _ _ ci cj Hinv Hpi Hpj).
    rewrite Hw. unfold rank. zcases; lia.
Qed.

End Layout.

(** ** getChunkByT0 *)

(** X3.  [getChunkByT0] never returns a chunk with another [T0].  In any
    state at all, ordered or not, the chunk it returns is a chunk of the
    ring whose [T0] is the requested one; on an empty ring, and for a
    [T0] above that of the current chunk, it returns nil. *)
Theorem getChunkByT0_returns_requested (a : AggMetric) (ts : Z) :
  (forall p, getChunkByT0 a ts = Ok (Some p) ->
     exists c, getChunk a p = Some c /\ T0 c = ts) /\
  (Chunks a = [] -> getChunkByT0 a ts = Ok None) /\
  (forall cc, getChunk a (CurrentChunkPos a) = Some cc -> T0 cc < ts ->
     getChunkByT0 a ts = Ok None).
Proof.
  split; [|split].
  - intros p Hr. destruct (getChunkByT0_sound a ts p Hr) as (c & Hc & Ht).
    exists c. by rewrite getChunk_index.
  - intros Hnil. unfold getChunkByT0. by rewrite Hnil.
  - intros cc Hcc Hlt. pose proof (getChunk_range _ _ _ Hcc) as Hr.
    rewrite getChunk_index in Hcc. unfold getChunkByT0.
    destruct (Z.eqb_spec (lenZ (Chunks a)) 0); [lia|]. rewrite Hcc.
    destruct (Z.eqb_spec ts (T0 cc)); [lia|].
    rewrite Z.gtb_ltb. by destruct (Z.ltb_spec (T0 cc) ts); [|lia].
Qed.

Section LookupRun.

Variable accepts : Chunk -> Z -> float -> bool.

(** X4.  [getChunkByT0] finds the chunk.  In every state reached from a new
    metric the search returns, without panic and within its fuel: the
    position of the chunk whose [T0] is the requested one when the ring
    holds such a chunk, and nil when it holds none. *)
Theorem getChunkByT0_finds (chunkSpan numChunks : Z) (w : World) (ts : Z) :
  0 < chunkSpan -> 1 <= numChunks ->
  reachable accepts chunkSpan numChunks w ->
  (exists p c,
     getChunkByT0 (metric w) ts = Ok (Some p) /\
     index (Chunks (metric w)) p = Some c /\ T0 c = ts) \/
  (getChunkByT0 (metric w) ts = Ok None /\
   forall c, c ∈ Chunks (metric w) -> T0 c <> ts).
Proof.
  intros Hs HN Hreach.
  pose proof (RingInv_reachable accepts chunkSpan numChunks w Hs HN Hreach) as Hinv.
  destruct (getChunkByT0_total (metric w) Hinv ts) as [[p|] Hr].
  - left. destruct (getChunkByT0_sound _ ts p Hr) as (c & Hc & Ht). by exists p, c.
  - right. split; [done|]. intros c [q Hq]%elem_of_index Heq.
    pose proof (getChunkByT0_complete (metric w) Hinv q c Hq) as Hfind.
    rewrite Heq in Hfind. congruence.
Qed.

End LookupRun.

(** ** A new metric *)

(** X5.  A new metric holds no data.  Whatever the arguments of
    [NewAggMetric], on the metric it returns [Get] answers [MaxInt32] with
    no iterator for every valid range, [GC] answers [false] and
    [SyncChunkSaveState] and [getChunkByT0] find nothing, all without
    touching the metric; the store is the one given. *)
Theorem new_metric_has_no_data (st : Store) (k : string) (chunkSpan numChunks ttl0 : Z)
    (aggs : list aggSetting) :
  let a := NewAggMetric st k chunkSpan numChunks ttl0 aggs in
  (forall primary from to, from < to -> Get primary a from to = Ok (MaxInt32, [])) /\
  (forall primary now chunkMinTs metricMinTs,
     GC primary now a chunkMinTs metricMinTs = Ok (false, a)) /\
  (forall ts, getChunkByT0 a ts = Ok None /\ SyncChunkSaveState a ts = Ok a) /\
  (forall pos, getChunk a pos = None) /\
  store a = st.
Proof.
  cbv zeta. split; [|split; [|split; [|split]]].
  - intros primary from to Hlt. unfold Get. rewrite Z.geb_leb.
    destruct (Z.leb_spec to from); [lia|]. by rewrite getChunk_nil.
  - intros. unfold GC. by rewrite getChunk_nil.
  - intros ts. by split.
  - intros pos. by apply getChunk_nil.
  - done.
Qed.

(** ** Add returns, or panics *)

Section AddTotal.

Variable accepts : Chunk -> Z -> float -> bool.

Lemma Add_zero_span (primary : bool) (now : Z) (w : World) (ts : Z) (val : float) :
  ChunkSpan (metric w) = 0 -> Add accepts primary now w ts val = Panic.
Proof. intros H. unfold Add. by rewrite H. Qed.

(** The state [Add] is in when the sample opens a new chunk after the
    current one [c]: the ring after [persist], the slot of the new chunk,
    and what becomes of the push. *)
Lemma Add_opens (primary : bool) (now : Z) (w : World) (ts : Z) (val : float) (c : Chunk) :
  RingInv (metric w) -> is_u32 ts ->
  getChunk (metric w) (CurrentChunkPos (metric w)) = Some c ->
  T0 c < quantize (ChunkSpan (metric w)) ts ->
  let t0 := quantize (ChunkSpan (metric w)) ts in
  exists a1,
    persist primary now (metric w) (CurrentChunkPos (metric w)) = Ok a1 /\
    sameSettings (metric w) a1 /\
    length (Chunks a1) = length (Chunks (metric w)) /\
    let pos := nextPos (NumChunks a1) (CurrentChunkPos a1) in
    0 <= pos /\
    (if accepts (NewChunk t0 now) ts val then
       exists w', Add accepts primary now w ts val = Ok w' /\
         CurrentChunkPos (metric w') = pos /\
         store (metric w') = store a1 /\
         index (Chunks (metric w')) pos = Some (pushed now (NewChunk t0 now) ts val) /\
         (forall q, q <> pos -> index (Chunks (metric w')) q = index (Chunks a1) q) /\
         ((lenZ (Chunks a1) < NumChunks a1 /\ pos = lenZ (Chunks a1) /\
           lenZ (Chunks (metric w')) = lenZ (Chunks a1) + 1 /\
           chunkClear w' = chunkClear w /\ totalPoints w' = totalPoints w) \/
          (lenZ (Chunks a1) = NumChunks a1 /\
           lenZ (Chunks (metric w')) = lenZ (Chunks a1) /\
           chunkClear w' = chunkClear w + 1 /\
           exists old, index (Chunks a1) pos = Some old /\
             totalPoints w' = totalPoints w ++ [-1 * NumPoints old])) /\
         chunkCreate w' = chunkCreate w + 1 /\
         firstChunkT0 (metric w') = firstChunkT0 (metric w)
     else Add accepts primary now w ts val = Panic).
Proof.
  intros Hinv Hts Hc Hlt t0.
  pose proof (ri_span _ Hinv) as Hs.
  rewrite getChunk_index in Hc.
  destruct (persist_frame primary now _ _ c Hc) as (a1 & Hp & Hset & Hlen & Hfr).
  pose proof (RingInv_persist _ _ _ _ _ Hinv Hp) as Hinv1.
  destruct (Hfr _ c Hc) as (c1 & Hc1 & (Hk & _) & _).
  pose proof Hset as (_ & Hcur & HN & Hsp & _).
  rewrite <- Hcur in Hc1.
  exists a1. split; [done|]. split; [done|]. split; [done|]. cbv zeta.
  destruct (ring_nonempty a1 Hinv1 _ c1 Hc1) as [Hrc Hcap].
  pose proof (ri_num _ Hinv1) as HN1.
  pose proof (nextPos_range (NumChunks a1) (CurrentChunkPos a1)) as Hpos.
  split; [lia|].
  unfold Add at 1 2. fold t0.
  destruct (Z.eqb_spec (ChunkSpan (metric w)) 0) as [|_]; [lia|].
  rewrite getChunk_index, Hc.
  destruct (Z.eqb_spec t0 (T0 c)) as [|_]; [lia|].
  destruct (Z.ltb_spec t0 (T0 c)) as [|_]; [lia|].
  rewrite Hp. cbn [mbind result_bind]. fields.
  destruct (Z.ltb_spec (lenZ (Chunks a1)) (NumChunks a1)) as [Hroom|Hfull].
  - destruct (RingInv_AddAppend now ts val a1 c1 Hinv1 Hts Hc1) as [Hnext _];
      [rewrite Hk, Hsp; apply Hlt|done|].
    rewrite Hnext.
    assert (Hnew : index (Chunks a1 ++ [NewChunk t0 now]) (lenZ (Chunks a1))
                   = Some (NewChunk t0 now)).
    { apply index_snoc. by right. }
    rewrite Hnew. unfold Push.
    destruct (accepts (NewChunk t0 now) ts val); [|done].
    eexists. split; [reflexivity|]. fields. rewrite insert_snoc.
    split; [done|]. split; [done|].
    split; [apply index_snoc; by right|].
    split.
    { intros q Hq. destruct (index (Chunks a1) q) as [cq|] eqn:Hcq.
      - apply index_snoc. by left.
      - destruct (index (Chunks a1 ++ _) q) as [cq|] eqn:Hcq'; [|done].
        apply index_snoc in Hcq' as [Hcq'|[-> _]]; [congruence|done]. }
    split; [|split; [done|apply Hset]]. left. rewrite lenZ_app. by repeat split.
  - assert (Heq : lenZ (Chunks a1) = NumChunks a1) by lia.
    destruct (index_in_range (Chunks a1) (nextPos (NumChunks a1) (CurrentChunkPos a1)))
      as [old Hold]; [lia|].
    rewrite Hold. unfold Push.
    destruct (accepts (NewChunk t0 now) ts val); [|done].
    eexists. split; [reflexivity|]. fields.
    split; [done|]. split; [done|].
    split; [apply index_insert_eq; lia|].
    split; [intros q Hq; apply index_insert_ne; lia|].
    split; [|split; [done|apply Hset]]. right. rewrite lenZ_insert. split; [done|].
    split; [done|]. split; [done|]. by exists old.
Qed.

(** X6.  When [Add] returns and when it panics.  With a span of zero [Add]
    panics (the remainder by zero).  In a state reached from a new metric,
    for a [uint32] timestamp: a sample that needs no new chunk always
    returns; a sample that needs one, the ring being empty or the sample
    falling after the interval of the current chunk, returns when the new
    chunk accepts its first point and panics when it refuses it. *)
Theorem Add_returns_or_panics (chunkSpan numChunks : Z) (w : World)
    (primary : bool) (now ts : Z) (val : float) :
  0 < chunkSpan -> 1 <= numChunks ->
  reachable accepts chunkSpan numChunks w -> is_u32 ts ->
  let t0 := quantize chunkSpan ts in
  let opens :=
    Chunks (metric w) = [] \/
    exists c, getChunk (metric w) (CurrentChunkPos (metric w)) = Some c /\ T0 c < t0 in
  (~ opens -> exists w', Add accepts primary now w ts val = Ok w') /\
  (opens -> accepts (NewChunk t0 now) ts val = true ->
   exists w', Add accepts primary now w ts val = Ok w') /\
  (opens -> accepts (NewChunk t0 now) ts val = false ->
   Add accepts primary now w ts val = Panic) /\
  (forall w0 : World, ChunkSpan (metric w0) = 0 -> Add accepts primary now w0 ts val = Panic).
Proof.
  intros Hs HN Hreach Hts t0 opens.
  pose proof (RingInv_reachable accepts chunkSpan numChunks w Hs HN Hreach) as Hinv.
  destruct (reachable_config accepts _ _ _ Hreach) as [Hspan _].
  assert (Hempty : Chunks (metric w) = [] ->
            Add accepts primary now w ts val
            = if accepts (NewChunk t0 now) ts val
              then Ok (setMetric (incChunkCreate w)
                         (addAggregators
                            (setChunks (setFirstChunkT0 (metric w) t0)
                               [pushed now (NewChunk t0 now) ts val]) ts val))
              else Panic).
  { intros Hnil. unfold Add. rewrite Hspan.
    destruct (Z.eqb_spec chunkSpan 0) as [|_]; [lia|].
    rewrite getChunk_nil by done. rewrite Hnil. fold t0. cbn [app index].
    unfold index. simpl. unfold Push. by destruct (accepts _ ts val). }
  assert (Hopen : forall c, getChunk (metric w) (CurrentChunkPos (metric w)) = Some c ->
            T0 c < t0 ->
            if accepts (NewChunk t0 now) ts val
            then exists w', Add accepts primary now w ts val = Ok w'
            else Add accepts primary now w ts val = Panic).
  { intros c Hc Hlt. unfold t0 in *. rewrite <- Hspan in *.
    destruct (Add_opens primary now w ts val c Hinv Hts Hc Hlt) as (a1 & _ & _ & _ & _ & H).
    destruct (accepts _ ts val); [|done]. destruct H as (w' & H & _). by exists w'. }
  split; [|split; [|split]].
  - intros Hno.
    destruct (getChunk (metric w) (CurrentChunkPos (metric w))) as [c|] eqn:Hc.
    + assert (Hge : t0 <= T0 c).
      { destruct (Z.le_gt_cases t0 (T0 c)); [done|]. exfalso. apply Hno. right. by exists c. }
      unfold Add. rewrite Hspan. destruct (Z.eqb_spec chunkSpan 0) as [|_]; [lia|].
      rewrite Hc. fold t0.
      destruct (Z.eqb_spec t0 (T0 c)) as [Heq|Hne].
      * destruct (Saved c); [eauto|]. destruct (Push accepts now c ts val); eauto.
      * destruct (Z.ltb_spec t0 (T0 c)); [eauto|lia].
    + exfalso. apply Hno. left. by apply PosInv_getChunk_None; [apply ri_pos|].
  - intros [Hnil|(c & Hc & Hlt)] Hacc.
    + rewrite (Hempty Hnil), Hacc. eauto.
    + specialize (Hopen c Hc Hlt). by rewrite Hacc in Hopen.
  - intros [Hnil|(c & Hc & Hlt)] Hacc.
    + by rewrite (Hempty Hnil), Hacc.
    + specialize (Hopen c Hc Hlt). by rewrite Hacc in Hopen.
  - intros w0 H0. by apply Add_zero_span.
Qed.

End AddTotal.

(** ** The counters *)

Section Counters.

Variable accepts : Chunk -> Z -> float -> bool.

Lemma lenZ_snoc (l : list Chunk) (x : Chunk) : lenZ (l ++ [x]) = lenZ l + 1.
Proof. unfold lenZ. rewrite length_app. simpl. lia. Qed.

Lemma step_counters (w w' : World) :
  step accepts w w' ->
  chunkCreate w' - chunkClear w' - lenZ (Chunks (metric w'))
    = chunkCreate w - chunkClear w - lenZ (Chunks (metric w)) /\
  Z.of_nat (length (totalPoints w')) - chunkClear w'
    = Z.of_nat (length (totalPoints w)) - chunkClear w /\
  chunkCreate w <= chunkCreate w' /\ chunkClear w <= chunkClear w' /\
  lenZ (Chunks (metric w)) <= lenZ (Chunks (metric w')).
Proof.
  intros [primary now w1 ts val w2 Hts Hadd
         |primary now w1 cmin mmin b a' Hgc
         |w1 ts a' Hsync].
  - apply Add_cases in Hadd as [_ Hcase].
    destruct Hcase as [c0 a t0 chunks Hc H0 Hacc
                      |c a Hc Ht Hs Hacc|c a Hc Ht Hs|c a Hc Ht Hs Hacc|c a Hc Hlt
                      |c a1 cnew a t0 pos chunks Hc Hlt Hp Hroom Hnew Hacc
                      |c a1 old a t0 pos Hc Hlt Hp Hfull Hold Hacc];
      subst a; fields; rewrite ?lenZ_insert; try lia.
    + subst chunks. rewrite lenZ_snoc. lia.
    + rewrite getChunk_index in Hc.
      destruct (persist_frame primary now _ _ c Hc) as (a1' & Hp' & _ & Hlen & _).
      assert (a1' = a1) as -> by congruence.
      assert (Hl : lenZ (Chunks a1) = lenZ (Chunks (metric w1))) by (unfold lenZ; by rewrite Hlen).
      subst chunks. rewrite lenZ_snoc, Hl. lia.
    + rewrite getChunk_index in Hc.
      destruct (persist_frame primary now _ _ c Hc) as (a1' & Hp' & _ & Hlen & _).
      assert (a1' = a1) as -> by congruence.
      assert (Hl : lenZ (Chunks a1) = lenZ (Chunks (metric w1))) by (unfold lenZ; by rewrite Hlen).
      rewrite Hl, length_app, Nat2Z.inj_add. simpl. lia.
  - fields. apply GC_cases in Hgc as [->|(_ & c & Hc & Hp)]; [lia|].
    destruct (persist_frame primary now _ _ c Hc) as (a1 & Hp' & _ & Hlen & _).
    assert (a1 = a') as -> by congruence.
    assert (Hl : lenZ (Chunks a') = lenZ (Chunks (metric w1))) by (unfold lenZ; by rewrite Hlen).
    rewrite Hl. lia.
  - fields. apply SyncChunkSaveState_cases in Hsync as [[_ ->]|(p & c & _ & _ & _ & ->)];
      fields; rewrite ?lenZ_alter; lia.
Qed.

(** X7.  The counters follow the ring.  Along any run of [Add], [GC] and
    [SyncChunkSaveState], [chunkCreate] grows by one for each chunk put in
    the ring and [chunkClear] by one for each chunk overwritten, so that
    [chunkCreate - chunkClear] moves with the number of chunks in the ring;
    one message is sent on [totalPoints] per [chunkClear]; and neither the
    counters nor the number of chunks ever decrease. *)
Theorem counters_follow_ring (w0 w : World) :
  rtc (step accepts) w0 w ->
  chunkCreate w - chunkClear w - lenZ (Chunks (metric w))
    = chunkCreate w0 - chunkClear w0 - lenZ (Chunks (metric w0)) /\
  Z.of_nat (length (totalPoints w)) - chunkClear w
    = Z.of_nat (length (totalPoints w0)) - chunkClear w0 /\
  chunkCreate w0 <= chunkCreate w /\ chunkClear w0 <= chunkClear w /\
  lenZ (Chunks (metric w0)) <= lenZ (Chunks (metric w)).
Proof.
  intros Hsteps. revert w Hsteps. apply rtc_ind_r; [lia|].
  intros w1 w2 _ Hstep (H1 & H2 & H3 & H4 & H5).
  destruct (step_counters _ _ Hstep) as (G1 & G2 & G3 & G4 & G5). lia.
Qed.

End Counters.

(** ** What is handed to the store *)

Lemma persist_store (primary : bool) (now : Z) (a : AggMetric) (pos : Z) (a' : AggMetric) :
  persist primary now a pos = Ok a' ->
  exists reqs,
    store a' = store a ++ reqs /\
    Forall (fun r => key r = Key a /\ ttl r = ttl_ a) reqs /\
    (primary = false -> reqs = []).
Proof.
  intros Hp. destruct (index (Chunks a) pos) as [c|] eqn:Hc.
  - destruct primary.
    + destruct (persist_primary now a pos c Hc) as (m & Hp' & _). cbv zeta in Hp'.
      rewrite Hp' in Hp. injection Hp as <-. eexists. split; [reflexivity|].
      split; [apply requestsFor_keys|done].
    + rewrite (persist_secondary now a pos c Hc) in Hp. injection Hp as <-.
      exists []. split; [by rewrite app_nil_r|]. split; [constructor|done].
  - unfold persist in Hp. by rewrite Hc in Hp.
Qed.

Section StoreGrows.

Variable accepts : Chunk -> Z -> float -> bool.

Lemma Add_store (primary : bool) (now : Z) (w : World) (ts : Z) (val : float) (w' : World) :
  Add accepts primary now w ts val = Ok w' ->
  exists reqs,
    store (metric w') = store (metric w) ++ reqs /\
    Forall (fun r => key r = Key (metric w) /\ ttl r = ttl_ (metric w)) reqs /\
    (primary = false -> reqs = []).
Proof.
  intros [_ Hcase]%Add_cases.
  destruct Hcase as [c0 a t0 chunks Hc H0 Hacc
                    |c a Hc Ht Hs Hacc|c a Hc Ht Hs|c a Hc Ht Hs Hacc|c a Hc Hlt
                    |c a1 cnew a t0 pos chunks Hc Hlt Hp Hroom Hnew Hacc
                    |c a1 old a t0 pos Hc Hlt Hp Hfull Hold Hacc];
    subst a; fields;
    try (exists []; split; [by rewrite app_nil_r|]; split; [constructor|done]);
    by apply (persist_store _ _ _ _ _ Hp).
Qed.

Lemma GC_store (primary : bool) (now : Z) (a : AggMetric) (cmin mmin : Z)
    (b : bool) (a' : AggMetric) :
  GC primary now a cmin mmin = Ok (b, a') ->
  exists reqs,
    store a' = store a ++ reqs /\
    Forall (fun r => key r = Key a /\ ttl r = ttl_ a) reqs /\
    (primary = false -> reqs = []).
Proof.
  intros [->|(_ & c & Hc & Hp)]%GC_cases.
  - exists []. split; [by rewrite app_nil_r|]. split; [constructor|done].
  - by apply (persist_store _ _ _ _ _ Hp).
Qed.

Lemma Sync_store (a : AggMetric) (ts : Z) (a' : AggMetric) :
  SyncChunkSaveState a ts = Ok a' -> store a' = store a.
Proof. by intros [[_ ->]|(p & c & _ & _ & _ & ->)]%SyncChunkSaveState_cases. Qed.

(** X8.  The store is only appended to.  Along any run of [Add], [GC] and
    [SyncChunkSaveState] the requests already handed to the store stay as
    they are, in their order, and those added carry the key and the ttl
    of the metric. *)
Theorem store_is_append_only (w0 w : World) :
  rtc (step accepts) w0 w ->
  exists reqs,
    store (metric w) = store (metric w0) ++ reqs /\
    Forall (fun r => key r = Key (metric w0) /\ ttl r = ttl_ (metric w0)) reqs.
Proof.
  intros Hsteps. revert w Hsteps. apply rtc_ind_r.
  - exists []. split; [by rewrite app_nil_r|constructor].
  - intros w1 w2 Hsteps Hstep (reqs & Hst & Hall).
    destruct (run_sameConfig accepts _ _ Hsteps) as (Hk & _ & _ & Httl & _).
    assert (exists reqs', store (metric w2) = store (metric w1) ++ reqs' /\
              Forall (fun r => key r = Key (metric w1) /\ ttl r = ttl_ (metric w1)) reqs')
      as (reqs' & Hst' & Hall').
    { destruct Hstep as [primary now w1 ts val w2 Hts Hadd
                        |primary now w1 cmin mmin b a' Hgc
                        |w1 ts a' Hsync]; fields.
      - destruct (Add_store _ _ _ _ _ _ Hadd) as (r & Hr & Hf & _). by exists r.
      - destruct (GC_store _ _ _ _ _ _ _ Hgc) as (r & Hr & Hf & _). by exists r.
      - exists []. rewrite (Sync_store _ _ _ Hsync). split; [by rewrite app_nil_r|constructor]. }
    exists (reqs ++ reqs'). split; [by rewrite Hst', Hst, app_assoc|].
    apply Forall_app. split; [done|]. by rewrite <- Hk, <- Httl.
Qed.

(** X9.  A node that is not primary never writes.  [Add] and [GC] on a node
    that is not primary, and [SyncChunkSaveState] on any node, leave the
    store as it is, in every state in which they return. *)
Theorem secondary_never_writes :
  (forall now w ts val w',
     Add accepts false now w ts val = Ok w' -> store (metric w') = store (metric w)) /\
  (forall now a chunkMinTs metricMinTs b a',
     GC false now a chunkMinTs metricMinTs = Ok (b, a') -> store a' = store a) /\
  (forall a ts a', SyncChunkSaveState a ts = Ok a' -> store a' = store a).
Proof.
  split; [|split].
  - intros now w ts val w' Hadd.
    destruct (Add_store _ _ _ _ _ _ Hadd) as (r & Hr & _ & Hnil).
    by rewrite Hr, Hnil, app_nil_r.
  - intros now a cmin mmin b a' Hgc.
    destruct (GC_store _ _ _ _ _ _ _ Hgc) as (r & Hr & _ & Hnil).
    by rewrite Hr, Hnil, app_nil_r.
  - exact Sync_store.
Qed.

End StoreGrows.

(** ** A sample that opens a new chunk *)

Section RollOver.

Variable accepts : Chunk -> Z -> float -> bool.

(** X10.  What [Add] does with a sample that falls after the interval of the
    current chunk [c], in a state reached from a new metric, when the new
    chunk accepts the sample.  The current position moves to the next slot
    of the ring of [numChunks] slots, with wrap, and that slot holds a new
    chunk with the sample as its only point; [c] is finished and, on a
    primary, marked as being saved, its request being the last of those
    handed to the store by the call; a node that is not primary hands
    nothing to the store.  The ring grows by one chunk until it holds
    [numChunks] of them and keeps that size afterwards, when [chunkClear]
    is incremented.  [chunkCreate] is incremented and [firstChunkT0] is as
    it was. *)
Theorem Add_rolls_over (chunkSpan numChunks : Z) (w : World) (primary : bool)
    (now ts : Z) (val : float) (c : Chunk) :
  0 < chunkSpan -> 1 <= numChunks ->
  reachable accepts chunkSpan numChunks w -> is_u32 ts ->
  getChunk (metric w) (CurrentChunkPos (metric w)) = Some c ->
  T0 c < quantize chunkSpan ts ->
  accepts (NewChunk (quantize chunkSpan ts) now) ts val = true ->
  let cur := CurrentChunkPos (metric w) in
  let pos := nextPos numChunks cur in
  let n := lenZ (Chunks (metric w)) in
  exists w',
    Add accepts primary now w ts val = Ok w' /\
    CurrentChunkPos (metric w') = pos /\
    getChunk (metric w') pos
      = Some (pushed now (NewChunk (quantize chunkSpan ts) now) ts val) /\
    (pos <> cur ->
     getChunk (metric w') cur
       = Some (if primary then setSaving (Finish now c) else Finish now c)) /\
    (if primary then
       exists older,
         store (metric w')
           = store (metric w) ++ older
               ++ [mkReq (Key (metric w)) (Finish now c) (ttl_ (metric w)) now]
     else store (metric w') = store (metric w)) /\
    lenZ (Chunks (metric w')) = (if n <? numChunks then n + 1 else n) /\
    chunkCreate w' = chunkCreate w + 1 /\
    chunkClear w' = (if n <? numChunks then chunkClear w else chunkClear w + 1) /\
    firstChunkT0 (metric w') = firstChunkT0 (metric w).
Proof.
  intros Hs HN Hreach Hts Hc Hlt Hacc cur pos n. subst cur pos n.
  set (n := lenZ (Chunks (metric w))) in *.
  pose proof (RingInv_reachable accepts chunkSpan numChunks w Hs HN Hreach) as Hinv.
  destruct (reachable_config accepts _ _ _ Hreach) as [Hspan Hnum].
  rewrite <- Hspan in Hlt, Hacc |- *.
  destruct (Add_opens accepts primary now w ts val c Hinv Hts Hc Hlt)
    as (a1 & Hp & Hset & Hlen & Hpos & H).
  rewrite Hacc in H.
  destruct H as (w' & Hadd & Hcur' & Hst & Hnew & Hothers & Hsize & Hcreate & Hfirst').
  destruct Hset as (Hk & Hcur1 & HN1 & Hsp1 & _ & Hfirst & Httl).
  assert (Hl : lenZ (Chunks a1) = n) by (unfold n, lenZ; by rewrite Hlen).
  rewrite Hcur1, HN1, Hnum in Hcur', Hnew, Hothers, Hsize, Hpos.
  rewrite getChunk_index in Hc.
  assert (Hc1 : index (Chunks a1) (CurrentChunkPos (metric w))
                = Some (if primary then setSaving (Finish now c) else Finish now c) /\
          (if primary then
             exists older,
               store a1 = store (metric w) ++ older
                            ++ [mkReq (Key (metric w)) (Finish now c) (ttl_ (metric w)) now]
           else store a1 = store (metric w))).
  { destruct primary.
    - destruct (persist_primary_store now (metric w) _ c Hc) as (a1' & older & Hp' & Hs' & Hi' & _).
      assert (a1' = a1) as -> by congruence. split; [done|]. by exists older.
    - rewrite (persist_secondary now (metric w) _ c Hc) in Hp. injection Hp as <-.
      fields. split; [|done]. apply index_insert_eq. by eapply index_range. }
  destruct Hc1 as [Hc1 Hstore1].
  exists w'. split; [done|]. split; [done|].
  split; [by rewrite getChunk_index|].
  split; [intros Hne; rewrite getChunk_index, Hothers by done; exact Hc1|].
  split; [by rewrite Hst|].
  destruct Hsize as [(Hroom & _ & Hlen' & Hclear & _)|(Hfull & Hlen' & Hclear & _)].
  - rewrite Hl in Hroom, Hlen'.
    destruct (Z.ltb_spec n numChunks); [|lia]. by repeat split.
  - rewrite Hl in Hfull, Hlen'.
    destruct (Z.ltb_spec n numChunks); [lia|]. by repeat split.
Qed.

End RollOver.

(** ** What a step does to the chunk of an interval *)

(** When the chunks change slot by slot, a relation that holds slot by slot
    holds between the chunks of one interval. *)
Lemma related_pointwise (R : Chunk -> Chunk -> Prop) (a a' : AggMetric) :
  RingInv a -> length (Chunks a') = length (Chunks a) ->
  (forall q cq, index (Chunks a) q = Some cq ->
     exists cq', index (Chunks a') q = Some cq' /\ T0 cq' = T0 cq /\ R cq cq') ->
  forall c c', c ∈ Chunks a -> c' ∈ Chunks a' -> T0 c' = T0 c -> R c c'.
Proof.
  intros Hinv Hlen Hfwd c c' [p Hp]%elem_of_index [q Hq]%elem_of_index Heq.
  pose proof (index_range _ _ _ Hq) as Hr.
  assert (Hr' : 0 <= q < lenZ (Chunks a)) by (unfold lenZ in *; by rewrite <- Hlen).
  destruct (index_in_range _ _ Hr') as [cq Hcq].
  destruct (Hfwd q cq Hcq) as (cq' & Hq' & Ht & HR).
  rewrite Hq in Hq'. injection Hq' as <-.
  assert (q = p) as -> by (eapply T0_inj; [done..|congruence]).
  rewrite Hp in Hcq. by injection Hcq as <-.
Qed.

Section Slotwise.

Variable accepts : Chunk -> Z -> float -> bool.
Variable R : Chunk -> Chunk -> Prop.
Hypothesis R_refl : forall c, R c c.
Hypothesis R_persist :
  forall c c', keeps c c' -> Saved c' = Saved c ->
    (Saving c = true -> Saving c' = true) -> R c c'.
Hypothesis R_saved : forall c, R c (setSaved c).
Hypothesis R_pushed : forall now c ts val, Saved c = false -> R c (pushed now c ts val).

Lemma same_related (a : AggMetric) :
  RingInv a ->
  forall c c', c ∈ Chunks a -> c' ∈ Chunks a -> T0 c' = T0 c -> R c c'.
Proof. intros Hinv c c' H1 H2 Heq. by rewrite (T0_unique a c' c Hinv H2 H1 Heq). Qed.

Lemma persist_related (primary : bool) (now : Z) (a a' : AggMetric) (pos : Z) :
  RingInv a -> persist primary now a pos = Ok a' ->
  forall c c', c ∈ Chunks a -> c' ∈ Chunks a' -> T0 c' = T0 c -> R c c'.
Proof.
  intros Hinv Hp.
  destruct (index (Chunks a) pos) as [c0|] eqn:Hc0.
  - destruct (persist_frame primary now a pos c0 Hc0) as (a1 & Hp1 & _ & Hlen & Hfr).
    assert (a1 = a') as -> by congruence.
    apply related_pointwise; [done..|].
    intros q cq Hq. destruct (Hfr q cq Hq) as (cq' & Hq' & Hk & Hsd & Hsg & _).
    exists cq'. split; [done|]. split; [apply Hk|]. by apply R_persist.
  - unfold persist in Hp. by rewrite Hc0 in Hp.
Qed.

Lemma newer_than_all (a : AggMetric) (cc c : Chunk) (t0 : Z) :
  RingInv a -> index (Chunks a) (CurrentChunkPos a) = Some cc -> T0 cc < t0 ->
  c ∈ Chunks a -> T0 c < t0.
Proof.
  intros Hinv Hcc Hlt [p Hp]%elem_of_index.
  pose proof (T0_mono a Hinv p _ c cc Hp Hcc) as Hm. rewrite rank_cur in Hm.
  pose proof (index_range _ _ _ Hp) as Hr. pose proof (index_range _ _ _ Hcc) as Hrc.
  pose proof (rank_range _ _ p Hrc Hr). lia.
Qed.

Lemma Add_related (primary : bool) (now : Z) (w : World) (ts : Z) (val : float) (w' : World) :
  RingInv (metric w) -> is_u32 ts ->
  Add accepts primary now w ts val = Ok w' ->
  forall c c', c ∈ Chunks (metric w) -> c' ∈ Chunks (metric w') -> T0 c' = T0 c -> R c c'.
Proof.
  intros Hinv Hts [_ Hcase]%Add_cases.
  destruct Hcase as [c0 a t0 chunks Hc H0 Hacc
                    |c a Hc Ht Hs Hacc|c a Hc Ht Hs|c a Hc Ht Hs Hacc|c a Hc Hlt
                    |c a1 cnew a t0 pos chunks Hc Hlt Hp Hroom Hnew Hacc
                    |c a1 old a t0 pos Hc Hlt Hp Hfull Hold Hacc];
    subst a; try (by apply same_related).
  - intros c1 c2 H1. rewrite (PosInv_getChunk_None _ (ri_pos _ Hinv) Hc) in H1.
    by apply elem_of_nil in H1.
  - rewrite getChunk_index in Hc. pose proof (index_range _ _ _ Hc) as Hr.
    apply related_pointwise; [done|fields; by rewrite length_insert|]. fields.
    intros q cq Hq. destruct (Z.eq_dec (CurrentChunkPos (metric w)) q) as [<-|Hne].
    + rewrite index_insert_eq by done. rewrite Hc in Hq. injection Hq as <-.
      eexists. split; [done|]. split; [done|]. by apply R_pushed.
    + rewrite index_insert_ne by lia. by exists cq.
  - rewrite getChunk_index in Hc.
    pose proof (RingInv_persist _ _ _ _ _ Hinv Hp) as Hinv1.
    destruct (persist_frame primary now _ _ c Hc) as (a1' & Hp' & Hset & Hlen & Hfr).
    assert (a1' = a1) as -> by congruence.
    destruct (Hfr _ c Hc) as (c1 & Hc1 & (Hk & _) & _).
    destruct Hset as (_ & Hcur & HN & Hsp & _).
    rewrite <- Hcur in Hc1.
    destruct (RingInv_AddAppend now ts val a1 c1 Hinv1 Hts Hc1) as [Hpos _];
      [rewrite Hk, Hsp; apply Hlt|done|].
    subst pos chunks t0. rewrite Hpos in *.
    apply index_snoc in Hnew as [Hnew%index_range|[_ ->]]; [lia|].
    fields. rewrite insert_snoc.
    intros c0 c' H0 [Hin| ->%list_elem_of_singleton]%elem_of_app Heq.
    + by apply (persist_related _ _ _ _ _ Hinv Hp c0 c').
    + exfalso. simpl in Heq.
      pose proof (newer_than_all _ c c0 _ Hinv Hc Hlt H0). lia.
  - rewrite getChunk_index in Hc.
    pose proof (RingInv_persist _ _ _ _ _ Hinv Hp) as Hinv1.
    fields. intros c0 c' H0 [q Hq]%elem_of_index Heq.
    pose proof (index_range _ _ _ Hold) as Hro.
    destruct (Z.eq_dec pos q) as [<-|Hne].
    + exfalso. rewrite index_insert_eq in Hq by done. injection Hq as <-.
      simpl in Heq. pose proof (newer_than_all _ c c0 _ Hinv Hc Hlt H0). subst t0. lia.
    + rewrite index_insert_ne in Hq by lia.
      apply (persist_related _ _ _ _ _ Hinv Hp c0 c'); [done|by eapply index_elem_of|done].
Qed.

Lemma step_related (w w' : World) :
  RingInv (metric w) -> step accepts w w' ->
  forall c c', c ∈ Chunks (metric w) -> c' ∈ Chunks (metric w') -> T0 c' = T0 c -> R c c'.
Proof.
  intros Hinv Hstep.
  destruct Hstep as [primary now w1 ts val w2 Hts Hadd
                    |primary now w1 cmin mmin b a' Hgc
                    |w1 ts a' Hsync].
  - exact (Add_related _ _ _ _ _ _ Hinv Hts Hadd).
  - fields. apply GC_cases in Hgc as [->|(_ & c & Hc & Hp)]; [by apply same_related|].
    by eapply persist_related.
  - fields.
    apply SyncChunkSaveState_cases in Hsync as [[_ ->]|(p & c & _ & Hc & _ & ->)];
      [by apply same_related|].
    pose proof (index_range _ _ _ Hc) as Hr.
    apply related_pointwise; [done|fields; by rewrite length_alter|]. fields.
    intros q cq Hq. destruct (Z.eq_dec p q) as [<-|Hne].
    + rewrite index_alter_eq, Hq by lia. simpl. eexists. split; [done|]. split; [done|].
      apply R_saved.
    + rewrite index_alter_ne by lia. by exists cq.
Qed.

End Slotwise.

Section Frozen.

Variable accepts : Chunk -> Z -> float -> bool.

(** X11.  The flags are never cleared and a saved chunk is never written to.
    In a state reached from a new metric, no operation resets the [Saving]
    or the [Saved] flag of the chunk of an interval, and the chunk of an
    interval that is marked as saved keeps its points, its [LastTs] and
    its [NumPoints] for as long as the ring holds a chunk for that
    interval. *)
Theorem saved_chunk_is_frozen (chunkSpan numChunks : Z) (w w' : World) (c c' : Chunk) :
  0 < chunkSpan -> 1 <= numChunks ->
  reachable accepts chunkSpan numChunks w ->
  step accepts w w' ->
  c ∈ Chunks (metric w) -> c' ∈ Chunks (metric w') -> T0 c' = T0 c ->
  (Saving c = true -> Saving c' = true) /\
  (Saved c = true ->
   Saved c' = true /\ points c' = points c /\ LastTs c' = LastTs c /\
   NumPoints c' = NumPoints c).
Proof.
  intros Hs HN Hreach Hstep.
  pose proof (RingInv_reachable accepts chunkSpan numChunks w Hs HN Hreach) as Hinv.
  apply (step_related accepts
           (fun c c' => (Saving c = true -> Saving c' = true) /\
                        (Saved c = true ->
                         Saved c' = true /\ points c' = points c /\ LastTs c' = LastTs c /\
                         NumPoints c' = NumPoints c))); [| | | |done..].
  - done.
  - intros x y (Ht & Hl & Hn & Hp) Hsd Hsg. split; [done|]. intros Hx.
    by rewrite Hsd.
  - intros x. by split.
  - intros now x ts val Hx. split; [done|]. intros Hx'. congruence.
Qed.

End Frozen.

(** ** Which chunk leaves the ring *)

Lemma survives_slotwise (a a' : AggMetric) (c : Chunk) :
  (forall q cq, index (Chunks a) q = Some cq ->
     exists cq', index (Chunks a') q = Some cq' /\ T0 cq' = T0 cq) ->
  c ∈ Chunks a -> exists c', c' ∈ Chunks a' /\ T0 c' = T0 c.
Proof.
  intros Hfwd [p Hp]%elem_of_index. destruct (Hfwd p c Hp) as (c' & Hc' & Ht).
  exists c'. split; [by eapply index_elem_of|done].
Qed.

Lemma persist_T0s (primary : bool) (now : Z) (a a' : AggMetric) (pos : Z) :
  persist primary now a pos = Ok a' ->
  length (Chunks a') = length (Chunks a) /\
  firstChunkT0 a' = firstChunkT0 a /\
  (forall q cq, index (Chunks a) q = Some cq ->
     exists cq', index (Chunks a') q = Some cq' /\ T0 cq' = T0 cq /\
       NumPoints cq' = NumPoints cq) /\
  (forall q cq', index (Chunks a') q = Some cq' ->
     exists cq, index (Chunks a) q = Some cq /\ T0 cq' = T0 cq).
Proof.
  intros Hp. destruct (index (Chunks a) pos) as [c0|] eqn:Hc0.
  - destruct (persist_frame primary now a pos c0 Hc0) as (a1 & Hp1 & Hset & Hlen & Hfr).
    assert (a1 = a') as -> by congruence.
    assert (Hfwd : forall q cq, index (Chunks a) q = Some cq ->
              exists cq', index (Chunks a') q = Some cq' /\ T0 cq' = T0 cq /\
                NumPoints cq' = NumPoints cq).
    { intros q cq Hq. destruct (Hfr q cq Hq) as (cq' & Hq' & (Ht & _ & Hn & _) & _).
      by exists cq'. }
    split; [done|]. split; [apply Hset|]. split; [done|].
    intros q cq' Hq'. pose proof (index_range _ _ _ Hq') as Hr.
    destruct (index_in_range (Chunks a) q) as [cq Hq]; [unfold lenZ in *; by rewrite <- Hlen|].
    destruct (Hfwd q cq Hq) as (cq'' & Hq'' & Ht & _).
    exists cq. split; [done|]. congruence.
  - unfold persist in Hp. by rewrite Hc0 in Hp.
Qed.

Section Eviction.

Variable accepts : Chunk -> Z -> float -> bool.

(** X12.  Only the oldest chunk is ever dropped.  In a state reached from a
    new metric, after any operation the ring still holds a chunk for the
    interval of each chunk it held, with one exception: an [Add] that
    opens a new chunk in a ring that is full overwrites the chunk with the
    smallest [T0]; [chunkClear] is then incremented, the number of points
    of the chunk is sent, negated, on [totalPoints], and the new current
    chunk is newer than every chunk the ring held. *)
Theorem only_the_oldest_is_dropped (chunkSpan numChunks : Z) (w w' : World) (c : Chunk) :
  0 < chunkSpan -> 1 <= numChunks ->
  reachable accepts chunkSpan numChunks w ->
  step accepts w w' ->
  c ∈ Chunks (metric w) ->
  (exists c', c' ∈ Chunks (metric w') /\ T0 c' = T0 c) \/
  (lenZ (Chunks (metric w)) = numChunks /\
   (forall d, d ∈ Chunks (metric w) -> T0 c <= T0 d) /\
   chunkClear w' = chunkClear w + 1 /\
   totalPoints w' = totalPoints w ++ [-1 * NumPoints c] /\
   exists cn,
     getChunk (metric w') (CurrentChunkPos (metric w')) = Some cn /\
     forall d, d ∈ Chunks (metric w) -> T0 d < T0 cn).
Proof.
  intros Hs HN Hreach Hstep Hin.
  pose proof (RingInv_reachable accepts chunkSpan numChunks w Hs HN Hreach) as Hinv.
  destruct (reachable_config accepts _ _ _ Hreach) as [Hspan Hnum].
  destruct Hstep as [primary now w1 ts val w2 Hts Hadd
                    |primary now w1 cmin mmin b a' Hgc
                    |w1 ts a' Hsync].
  - pose proof Hadd as [_ Hcase]%Add_cases.
    assert (Hroll : forall cc, getChunk (metric w1) (CurrentChunkPos (metric w1)) = Some cc ->
              T0 cc < quantize (ChunkSpan (metric w1)) ts ->
              (exists c', c' ∈ Chunks (metric w2) /\ T0 c' = T0 c) \/
              (lenZ (Chunks (metric w1)) = numChunks /\
               (forall d, d ∈ Chunks (metric w1) -> T0 c <= T0 d) /\
               chunkClear w2 = chunkClear w1 + 1 /\
               totalPoints w2 = totalPoints w1 ++ [-1 * NumPoints c] /\
               exists cn,
                 getChunk (metric w2) (CurrentChunkPos (metric w2)) = Some cn /\
                 forall d, d ∈ Chunks (metric w1) -> T0 d < T0 cn)).
    { intros cc Hcc Hlt.
      destruct (Add_opens accepts primary now w1 ts val cc Hinv Hts Hcc Hlt)
        as (a1 & Hp & Hset & Hlen & Hpos & H).
      destruct (accepts _ ts val); [|congruence].
      destruct H as (w' & Hadd' & Hcur' & _ & Hnew & Hothers & Hsize & _).
      assert (w' = w2) as -> by congruence.
      destruct (persist_T0s _ _ _ _ _ Hp) as (_ & _ & Hfwd & _).
      destruct (elem_of_index _ _ Hin) as [p Hp0].
      destruct (Hfwd p c Hp0) as (c1 & Hc1 & Ht1 & Hn1).
      destruct Hset as (_ & Hcur1 & HN1 & _).
      set (pos := nextPos (NumChunks a1) (CurrentChunkPos a1)) in *.
      destruct (Z.eq_dec p pos) as [->|Hne].
      - right.
        destruct Hsize as [(Hroom & Hposl & _)|(Hfull & _ & Hclear & old & Hold & Htp)].
        { apply index_range in Hc1. lia. }
        assert (Hl : lenZ (Chunks a1) = lenZ (Chunks (metric w1)))
          by (unfold lenZ; by rewrite Hlen).
        split; [lia|]. split.
        + intros d [q Hq]%elem_of_index.
          rewrite getChunk_index in Hcc. pose proof (index_range _ _ _ Hcc) as Hrc.
          apply (T0_mono (metric w1) Hinv pos q c d Hp0 Hq).
          unfold pos. rewrite Hcur1, <- Hfull, Hl, rank_oldest by done.
          pose proof (index_range _ _ _ Hq) as Hrq.
          pose proof (rank_range _ _ q Hrc Hrq). lia.
        + split; [done|]. split.
          { rewrite Htp. rewrite Hc1 in Hold. injection Hold as <-. by rewrite Hn1. }
          eexists. rewrite getChunk_index, Hcur'. split; [exact Hnew|].
          intros d Hd. simpl. rewrite getChunk_index in Hcc.
          by apply (newer_than_all (metric w1) cc d).
      - left. exists c1. split; [|done].
        apply (index_elem_of _ p). by rewrite Hothers. }
    destruct Hcase as [c0 a t0 chunks Hc H0 Hacc
                      |cc a Hc Ht Hsv Hacc|cc a Hc Ht Hsv|cc a Hc Ht Hsv Hacc|cc a Hc Hlt
                      |cc a1 cnew a t0 pos chunks Hc Hlt Hp Hroom Hnew Hacc
                      |cc a1 old a t0 pos Hc Hlt Hp Hfull Hold Hacc];
      subst a.
    + rewrite (PosInv_getChunk_None _ (ri_pos _ Hinv) Hc) in Hin.
      by apply elem_of_nil in Hin.
    + left. apply (survives_slotwise (metric w1)); [|done]. fields.
      rewrite getChunk_index in Hc. pose proof (index_range _ _ _ Hc) as Hr.
      intros q cq Hq. destruct (Z.eq_dec (CurrentChunkPos (metric w1)) q) as [<-|Hne].
      * rewrite index_insert_eq by done. rewrite Hc in Hq. injection Hq as <-. by eexists.
      * rewrite index_insert_ne by lia. by exists cq.
    + left. by exists c.
    + left. by exists c.
    + left. by exists c.
    + by apply (Hroll cc).
    + by apply (Hroll cc).
  - left. fields. apply GC_cases in Hgc as [->|(_ & cc & Hc & Hp)]; [by exists c|].
    destruct (persist_T0s _ _ _ _ _ Hp) as (_ & _ & Hfwd & _).
    apply (survives_slotwise (metric w1)); [|done].
    intros q cq Hq. destruct (Hfwd q cq Hq) as (cq' & ? & ? & _). by exists cq'.
  - left.
    apply SyncChunkSaveState_cases in Hsync as [[_ ->]|(p & cc & _ & Hc & _ & ->)];
      [by exists c|].
    apply (survives_slotwise (metric w1)); [|done]. fields.
    intros q cq Hq. destruct (Z.eq_dec p q) as [<-|Hne].
    + rewrite index_alter_eq, Hq by (apply index_range in Hc; lia). by eexists.
    + rewrite index_alter_ne by (apply index_range in Hc; lia). by exists cq.
Qed.

End Eviction.

(** ** firstChunkT0 *)

Lemma firstBound_from (a a' : AggMetric) :
  firstBound a -> firstChunkT0 a' = firstChunkT0 a ->
  (forall q cq', index (Chunks a') q = Some cq' ->
     exists cq, cq ∈ Chunks a /\ T0 cq <= T0 cq') ->
  firstBound a'.
Proof.
  intros Hb Hf Hback c' [q Hq]%elem_of_index.
  destruct (Hback q c' Hq) as (cq & Hin & Hle). rewrite Hf. specialize (Hb cq Hin). lia.
Qed.

Section FirstChunk.

Variable accepts : Chunk -> Z -> float -> bool.

Lemma Add_first (primary : bool) (now : Z) (w : World) (ts : Z) (val : float) (w' : World) :
  Chunks (metric w) = [] ->
  Add accepts primary now w ts val = Ok w' ->
  let t0 := quantize (ChunkSpan (metric w)) ts in
  firstChunkT0 (metric w') = t0 /\
  CurrentChunkPos (metric w') = CurrentChunkPos (metric w) /\
  Chunks (metric w') = [pushed now (NewChunk t0 now) ts val] /\
  chunkCreate w' = chunkCreate w + 1.
Proof.
  intros Hnil [_ Hcase]%Add_cases.
  destruct Hcase as [c0 a t0 chunks Hc H0 Hacc
                    |c a Hc Ht Hs Hacc|c a Hc Ht Hs|c a Hc Ht Hs Hacc|c a Hc Hlt
                    |c a1 cnew a t0 pos chunks Hc Hlt Hp Hroom Hnew Hacc
                    |c a1 old a t0 pos Hc Hlt Hp Hfull Hold Hacc];
    subst a; try (by rewrite getChunk_nil in Hc).
  subst chunks t0. rewrite Hnil in H0 |- *. injection H0 as <-. by fields.
Qed.

Lemma step_firstBound (w w' : World) :
  RingInv (metric w) -> firstBound (metric w) -> step accepts w w' ->
  firstBound (metric w') /\
  (Chunks (metric w) <> [] -> firstChunkT0 (metric w') = firstChunkT0 (metric w)).
Proof.
  intros Hinv Hb Hstep.
  destruct Hstep as [primary now w1 ts val w2 Hts Hadd
                    |primary now w1 cmin mmin b a' Hgc
                    |w1 ts a' Hsync].
  - pose proof Hadd as [_ Hcase]%Add_cases.
    assert (Hroll : forall cc, getChunk (metric w1) (CurrentChunkPos (metric w1)) = Some cc ->
              T0 cc < quantize (ChunkSpan (metric w1)) ts ->
              firstBound (metric w2) /\
              (Chunks (metric w1) <> [] ->
               firstChunkT0 (metric w2) = firstChunkT0 (metric w1))).
    { intros cc Hcc Hlt.
      destruct (Add_opens accepts primary now w1 ts val cc Hinv Hts Hcc Hlt)
        as (a1 & Hp & Hset & Hlen & Hpos & H).
      destruct (accepts _ ts val); [|congruence].
      destruct H as (w' & Hadd' & Hcur' & _ & Hnew & Hothers & _ & _ & Hfirst).
      assert (w' = w2) as -> by congruence.
      destruct (persist_T0s _ _ _ _ _ Hp) as (_ & _ & _ & Hback).
      split; [|done].
      apply (firstBound_from (metric w1)); [done..|].
      intros q cq' Hq.
      destruct (Z.eq_dec q (nextPos (NumChunks a1) (CurrentChunkPos a1))) as [->|Hne].
      - rewrite Hnew in Hq. injection Hq as <-. exists cc.
        rewrite getChunk_index in Hcc. split; [by eapply index_elem_of|]. simpl. lia.
      - rewrite Hothers in Hq by done. destruct (Hback q cq' Hq) as (cq & Hcq & Ht).
        exists cq. split; [by eapply index_elem_of|lia]. }
    destruct Hcase as [c0 a t0 chunks Hc H0 Hacc
                      |cc a Hc Ht Hsv Hacc|cc a Hc Ht Hsv|cc a Hc Ht Hsv Hacc|cc a Hc Hlt
                      |cc a1 cnew a t0 pos chunks Hc Hlt Hp Hroom Hnew Hacc
                      |cc a1 old a t0 pos Hc Hlt Hp Hfull Hold Hacc];
      subst a.
    + pose proof (PosInv_getChunk_None _ (ri_pos _ Hinv) Hc) as Hnil.
      split; [|done].
      subst chunks t0. rewrite Hnil in H0 |- *. injection H0 as <-.
      intros c. fields. intros ->%list_elem_of_singleton. simpl. lia.
    + split; [|done]. apply (firstBound_from (metric w1)); [done..|]. fields.
      rewrite getChunk_index in Hc. pose proof (index_range _ _ _ Hc) as Hr.
      intros q cq' Hq. destruct (Z.eq_dec (CurrentChunkPos (metric w1)) q) as [<-|Hne].
      * rewrite index_insert_eq in Hq by done. injection Hq as <-.
        exists cc. split; [by eapply index_elem_of|]. simpl. lia.
      * rewrite index_insert_ne in Hq by lia. exists cq'.
        split; [by eapply index_elem_of|lia].
    + done.
    + done.
    + done.
    + by apply (Hroll cc).
    + by apply (Hroll cc).
  - fields. apply GC_cases in Hgc as [->|(_ & cc & Hc & Hp)]; [done|].
    destruct (persist_T0s _ _ _ _ _ Hp) as (_ & Hf & _ & Hback).
    split; [|done]. apply (firstBound_from (metric w1)); [done..|].
    intros q cq' Hq. destruct (Hback q cq' Hq) as (cq & Hcq & Ht).
    exists cq. split; [by eapply index_elem_of|lia].
  - apply SyncChunkSaveState_cases in Hsync as [[_ ->]|(p & cc & _ & Hc & _ & ->)];
      [done|].
    split; [|done]. apply (firstBound_from (metric w1)); [done..|]. fields.
    pose proof (index_range _ _ _ Hc) as Hr.
    intros q cq' Hq. destruct (Z.eq_dec p q) as [<-|Hne].
    + rewrite index_alter_eq, Hc in Hq by lia. injection Hq as <-.
      exists cc. split; [by eapply index_elem_of|]. simpl. lia.
    + rewrite index_alter_ne in Hq by lia. exists cq'. split; [by eapply index_elem_of|lia].
Qed.

Lemma firstBound_reachable (chunkSpan numChunks : Z) (w : World) :
  0 < chunkSpan -> 1 <= numChunks ->
  reachable accepts chunkSpan numChunks w ->
  RingInv (metric w) /\ firstBound (metric w).
Proof.
  intros Hs HN (st & k & ttl0 & aggs & w0 & Hw0 & Hsteps).
  revert w Hsteps. apply rtc_ind_r.
  - rewrite Hw0. split; [by apply RingInv_new|]. intros c Hc. by apply elem_of_nil in Hc.
  - intros w1 w2 _ Hstep [Hinv Hb]. split; [by eapply RingInv_step|].
    by apply (step_firstBound w1 w2).
Qed.

(** X13.  [firstChunkT0].  In a state reached from a new metric no chunk of
    the ring has a [T0] below [firstChunkT0]; once the ring holds a chunk
    no operation changes [firstChunkT0]; and the [Add] that finds the ring
    empty sets it to the quantized timestamp of its sample, which it puts
    in a new chunk, the only one of the ring, at position 0. *)
Theorem first_chunk_t0 (chunkSpan numChunks : Z) (w : World) :
  0 < chunkSpan -> 1 <= numChunks ->
  reachable accepts chunkSpan numChunks w ->
  (forall c, c ∈ Chunks (metric w) -> firstChunkT0 (metric w) <= T0 c) /\
  (forall w', step accepts w w' -> Chunks (metric w) <> [] ->
     firstChunkT0 (metric w') = firstChunkT0 (metric w)) /\
  (forall primary now ts val w',
     Chunks (metric w) = [] ->
     Add accepts primary now w ts val = Ok w' ->
     firstChunkT0 (metric w') = quantize chunkSpan ts /\
     CurrentChunkPos (metric w') = 0 /\
     Chunks (metric w') = [pushed now (NewChunk (quantize chunkSpan ts) now) ts val]).
Proof.
  intros Hs HN Hreach.
  destruct (firstBound_reachable _ _ _ Hs HN Hreach) as [Hinv Hb].
  destruct (reachable_config accepts _ _ _ Hreach) as [Hspan _].
  split; [done|]. split.
  - intros w' Hstep. by apply (step_firstBound w w').
  - intros primary now ts val w' Hnil Hadd.
    destruct (Add_first primary now w ts val w' Hnil Hadd) as (H1 & H2 & H3 & _).
    rewrite Hspan in *. split; [done|]. split; [|done].
    rewrite H2. by apply (ri_pos _ Hinv).
Qed.

End FirstChunk.

(** ** Get: the chunks of a range *)

Section GetRange.

Variable a : AggMetric.
Hypothesis Hinv : RingInv a.
Hypothesis Hfit : forall c, c ∈ Chunks a -> T0 c + ChunkSpan a < 2 ^ 32.

Local Abbreviation n := (lenZ (Chunks a)).
Local Abbreviation cur := (CurrentChunkPos a).
Local Abbreviation rk := (rank (lenZ (Chunks a)) (CurrentChunkPos a)).

Lemma rank_eq_cur (p : Z) : 0 <= cur < n -> 0 <= p < n -> rk p = n - 1 -> p = cur.
Proof.
  intros Hc Hp Hr. apply (rank_inj n cur); [done..|]. by rewrite rank_cur.
Qed.

Lemma advanceOldest_spec (from : Z) (cn : Chunk) (fuel : nat) :
  index (Chunks a) cur = Some cn -> from < T0 cn + ChunkSpan a ->
  forall p cp,
    index (Chunks a) p = Some cp -> n - 1 - rk p <= Z.of_nat fuel ->
    exists p1 c1,
      advanceOldest fuel a from p cp = Stopped p1 c1 /\
      index (Chunks a) p1 = Some c1 /\ rk p <= rk p1 /\
      from < T0 c1 + ChunkSpan a /\
      forall q cq, index (Chunks a) q = Some cq -> rk p <= rk q < rk p1 ->
        T0 cq + ChunkSpan a <= from.
Proof.
  intros Hcn Hnew. pose proof (index_range _ _ _ Hcn) as Hrc.
  induction fuel as [|fuel IH]; intros p cp Hp Hfuel;
    pose proof (index_range _ _ _ Hp) as Hrp;
    pose proof (rank_range n cur p Hrc Hrp) as Hrkp;
    simpl; rewrite (add32_fit a Hinv Hfit cp) by (by eapply index_elem_of);
    rewrite Z.geb_leb; destruct (Z.leb_spec (T0 cp + ChunkSpan a) from) as [Hgo|Hstop];
    try (exists p, cp; split; [done|]; split; [done|]; split; [lia|]; split; [done|];
         intros q cq _ Hq; lia).
  - exfalso. assert (p = cur) as -> by (apply rank_eq_cur; [done..|lia]).
    rewrite Hcn in Hp. injection Hp as <-. lia.
  - assert (p <> cur) as Hne.
    { intros ->. rewrite Hcn in Hp. injection Hp as <-. lia. }
    pose proof (nextPos_range n p) as Hnr.
    destruct (index_in_range (Chunks a) (nextPos n p)) as [c' Hc']; [lia|].
    rewrite getChunk_index, Hc'.
    destruct (IH (nextPos n p) c' Hc') as (p1 & c1 & He & Hi & Hr & Hs & Hmin).
    { rewrite rank_next by done.
      assert (rk p <> n - 1) by (intros Habs; apply Hne; by apply rank_eq_cur). lia. }
    rewrite rank_next in Hr, Hmin by done.
    exists p1, c1. split; [done|]. split; [done|]. split; [lia|]. split; [done|].
    intros q cq Hq Hrq. pose proof (index_range _ _ _ Hq) as Hrq'.
    destruct (Z.eq_dec (rk q) (rk p)) as [Heq|Hneq].
    + apply rank_inj in Heq; [|done..]. subst q. rewrite Hp in Hq. by injection Hq as <-.
    + apply (Hmin q cq Hq). lia.
Qed.

Lemma retreatNewest_spec (to : Z) (pb : Z) (cb : Chunk) (fuel : nat) :
  index (Chunks a) pb = Some cb -> T0 cb < to ->
  forall p cp,
    index (Chunks a) p = Some cp -> rk pb <= rk p -> rk p - rk pb <= Z.of_nat fuel ->
    exists p2 c2,
      retreatNewest fuel a to p cp = Stopped p2 c2 /\
      index (Chunks a) p2 = Some c2 /\ rk pb <= rk p2 <= rk p /\
      T0 c2 < to /\
      forall q cq, index (Chunks a) q = Some cq -> rk p2 < rk q <= rk p -> to <= T0 cq.
Proof.
  intros Hpb Hold. pose proof (index_range _ _ _ Hpb) as Hrb.
  destruct (ring_nonempty a Hinv pb cb Hpb) as [Hrc _].
  pose proof (rank_range n cur pb Hrc Hrb) as Hrkb.
  induction fuel as [|fuel IH]; intros p cp Hp Hle Hfuel;
    pose proof (index_range _ _ _ Hp) as Hrp;
    pose proof (rank_range n cur p Hrc Hrp) as Hrkp;
    simpl; destruct (Z.leb_spec to (T0 cp)) as [Hgo|Hstop];
    try (exists p, cp; split; [done|]; split; [done|]; split; [lia|]; split; [done|];
         intros q cq _ Hq; lia).
  - exfalso. assert (rk p = rk pb) as Heq by lia.
    apply rank_inj in Heq; [|done..]. subst p. rewrite Hpb in Hp. injection Hp as <-. lia.
  - assert (rk pb < rk p) as Hlt.
    { destruct (Z.eq_dec (rk p) (rk pb)) as [Heq|]; [|lia].
      apply rank_inj in Heq; [|done..]. subst p. rewrite Hpb in Hp. injection Hp as <-. lia. }
    pose proof (prevPos_range n p Hrp) as Hnr.
    destruct (index_in_range (Chunks a) (prevPos n p)) as [c' Hc']; [lia|].
    rewrite getChunk_index, Hc'.
    destruct (IH (prevPos n p) c' Hc') as (p2 & c2 & He & Hi & Hr & Hs & Hmax).
    { rewrite rank_prev by (done || lia). lia. }
    { rewrite rank_prev by (done || lia). lia. }
    rewrite rank_prev in Hr, Hmax by (done || lia).
    exists p2, c2. split; [done|]. split; [done|]. split; [lia|]. split; [done|].
    intros q cq Hq Hrq. pose proof (index_range _ _ _ Hq) as Hrq'.
    destruct (Z.eq_dec (rk q) (rk p)) as [Heq|Hneq].
    + apply rank_inj in Heq; [|done..]. subst q. rewrite Hp in Hq. by injection Hq as <-.
    + apply (Hmax q cq Hq). lia.
Qed.

Lemma emit_spec (p2 : Z) (fuel : nat) :
  0 <= p2 < n ->
  forall p iters,
    0 <= p < n -> rk p <= rk p2 -> rk p2 - rk p <= Z.of_nat fuel ->
    exists cp rest,
      index (Chunks a) p = Some cp /\
      emit fuel a p p2 iters = Ok (iters ++ NewIter cp :: rest) /\
      (forall c, NewIter c ∈ NewIter cp :: rest <->
         exists q, index (Chunks a) q = Some c /\ rk p <= rk q <= rk p2) /\
      StronglySorted iterBefore (NewIter cp :: rest).
Proof.
  intros Hp2.
  assert (Hcur : 0 <= cur < n).
  { destruct (index_in_range (Chunks a) p2 Hp2) as [c2 Hc2].
    by destruct (ring_nonempty a Hinv p2 c2 Hc2). }
  pose proof (rank_range n cur p2 Hcur Hp2) as Hrk2.
  assert (Hlast : forall p iters, 0 <= p < n -> p = p2 ->
            exists cp rest,
              index (Chunks a) p = Some cp /\
              match getChunk a p with
              | Some c => Ok (iters ++ [NewIter c])
              | None => Panic
              end = Ok (iters ++ NewIter cp :: rest) /\
              (forall c, NewIter c ∈ NewIter cp :: rest <->
                 exists q, index (Chunks a) q = Some c /\ rk p <= rk q <= rk p2) /\
              StronglySorted iterBefore (NewIter cp :: rest)).
  { intros p iters Hp ->.
    destruct (index_in_range (Chunks a) p2 Hp) as [cp Hcp].
    exists cp, []. rewrite getChunk_index, Hcp. split; [done|]. split; [done|]. split.
    - intros c. rewrite list_elem_of_singleton. split.
      + intros [= ->]. exists p2. split; [done|lia].
      + intros (q & Hq & Hr). pose proof (index_range _ _ _ Hq).
        assert (q = p2) as -> by (apply (rank_inj n cur); [done..|lia]). congruence.
    - repeat constructor. }
  induction fuel as [|fuel IH]; intros p iters Hp Hle Hfuel; simpl;
    destruct (Z.eqb_spec p p2) as [Heq|Hne]; try (by apply Hlast).
  - exfalso. apply Hne. apply (rank_inj n cur); [done..|]. lia.
  - assert (rk p < rk p2) as Hlt.
    { destruct (Z.eq_dec (rk p) (rk p2)) as [Heq|]; [|lia].
      apply rank_inj in Heq; [done|done..]. }
    assert (p <> cur) as Hncur.
    { intros ->. rewrite rank_cur in Hlt. lia. }
    destruct (index_in_range (Chunks a) p Hp) as [cp Hcp].
    destruct (ring_nonempty a Hinv p cp Hcp) as [_ Hcap].
    rewrite getChunk_index, Hcp. rewrite (nextPos_capacity a Hinv) by done.
    pose proof (nextPos_range n p) as Hnr.
    destruct (IH (nextPos n p) (iters ++ [NewIter cp])) as (c' & rest & Hc' & He & Hmem & Hsort).
    { lia. }
    { rewrite rank_next by done. lia. }
    { rewrite rank_next by done. lia. }
    rewrite rank_next in Hmem by done.
    exists cp, (NewIter c' :: rest). split; [done|].
    split; [by rewrite He, <- app_assoc|]. split.
    + intros c. rewrite elem_of_cons, Hmem. split.
      * intros [[= ->]|(q & Hq & Hr)]; [exists p; split; [done|lia]|].
        exists q. split; [done|lia].
      * intros (q & Hq & Hr). pose proof (index_range _ _ _ Hq).
        destruct (Z.eq_dec (rk q) (rk p)) as [Heq|Hneq].
        -- left. apply rank_inj in Heq; [|done..]. subst q. congruence.
        -- right. exists q. split; [done|lia].
    + constructor; [done|]. apply Forall_forall. intros [c] Hin.
      apply Hmem in Hin as (q & Hq & Hr). unfold iterBefore. simpl.
      apply (T0_strict a p q cp c Hinv Hcp Hq). lia.
Qed.

(** What [Get] returns when one of the chunks it serves shares a timestamp
    with the range. *)
Lemma Get_overlapping (primary : bool) (from to : Z) :
  from < to ->
  (exists c, served primary a c /\ overlaps a from to c) ->
  exists c0 rest,
    Get primary a from to = Ok (T0 c0, NewIter c0 :: rest) /\
    (forall c, NewIter c ∈ NewIter c0 :: rest <->
       served primary a c /\ overlaps a from to c) /\
    StronglySorted iterBefore (NewIter c0 :: rest).
Proof.
  intros Hlt (cs & (po & co & qs & Hserved & Hqs & Hros) & [Hs1 Hs2]).
  destruct (ring_nonempty a Hinv qs cs Hqs) as [Hcur Hcap].
  pose proof (index_range _ _ _ Hqs) as Hrqs.
  pose proof (rank_range _ _ qs Hcur Hrqs) as Hrks.
  destruct (index_in_range (Chunks a) cur Hcur) as [cn Hcn].
  pose proof (servedOldest_range _ _ _ _ Hserved) as Hco. rewrite getChunk_index in Hco.
  pose proof (index_range _ _ _ Hco) as Hrpo.
  pose proof (rank_range _ _ po Hcur Hrpo) as Hrko.
  pose proof (T0_mono a Hinv qs cur cs cn Hqs Hcn) as Hnew. rewrite rank_cur in Hnew.
  pose proof (T0_mono a Hinv po qs co cs Hco Hqs Hros) as Hold.
  unfold Get. rewrite Z.geb_leb.
  destruct (Z.leb_spec to from) as [|_]; [lia|].
  rewrite getChunk_index, Hcn.
  rewrite (add32_fit a Hinv Hfit cn) by (by eapply index_elem_of).
  rewrite Z.geb_leb. destruct (Z.leb_spec (T0 cn + ChunkSpan a) from) as [|_]; [lia|].
  rewrite Hserved.
  destruct (Z.leb_spec to (T0 co)) as [|_]; [lia|].
  destruct (advanceOldest_spec from cn (length (Chunks a)) Hcn ltac:(lia) po co Hco)
    as (p1 & c1 & -> & Hc1 & Hr1 & Hstop1 & Hmin).
  { unfold lenZ in *. lia. }
  destruct (retreatNewest_spec to qs cs (length (Chunks a)) Hqs Hs1 cur cn Hcn)
    as (p2 & c2 & -> & Hc2 & Hr2 & Hstop2 & Hmax).
  { rewrite rank_cur. lia. }
  { rewrite rank_cur. unfold lenZ in *. lia. }
  rewrite rank_cur in Hr2, Hmax.
  pose proof (index_range _ _ _ Hc1) as Hrp1.
  pose proof (index_range _ _ _ Hc2) as Hrp2.
  pose proof (rank_range _ _ p1 Hcur Hrp1) as Hrk1.
  assert (rk p1 <= rk qs) as Hle1.
  { destruct (Z.le_gt_cases (rk p1) (rk qs)); [done|].
    pose proof (Hmin qs cs Hqs ltac:(lia)). lia. }
  destruct (emit_spec p2 (2 * length (Chunks a) + 2) Hrp2 p1 [] Hrp1)
    as (c1' & rest & Hc1' & -> & Hmem & Hsort).
  { lia. }
  { unfold lenZ in *. lia. }
  rewrite Hc1 in Hc1'. injection Hc1' as <-.
  cbn [mbind result_bind app]. exists c1, rest. split; [done|]. split; [|done].
  intros c. rewrite Hmem. split.
  - intros (q & Hq & Hr). split.
    + exists po, co, q. split; [done|]. split; [done|lia].
    + pose proof (T0_mono a Hinv q p2 c c2 Hq Hc2 ltac:(lia)).
      pose proof (T0_mono a Hinv p1 q c1 c Hc1 Hq ltac:(lia)).
      unfold overlaps. lia.
  - intros [(po' & co' & q & Hserved' & Hq & Hr) [Ho1 Ho2]].
    rewrite Hserved in Hserved'. injection Hserved' as <- <-.
    pose proof (index_range _ _ _ Hq) as Hrq.
    pose proof (rank_range _ _ q Hcur Hrq) as Hrkq.
    exists q. split; [done|]. split.
    + destruct (Z.le_gt_cases (rk p1) (rk q)); [done|].
      pose proof (Hmin q c Hq ltac:(lia)). lia.
    + destruct (Z.le_gt_cases (rk q) (rk p2)); [done|].
      pose proof (Hmax q c Hq ltac:(lia)). lia.
Qed.

End GetRange.

(** ** Get: a range between two chunks *)

Section GetGap.

Variable a : AggMetric.
Hypothesis Hinv : RingInv a.
Hypothesis Hfit : forall c, c ∈ Chunks a -> T0 c + ChunkSpan a < 2 ^ 32.

Local Abbreviation n := (lenZ (Chunks a)).
Local Abbreviation cur := (CurrentChunkPos a).
Local Abbreviation rk := (rank (lenZ (Chunks a)) (CurrentChunkPos a)).

(** The iterations of the last loop of [Get] from a slot newer than
    [newestPos] up to the current slot. *)
Lemma emit_to_current (p2 : Z) (k : nat) :
  0 <= p2 < n ->
  forall p iters (fuel : nat),
    0 <= p < n -> rk p = n - 1 - Z.of_nat k -> rk p2 < rk p -> (k < fuel)%nat ->
    exists cp rest,
      index (Chunks a) p = Some cp /\
      emit fuel a p p2 iters
        = emit (fuel - S k) a (nextPos (NumChunks a) cur) p2 (iters ++ NewIter cp :: rest) /\
      forall q c, index (Chunks a) q = Some c -> rk p <= rk q ->
        NewIter c ∈ NewIter cp :: rest.
Proof.
  intros Hp2.
  assert (Hcur : 0 <= cur < n).
  { destruct (index_in_range (Chunks a) p2 Hp2) as [c2 Hc2].
    by destruct (ring_nonempty a Hinv p2 c2 Hc2). }
  pose proof (rank_range n cur p2 Hcur Hp2) as Hrk2.
  induction k as [|k IH]; intros p iters fuel Hp Hr Hlt Hfuel;
    (destruct fuel as [|fuel]; [lia|]);
    destruct (index_in_range (Chunks a) p Hp) as [cp Hcp];
    destruct (ring_nonempty a Hinv p cp Hcp) as [_ Hcap];
    simpl; (destruct (Z.eqb_spec p p2) as [->|Hne]; [lia|]);
    rewrite getChunk_index, Hcp.
  - assert (p = cur) as -> by (apply (rank_eq_cur a); [done..|lia]).
    exists cp, []. split; [done|]. rewrite Nat.sub_0_r. split; [done|].
    intros q c Hq Hrq. pose proof (index_range _ _ _ Hq) as Hrq'.
    pose proof (rank_range n cur q Hcur Hrq').
    assert (q = cur) as -> by (apply (rank_eq_cur a); [done..|lia]).
    rewrite Hcp in Hq. injection Hq as <-. apply list_elem_of_here.
  - assert (p <> cur) as Hncur.
    { intros ->. rewrite rank_cur in Hr. lia. }
    rewrite (nextPos_capacity a Hinv) by done.
    pose proof (nextPos_range n p) as Hnr.
    destruct (IH (nextPos n p) (iters ++ [NewIter cp]) fuel)
      as (c' & rest & Hc' & He & Hmem).
    { lia. }
    { rewrite rank_next by done. lia. }
    { rewrite rank_next by done. lia. }
    { lia. }
    rewrite rank_next in Hmem by done.
    exists cp, (NewIter c' :: rest). split; [done|].
    split; [by rewrite He, <- app_assoc|].
    intros q c Hq Hrq. pose proof (index_range _ _ _ Hq) as Hrq'.
    destruct (Z.eq_dec (rk q) (rk p)) as [Heq|Hneq].
    + apply rank_inj in Heq; [|done..]. subst q. rewrite Hcp in Hq. injection Hq as <-.
      apply list_elem_of_here.
    + apply list_elem_of_further. apply (Hmem q c Hq). lia.
Qed.

(** What [Get] does when the range lies between two of the chunks it
    serves. *)
Lemma Get_between (primary : bool) (from to : Z) (cn : Chunk) (po : Z) (co : Chunk) :
  from < to ->
  index (Chunks a) cur = Some cn -> from < T0 cn + ChunkSpan a ->
  servedOldest primary a = Some (po, co) -> T0 co < to ->
  (forall c, served primary a c -> ~ overlaps a from to c) ->
  (n < NumChunks a -> Get primary a from to = Panic) /\
  (n = NumChunks a ->
   exists c1 rest,
     Get primary a from to = Ok (T0 c1, NewIter c1 :: rest) /\
     to <= T0 c1 /\
     forall c, c ∈ Chunks a -> NewIter c ∈ NewIter c1 :: rest).
Proof.
  intros Hlt Hcn Hnew Hserved Hold Hnone.
  pose proof (index_range _ _ _ Hcn) as Hcur.
  pose proof (servedOldest_range _ _ _ _ Hserved) as Hco. rewrite getChunk_index in Hco.
  pose proof (index_range _ _ _ Hco) as Hrpo.
  pose proof (rank_range _ _ po Hcur Hrpo) as Hrko.
  destruct (ring_nonempty a Hinv po co Hco) as [_ Hcap].
  assert (Hhead : Get primary a from to
    = match advanceOldest (length (Chunks a)) a from po co with
      | NoFuel => Diverge
      | NilChunk => Ok (to, [])
      | Stopped oldestPos oldestChunk =>
          match retreatNewest (length (Chunks a)) a to cur cn with
          | NoFuel => Diverge
          | NilChunk => Ok (to, [])
          | Stopped newestPos _ =>
              iters ← emit (2 * length (Chunks a) + 2) a oldestPos newestPos [];
              Ok (T0 oldestChunk, iters)
          end
      end).
  { unfold Get. rewrite Z.geb_leb.
    destruct (Z.leb_spec to from) as [|_]; [lia|].
    rewrite getChunk_index, Hcn.
    rewrite (add32_fit a Hinv Hfit cn) by (by eapply index_elem_of).
    rewrite Z.geb_leb. destruct (Z.leb_spec (T0 cn + ChunkSpan a) from) as [|_]; [lia|].
    rewrite Hserved.
    by destruct (Z.leb_spec to (T0 co)) as [|_]; [lia|]. }
  rewrite Hhead. clear Hhead.
  destruct (advanceOldest_spec a Hinv Hfit from cn (length (Chunks a)) Hcn Hnew po co Hco)
    as (p1 & c1 & -> & Hc1 & Hr1 & Hstop1 & Hmin).
  { unfold lenZ in *. lia. }
  destruct (retreatNewest_spec a Hinv to po co (length (Chunks a)) Hco Hold cur cn Hcn)
    as (p2 & c2 & -> & Hc2 & Hr2 & Hstop2 & Hmax).
  { rewrite rank_cur. lia. }
  { rewrite rank_cur. unfold lenZ in *. lia. }
  rewrite rank_cur in Hr2, Hmax.
  pose proof (index_range _ _ _ Hc1) as Hrp1.
  pose proof (index_range _ _ _ Hc2) as Hrp2.
  pose proof (rank_range _ _ p1 Hcur Hrp1) as Hrk1.
  pose proof (rank_range _ _ p2 Hcur Hrp2) as Hrk2.
  assert (rk p2 < rk p1) as Hgap.
  { destruct (Z.lt_ge_cases (rk p2) (rk p1)) as [|Hge]; [done|]. exfalso.
    apply (Hnone c1).
    - exists po, co, p1. by repeat split.
    - pose proof (T0_mono a Hinv p1 p2 c1 c2 Hc1 Hc2 ltac:(lia)).
      unfold overlaps. lia. }
  assert (to <= T0 c1) as Hafter by (apply (Hmax p1 c1 Hc1); lia).
  assert (p2 <> cur) as Hncur2.
  { intros ->. rewrite rank_cur in Hgap. lia. }
  assert (rk p1 = rk p2 + 1) as Hnext.
  { destruct (Z.eq_dec (rk p1) (rk p2 + 1)) as [|Hne]; [done|]. exfalso.
    pose proof (nextPos_range n p2) as Hnr.
    destruct (index_in_range (Chunks a) (nextPos n p2)) as [c' Hc']; [lia|].
    pose proof (rank_next n cur p2 Hcur Hrp2 Hncur2) as Hrn.
    pose proof (Hmax _ c' Hc' ltac:(lia)).
    pose proof (Hmin _ c' Hc' ltac:(lia)).
    pose proof (ri_span _ Hinv). lia. }
  destruct (emit_to_current p2 (Z.to_nat (n - 1 - rk p1)) Hrp2 p1 []
              (2 * length (Chunks a) + 2)%nat Hrp1)
    as (c1' & rest1 & Hc1' & -> & Hmem1).
  { lia. }
  { lia. }
  { unfold lenZ in *. lia. }
  rewrite Hc1 in Hc1'. injection Hc1' as <-. cbn [app].
  set (fuel := (2 * length (Chunks a) + 2 - S (Z.to_nat (n - 1 - rk p1)))%nat).
  assert (Hfuel : n + 1 <= Z.of_nat fuel) by (unfold fuel, lenZ in *; lia).
  split.
  - intros Hroom.
    assert (Hne : Chunks a <> []).
    { intros Hnil. rewrite Hnil in Hcur. unfold lenZ in Hcur. simpl in Hcur. lia. }
    pose proof (ri_warm _ Hinv Hne Hroom) as Hw.
    assert (Hn : nextPos (NumChunks a) cur = n) by (unfold nextPos; zcases; lia).
    rewrite Hn. destruct fuel as [|fuel']; [lia|]. simpl.
    destruct (Z.eqb_spec n p2) as [|_]; [lia|].
    unfold getChunk. destruct (Z.ltb_spec n 0) as [|_]; [lia|].
    rewrite Z.geb_leb. by destruct (Z.leb_spec n n) as [_|]; [|lia].
  - intros Hfull. rewrite <- Hfull.
    pose proof (nextPos_range n cur) as Hnr.
    pose proof (rank_oldest n cur Hcur) as Hro.
    destruct (emit_spec a Hinv p2 fuel Hrp2 (nextPos n cur) (NewIter c1 :: rest1))
      as (c0 & rest0 & Hc0 & -> & Hmem0 & _).
    { lia. }
    { lia. }
    { lia. }
    cbn [mbind result_bind].
    exists c1, (rest1 ++ NewIter c0 :: rest0). split; [done|]. split; [done|].
    intros c [q Hq]%elem_of_index. rewrite app_comm_cons. apply elem_of_app.
    pose proof (index_range _ _ _ Hq) as Hrq.
    pose proof (rank_range _ _ q Hcur Hrq) as Hrkq.
    destruct (Z.le_gt_cases (rk p1) (rk q)) as [Hup|Hdown].
    + left. by apply (Hmem1 q c Hq).
    + right. apply Hmem0. exists q. split; [done|lia].
Qed.

End GetGap.

Lemma served_iff (primary : bool) (a : AggMetric) (po : Z) (co c : Chunk) :
  RingInv a -> servedOldest primary a = Some (po, co) ->
  served primary a c <-> c ∈ Chunks a /\ T0 co <= T0 c.
Proof.
  intros Hinv Hso.
  pose proof (servedOldest_range _ _ _ _ Hso) as Hco. rewrite getChunk_index in Hco.
  split.
  - intros (po' & co' & q & Hso' & Hq & Hr). rewrite Hso in Hso'. injection Hso' as <- <-.
    split; [by eapply index_elem_of|]. by apply (T0_mono a Hinv po q).
  - intros [[q Hq]%elem_of_index Hle]. exists po, co, q. split; [done|]. split; [done|].
    destruct (Z.eq_dec (T0 co) (T0 c)) as [Heq|Hne].
    + assert (po = q) as -> by by eapply (T0_inj a). done.
    + pose proof (T0_lt_rank a Hinv po q co c Hco Hq ltac:(lia)). lia.
Qed.

(** The chunks [Get] serves, in a ring that keeps its invariant and holds
    no chunk older than [firstChunkT0]. *)
Lemma served_explicit (primary : bool) (a : AggMetric) (c : Chunk) :
  RingInv a -> firstBound a ->
  served primary a c <->
  c ∈ Chunks a /\
  (primary = true \/ T0 c <> firstChunkT0 a \/ lenZ (Chunks a) = 1).
Proof.
  intros Hinv Hb.
  assert (Hin : served primary a c -> c ∈ Chunks a).
  { intros (po & co & q & _ & Hq & _). by eapply index_elem_of. }
  assert (Hgo : c ∈ Chunks a ->
            served primary a c <->
            primary = true \/ T0 c <> firstChunkT0 a \/ lenZ (Chunks a) = 1).
  { intros Hc. destruct (elem_of_index _ _ Hc) as [q Hq].
    destruct (ring_nonempty a Hinv q c Hq) as [Hcur _].
    destruct (servedOldest_slots primary a Hcur)
      as (first & oldest & po & Hfirst & Hwhich & Hso).
    destruct (oldest_is_least primary a first oldest Hinv Hfirst Hwhich)
      as (Hoin & Hcond & Hleast).
    rewrite (served_iff primary a po oldest c Hinv Hso). split.
    - intros [_ Hle].
      destruct primary; [by left|]. right.
      destruct (Z.eq_dec (lenZ (Chunks a)) 1) as [|Hmany]; [by right|]. left.
      intros Heq. destruct Hcond as [?|[Hne|?]]; [done| |done].
      apply Hne. pose proof (Hb oldest Hoin). lia.
    - intros Hc'. split; [done|].
      destruct Hc' as [Hp|[Hne|Hone]].
      + apply Hleast; [done|by left].
      + apply Hleast; [done|by right].
      + destruct (elem_of_index _ _ Hoin) as [q' Hq'].
        pose proof (index_range _ _ _ Hq). pose proof (index_range _ _ _ Hq').
        assert (q = q') as -> by lia. rewrite Hq in Hq'. injection Hq' as <-. lia. }
  split.
  - intros Hs. split; [by apply Hin|]. by apply Hgo; [apply Hin|].
  - intros [Hc Hcond]. by apply Hgo.
Qed.

Section GetRun.

Variable accepts : Chunk -> Z -> float -> bool.

(** X14.  [Get] returns the chunks of the range.  In a state reached from a
    new metric whose chunks end before [2^32], when at least one of the
    chunks that [Get] serves shares a timestamp with the range from
    [from], included, to [to], excluded, [Get] returns, without panic and
    within its fuel, one iterator for each chunk it serves that shares a
    timestamp with the range and no other, in the order of their [T0]s,
    together with the [T0] of the first of them. *)
Theorem Get_serves_the_range (chunkSpan numChunks : Z) (w : World) (primary : bool)
    (from to : Z) :
  0 < chunkSpan -> 1 <= numChunks ->
  reachable accepts chunkSpan numChunks w ->
  (forall c, c ∈ Chunks (metric w) -> T0 c + chunkSpan < 2 ^ 32) ->
  from < to ->
  (exists c, served primary (metric w) c /\ overlaps (metric w) from to c) ->
  exists c0 rest,
    Get primary (metric w) from to = Ok (T0 c0, NewIter c0 :: rest) /\
    (forall c, NewIter c ∈ NewIter c0 :: rest <->
       served primary (metric w) c /\ overlaps (metric w) from to c) /\
    StronglySorted iterBefore (NewIter c0 :: rest).
Proof.
  intros Hs HN Hreach Hfit Hlt Hsome.
  pose proof (RingInv_reachable accepts chunkSpan numChunks w Hs HN Hreach) as Hinv.
  destruct (reachable_config accepts _ _ _ Hreach) as [Hspan _].
  rewrite <- Hspan in Hfit.
  exact (Get_overlapping (metric w) Hinv Hfit primary from to Hlt Hsome).
Qed.

(** X15.  The chunks [Get] returns.  In a state reached from a new metric
    whose chunks end before [2^32], for a range from [from], included, to
    [to], excluded, that shares a timestamp with at least one chunk of the
    ring, [Get] returns, without panic and within its fuel, and what it
    returns holds an iterator for a chunk exactly when the chunk is in the
    ring, shares a timestamp with the range, and the node is primary, or
    the [T0] of the chunk is not [firstChunkT0], or the chunk is the only
    one of the ring. *)
Theorem served_chunks (chunkSpan numChunks : Z) (w : World) (primary : bool)
    (from to : Z) :
  0 < chunkSpan -> 1 <= numChunks ->
  reachable accepts chunkSpan numChunks w ->
  (forall c, c ∈ Chunks (metric w) -> T0 c + chunkSpan < 2 ^ 32) ->
  from < to ->
  (exists c, c ∈ Chunks (metric w) /\ T0 c < to /\ from < T0 c + chunkSpan) ->
  exists m iters,
    Get primary (metric w) from to = Ok (m, iters) /\
    forall c,
      NewIter c ∈ iters <->
      c ∈ Chunks (metric w) /\ (T0 c < to /\ from < T0 c + chunkSpan) /\
      (primary = true \/ T0 c <> firstChunkT0 (metric w) \/
       lenZ (Chunks (metric w)) = 1).
Proof.
  intros Hs HN Hreach Hfit Hlt (c & Hc & Hc1 & Hc2).
  destruct (firstBound_reachable accepts _ _ _ Hs HN Hreach) as [Hinv Hb].
  destruct (reachable_config accepts _ _ _ Hreach) as [Hspan _].
  rewrite <- Hspan in Hfit, Hc2 |- *.
  set (a := metric w) in *.
  assert (Hovl : forall primary from to,
            from < to ->
            (exists c', served primary a c' /\ overlaps a from to c') ->
            exists m iters,
              Get primary a from to = Ok (m, iters) /\
              forall c',
                NewIter c' ∈ iters <->
                c' ∈ Chunks a /\ (T0 c' < to /\ from < T0 c' + ChunkSpan a) /\
                (primary = true \/ T0 c' <> firstChunkT0 a \/ lenZ (Chunks a) = 1)).
  { clear primary from to Hlt Hc1 Hc2. intros primary from to Hlt Hsome.
    destruct (Get_overlapping a Hinv Hfit primary from to Hlt Hsome)
      as (c0 & rest & Hget & Hmem & _).
    exists (T0 c0), (NewIter c0 :: rest). split; [done|].
    intros c'. rewrite Hmem, (served_explicit primary a c' Hinv Hb).
    unfold overlaps. tauto. }
  destruct (elem_of_index _ _ Hc) as [q Hq].
  destruct (ring_nonempty a Hinv q c Hq) as [Hcur _].
  destruct (index_in_range (Chunks a) (CurrentChunkPos a) Hcur) as [cn Hcn].
  pose proof Hcn as Hcn'. rewrite <- getChunk_index in Hcn'.
  destruct (servedOldest_is_Some primary a cn Hcn') as (po & co & Hso).
  pose proof (servedOldest_range _ _ _ _ Hso) as Hco. rewrite getChunk_index in Hco.
  assert (Hnew : T0 c <= T0 cn).
  { apply (T0_mono a Hinv q (CurrentChunkPos a) c cn Hq Hcn). rewrite rank_cur.
    pose proof (index_range _ _ _ Hq).
    pose proof (rank_range _ _ q Hcur ltac:(done)). lia. }
  destruct (Z.le_gt_cases to (T0 co)) as [Hbefore|Hold].
  - exists (T0 co), []. split.
    + unfold Get. rewrite Z.geb_leb.
      destruct (Z.leb_spec to from); [lia|]. rewrite Hcn'.
      rewrite (add32_fit a Hinv Hfit cn) by (by eapply index_elem_of).
      rewrite Z.geb_leb.
      destruct (Z.leb_spec (T0 cn + ChunkSpan a) from); [lia|]. rewrite Hso.
      by destruct (Z.leb_spec to (T0 co)); [|lia].
    + intros c'. split; [by intros ?%elem_of_nil|].
      intros (Hc' & [Ho1 Ho2] & Hcond). exfalso.
      assert (served primary a c') as Hs' by (by apply served_explicit).
      apply (served_iff primary a po co c' Hinv Hso) in Hs' as [_ Hle]. lia.
  - apply Hovl; [done|].
    destruct (Z.le_gt_cases (T0 co) (T0 c)) as [Hle|Hgt].
    + exists c. split; [by apply (served_iff primary a po co c Hinv Hso)|done].
    + exists co. split.
      * apply (served_iff primary a po co co Hinv Hso).
        split; [by eapply index_elem_of|lia].
      * pose proof (ri_span _ Hinv). unfold overlaps. lia.
Qed.

(** X16.  [Get] on a range between two chunks.  In a state reached from a
    new metric whose chunks end before [2^32], let the range begin before
    the end of the current chunk and end after the [T0] of the oldest
    chunk served, and let no chunk served share a timestamp with it.
    Then, while the ring holds fewer than [numChunks] chunks, [Get]
    panics: its last loop steps from the current slot to the slot after
    the last chunk and asks the nil chunk for its iterator.  Once the ring
    is full [Get] returns an iterator for every chunk of the ring, first
    among them a chunk that starts at or after [to]. *)
Theorem Get_between_chunks (chunkSpan numChunks : Z) (w : World) (primary : bool)
    (from to : Z) (cn : Chunk) (po : Z) (co : Chunk) :
  0 < chunkSpan -> 1 <= numChunks ->
  reachable accepts chunkSpan numChunks w ->
  (forall c, c ∈ Chunks (metric w) -> T0 c + chunkSpan < 2 ^ 32) ->
  from < to ->
  getChunk (metric w) (CurrentChunkPos (metric w)) = Some cn ->
  from < T0 cn + chunkSpan ->
  servedOldest primary (metric w) = Some (po, co) -> T0 co < to ->
  (forall c, served primary (metric w) c -> ~ overlaps (metric w) from to c) ->
  (lenZ (Chunks (metric w)) < numChunks -> Get primary (metric w) from to = Panic) /\
  (lenZ (Chunks (metric w)) = numChunks ->
   exists c1 rest,
     Get primary (metric w) from to = Ok (T0 c1, NewIter c1 :: rest) /\
     to <= T0 c1 /\
     forall c, c ∈ Chunks (metric w) -> NewIter c ∈ NewIter c1 :: rest).
Proof.
  intros Hs HN Hreach Hfit Hlt Hcn Hnew Hso Hold Hnone.
  pose proof (RingInv_reachable accepts chunkSpan numChunks w Hs HN Hreach) as Hinv.
  destruct (reachable_config accepts _ _ _ Hreach) as [Hspan Hnum].
  rewrite <- Hspan in Hfit, Hnew. rewrite <- Hnum. rewrite getChunk_index in Hcn.
  exact (Get_between (metric w) Hinv Hfit primary from to cn po co Hlt Hcn Hnew Hso Hold Hnone).
Qed.

End GetRun.

(** ** GrowNumChunks: the re-ordering *)

Lemma reorder_lookup (chunks : list Chunk) (m : nat) :
  forall start, 0 <= start < lenZ chunks ->
    exists l, reorder chunks m start = Ok l /\ length l = m /\
      forall i : nat, (i < m)%nat ->
        l !! i = chunks !! Z.to_nat ((start + Z.of_nat i) `mod` lenZ chunks).
Proof.
  induction m as [|m IH]; intros start Hs.
  - exists []. split; [done|]. split; [done|]. intros i Hi. lia.
  - destruct (index_in_range chunks start Hs) as [c Hc]. simpl. rewrite Hc.
    pose proof (nextPos_range (lenZ chunks) start) as Hnr.
    destruct (IH (nextPos (lenZ chunks) start)) as (l & -> & Hlen & Hl); [lia|].
    cbn [mbind result_bind]. exists (c :: l). split; [done|]. split; [simpl; lia|].
    intros [|i] Hi.
    + simpl. rewrite Z.add_0_r, Z.mod_small by lia.
      apply index_Some in Hc as [_ Hc]. by rewrite Hc.
    + simpl. rewrite Hl by lia. f_equal. f_equal.
      rewrite nextPos_mod by done. rewrite Zplus_mod_idemp_l. f_equal. lia.
Qed.

Lemma reorder_rotates (chunks : list Chunk) (start : Z) :
  0 <= start < lenZ chunks ->
  reorder chunks (length chunks) start
    = Ok (drop (Z.to_nat start) chunks ++ take (Z.to_nat start) chunks).
Proof.
  intros Hs. destruct (reorder_lookup chunks (length chunks) start Hs) as (l & -> & Hlen & Hl).
  f_equal. unfold lenZ in *.
  assert (Hrot : rotate (Z.to_nat start) chunks
                 = drop (Z.to_nat start) chunks ++ take (Z.to_nat start) chunks).
  { unfold rotate. by rewrite Nat.mod_small by lia. }
  rewrite <- Hrot. apply list_eq. intros i.
  destruct (decide (i < length chunks)%nat) as [Hi|Hi].
  - rewrite Hl by done. rewrite lookup_rotate_r by done. unfold rotate_nat_add.
    by rewrite Z2Nat.id by lia.
  - rewrite !lookup_ge_None_2; [done|rewrite length_rotate; lia|lia].
Qed.

(** X17.  What [GrowNumChunks] does when the new capacity does not exceed the
    number of chunks.  For a ring with the current position in range, the
    call sets [NumChunks], replaces the list of chunks by its rotation
    that starts at the slot before the current one, with wrap, and sets
    [CurrentChunkPos] to the last index.  No chunk is lost or duplicated.
    The new list starts with the chunk that preceded the current one,
    followed by the current chunk, and ends with the chunk two slots
    before the current one: in a ring of three chunks or more that
    satisfies the invariant, the chunk at the new current position is
    older than the chunk that was current. *)
Theorem GrowNumChunks_rotates (a : AggMetric) (numChunks : Z) :
  0 <= CurrentChunkPos a < lenZ (Chunks a) -> lenZ (Chunks a) < 2 ^ 32 ->
  numChunks <= lenZ (Chunks a) ->
  let n := lenZ (Chunks a) in
  let start := prevPos n (CurrentChunkPos a) in
  let ordered := drop (Z.to_nat start) (Chunks a) ++ take (Z.to_nat start) (Chunks a) in
  GrowNumChunks a numChunks
    = Ok (setCurrentChunkPos (setChunks (setNumChunks a numChunks) ordered) (n - 1)) /\
  ordered ≡ₚ Chunks a /\
  index ordered 0 = index (Chunks a) start /\
  (2 <= n -> index ordered 1 = index (Chunks a) (CurrentChunkPos a)) /\
  index ordered (n - 1) = index (Chunks a) (prevPos n start) /\
  (RingInv a -> 3 <= n ->
   forall cc cl,
     index (Chunks a) (CurrentChunkPos a) = Some cc -> index ordered (n - 1) = Some cl ->
     T0 cl < T0 cc).
Proof.
  intros Hcur Hlen Hle n start ordered.
  pose proof (prevPos_range n (CurrentChunkPos a) Hcur) as Hs. fold start in Hs.
  assert (Hlo : length ordered = length (Chunks a)).
  { unfold ordered. rewrite length_app, length_drop, length_take. unfold n, lenZ in *. lia. }
  assert (Hrot : ordered = rotate (Z.to_nat start) (Chunks a)).
  { unfold ordered, rotate. by rewrite Nat.mod_small by (unfold n, lenZ in *; lia). }
  assert (Hidx : forall i, 0 <= i < n ->
            index ordered i = index (Chunks a) ((start + i) `mod` n)).
  { intros i Hi. unfold index.
    destruct (Z.ltb_spec i 0); [lia|].
    pose proof (Z.mod_pos_bound (start + i) n ltac:(lia)).
    destruct (Z.ltb_spec ((start + i) `mod` n) 0); [lia|].
    rewrite Hrot, lookup_rotate_r by (unfold n, lenZ in *; lia).
    unfold rotate_nat_add. f_equal. f_equal. unfold n, lenZ. f_equal. lia. }
  assert (Hlast : (start + (n - 1)) `mod` n = prevPos n start).
  { unfold prevPos. destruct (Z.ltb_spec (start - 1) 0).
    - assert (start = 0) as -> by lia. rewrite Z.mod_small by lia. lia.
    - replace (start + (n - 1)) with (start - 1 + 1 * n) by lia.
      rewrite Z.mod_add by lia. by rewrite Z.mod_small by lia. }
  split; [|split; [|split; [|split; [|split]]]].
  - unfold GrowNumChunks. fields. unfold wrap32. rewrite Z.mod_small by (unfold n in *; lia).
    destruct (Z.ltb_spec (lenZ (Chunks a)) numChunks) as [|_]; [lia|].
    fold n start. rewrite reorder_rotates by done. fold ordered.
    cbn [mbind result_bind]. do 3 f_equal. unfold n, lenZ. rewrite Hlo. done.
  - unfold ordered. rewrite Permutation_app_comm. by rewrite take_drop.
  - rewrite Hidx by lia. by rewrite Z.add_0_r, Z.mod_small by lia.
  - intros H2. rewrite Hidx by lia. f_equal. unfold start, prevPos.
    destruct (Z.ltb_spec (CurrentChunkPos a - 1) 0).
    + replace (CurrentChunkPos a - 1 + n + 1) with (CurrentChunkPos a + 1 * n) by lia.
      rewrite Z.mod_add by lia. by rewrite Z.mod_small by lia.
    + rewrite Z.mod_small by lia. lia.
  - rewrite Hidx by lia. by rewrite Hlast.
  - intros Hinv H3 cc cl Hcc Hcl. rewrite Hidx, Hlast in Hcl by lia.
    apply (T0_strict a _ _ cl cc Hinv Hcl Hcc). rewrite rank_cur. fold n.
    pose proof (prevPos_range n start Hs) as Hs2.
    assert (1 <= rank n (CurrentChunkPos a) start) as Hr1.
    { unfold start. rewrite rank_prev by (done || rewrite rank_cur; lia).
      rewrite rank_cur. lia. }
    rewrite rank_prev by done. unfold start at 1.
    rewrite rank_prev by (done || rewrite rank_cur; lia). rewrite rank_cur. lia.
Qed.

(** ** GetAggregated *)

Section Aggregated.

Variable archives : Aggregator -> Archives.

Lemma searchAggregators_unknown (primary : bool) (aggs : list Aggregator)
    (consolidator : consolidation.Consolidator) (aggSpan from to : Z) :
  aggSpan ∉ (span <$> aggs) ->
  searchAggregators archives primary aggs consolidator aggSpan from to = Panic.
Proof.
  induction aggs as [|g aggs IH]; [done|]. rewrite fmap_cons, not_elem_of_cons.
  intros [Hne Hnot]. simpl. destruct (Z.eqb_spec (span g) aggSpan); [congruence|].
  by apply IH.
Qed.

Lemma searchAggregators_known (primary : bool) (aggs : list Aggregator)
    (consolidator : consolidation.Consolidator) (aggSpan from to : Z) :
  aggSpan ∈ (span <$> aggs) ->
  exists before g after,
    aggs = before ++ g :: after /\ span g = aggSpan /\ (aggSpan ∉ (span <$> before)) /\
    searchAggregators archives primary aggs consolidator aggSpan from to
      = match archiveOf consolidator with
        | Some archive => Get primary (archive (archives g)) from to
        | Datatypes.None => Panic
        end.
Proof.
  induction aggs as [|g aggs IH]; [by intros ?%elem_of_nil|].
  rewrite fmap_cons. intros Hin. simpl.
  destruct (Z.eqb_spec (span g) aggSpan) as [Heq|Hne].
  - exists [], g, aggs. split; [done|]. split; [done|]. split; [apply not_elem_of_nil|].
    by destruct consolidator.
  - apply elem_of_cons in Hin as [Heq|Hin]; [congruence|].
    destruct (IH Hin) as (before & g' & after & -> & Hs & Hnot & He).
    exists (g :: before), g', after. split; [done|]. split; [done|]. split; [|done].
    rewrite fmap_cons, not_elem_of_cons. split; [congruence|done].
Qed.

Variable accepts : Chunk -> Z -> float -> bool.

(** X18.  [GetAggregated] serves the spans given at construction.  Along any
    run of [Add], [GC] and [SyncChunkSaveState] from [NewAggMetric],
    [GetAggregated] panics when [aggSpan] is not the span of one of the
    aggregation settings.  When it is, the call panics for the
    consolidators [None] and [Avg] and for a consolidator it does not
    know, and for [Cnt], [Last], [Min], [Max] and [Sum] it is [Get] on the
    matching archive of the first aggregator with that span. *)
Theorem GetAggregated_serves_configured_spans (st : Store) (k : string)
    (chunkSpan numChunks ttl0 : Z) (aggs : list aggSetting) (w0 w : World)
    (primary : bool) (consolidator : consolidation.Consolidator) (aggSpan from to : Z) :
  metric w0 = NewAggMetric st k chunkSpan numChunks ttl0 aggs ->
  rtc (step accepts) w0 w ->
  (aggSpan ∉ (as_span <$> aggs) ->
   GetAggregated archives primary (metric w) consolidator aggSpan from to = Panic) /\
  (aggSpan ∈ (as_span <$> aggs) ->
   exists before g after,
     aggregators (metric w) = before ++ g :: after /\
     span g = aggSpan /\ (aggSpan ∉ (span <$> before)) /\
     GetAggregated archives primary (metric w) consolidator aggSpan from to
       = match archiveOf consolidator with
         | Some archive => Get primary (archive (archives g)) from to
         | Datatypes.None => Panic
         end).
Proof.
  intros Hw0 Hsteps.
  destruct (run_config accepts st k chunkSpan numChunks ttl0 aggs w0 w Hw0 Hsteps)
    as (_ & _ & _ & _ & Hspans).
  rewrite <- Hspans. split.
  - apply searchAggregators_unknown.
  - apply searchAggregators_known.
Qed.

End Aggregated.

(** ** What is sent twice *)

Lemma sentMarked_transfer (a a' : AggMetric) :
  sentMarked a -> store a' = store a ->
  (forall c', c' ∈ Chunks a' ->
     (exists c, c ∈ Chunks a /\ T0 c = T0 c' /\ (Saving c = true -> Saving c' = true)) \/
     (forall r, r ∈ store a -> T0 (chunk r) < T0 c')) ->
  sentMarked a'.
Proof.
  intros Hm Hst Hback r c' Hr Hc' Heq. rewrite Hst in Hr.
  destruct (Hback c' Hc') as [(c & Hc & Ht & Hsv)|Hnew].
  - apply Hsv. apply (Hm r c Hr Hc). congruence.
  - specialize (Hnew r Hr). lia.
Qed.

Lemma sentMarked_slotwise (a a' : AggMetric) :
  sentMarked a -> store a' = store a ->
  (forall q cq', index (Chunks a') q = Some cq' ->
     exists cq, index (Chunks a) q = Some cq /\ T0 cq = T0 cq' /\
       (Saving cq = true -> Saving cq' = true)) ->
  sentMarked a'.
Proof.
  intros Hm Hst Hback. apply (sentMarked_transfer a); [done..|].
  intros c' [q Hq]%elem_of_index. left.
  destruct (Hback q c' Hq) as (cq & Hcq & Ht & Hsv). exists cq.
  split; [by eapply index_elem_of|done].
Qed.

(** The requests of [persist] at the current position of a ring whose
    requests are marked: only the one for the current chunk can be for an
    interval that has a request already. *)
Lemma persist_sent (primary : bool) (now : Z) (a a' : AggMetric) :
  StoreInv a -> sentMarked a ->
  persist primary now a (CurrentChunkPos a) = Ok a' ->
  sentMarked a' /\
  exists reqs,
    store a' = store a ++ reqs /\
    StronglySorted Z.lt (requestT0s reqs) /\
    forall r cc, r ∈ reqs -> index (Chunks a) (CurrentChunkPos a) = Some cc ->
      T0 (chunk r) <> T0 cc -> T0 (chunk r) ∉ requestT0s (store a).
Proof.
  intros Hinv Hm Hp. pose proof (si_ring _ Hinv) as Hring.
  destruct (index (Chunks a) (CurrentChunkPos a)) as [c|] eqn:Hc;
    [|unfold persist in Hp; by rewrite Hc in Hp].
  destruct primary.
  - destruct (persist_primary_cur now a c Hring Hc)
      as (m & a1 & reqs & Hp1 & Hm' & Hstore & Hset & Hlen & Hsorted & Hkeys
          & Hsent & Hrun & Hstop & Hchunks).
    assert (a1 = a') as -> by congruence. clear Hp1.
    pose proof (index_range _ _ _ Hc) as Hcur.
    assert (Hunsent : forall r, r ∈ reqs -> T0 (chunk r) <> T0 c ->
              T0 (chunk r) ∉ requestT0s (store a)).
    { intros r Hr Hne Hin.
      assert (T0 (chunk r) ∈ requestT0s reqs) as Hrt
        by (apply list_elem_of_fmap; by exists r).
      apply Hsent in Hrt as (q & cq & Hq & Hrq & Ht).
      pose proof (index_range _ _ _ Hq) as Hrq'.
      pose proof (rank_range _ _ q Hcur Hrq') as Hrkq.
      assert (rank (lenZ (Chunks a)) (CurrentChunkPos a) q <> lenZ (Chunks a) - 1) as Hnc.
      { intros Heq. rewrite <- (rank_cur (lenZ (Chunks a)) (CurrentChunkPos a)) in Heq.
        apply rank_inj in Heq; [|done..]. subst q. rewrite Hc in Hq. injection Hq as <-.
        congruence. }
      destruct (Hrun q cq Hq ltac:(lia)) as [_ Hsv].
      apply list_elem_of_fmap in Hin as (r0 & Hr0 & Hin).
      pose proof (Hm r0 cq Hin (index_elem_of _ _ _ Hq) ltac:(congruence)). congruence. }
    split.
    + intros r c' Hr [q Hq']%elem_of_index Heq.
      pose proof (index_range _ _ _ Hq') as Hrq.
      destruct (index_in_range (Chunks a) q) as [cq Hq];
        [unfold lenZ in *; by rewrite <- Hlen|].
      destruct (Hchunks q cq Hq) as (cq' & Hq'' & Ht & _ & Hsv).
      rewrite Hq' in Hq''. injection Hq'' as <-. apply Hsv.
      rewrite Hstore in Hr. apply elem_of_app in Hr as [Hr|Hr].
      * left. apply (Hm r cq Hr (index_elem_of _ _ _ Hq)). congruence.
      * right.
        assert (T0 (chunk r) ∈ requestT0s reqs) as Hrt
          by (apply list_elem_of_fmap; by exists r).
        apply Hsent in Hrt as (q0 & cq0 & Hq0 & Hrq0 & Ht0).
        assert (q0 = q) as -> by (eapply (T0_inj a); [done..|congruence]). done.
    + exists reqs. split; [done|]. split; [done|].
      intros r cc Hr [= <-]. by apply Hunsent.
  - rewrite (persist_secondary now a _ c Hc) in Hp. injection Hp as <-. split.
    + apply (sentMarked_slotwise a); [done..|]. fields.
      pose proof (index_range _ _ _ Hc) as Hr.
      intros q cq' Hq. destruct (Z.eq_dec (CurrentChunkPos a) q) as [<-|Hne].
      * rewrite index_insert_eq in Hq by done. injection Hq as <-. by exists c.
      * rewrite index_insert_ne in Hq by lia. by exists cq'.
    + exists []. fields. split; [by rewrite app_nil_r|]. split; [constructor|].
      intros r cc Hr. by apply elem_of_nil in Hr.
Qed.

Section SentOnce.

Variable accepts : Chunk -> Z -> float -> bool.

Lemma step_sent (w w' : World) :
  StoreInv (metric w) -> sentMarked (metric w) -> step accepts w w' ->
  sentMarked (metric w') /\
  exists reqs,
    store (metric w') = store (metric w) ++ reqs /\
    StronglySorted Z.lt (requestT0s reqs) /\
    forall r cc, r ∈ reqs ->
      index (Chunks (metric w)) (CurrentChunkPos (metric w)) = Some cc ->
      T0 (chunk r) <> T0 cc -> T0 (chunk r) ∉ requestT0s (store (metric w)).
Proof.
  intros Hinv Hm Hstep. pose proof (si_ring _ Hinv) as Hring.
  assert (Hnone : forall a' : AggMetric,
            sentMarked a' -> store a' = store (metric w) ->
            sentMarked a' /\
            exists reqs,
              store a' = store (metric w) ++ reqs /\
              StronglySorted Z.lt (requestT0s reqs) /\
              forall r cc, r ∈ reqs ->
                index (Chunks (metric w)) (CurrentChunkPos (metric w)) = Some cc ->
                T0 (chunk r) <> T0 cc -> T0 (chunk r) ∉ requestT0s (store (metric w))).
  { intros a' Hm' Hst. split; [done|]. exists []. split; [by rewrite app_nil_r|].
    split; [constructor|]. intros r cc Hr. by apply elem_of_nil in Hr. }
  destruct Hstep as [primary now w1 ts val w2 Hts Hadd
                    |primary now w1 cmin mmin b a' Hgc
                    |w1 ts a' Hsync].
  - pose proof Hadd as [_ Hcase]%Add_cases.
    assert (Hroll : forall cc, getChunk (metric w1) (CurrentChunkPos (metric w1)) = Some cc ->
              T0 cc < quantize (ChunkSpan (metric w1)) ts ->
              sentMarked (metric w2) /\
              exists reqs,
                store (metric w2) = store (metric w1) ++ reqs /\
                StronglySorted Z.lt (requestT0s reqs) /\
                forall r cc, r ∈ reqs ->
                  index (Chunks (metric w1)) (CurrentChunkPos (metric w1)) = Some cc ->
                  T0 (chunk r) <> T0 cc -> T0 (chunk r) ∉ requestT0s (store (metric w1))).
    { intros cc Hcc Hlt.
      destruct (Add_opens accepts primary now w1 ts val cc Hring Hts Hcc Hlt)
        as (a1 & Hp & Hset & Hlen & Hpos & H).
      destruct (accepts _ ts val); [|congruence].
      destruct H as (w' & Hadd' & Hcur' & Hst & Hnew & Hothers & _).
      assert (w' = w2) as -> by congruence.
      destruct (persist_sent _ _ _ _ Hinv Hm Hp) as (Hm1 & reqs & Hst1 & Hsorted & Hfresh).
      pose proof (StoreInv_persist _ _ _ _ Hinv Hp) as Hinv1.
      rewrite getChunk_index in Hcc.
      destruct (persist_frame primary now _ _ cc Hcc) as (a1' & Hp' & _ & _ & Hfr).
      assert (a1' = a1) as -> by congruence.
      destruct (Hfr _ cc Hcc) as (c1 & Hc1 & (Hk & _) & _).
      destruct Hset as (_ & Hcur1 & _ & Hsp1 & _). rewrite <- Hcur1 in Hc1.
      split.
      - apply (sentMarked_transfer a1); [done..|].
        intros c' [q Hq]%elem_of_index.
        destruct (Z.eq_dec q (nextPos (NumChunks a1) (CurrentChunkPos a1))) as [->|Hne].
        + right. rewrite Hnew in Hq. injection Hq as <-. intros r Hr. simpl.
          pose proof (si_below _ Hinv1 r c1 Hr Hc1). lia.
        + left. rewrite Hothers in Hq by done. exists c'.
          split; [by eapply index_elem_of|done].
      - exists reqs. split; [by rewrite Hst|done]. }
    destruct Hcase as [c0 a t0 chunks Hc H0 Hacc
                      |cc a Hc Ht Hsv Hacc|cc a Hc Ht Hsv|cc a Hc Ht Hsv Hacc|cc a Hc Hlt
                      |cc a1 cnew a t0 pos chunks Hc Hlt Hp Hroom Hnew Hacc
                      |cc a1 old a t0 pos Hc Hlt Hp Hfull Hold Hacc];
      subst a.
    + pose proof (PosInv_getChunk_None _ (ri_pos _ Hring) Hc) as Hnil.
      pose proof (si_empty _ Hinv Hnil) as Hstore.
      apply Hnone; [|done]. intros r c Hr. fields. rewrite Hstore in Hr.
      by apply elem_of_nil in Hr.
    + apply Hnone; [|done]. apply (sentMarked_slotwise (metric w1)); [done..|]. fields.
      rewrite getChunk_index in Hc. pose proof (index_range _ _ _ Hc) as Hr.
      intros q cq' Hq. destruct (Z.eq_dec (CurrentChunkPos (metric w1)) q) as [<-|Hne].
      * rewrite index_insert_eq in Hq by done. injection Hq as <-. by exists cc.
      * rewrite index_insert_ne in Hq by lia. by exists cq'.
    + by apply Hnone.
    + by apply Hnone.
    + by apply Hnone.
    + by apply (Hroll cc).
    + by apply (Hroll cc).
  - fields. apply GC_cases in Hgc as [->|(_ & cc & Hc & Hp)]; [by apply Hnone|].
    exact (persist_sent _ _ _ _ Hinv Hm Hp).
  - fields. pose proof (Sync_store _ _ _ Hsync) as Hst. apply Hnone; [|done].
    apply SyncChunkSaveState_cases in Hsync as [[_ ->]|(p & cc & _ & Hc & _ & ->)]; [done|].
    apply (sentMarked_slotwise (metric w1)); [done..|]. fields.
    pose proof (index_range _ _ _ Hc) as Hr.
    intros q cq' Hq. destruct (Z.eq_dec p q) as [<-|Hne].
    + rewrite index_alter_eq, Hc in Hq by lia. injection Hq as <-. by exists cc.
    + rewrite index_alter_ne in Hq by lia. by exists cq'.
Qed.

Lemma sentMarked_run (k : string) (chunkSpan numChunks ttl0 : Z) (aggs : list aggSetting)
    (w0 w : World) :
  0 < chunkSpan -> 1 <= numChunks ->
  metric w0 = NewAggMetric [] k chunkSpan numChunks ttl0 aggs ->
  rtc (step accepts) w0 w ->
  StoreInv (metric w) /\ sentMarked (metric w).
Proof.
  intros Hs HN Hw0 Hsteps. revert w Hsteps. apply rtc_ind_r.
  - rewrite Hw0. split.
    + constructor.
      * by apply RingInv_new.
      * constructor.
      * intros r cc Hr. by apply elem_of_nil in Hr.
      * intros r x Hr. by apply elem_of_nil in Hr.
      * done.
      * constructor.
    + intros r c Hr. by apply elem_of_nil in Hr.
  - intros w1 w2 _ Hstep [Hinv Hm]. split; [by eapply StoreInv_step|].
    by destruct (step_sent w1 w2 Hinv Hm Hstep).
Qed.

(** X19.  What is sent twice.  Along any run of [Add], [GC] and
    [SyncChunkSaveState] from a new metric with an empty store, the
    requests one operation hands to the store are for intervals with
    increasing [T0]s, and of those only the request for the chunk that was
    current before the operation can be for an interval that has a request
    in the store already: the catch-up never sends a chunk again. *)
Theorem catch_up_sends_once (k : string) (chunkSpan numChunks ttl0 : Z)
    (aggs : list aggSetting) (w0 w w' : World) :
  0 < chunkSpan -> 1 <= numChunks ->
  metric w0 = NewAggMetric [] k chunkSpan numChunks ttl0 aggs ->
  rtc (step accepts) w0 w ->
  step accepts w w' ->
  exists reqs,
    store (metric w') = store (metric w) ++ reqs /\
    StronglySorted Z.lt (requestT0s reqs) /\
    forall r cc, r ∈ reqs ->
      getChunk (metric w) (CurrentChunkPos (metric w)) = Some cc ->
      T0 (chunk r) <> T0 cc -> T0 (chunk r) ∉ requestT0s (store (metric w)).
Proof.
  intros Hs HN Hw0 Hsteps Hstep.
  destruct (sentMarked_run k chunkSpan numChunks ttl0 aggs w0 w Hs HN Hw0 Hsteps)
    as [Hinv Hm].
  destruct (step_sent w w' Hinv Hm Hstep) as (_ & reqs & Hst & Hsorted & Hfresh).
  exists reqs. split; [done|]. split; [done|].
  intros r cc Hr Hcc. rewrite getChunk_index in Hcc. by apply Hfresh.
Qed.

End SentOnce.

(** ** Get returns chunks of the ring *)

Lemma advanceOldest_sound (a : AggMetric) (from : Z) (fuel : nat) :
  forall p c p1 c1,
    getChunk a p = Some c -> advanceOldest fuel a from p c = Stopped p1 c1 ->
    getChunk a p1 = Some c1.
Proof.
  induction fuel as [|fuel IH]; intros p c p1 c1 Hc; simpl;
    destruct (from >=? add32 (T0 c) (ChunkSpan a)); try done;
    try (intros [= <- <-]; done).
  destruct (getChunk a (nextPos (lenZ (Chunks a)) p)) as [c'|] eqn:Hc'; [|done].
  by apply IH.
Qed.

Lemma emit_sound (a : AggMetric) (newestPos : Z) (fuel : nat) :
  forall oldestPos iters l,
    emit fuel a oldestPos newestPos iters = Ok l ->
    exists l', l = iters ++ l' /\ Forall (fun it => iterChunk it ∈ Chunks a) l'.
Proof.
  assert (Hin : forall p c, getChunk a p = Some c -> c ∈ Chunks a).
  { intros p c Hc. rewrite getChunk_index in Hc. by eapply index_elem_of. }
  induction fuel as [|fuel IH]; intros p iters l; simpl;
    destruct (p =? newestPos); destruct (getChunk a p) as [c|] eqn:Hc; try done;
    try (intros [= <-]; exists [NewIter c]; split; [done|];
         constructor; [by eapply Hin|constructor]).
  intros He. destruct (IH _ _ _ He) as (l' & -> & Hall).
  exists (NewIter c :: l'). split; [by rewrite <- app_assoc|].
  constructor; [by eapply Hin|done].
Qed.

(** X20.  [Get] returns chunks of the ring.  In any state at all, ordered or
    not, the iterators that [Get] returns are over chunks that the ring
    holds, and the first value it returns is [MaxInt32], [to], or the
    [T0] of a chunk of the ring; when it returns iterators there is at
    least one and the value is the [T0] of a chunk of the ring. *)
Theorem Get_returns_ring_chunks (primary : bool) (a : AggMetric) (from to m : Z)
    (iters : list Iter) :
  Get primary a from to = Ok (m, iters) ->
  from < to /\
  Forall (fun it => iterChunk it ∈ Chunks a) iters /\
  (m = MaxInt32 \/ m = to \/ exists c, c ∈ Chunks a /\ m = T0 c) /\
  (iters <> [] -> exists c, c ∈ Chunks a /\ m = T0 c).
Proof.
  unfold Get. rewrite Z.geb_leb.
  destruct (Z.leb_spec to from) as [|Hlt]; [done|].
  assert (Hin : forall p c, getChunk a p = Some c -> c ∈ Chunks a).
  { intros p c Hc. rewrite getChunk_index in Hc. by eapply index_elem_of. }
  assert (Hempty : forall x, (x = MaxInt32 \/ x = to \/ exists c, c ∈ Chunks a /\ x = T0 c) ->
            Ok (x, []) = Ok (m, iters) ->
            from < to /\
            Forall (fun it => iterChunk it ∈ Chunks a) iters /\
            (m = MaxInt32 \/ m = to \/ exists c, c ∈ Chunks a /\ m = T0 c) /\
            (iters <> [] -> exists c, c ∈ Chunks a /\ m = T0 c)).
  { intros x Hx [= <- <-]. split; [done|]. split; [constructor|]. split; [done|]. done. }
  destruct (getChunk a (CurrentChunkPos a)) as [cn|] eqn:Hcn; [|apply Hempty; by left].
  destruct (from >=? add32 (T0 cn) (ChunkSpan a)); [apply Hempty; by left|].
  destruct (servedOldest primary a) as [[po co]|] eqn:Hso; [|apply Hempty; by left].
  pose proof (servedOldest_range _ _ _ _ Hso) as Hco.
  destruct (to <=? T0 co).
  { apply Hempty. right. right. exists co. split; [by eapply Hin|done]. }
  destruct (advanceOldest _ a from po co) as [p1 c1| |] eqn:Hadv;
    [|apply Hempty; right; by left|done].
  pose proof (advanceOldest_sound _ _ _ _ _ _ _ Hco Hadv) as Hc1.
  destruct (retreatNewest _ a to (CurrentChunkPos a) cn) as [p2 c2| |] eqn:Hret;
    [|apply Hempty; right; by left|done].
  destruct (emit _ a p1 p2 []) as [l| |] eqn:He; [|done..].
  cbn [mbind result_bind]. intros [= <- <-].
  destruct (emit_sound _ _ _ _ _ _ He) as (l' & -> & Hall).
  assert (exists c, c ∈ Chunks a /\ T0 c1 = T0 c) as Hm
    by (exists c1; split; [by eapply Hin|done]).
  split; [done|]. split; [done|]. split; [by right; right|done].
Qed.

(** ** The aggregators *)

Lemma fed_same_aggregators (a a' : AggMetric) :
  fed a -> aggregators a' = aggregators a ->
  (forall c' pt, c' ∈ Chunks a' -> pt ∈ points c' ->
     exists c, c ∈ Chunks a /\ pt ∈ points c) ->
  fed a'.
Proof.
  intros [Hf Hs] Hg Hback. split.
  - intros g c' pt Hin Hc' Hpt. rewrite Hg in Hin.
    destruct (Hback c' pt Hc' Hpt) as (c & Hc & Hpt'). by apply (Hf g c).
  - rewrite Hg. exact Hs.
Qed.

Lemma fed_added (a a' : AggMetric) (ts : Z) (val : float) :
  fed a -> aggregators a' = Aggregator_Add ts val <$> aggregators a ->
  (forall c' pt, c' ∈ Chunks a' -> pt ∈ points c' ->
     pt = (ts, val) \/ exists c, c ∈ Chunks a /\ pt ∈ points c) ->
  fed a'.
Proof.
  intros [Hf Hs] Hg Hback. split.
  - intros g' c' pt Hin Hc' Hpt. rewrite Hg in Hin.
    apply list_elem_of_fmap in Hin as (g & -> & Hin). simpl. apply elem_of_app.
    destruct (Hback c' pt Hc' Hpt) as [->|(c & Hc & Hpt')].
    + right. apply list_elem_of_here.
    + left. by apply (Hf g c).
  - rewrite Hg. intros g1' g2' (g1 & -> & H1)%list_elem_of_fmap (g2 & -> & H2)%list_elem_of_fmap.
    simpl. by rewrite (Hs g1 g2 H1 H2).
Qed.

Lemma persist_points (primary : bool) (now : Z) (a a' : AggMetric) (pos : Z) :
  persist primary now a pos = Ok a' ->
  aggregators a' = aggregators a /\
  forall q cq', index (Chunks a') q = Some cq' ->
    exists cq, index (Chunks a) q = Some cq /\ points cq' = points cq.
Proof.
  intros Hp. destruct (index (Chunks a) pos) as [c0|] eqn:Hc0.
  - destruct (persist_frame primary now a pos c0 Hc0) as (a1 & Hp1 & Hset & Hlen & Hfr).
    assert (a1 = a') as -> by congruence. split; [apply Hset|].
    intros q cq' Hq'. pose proof (index_range _ _ _ Hq') as Hr.
    destruct (index_in_range (Chunks a) q) as [cq Hq]; [unfold lenZ in *; by rewrite <- Hlen|].
    destruct (Hfr q cq Hq) as (cq'' & Hq'' & (_ & _ & _ & Hpts) & _).
    exists cq. split; [done|]. congruence.
  - unfold persist in Hp. by rewrite Hc0 in Hp.
Qed.

Section Aggregators.

Variable accepts : Chunk -> Z -> float -> bool.

Lemma Add_fed (primary : bool) (now : Z) (w : World) (ts : Z) (val : float) (w' : World) :
  fed (metric w) -> Add accepts primary now w ts val = Ok w' ->
  fed (metric w') /\
  (w' = w \/ aggregators (metric w') = Aggregator_Add ts val <$> aggregators (metric w)).
Proof.
  intros Hf [_ Hcase]%Add_cases.
  destruct Hcase as [c0 a t0 chunks Hc H0 Hacc
                    |cc a Hc Ht Hsv Hacc|cc a Hc Ht Hsv|cc a Hc Ht Hsv Hacc|cc a Hc Hlt
                    |cc a1 cnew a t0 pos chunks Hc Hlt Hp Hroom Hnew Hacc
                    |cc a1 old a t0 pos Hc Hlt Hp Hfull Hold Hacc];
    subst a.
  - split; [|by right]. apply (fed_added (metric w) _ ts val); fields; [done..|].
    intros c' pt [q Hq]%elem_of_index Hpt.
    change 0%nat with (Z.to_nat 0) in Hq.
    destruct (Z.eq_dec q 0) as [->|Hne].
    + apply index_range in H0 as Hr0. rewrite index_insert_eq in Hq by done.
      injection Hq as <-. simpl in Hpt. apply elem_of_app in Hpt as [Hpt|Hpt].
      * subst chunks. apply index_snoc in H0 as [H0|[_ ->]].
        -- right. exists c0. split; [by eapply index_elem_of|done].
        -- by apply elem_of_nil in Hpt.
      * left. by apply list_elem_of_singleton in Hpt.
    + rewrite index_insert_ne in Hq by lia. subst chunks.
      apply index_snoc in Hq as [Hq|[_ ->]].
      * right. exists c'. split; [by eapply index_elem_of|done].
      * by apply elem_of_nil in Hpt.
  - split; [|by right]. apply (fed_added (metric w) _ ts val); fields; [done..|].
    rewrite getChunk_index in Hc. pose proof (index_range _ _ _ Hc) as Hr.
    intros c' pt [q Hq]%elem_of_index Hpt.
    destruct (Z.eq_dec (CurrentChunkPos (metric w)) q) as [<-|Hne].
    + rewrite index_insert_eq in Hq by done. injection Hq as <-. simpl in Hpt.
      apply elem_of_app in Hpt as [Hpt|Hpt].
      * right. exists cc. split; [by eapply index_elem_of|done].
      * left. by apply list_elem_of_singleton in Hpt.
    + rewrite index_insert_ne in Hq by lia. right. exists c'.
      split; [by eapply index_elem_of|done].
  - split; [done|by left].
  - split; [done|by left].
  - split; [done|by left].
  - destruct (persist_points _ _ _ _ _ Hp) as [Hg Hback].
    split; [|right; fields; by rewrite Hg].
    apply (fed_added (metric w) _ ts val); fields; [done|by rewrite Hg|].
    intros c' pt [q Hq]%elem_of_index Hpt.
    assert (Hfrom : forall q1 c1, index chunks q1 = Some c1 -> pt ∈ points c1 ->
              exists c, c ∈ Chunks (metric w) /\ pt ∈ points c).
    { intros q1 c1 Hq1 Hpt1. subst chunks. apply index_snoc in Hq1 as [Hq1|[_ ->]].
      - destruct (Hback q1 c1 Hq1) as (cq & Hcq & Hpts). exists cq.
        split; [by eapply index_elem_of|by rewrite <- Hpts].
      - by apply elem_of_nil in Hpt1. }
    destruct (Z.eq_dec pos q) as [<-|Hne].
    + apply index_range in Hnew as Hrn. rewrite index_insert_eq in Hq by done.
      injection Hq as <-. simpl in Hpt. apply elem_of_app in Hpt as [Hpt|Hpt].
      * right. by apply (Hfrom pos cnew).
      * left. by apply list_elem_of_singleton in Hpt.
    + assert (0 <= pos) by (apply index_range in Hnew; lia).
      rewrite index_insert_ne in Hq by lia. right. by apply (Hfrom q c').
  - destruct (persist_points _ _ _ _ _ Hp) as [Hg Hback].
    split; [|right; fields; by rewrite Hg].
    apply (fed_added (metric w) _ ts val); fields; [done|by rewrite Hg|].
    intros c' pt [q Hq]%elem_of_index Hpt.
    pose proof (index_range _ _ _ Hold) as Hro.
    destruct (Z.eq_dec pos q) as [<-|Hne].
    + rewrite index_insert_eq in Hq by done. injection Hq as <-. simpl in Hpt.
      left. by apply list_elem_of_singleton in Hpt.
    + rewrite index_insert_ne in Hq by lia. right.
      destruct (Hback q c' Hq) as (cq & Hcq & Hpts). exists cq.
      split; [by eapply index_elem_of|by rewrite <- Hpts].
Qed.

Lemma step_fed (w w' : World) :
  fed (metric w) -> step accepts w w' -> fed (metric w').
Proof.
  intros Hf Hstep.
  destruct Hstep as [primary now w1 ts val w2 Hts Hadd
                    |primary now w1 cmin mmin b a' Hgc
                    |w1 ts a' Hsync].
  - by destruct (Add_fed _ _ _ _ _ _ Hf Hadd).
  - fields. apply GC_cases in Hgc as [->|(_ & cc & Hc & Hp)]; [done|].
    destruct (persist_points _ _ _ _ _ Hp) as [Hg Hback].
    apply (fed_same_aggregators (metric w1)); [done..|].
    intros c' pt [q Hq]%elem_of_index Hpt.
    destruct (Hback q c' Hq) as (cq & Hcq & Hpts). exists cq.
    split; [by eapply index_elem_of|by rewrite <- Hpts].
  - fields.
    apply SyncChunkSaveState_cases in Hsync as [[_ ->]|(p & cc & _ & Hc & _ & ->)]; [done|].
    apply (fed_same_aggregators (metric w1)); [done..|]. fields.
    pose proof (index_range _ _ _ Hc) as Hr.
    intros c' pt [q Hq]%elem_of_index Hpt. destruct (Z.eq_dec p q) as [<-|Hne].
    + rewrite index_alter_eq, Hc in Hq by lia. injection Hq as <-.
      exists cc. split; [by eapply index_elem_of|done].
    + rewrite index_alter_ne in Hq by lia. exists c'. split; [by eapply index_elem_of|done].
Qed.

(** X21.  The aggregators see what the ring takes.  An [Add] passes its
    sample to every aggregator, in their order, when it puts the sample in
    the ring, and to none when it rejects it.  Along any run of [Add],
    [GC] and [SyncChunkSaveState] from [NewAggMetric], every point held by
    a chunk of the ring has been passed to every aggregator, and all the
    aggregators have been passed the same samples in the same order. *)
Theorem aggregators_see_every_point (st : Store) (k : string)
    (chunkSpan numChunks ttl0 : Z) (aggs : list aggSetting) (w0 w : World) :
  metric w0 = NewAggMetric st k chunkSpan numChunks ttl0 aggs ->
  rtc (step accepts) w0 w ->
  (forall g c pt,
     g ∈ aggregators (metric w) -> c ∈ Chunks (metric w) -> pt ∈ points c ->
     pt ∈ received g) /\
  (forall g g', g ∈ aggregators (metric w) -> g' ∈ aggregators (metric w) ->
     received g = received g') /\
  (forall primary now ts val w',
     Add accepts primary now w ts val = Ok w' ->
     w' = w \/
     aggregators (metric w') = Aggregator_Add ts val <$> aggregators (metric w)).
Proof.
  intros Hw0 Hsteps.
  assert (Hf : fed (metric w)).
  { revert w Hsteps. apply rtc_ind_r.
    - rewrite Hw0. split.
      + intros g c pt _ Hc. by apply elem_of_nil in Hc.
      + simpl. by intros g g' (s & -> & _)%list_elem_of_fmap (s' & -> & _)%list_elem_of_fmap.
    - intros w1 w2 _ Hstep Hf. by apply (step_fed w1 w2). }
  destruct Hf as [Hf1 Hf2]. split; [done|]. split; [done|].
  intros primary now ts val w' Hadd.
  by destruct (Add_fed primary now w ts val w' (conj Hf1 Hf2) Hadd).
Qed.

End Aggregators.

(** ** Get: the outcomes *)

Section GetOutcomes.

Variable accepts : Chunk -> Z -> float -> bool.

(** X22.  [Get] ends, and where it panics.  In a state reached from a new
    metric whose chunks end before [2^32], for a range with [from < to],
    the loops of [Get] end within the number of chunks of the ring: the
    call returns, or it panics, and it panics only for a range that lies
    between two of the chunks it serves while the ring is not full. *)
Theorem Get_ends (chunkSpan numChunks : Z) (w : World) (primary : bool) (from to : Z) :
  0 < chunkSpan -> 1 <= numChunks ->
  reachable accepts chunkSpan numChunks w ->
  (forall c, c ∈ Chunks (metric w) -> T0 c + chunkSpan < 2 ^ 32) ->
  from < to ->
  (exists m iters, Get primary (metric w) from to = Ok (m, iters)) \/
  (Get primary (metric w) from to = Panic /\
   lenZ (Chunks (metric w)) < numChunks /\
   exists cn po co,
     getChunk (metric w) (CurrentChunkPos (metric w)) = Some cn /\
     from < T0 cn + chunkSpan /\
     servedOldest primary (metric w) = Some (po, co) /\ T0 co < to /\
     forall c, served primary (metric w) c -> ~ overlaps (metric w) from to c).
Proof.
  intros Hs HN Hreach Hfit Hlt.
  pose proof (RingInv_reachable accepts chunkSpan numChunks w Hs HN Hreach) as Hinv.
  destruct (reachable_config accepts _ _ _ Hreach) as [Hspan Hnum].
  rewrite <- Hspan in Hfit |- *. rewrite <- Hnum.
  set (a := metric w) in *.
  destruct (getChunk a (CurrentChunkPos a)) as [cn|] eqn:Hcn.
  2: { left. exists MaxInt32, []. unfold Get. rewrite Z.geb_leb.
       destruct (Z.leb_spec to from); [lia|]. by rewrite Hcn. }
  pose proof Hcn as Hcn'. rewrite getChunk_index in Hcn'.
  pose proof (index_elem_of _ _ _ Hcn') as Hcnin.
  destruct (Z.le_gt_cases (T0 cn + ChunkSpan a) from) as [Hafter|Hnew].
  { left. exists MaxInt32, []. unfold Get. rewrite Z.geb_leb.
    destruct (Z.leb_spec to from); [lia|]. rewrite Hcn.
    rewrite (add32_fit a Hinv Hfit cn Hcnin). rewrite Z.geb_leb.
    by destruct (Z.leb_spec (T0 cn + ChunkSpan a) from); [|lia]. }
  destruct (servedOldest_is_Some primary a cn Hcn) as (po & co & Hso).
  destruct (Z.le_gt_cases to (T0 co)) as [Hbefore|Hold].
  { left. exists (T0 co), []. unfold Get. rewrite Z.geb_leb.
    destruct (Z.leb_spec to from); [lia|]. rewrite Hcn.
    rewrite (add32_fit a Hinv Hfit cn Hcnin). rewrite Z.geb_leb.
    destruct (Z.leb_spec (T0 cn + ChunkSpan a) from); [lia|]. rewrite Hso.
    by destruct (Z.leb_spec to (T0 co)); [|lia]. }
  destruct (decide (Exists (fun c => T0 co <= T0 c /\ T0 c < to /\ from < T0 c + ChunkSpan a)
                      (Chunks a))) as [Hyes|Hno].
  - left. apply Exists_exists in Hyes as (c & Hc & Hle & Ho1 & Ho2).
    destruct (Get_overlapping a Hinv Hfit primary from to Hlt) as (c0 & rest & Hget & _).
    { exists c. split; [|by split]. by apply (served_iff primary a po co c Hinv Hso). }
    eauto.
  - assert (Hnone : forall c, served primary a c -> ~ overlaps a from to c).
    { intros c [Hc Hle]%(served_iff primary a po co c Hinv Hso) [Ho1 Ho2].
      apply Hno. apply Exists_exists. exists c. by repeat split. }
    destruct (Get_between a Hinv Hfit primary from to cn po co Hlt Hcn' Hnew Hso Hold Hnone)
      as [Hpanic Hfull].
    destruct (ring_nonempty a Hinv _ cn Hcn') as [_ Hcap].
    destruct (Z.eq_dec (lenZ (Chunks a)) (NumChunks a)) as [Heq|Hne].
    + left. destruct (Hfull Heq) as (c1 & rest & Hget & _). eauto.
    + right. split; [apply Hpanic; lia|]. split; [lia|].
      exists cn, po, co. by repeat split.
Qed.

End GetOutcomes.

(** * The statements at concrete inputs *)

Lemma afterTwoSamples_chunks : Chunks (metric afterTwoSamples) = [chunk60; chunk120].
Proof. vm_compute. reflexivity. Qed.

Lemma afterThreeSamples_steps : rtc (step inOrder) (freshWorld 60 3) afterThreeSamples.
Proof.
  eapply rtc_l.
  { apply (step_Add inOrder true 1 (freshWorld 60 3) 100 1%float
             (finalWorld (Add inOrder true 1 (freshWorld 60 3) 100 1%float))).
    - unfold is_u32. lia.
    - vm_compute. reflexivity. }
  eapply rtc_l.
  { apply (step_Add inOrder true 2 _ 160 2%float
             (finalWorld (addAll true 1 (freshWorld 60 3)
                            [(100, 1%float); (160, 2%float)]))).
    - unfold is_u32. lia.
    - vm_compute. reflexivity. }
  eapply rtc_l; [|apply rtc_refl].
  apply (step_Add inOrder true 3 _ 250 3%float).
  - unfold is_u32. lia.
  - vm_compute. reflexivity.
Qed.

Lemma afterTwoSamples_reachable : reachable inOrder 60 3 afterTwoSamples.
Proof.
  exists [], "series"%string, 0, [], (freshWorld 60 3). split; [reflexivity|].
  eapply rtc_l.
  { apply (step_Add inOrder false 1 (freshWorld 60 3) 100 1%float
             (finalWorld (Add inOrder false 1 (freshWorld 60 3) 100 1%float))).
    - unfold is_u32. lia.
    - vm_compute. reflexivity. }
  eapply rtc_l; [|apply rtc_refl].
  apply (step_Add inOrder false 2 _ 160 2%float).
  - unfold is_u32. lia.
  - vm_compute. reflexivity.
Qed.


(** C4 as stated fails: the sample at 70 falls in the current chunk, which
    is not saved and already holds a point at 100; the chunk refuses it and
    [Add] returns with the state as it was. *)
Lemma refused_push_also_rejects :
  getChunk (metric afterFirstSample) (CurrentChunkPos (metric afterFirstSample))
    = Some firstChunk /\
  Add inOrder true 1001 afterFirstSample 70 2%float = Ok afterFirstSample /\
  ~ (quantize (ChunkSpan (metric afterFirstSample)) 70 < T0 firstChunk \/
     (quantize (ChunkSpan (metric afterFirstSample)) 70 = T0 firstChunk /\
      Saved firstChunk = true)).
Proof.
  split; [vm_compute; reflexivity|]. split; [vm_compute; reflexivity|].
  intros [H|[_ H]]; vm_compute in H; discriminate.
Qed.

(** C4, amended, at the state after the first sample. *)
Lemma Add_rejects_witness :
  Add inOrder true 1001 afterFirstSample 70 2%float = Ok afterFirstSample <->
  quantize (ChunkSpan (metric afterFirstSample)) 70 < T0 firstChunk \/
  (quantize (ChunkSpan (metric afterFirstSample)) 70 = T0 firstChunk /\
   Saved firstChunk = true) \/
  (quantize (ChunkSpan (metric afterFirstSample)) 70 = T0 firstChunk /\
   Saved firstChunk = false /\ inOrder firstChunk 70 2%float = false).
Proof.
  apply (Add_rejects inOrder true 1001 afterFirstSample 70 2%float firstChunk).
  - change (60 <> 0). lia.
  - vm_compute. reflexivity.
Defined.


(** C6, amended, at the first chunk of [afterTwoSamples], on a primary. *)
Lemma round_trip_witness :
  exists m iters,
    Get true (metric afterTwoSamples) 100 (100 + 1) = Ok (m, iters) /\
    exists it, it ∈ iters /\ (100, 1%float) ∈ iterPoints it.
Proof.
  destruct (round_trip inOrder 60 3 afterTwoSamples) as (_ & _ & H).
  - lia.
  - lia.
  - apply afterTwoSamples_reachable.
  - apply (H true chunk60).
    + rewrite afterTwoSamples_chunks. apply list_elem_of_here.
    + apply list_elem_of_here.
    + rewrite afterTwoSamples_chunks. change (ChunkSpan (metric afterTwoSamples)) with 60.
      intros c' [->|[->|Hc']%elem_of_cons]%elem_of_cons.
      * vm_compute. reflexivity.
      * vm_compute. reflexivity.
      * by apply elem_of_nil in Hc'.
    + by left.
Defined.

(** C8 at [afterTwoSamples], for the [T0] of its first chunk, which is not
    saved before the call. *)
Lemma SyncChunkSaveState_marks_saved_witness :
  Saved chunk60 = false /\
  exists a',
    SyncChunkSaveState (metric afterTwoSamples) 60 = Ok a' /\
    (exists c', index (Chunks a') 0 = Some c' /\ Saved c' = true /\
       points c' = points chunk60 /\ Saving c' = Saving chunk60) /\
    index (Chunks a') 1 = Some chunk120 /\
    SyncChunkSaveState a' 60 = Ok a'.
Proof.
  split; [reflexivity|].
  destruct (SyncChunkSaveState_marks_saved inOrder 60 3 afterTwoSamples 60)
    as (a' & Hsync & _ & _ & _ & _ & Hmarked & Hothers & _ & Hagain).
  - lia.
  - lia.
  - apply afterTwoSamples_reachable.
  - exists a'. split; [done|]. split; [|split; [|done]].
    + destruct (Hmarked 0 chunk60) as (c' & Hc' & Hsaved & _ & _ & _ & Hsaving & _ & Hpts & _);
        [vm_compute; reflexivity|reflexivity|].
      by exists c'.
    + apply (Hothers 1 chunk120); [vm_compute; reflexivity|]. vm_compute. discriminate.
Defined.

(** C10 at the current chunk of [afterTwoSamples]. *)
Lemma persist_resends_current_witness :
  exists a' older,
    persist true 7 (metric afterTwoSamples) 1 = Ok a' /\
    store a' = store (metric afterTwoSamples) ++ older
                 ++ [mkReq (Key (metric afterTwoSamples)) (Finish 7 chunk120)
                       (ttl_ (metric afterTwoSamples)) 7].
Proof.
  apply (persist_resends_current 7 (metric afterTwoSamples) 1 chunk120).
  vm_compute. reflexivity.
Defined.

Lemma freshWorld_reachable : reachable inOrder 60 3 (freshWorld 60 3).
Proof.
  exists [], "series"%string, 0, [], (freshWorld 60 3). split; [reflexivity|apply rtc_refl].
Qed.

Lemma afterTwoSamples_steps : rtc (step inOrder) (freshWorld 60 3) afterTwoSamples.
Proof.
  eapply rtc_l.
  { apply (step_Add inOrder false 1 (freshWorld 60 3) 100 1%float
             (finalWorld (Add inOrder false 1 (freshWorld 60 3) 100 1%float))).
    - unfold is_u32. lia.
    - vm_compute. reflexivity. }
  eapply rtc_l; [|apply rtc_refl].
  apply (step_Add inOrder false 2 _ 160 2%float).
  - unfold is_u32. lia.
  - vm_compute. reflexivity.
Qed.

Lemma afterGap_reachable : reachable inOrder 60 3 afterGap.
Proof.
  exists [], "series"%string, 0, [], (freshWorld 60 3). split; [reflexivity|].
  eapply rtc_l.
  { apply (step_Add inOrder true 1 (freshWorld 60 3) 100 1%float
             (finalWorld (Add inOrder true 1 (freshWorld 60 3) 100 1%float))).
    - unfold is_u32. lia.
    - vm_compute. reflexivity. }
  eapply rtc_l; [|apply rtc_refl].
  apply (step_Add inOrder true 2 _ 250 2%float).
  - unfold is_u32. lia.
  - vm_compute. reflexivity.
Qed.

Lemma afterGap_chunks : Chunks (metric afterGap) = [gapChunk60; gapChunk240].
Proof. vm_compute. reflexivity. Qed.

Lemma aggregatedAfter_steps : rtc (step inOrder) freshAggregated aggregatedAfter.
Proof.
  eapply rtc_l; [|apply rtc_refl].
  apply (step_Add inOrder true 1 freshAggregated 100 1%float).
  - unfold is_u32. lia.
  - vm_compute. reflexivity.
Qed.

Lemma afterCatchUp_step : step inOrder afterTwoSamples afterCatchUp.
Proof.
  apply (step_Add inOrder true 3 afterTwoSamples 250 3%float).
  - unfold is_u32. lia.
  - vm_compute. reflexivity.
Qed.

Lemma afterAcknowledged_step : step inOrder afterTwoSamples afterAcknowledged.
Proof. apply (step_Sync inOrder afterTwoSamples 60). vm_compute. reflexivity. Qed.

Lemma afterTwoSamples_fit (c : Chunk) :
  c ∈ Chunks (metric afterTwoSamples) -> T0 c + 60 < 2 ^ 32.
Proof.
  rewrite afterTwoSamples_chunks.
  intros [->|[->|Hc]%elem_of_cons]%elem_of_cons.
  - vm_compute. reflexivity.
  - vm_compute. reflexivity.
  - by apply elem_of_nil in Hc.
Qed.

Lemma afterGap_fit (c : Chunk) : c ∈ Chunks (metric afterGap) -> T0 c + 60 < 2 ^ 32.
Proof.
  rewrite afterGap_chunks.
  intros [->|[->|Hc]%elem_of_cons]%elem_of_cons.
  - vm_compute. reflexivity.
  - vm_compute. reflexivity.
  - by apply elem_of_nil in Hc.
Qed.

Lemma afterGap_no_overlap (c : Chunk) :
  served true (metric afterGap) c -> ~ overlaps (metric afterGap) 130 140 c.
Proof.
  intros (po & co & q & _ & Hq & _) [H1 H2].
  apply index_elem_of in Hq. rewrite afterGap_chunks in Hq.
  change (ChunkSpan (metric afterGap)) with 60 in H2.
  apply elem_of_cons in Hq as [->|[->|Hq]%elem_of_cons].
  - vm_compute in H2. discriminate.
  - vm_compute in H1. discriminate.
  - by apply elem_of_nil in Hq.
Qed.

(** X1 for the run that adds the sample [(100, 1.0)] to a new metric with
    one aggregation setting. *)
Lemma configuration_is_fixed_witness :
  Key (metric aggregatedAfter) = "series"%string /\
  ChunkSpan (metric aggregatedAfter) = 60 /\
  NumChunks (metric aggregatedAfter) = 3 /\ ttl_ (metric aggregatedAfter) = 0 /\
  span <$> aggregators (metric aggregatedAfter)
    = as_span <$> [mkAggSetting 600 3600 2 0].
Proof.
  apply (configuration_is_fixed inOrder [] "series"%string 60 3 0
           [mkAggSetting 600 3600 2 0] freshAggregated aggregatedAfter).
  - reflexivity.
  - apply aggregatedAfter_steps.
Defined.

(** X2 at the state after two samples. *)
Lemma ring_layout_witness :
  CurrentChunkPos (metric afterTwoSamples) = lenZ (Chunks (metric afterTwoSamples)) - 1 /\
  StronglySorted Z.lt (T0 <$> Chunks (metric afterTwoSamples)).
Proof.
  destruct (ring_layout inOrder 60 3 afterTwoSamples) as (_ & _ & _ & _ & _ & H).
  - lia.
  - lia.
  - apply afterTwoSamples_reachable.
  - apply H.
    + rewrite afterTwoSamples_chunks. discriminate.
    + vm_compute. reflexivity.
Defined.

(** X3 at the state after two samples, for the [T0] of the first chunk. *)
Lemma getChunkByT0_returns_requested_witness :
  exists c, getChunk (metric afterTwoSamples) 0 = Some c /\ T0 c = 60.
Proof.
  destruct (getChunkByT0_returns_requested (metric afterTwoSamples) 60) as (H & _).
  apply (H 0). vm_compute. reflexivity.
Defined.

(** X4 at the state after two samples, for a [T0] the ring does not
    hold. *)
Lemma getChunkByT0_finds_witness :
  (exists p c,
     getChunkByT0 (metric afterTwoSamples) 0 = Ok (Some p) /\
     index (Chunks (metric afterTwoSamples)) p = Some c /\ T0 c = 0) \/
  (getChunkByT0 (metric afterTwoSamples) 0 = Ok None /\
   forall c, c ∈ Chunks (metric afterTwoSamples) -> T0 c <> 0).
Proof.
  apply (getChunkByT0_finds inOrder 60 3 afterTwoSamples 0).
  - lia.
  - lia.
  - apply afterTwoSamples_reachable.
Defined.

(** X6: the sample at 250 opens a chunk in the state after two samples,
    and a sample with the timestamp 0 makes [Add] panic on a new metric,
    as the chunk refuses it. *)
Lemma Add_returns_or_panics_witness :
  (exists w', Add inOrder true 3 afterTwoSamples 250 3%float = Ok w') /\
  Add inOrder true 1 (freshWorld 60 3) 0 1%float = Panic.
Proof.
  split.
  - destruct (Add_returns_or_panics inOrder 60 3 afterTwoSamples true 3 250 3%float)
      as (_ & H & _).
    + lia.
    + lia.
    + apply afterTwoSamples_reachable.
    + unfold is_u32. lia.
    + apply H.
      * right. exists chunk120. split; vm_compute; reflexivity.
      * vm_compute. reflexivity.
  - destruct (Add_returns_or_panics inOrder 60 3 (freshWorld 60 3) true 1 0 1%float)
      as (_ & _ & H & _).
    + lia.
    + lia.
    + apply freshWorld_reachable.
    + unfold is_u32. lia.
    + apply H.
      * left. reflexivity.
      * vm_compute. reflexivity.
Defined.

(** X7 for the run of three samples on a primary. *)
Lemma counters_follow_ring_witness :
  chunkCreate afterThreeSamples - chunkClear afterThreeSamples
    - lenZ (Chunks (metric afterThreeSamples))
  = chunkCreate (freshWorld 60 3) - chunkClear (freshWorld 60 3)
    - lenZ (Chunks (metric (freshWorld 60 3))).
Proof.
  apply (counters_follow_ring inOrder (freshWorld 60 3) afterThreeSamples).
  apply afterThreeSamples_steps.
Defined.

(** X8 for the run of three samples on a primary. *)
Lemma store_is_append_only_witness :
  exists reqs,
    store (metric afterThreeSamples) = store (metric (freshWorld 60 3)) ++ reqs /\
    Forall (fun r => key r = Key (metric (freshWorld 60 3)) /\
                     ttl r = ttl_ (metric (freshWorld 60 3))) reqs.
Proof.
  apply (store_is_append_only inOrder (freshWorld 60 3) afterThreeSamples).
  apply afterThreeSamples_steps.
Defined.

(** X9: the sample at 250, added on a node that is not primary to the
    state after two samples. *)
Lemma secondary_never_writes_witness :
  store (metric (finalWorld (Add inOrder false 3 afterTwoSamples 250 3%float)))
    = store (metric afterTwoSamples).
Proof.
  destruct (secondary_never_writes inOrder) as (H & _).
  apply (H 3 afterTwoSamples 250 3%float). vm_compute. reflexivity.
Defined.

(** X10: the sample at 250, added on a primary to the state after two
    samples. *)
Lemma Add_rolls_over_witness :
  exists w',
    Add inOrder true 3 afterTwoSamples 250 3%float = Ok w' /\
    CurrentChunkPos (metric w') = 2 /\
    getChunk (metric w') 2 = Some (pushed 3 (NewChunk 240 3) 250 3%float) /\
    getChunk (metric w') 1 = Some (setSaving (Finish 3 chunk120)).
Proof.
  destruct (Add_rolls_over inOrder 60 3 afterTwoSamples true 3 250 3%float chunk120)
    as (w' & H1 & H2 & H3 & H4 & _).
  - lia.
  - lia.
  - apply afterTwoSamples_reachable.
  - unfold is_u32. lia.
  - vm_compute. reflexivity.
  - vm_compute. reflexivity.
  - vm_compute. reflexivity.
  - exists w'. split; [exact H1|]. split; [exact H2|]. split; [exact H3|].
    apply H4. vm_compute. discriminate.
Defined.

Lemma afterSaved_reachable : reachable inOrder 60 3 afterSaved.
Proof.
  exists [], "series"%string, 0, [], (freshWorld 60 3). split; [reflexivity|].
  eapply rtc_l.
  { apply (step_Add inOrder true 1000 (freshWorld 60 3) 100 1%float afterFirstSample).
    - unfold is_u32. lia.
    - vm_compute. reflexivity. }
  eapply rtc_l.
  { apply (step_GC inOrder true 2000 afterFirstSample 1500 0 false).
    vm_compute. reflexivity. }
  eapply rtc_l; [|apply rtc_refl].
  apply (step_Sync inOrder afterIdle 60). vm_compute. reflexivity.
Qed.

Lemma afterSecondIdle_step : step inOrder afterSaved afterSecondIdle.
Proof.
  apply (step_GC inOrder true 3000 afterSaved 2500 0 false).
  vm_compute. reflexivity.
Qed.

(** X11 for the chunk of [afterSaved], which is marked as being saved and
    as saved, and the [GC] that hands it to the store once more: the chunk
    is finished again and keeps its flags and its points. *)
Lemma saved_chunk_is_frozen_witness :
  Saving savedChunk = true /\ Saved savedChunk = true /\
  Chunks (metric afterSaved) = [savedChunk] /\
  Chunks (metric afterSecondIdle) = [setSaving (Finish 3000 savedChunk)] /\
  Saving (setSaving (Finish 3000 savedChunk)) = true /\
  Saved (setSaving (Finish 3000 savedChunk)) = true /\
  points (setSaving (Finish 3000 savedChunk)) = points savedChunk /\
  LastTs (setSaving (Finish 3000 savedChunk)) = LastTs savedChunk /\
  NumPoints (setSaving (Finish 3000 savedChunk)) = NumPoints savedChunk.
Proof.
  assert (H1 : Chunks (metric afterSaved) = [savedChunk]) by (vm_compute; reflexivity).
  assert (H2 : Chunks (metric afterSecondIdle) = [setSaving (Finish 3000 savedChunk)])
    by (vm_compute; reflexivity).
  destruct (saved_chunk_is_frozen inOrder 60 3 afterSaved afterSecondIdle
              savedChunk (setSaving (Finish 3000 savedChunk))) as [Hsaving Hsaved].
  - lia.
  - lia.
  - apply afterSaved_reachable.
  - apply afterSecondIdle_step.
  - rewrite H1. apply list_elem_of_here.
  - rewrite H2. apply list_elem_of_here.
  - reflexivity.
  - split; [reflexivity|]. split; [reflexivity|]. split; [exact H1|]. split; [exact H2|].
    split; [apply Hsaving; reflexivity|]. apply Hsaved. reflexivity.
Defined.

(** X12 for the first chunk of the state after two samples and the
    sample at 250. *)
Lemma only_the_oldest_is_dropped_witness :
  (exists c', c' ∈ Chunks (metric afterCatchUp) /\ T0 c' = T0 chunk60) \/
  (lenZ (Chunks (metric afterTwoSamples)) = 3 /\
   (forall d, d ∈ Chunks (metric afterTwoSamples) -> T0 chunk60 <= T0 d) /\
   chunkClear afterCatchUp = chunkClear afterTwoSamples + 1 /\
   totalPoints afterCatchUp = totalPoints afterTwoSamples ++ [-1 * NumPoints chunk60] /\
   exists cn,
     getChunk (metric afterCatchUp) (CurrentChunkPos (metric afterCatchUp)) = Some cn /\
     forall d, d ∈ Chunks (metric afterTwoSamples) -> T0 d < T0 cn).
Proof.
  apply (only_the_oldest_is_dropped inOrder 60 3 afterTwoSamples afterCatchUp chunk60).
  - lia.
  - lia.
  - apply afterTwoSamples_reachable.
  - apply afterCatchUp_step.
  - rewrite afterTwoSamples_chunks. apply list_elem_of_here.
Defined.

(** X13 at the second chunk of the state after two samples. *)
Lemma first_chunk_t0_witness :
  firstChunkT0 (metric afterTwoSamples) <= T0 chunk120.
Proof.
  destruct (first_chunk_t0 inOrder 60 3 afterTwoSamples) as (H & _).
  - lia.
  - lia.
  - apply afterTwoSamples_reachable.
  - apply H. rewrite afterTwoSamples_chunks. apply list_elem_of_further, list_elem_of_here.
Defined.

(** X14 at the state after two samples, for the range from 100 to 130,
    on a primary. *)
Lemma Get_serves_the_range_witness :
  exists c0 rest,
    Get true (metric afterTwoSamples) 100 130 = Ok (T0 c0, NewIter c0 :: rest) /\
    StronglySorted iterBefore (NewIter c0 :: rest).
Proof.
  destruct (Get_serves_the_range inOrder 60 3 afterTwoSamples true 100 130)
    as (c0 & rest & H1 & _ & H3).
  - lia.
  - lia.
  - apply afterTwoSamples_reachable.
  - apply afterTwoSamples_fit.
  - lia.
  - exists chunk60. split.
    + exists 0, chunk60, 0. split; [vm_compute; reflexivity|].
      split; [vm_compute; reflexivity|]. vm_compute. discriminate.
    + split; vm_compute; reflexivity.
  - by exists c0, rest.
Defined.

Lemma afterTwoSamples_in_ring :
  chunk60 ∈ Chunks (metric afterTwoSamples) /\ chunk120 ∈ Chunks (metric afterTwoSamples).
Proof.
  rewrite afterTwoSamples_chunks. split.
  - apply list_elem_of_here.
  - apply list_elem_of_further, list_elem_of_here.
Qed.

(** X15 at the state after two samples, for the range from 100 to 170,
    which shares timestamps with both chunks: a node that is not primary
    returns the second chunk and not the first, a primary returns both. *)
Lemma served_chunks_witness :
  (exists m iters,
     Get false (metric afterTwoSamples) 100 170 = Ok (m, iters) /\
     NewIter chunk120 ∈ iters /\ NewIter chunk60 ∉ iters) /\
  (exists m iters,
     Get true (metric afterTwoSamples) 100 170 = Ok (m, iters) /\
     NewIter chunk120 ∈ iters /\ NewIter chunk60 ∈ iters).
Proof.
  destruct afterTwoSamples_in_ring as [H60 H120].
  split.
  - destruct (served_chunks inOrder 60 3 afterTwoSamples false 100 170)
      as (m & iters & Hget & Hmem).
    + lia.
    + lia.
    + apply afterTwoSamples_reachable.
    + apply afterTwoSamples_fit.
    + lia.
    + exists chunk120. split; [done|]. vm_compute. split; reflexivity.
    + exists m, iters. split; [done|]. split.
      * apply Hmem. split; [done|]. split; [vm_compute; split; reflexivity|].
        right; left. vm_compute. discriminate.
      * intros (_ & _ & [Habs|[Habs|Habs]])%Hmem.
        -- discriminate.
        -- apply Habs. vm_compute. reflexivity.
        -- vm_compute in Habs. discriminate.
  - destruct (served_chunks inOrder 60 3 afterTwoSamples true 100 170)
      as (m & iters & Hget & Hmem).
    + lia.
    + lia.
    + apply afterTwoSamples_reachable.
    + apply afterTwoSamples_fit.
    + lia.
    + exists chunk120. split; [done|]. vm_compute. split; reflexivity.
    + exists m, iters. split; [done|]. split.
      * apply Hmem. split; [done|]. split; [vm_compute; split; reflexivity|]. by left.
      * apply Hmem. split; [done|]. split; [vm_compute; split; reflexivity|]. by left.
Defined.

(** X16 at the state with the chunks of 60 and 240, for the range from
    130 to 140. *)
Lemma Get_between_chunks_witness :
  Get true (metric afterGap) 130 140 = Panic.
Proof.
  destruct (Get_between_chunks inOrder 60 3 afterGap true 130 140 gapChunk240 0 gapChunk60)
    as (H & _).
  - lia.
  - lia.
  - apply afterGap_reachable.
  - apply afterGap_fit.
  - lia.
  - vm_compute. reflexivity.
  - vm_compute. reflexivity.
  - vm_compute. reflexivity.
  - vm_compute. reflexivity.
  - apply afterGap_no_overlap.
  - apply H. vm_compute. reflexivity.
Defined.

(** X17 at the ring that has wrapped, for a capacity of 3. *)
Lemma GrowNumChunks_rotates_witness :
  exists a',
    GrowNumChunks (metric afterWrap) 3 = Ok a' /\
    ringT0s a' = [120; 180; 60] /\ CurrentChunkPos a' = 2.
Proof.
  destruct (GrowNumChunks_rotates (metric afterWrap) 3) as (H & _).
  - vm_compute. split; [discriminate|reflexivity].
  - vm_compute. reflexivity.
  - vm_compute. discriminate.
  - eexists. split; [exact H|]. split; vm_compute; reflexivity.
Defined.

(** X18 at the metric with one aggregation of span 600, for a span it
    does not have. *)
Lemma GetAggregated_serves_configured_spans_witness :
  GetAggregated emptyArchives true (metric aggregatedAfter) consolidation.Sum 300 0 10
    = Panic.
Proof.
  destruct (GetAggregated_serves_configured_spans emptyArchives inOrder [] "series"%string
              60 3 0 [mkAggSetting 600 3600 2 0] freshAggregated aggregatedAfter
              true consolidation.Sum 300 0 10) as (H & _).
  - reflexivity.
  - apply aggregatedAfter_steps.
  - apply H. rewrite fmap_cons. apply not_elem_of_cons. split.
    + simpl. lia.
    + apply not_elem_of_nil.
Defined.

(** X19 for the sample at 250, added on a primary to the state after two
    samples on a node that was not primary. *)
Lemma catch_up_sends_once_witness :
  exists reqs,
    store (metric afterCatchUp) = store (metric afterTwoSamples) ++ reqs /\
    StronglySorted Z.lt (requestT0s reqs).
Proof.
  destruct (catch_up_sends_once inOrder "series"%string 60 3 0 [] (freshWorld 60 3)
              afterTwoSamples afterCatchUp) as (reqs & H1 & H2 & _).
  - lia.
  - lia.
  - reflexivity.
  - apply afterTwoSamples_steps.
  - apply afterCatchUp_step.
  - by exists reqs.
Defined.

(** X20 at the state after two samples, for the range from 100 to 130. *)
Lemma Get_returns_ring_chunks_witness :
  Forall (fun it => iterChunk it ∈ Chunks (metric afterTwoSamples))
    [NewIter chunk60; NewIter chunk120].
Proof.
  destruct (Get_returns_ring_chunks true (metric afterTwoSamples) 100 130 60
              [NewIter chunk60; NewIter chunk120]) as (_ & H & _).
  - vm_compute. reflexivity.
  - exact H.
Defined.

(** X21 for the run that adds the sample [(100, 1.0)] to a new metric
    with one aggregation setting. *)
Lemma aggregators_see_every_point_witness :
  Forall (fun g => (100, 1%float) ∈ received g) (aggregators (metric aggregatedAfter)).
Proof.
  destruct (aggregators_see_every_point inOrder [] "series"%string 60 3 0
              [mkAggSetting 600 3600 2 0] freshAggregated aggregatedAfter) as (H & _).
  - reflexivity.
  - apply aggregatedAfter_steps.
  - apply Forall_forall. intros g Hg.
    apply (H g (pushed 1 (NewChunk 60 1) 100 1%float)).
    + exact Hg.
    + vm_compute. apply list_elem_of_here.
    + apply list_elem_of_here.
Defined.

(** X22 at the state with the chunks of 60 and 240, for a range the ring
    has data for. *)
Lemma Get_ends_witness :
  (exists m iters, Get true (metric afterGap) 100 110 = Ok (m, iters)) \/
  (Get true (metric afterGap) 100 110 = Panic /\
   lenZ (Chunks (metric afterGap)) < 3 /\
   exists cn po co,
     getChunk (metric afterGap) (CurrentChunkPos (metric afterGap)) = Some cn /\
     100 < T0 cn + 60 /\
     servedOldest true (metric afterGap) = Some (po, co) /\ T0 co < 110 /\
     forall c, served true (metric afterGap) c -> ~ overlaps (metric afterGap) 100 110 c).
Proof.
  apply (Get_ends inOrder 60 3 afterGap true 100 110).
  - lia.
  - lia.
  - apply afterGap_reachable.
  - apply afterGap_fit.
  - lia.
Defined.

(** X5 for a new metric with spans of 60 seconds and room for 3 chunks. *)
Lemma new_metric_has_no_data_witness :
  Get true (NewAggMetric [] "series" 60 3 0 []) 0 10 = Ok (MaxInt32, []).
Proof.
  destruct (new_metric_has_no_data [] "series"%string 60 3 0 []) as (H & _).
  apply H. lia.
Defined.
